(** * nuqs: the parser/builder codecs and the testing adapter

    A shallow embedding of [src/lib/parsers.ts] and
    [packages/nuqs/src/adapters/testing.ts].

    JavaScript strings are sequences of UTF-16 code units, numbers are IEEE
    binary64 values, a call either completes normally or throws, and the
    builder objects made by [createParser] live in a store of objects, each a
    finite map from property names to properties. *)

From Stdlib Require Import ZArith Lia List String Ascii Bool.
From stdpp Require Import base option list gmap strings.

Local Open Scope Z_scope.

(** ** Strings *)

(** A JavaScript string: its UTF-16 code units. *)
Definition jsstring := list Z.

(** The string written by an ASCII literal of the source. *)
Fixpoint js (s : string) : jsstring :=
  match s with
  | EmptyString => []
  | String a s' => Z.of_N (N_of_ascii a) :: js s'
  end.

(** [a === b] on two strings. *)
Definition str_eqb (a b : jsstring) : bool := bool_decide (a = b).

(** [sep] starts [s]. *)
Fixpoint starts_with (sep s : jsstring) : bool :=
  match sep, s with
  | [], _ => true
  | _ :: _, [] => false
  | a :: sep', b :: s' => (a =? b) && starts_with sep' s'
  end.

(** The scan of [String.prototype.split] for a non-empty separator: [cur]
    holds the piece being read (reversed), [skip] the code units of a matched
    separator still to pass over. *)
Fixpoint split_scan (sep s : jsstring) (skip : nat) (cur : jsstring)
  : list jsstring :=
  match s with
  | [] => [rev cur]
  | c :: s' =>
      match skip with
      | S k => split_scan sep s' k cur
      | O =>
          if starts_with sep s
          then rev cur :: split_scan sep s' (Nat.pred (length sep)) []
          else split_scan sep s' O (c :: cur)
      end
  end.

(** [s.split(sep)] (no limit argument; the default limit of 2^32 - 1 pieces
    is above the length of any string an engine allocates).  An empty
    separator cuts between all code units. *)
Definition split (s sep : jsstring) : list jsstring :=
  match sep with
  | [] => map (λ c, [c]) s
  | _ :: _ => split_scan sep s O []
  end.

(** [items.join(sep)] on an array of strings. *)
Fixpoint join (sep : jsstring) (items : list jsstring) : jsstring :=
  match items with
  | [] => []
  | [x] => x
  | x :: rest => x ++ sep ++ join sep rest
  end.

(** [values.includes(x)] on an array of strings. *)
Definition includes (values : list jsstring) (x : jsstring) : bool :=
  existsb (str_eqb x) values.

(** ** Completions *)

(** What a call may throw. *)
Inductive exn :=
| TypeError
| RangeError
| SyntaxError
| URIError
| Thrown (what : jsstring).

(** The outcome of a call: a value, or a thrown exception. *)
Inductive completion (A : Type) : Type :=
| Normal (a : A)
| Throw (e : exn).
Arguments Normal {A} a.
Arguments Throw {A} e.

#[global] Instance completion_ret : MRet completion := @Normal.
#[global] Instance completion_bind : MBind completion :=
  λ A B f c, match c with Normal a => f a | Throw e => Throw e end.
#[global] Instance completion_fmap : FMap completion :=
  λ A B f c, match c with Normal a => Normal (f a) | Throw e => Throw e end.

(** [xs.map(f)] for an [f] that may throw: left to right, stopping at the
    first exception. *)
Fixpoint map_completion {A B} (f : A → completion B) (xs : list A)
  : completion (list B) :=
  match xs with
  | [] => Normal []
  | x :: rest => y ← f x; ys ← map_completion f rest; Normal (y :: ys)
  end.

(** [try { body } catch { return handler }]. *)
Definition try_catch {A} (body : completion A) (handler : A) : completion A :=
  match body with
  | Normal a => Normal a
  | Throw _ => Normal handler
  end.

(** A value of type [T | null]; at run time [undefined] can stand there too. *)
Inductive nullable (T : Type) : Type :=
| Undefined
| Null
| Val (v : T).
Arguments Undefined {T}.
Arguments Null {T}.
Arguments Val {T} v.

(** [x ?? d]. *)
Definition nullish_coalesce {T} (x : nullable T) (d : T) : nullable T :=
  match x with
  | Val v => Val v
  | Undefined | Null => Val d
  end.

(** [x !== null && x !== undefined]. *)
Definition not_nullish {T} (x : nullable T) : bool :=
  match x with Val _ => true | _ => false end.

(** [xs.filter(v => v !== null && v !== undefined)]. *)
Fixpoint filter_nullish {T} (xs : list (nullable T)) : list T :=
  match xs with
  | [] => []
  | Val v :: rest => v :: filter_nullish rest
  | _ :: rest => filter_nullish rest
  end.

(** The argument [parse] receives at run time: a string, or [undefined]
    ([None]) when [parseServerSide] reads [value[0]] of an empty array. *)
Definition arg := option jsstring.

(** [ToString] of such an argument. *)
Definition ToString_arg (v : arg) : jsstring :=
  match v with
  | Some s => s
  | None => js "undefined"
  end.

(** ** Numbers *)

(** An IEEE 754 binary64 value.  [Finite neg m e] is (-1)^neg * m * 2^e. *)
Inductive number :=
| NaN
| Infinity (neg : bool)
| Zero (neg : bool)
| Finite (neg : bool) (m : positive) (e : Z).

Definition prec : Z := 53.
Definition emin : Z := -1074.
Definition emax : Z := 971.

(** The representation every finite non-zero binary64 value has exactly once:
    a 53-bit significand with an exponent in range, or a shorter significand
    at the least exponent (a subnormal). *)
Definition canonical (m : positive) (e : Z) : bool :=
  (Z.pos m <? 2 ^ prec) && (e <=? emax) &&
  (((2 ^ (prec - 1) <=? Z.pos m) && (emin <=? e)) || (e =? emin)).

(** The values of the Number type. *)
Definition is_binary64 (x : number) : bool :=
  match x with
  | Finite _ m e => canonical m e
  | _ => true
  end.

(** floor(log2(p/q)). *)
Definition floor_log2_rat (p q : positive) : Z :=
  let d := Z.log2 (Z.pos p) - Z.log2 (Z.pos q) in
  if 0 <=? d
  then (if Z.pos q * 2 ^ d <=? Z.pos p then d else d - 1)
  else (if Z.pos q <=? Z.pos p * 2 ^ (- d) then d else d - 1).

(** num/den rounded to the nearest integer, a tie to the even one. *)
Definition round_half_even (num den : Z) : Z :=
  let m := num / den in
  match 2 * (num mod den) ?= den with
  | Lt => m
  | Gt => m + 1
  | Eq => if Z.even m then m else m + 1
  end.

(** The Number value for the rational (-1)^neg * p/q: the nearest binary64
    value, ties to the even significand, infinite from 2^1024 - 2^970 on. *)
Definition number_of_rat (neg : bool) (p q : positive) : number :=
  let e := Z.max (floor_log2_rat p q - (prec - 1)) emin in
  let m :=
    if 0 <=? e
    then round_half_even (Z.pos p) (Z.pos q * 2 ^ e)
    else round_half_even (Z.pos p * 2 ^ (- e)) (Z.pos q) in
  let '(m, e) := if m =? 2 ^ prec then (2 ^ (prec - 1), e + 1) else (m, e) in
  if emax <? e then Infinity neg
  else match m with
       | Z.pos m' => Finite neg m' e
       | _ => Zero neg
       end.

(** The Number value for an integer. *)
Definition number_of_Z (z : Z) : number :=
  match z with
  | Z0 => Zero false
  | Z.pos p => number_of_rat false p 1
  | Z.neg p => number_of_rat true p 1
  end.

(** [Number.isNaN(x)]. *)
Definition Number_isNaN (x : number) : bool :=
  match x with NaN => true | _ => false end.

(** WhiteSpace and LineTerminator code units (StrWhiteSpaceChar). *)
Definition is_whitespace (c : Z) : bool :=
  (c =? 9) || (c =? 10) || (c =? 11) || (c =? 12) || (c =? 13) || (c =? 32)
  || (c =? 160) || (c =? 5760) || ((8192 <=? c) && (c <=? 8202))
  || (c =? 8232) || (c =? 8233) || (c =? 8239) || (c =? 8287)
  || (c =? 12288) || (c =? 65279).

(** [TrimString(s, start)]. *)
Fixpoint trim_start (s : jsstring) : jsstring :=
  match s with
  | c :: s' => if is_whitespace c then trim_start s' else s
  | [] => []
  end.

(** The value of a code unit as a digit of the given radix (10 or 16). *)
Definition digit_value (radix c : Z) : option Z :=
  if (48 <=? c) && (c <=? 57) then Some (c - 48)
  else if radix =? 16 then
    if (97 <=? c) && (c <=? 102) then Some (c - 87)
    else if (65 <=? c) && (c <=? 70) then Some (c - 55)
    else None
  else None.

(** The leading digits of [s] in the given radix, as digit values, and what
    follows them. *)
Fixpoint span_digits (radix : Z) (s : jsstring) : list Z * jsstring :=
  match s with
  | [] => ([], [])
  | c :: s' =>
      match digit_value radix c with
      | Some d => let '(ds, rest) := span_digits radix s' in (d :: ds, rest)
      | None => ([], s)
      end
  end.

(** The integer a list of digit values denotes. *)
Definition digits_value (radix : Z) (ds : list Z) : Z :=
  fold_left (λ acc d, acc * radix + d) ds 0.

(** [parseInt(string)] with no radix argument.  The digits are read exactly
    (an engine may round a decimal literal after its 20th significant
    digit). *)
Definition parseInt (string : arg) : number :=
  let inputString := trim_start (ToString_arg string) in
  let '(neg, unsigned) :=
    match inputString with
    | c :: rest =>
        if c =? 45 then (true, rest)
        else if c =? 43 then (false, rest)
        else (false, inputString)
    | [] => (false, [])
    end in
  let '(R, body) :=
    match unsigned with
    | c0 :: x :: rest =>
        if (c0 =? 48) && ((x =? 120) || (x =? 88)) then (16, rest)
        else (10, unsigned)
    | _ => (10, unsigned)
    end in
  match span_digits R body with
  | ([], _) => NaN
  | (ds, _) =>
      match digits_value R ds with
      | Z.pos p => number_of_rat neg p 1
      | _ => Zero neg
      end
  end.

(** The Number value for (-1)^neg * num/den, with [0 <= num] and [0 < den];
    zero keeps the sign. *)
Definition number_of_frac (neg : bool) (num den : Z) : number :=
  match num with
  | Z.pos p => number_of_rat neg p (Z.to_pos den)
  | _ => Zero neg
  end.

(** The Number value for (-1)^neg * c * 10^exp10. *)
Definition number_of_decimal (neg : bool) (c exp10 : Z) : number :=
  if 0 <=? exp10 then number_of_frac neg (c * 10 ^ exp10) 1
  else number_of_frac neg c (10 ^ (- exp10)).

(** The magnitude of a finite non-zero value as a fraction. *)
Definition frac_of_finite (m : positive) (e : Z) : Z * Z :=
  if 0 <=? e then (Z.pos m * 2 ^ e, 1) else (Z.pos m, 2 ^ (- e)).

Definition number_eqb (x y : number) : bool :=
  match x, y with
  | NaN, NaN => true
  | Infinity a, Infinity b | Zero a, Zero b => Bool.eqb a b
  | Finite a m e, Finite b m' e' => Bool.eqb a b && (m =? m')%positive && (e =? e')
  | _, _ => false
  end.

(** [Math.round(x)]: the nearest integer, a tie towards +∞; a result of zero
    keeps the sign of [x]. *)
Definition Math_round (x : number) : number :=
  match x with
  | Finite neg m e =>
      if 0 <=? e then x
      else
        let '(num, den) := frac_of_finite m e in
        let r := if neg then (- 2 * num + den) / (2 * den)
                 else (2 * num + den) / (2 * den) in
        if r =? 0 then Zero neg else number_of_Z r
  | _ => x
  end.

(** The decimal digits of the low [k] places of [z], most significant
    first. *)
Fixpoint digits_fixed (k : nat) (z : Z) : jsstring :=
  match k with
  | O => []
  | S k' => digits_fixed k' (z / 10) ++ [48 + z mod 10]
  end.

(** The number of decimal digits of a positive integer, found from below;
    [fuel] bounds it. *)
Fixpoint count_digits (fuel : nat) (z : Z) : nat :=
  match fuel with
  | O => 1%nat
  | S fuel' => if z <? 10 then 1%nat else S (count_digits fuel' (z / 10))
  end.

Definition num_digits (z : Z) : nat := count_digits (Z.to_nat (Z.log2 z)) z.

(** The decimal representation of an integer [0 <= z]. *)
Definition decimal (z : Z) : jsstring := digits_fixed (num_digits z) z.

(** The integer [n] with 10^(n-1) <= num/den < 10^n: for a value of at least
    1 the number of digits of its integer part, below 1 the exponent of its
    first non-zero decimal place. *)
Fixpoint leading_place (fuel : nat) (num den : Z) : Z :=
  match fuel with
  | O => 0
  | S fuel' =>
      if den <=? num * 10 then 0 else leading_place fuel' (num * 10) den - 1
  end.

Definition decimal_exponent (num den : Z) : Z :=
  if den <=? num then Z.of_nat (num_digits (num / den))
  else leading_place 400 num den.

(** The decimals of [k] digits next to num/den, as [(s, n)] standing for
    s * 10^(n-k): the one below and the one above, each kept when its Number
    value is [x]; of two the closer one, of two equally close the even one. *)
Definition digits_candidate (x : number) (num den n : Z) (k : Z)
  : option (Z * Z) :=
  let scale := k - n in
  let '(a, b) := if 0 <=? scale then (num * 10 ^ scale, den)
                 else (num, den * 10 ^ (- scale)) in
  let lo := a / b in
  let hi := lo + 1 in
  let r := a mod b in
  let ok s := number_eqb (number_of_decimal false s (- scale)) x in
  let pick s := if s =? 10 ^ k then Some (10 ^ (k - 1), n + 1) else Some (s, n) in
  match ok lo, ok hi with
  | true, true =>
      match 2 * r ?= b with
      | Lt => pick lo
      | Gt => pick hi
      | Eq => if Z.even lo then pick lo else pick hi
      end
  | true, false => pick lo
  | false, true => pick hi
  | false, false => None
  end.

(** The least [k] from [k] on with such a decimal. *)
Fixpoint shortest_digits (fuel : nat) (x : number) (num den n k : Z)
  : option (Z * Z * Z) :=
  match fuel with
  | O => None
  | S fuel' =>
      match digits_candidate x num den n k with
      | Some (s, n') => Some (n', k, s)
      | None => shortest_digits fuel' x num den n (k + 1)
      end
  end.

(** [n], [k] and [s] of [Number::toString] for a positive finite value:
    10^(k-1) <= s < 10^k, the Number value for s * 10^(n-k) is the value, and
    [k] is as small as possible.  The exact decimal expansion of a binary64
    value has fewer than 1100 digits. *)
Definition toString_digits (m : positive) (e : Z) : option (Z * Z * Z) :=
  let '(num, den) := frac_of_finite m e in
  shortest_digits 1100 (Finite false m e) num den (decimal_exponent num den) 1.

(** The text of [Number::toString] from [n], [k] and [s]. *)
Definition toString_format (n k s : Z) : jsstring :=
  let ds := digits_fixed (Z.to_nat k) s in
  if (k <=? n) && (n <=? 21) then ds ++ repeat 48 (Z.to_nat (n - k))
  else if (0 <? n) && (n <=? 21) then
    take (Z.to_nat n) ds ++ [46] ++ drop (Z.to_nat n) ds
  else if (-6 <? n) && (n <=? 0) then
    [48; 46] ++ repeat 48 (Z.to_nat (- n)) ++ ds
  else
    let exponent := (if 0 <=? n - 1 then [43] else [45]) ++ decimal (Z.abs (n - 1)) in
    if k =? 1 then ds ++ [101] ++ exponent
    else take 1 ds ++ [46] ++ drop 1 ds ++ [101] ++ exponent.

(** [Number::toString(x, 10)]. *)
Definition Number_toString (x : number) : jsstring :=
  match x with
  | NaN => js "NaN"
  | Zero _ => js "0"
  | Infinity neg => (if neg then [45] else []) ++ js "Infinity"
  | Finite neg m e =>
      (if neg then [45] else []) ++
      match toString_digits m e with
      | Some (n, k, s) => toString_format n k s
      | None => []
      end
  end.

(** [x.toFixed()]: no fraction digits. *)
Definition Number_toFixed (x : number) : jsstring :=
  match x with
  | Finite neg m e =>
      let '(num, den) := frac_of_finite m e in
      if 10 ^ 21 * den <=? num then Number_toString x
      else
        let n := (2 * num + den) / (2 * den) in
        (if neg then [45] else []) ++ decimal n
  | Zero _ => js "0"
  | _ => Number_toString x
  end.

(** The exponent part of a StrDecimalLiteral at the head of [s], when there
    is one: its value and what follows it. *)
Definition exponent_part (s : jsstring) : option (Z * jsstring) :=
  match s with
  | c :: rest =>
      if (c =? 101) || (c =? 69) then
        let '(neg, body) :=
          match rest with
          | sg :: rest' =>
              if sg =? 45 then (true, rest')
              else if sg =? 43 then (false, rest')
              else (false, rest)
          | [] => (false, [])
          end in
        match span_digits 10 body with
        | ([], _) => None
        | (ds, rest') =>
            Some (if neg then - digits_value 10 ds else digits_value 10 ds, rest')
        end
      else None
  | [] => None
  end.

(** The longest prefix of [s] that is a StrUnsignedDecimalLiteral other than
    [Infinity], as the pair (c, exp10) of its value c * 10^exp10. *)
Definition unsigned_decimal_prefix (s : jsstring) : option (Z * Z) :=
  let '(int_digits, after_int) := span_digits 10 s in
  let '(frac_digits, after_frac, has_point) :=
    match after_int with
    | c :: rest =>
        if c =? 46 then let '(ds, rest') := span_digits 10 rest in (ds, rest', true)
        else ([], after_int, false)
    | [] => ([], [], false)
    end in
  match int_digits, frac_digits with
  | [], [] => None
  | _, _ =>
      let c := digits_value 10 (int_digits ++ frac_digits) in
      let exp10 := match exponent_part after_frac with
                   | Some (ex, _) => ex
                   | None => 0
                   end in
      Some (c, exp10 - Z.of_nat (length frac_digits))
  end.

(** [parseFloat(string)].  The digits are read exactly (an engine may round
    a literal after its 20th significant digit). *)
Definition parseFloat (string : arg) : number :=
  let trimmedString := trim_start (ToString_arg string) in
  let '(neg, unsigned) :=
    match trimmedString with
    | c :: rest =>
        if c =? 45 then (true, rest)
        else if c =? 43 then (false, rest)
        else (false, trimmedString)
    | [] => (false, [])
    end in
  if starts_with (js "Infinity") unsigned then Infinity neg
  else
    match unsigned_decimal_prefix unsigned with
    | Some (c, exp10) => number_of_decimal neg c exp10
    | None => NaN
    end.

(** ** URI components *)

(** The characters [encodeURIComponent] leaves as they are: letters, digits
    and [-_.!~*'()]. *)
Definition uri_unescaped (c : Z) : bool :=
  ((48 <=? c) && (c <=? 57)) || ((65 <=? c) && (c <=? 90))
  || ((97 <=? c) && (c <=? 122))
  || (c =? 45) || (c =? 95) || (c =? 46) || (c =? 33) || (c =? 126)
  || (c =? 42) || (c =? 39) || (c =? 40) || (c =? 41).

Definition is_lead_surrogate (c : Z) : bool := (0xD800 <=? c) && (c <=? 0xDBFF).
Definition is_trail_surrogate (c : Z) : bool := (0xDC00 <=? c) && (c <=? 0xDFFF).

(** [UTF16SurrogatePairToCodePoint]. *)
Definition surrogate_pair_code_point (lead trail : Z) : Z :=
  (lead - 0xD800) * 0x400 + (trail - 0xDC00) + 0x10000.

(** [UTF16EncodeCodePoint]. *)
Definition UTF16EncodeCodePoint (cp : Z) : jsstring :=
  if cp <=? 0xFFFF then [cp]
  else [(cp - 0x10000) / 0x400 + 0xD800; (cp - 0x10000) mod 0x400 + 0xDC00].

(** The octets of the UTF-8 encoding of a code point. *)
Definition utf8_octets (cp : Z) : list Z :=
  if cp <? 0x80 then [cp]
  else if cp <? 0x800 then
    [Z.lor 0xC0 (Z.shiftr cp 6); Z.lor 0x80 (Z.land cp 0x3F)]
  else if cp <? 0x10000 then
    [Z.lor 0xE0 (Z.shiftr cp 12); Z.lor 0x80 (Z.land (Z.shiftr cp 6) 0x3F);
     Z.lor 0x80 (Z.land cp 0x3F)]
  else
    [Z.lor 0xF0 (Z.shiftr cp 18); Z.lor 0x80 (Z.land (Z.shiftr cp 12) 0x3F);
     Z.lor 0x80 (Z.land (Z.shiftr cp 6) 0x3F); Z.lor 0x80 (Z.land cp 0x3F)].

(** An upper-case hexadecimal digit. *)
Definition hex_digit (d : Z) : Z := if d <? 10 then 48 + d else 55 + d.

(** The escape sequence [%XY] of an octet. *)
Definition percent_octet (B : Z) : jsstring :=
  [37; hex_digit (B / 16); hex_digit (B mod 16)].

(** [Encode(string, unreserved)] of [encodeURIComponent]: an unpaired
    surrogate throws a URIError. *)
Fixpoint Encode (s : jsstring) : completion jsstring :=
  match s with
  | [] => Normal []
  | c :: rest =>
      if uri_unescaped c then R ← Encode rest; Normal (c :: R)
      else if is_lead_surrogate c then
        match rest with
        | c2 :: rest' =>
            if is_trail_surrogate c2 then
              R ← Encode rest';
              Normal (concat (map percent_octet
                        (utf8_octets (surrogate_pair_code_point c c2))) ++ R)
            else Throw URIError
        | [] => Throw URIError
        end
      else if is_trail_surrogate c then Throw URIError
      else R ← Encode rest;
           Normal (concat (map percent_octet (utf8_octets c)) ++ R)
  end.

(** [encodeURIComponent(v)]. *)
Definition encodeURIComponent (v : arg) : completion jsstring :=
  Encode (ToString_arg v).

(** A string [encodeURIComponent] accepts: code units of 16 bits, every
    surrogate in a pair. *)
Fixpoint well_formed (s : jsstring) : bool :=
  match s with
  | [] => true
  | c :: rest =>
      (0 <=? c) && (c <=? 0xFFFF) &&
      (if is_lead_surrogate c then
         match rest with
         | c2 :: rest' => is_trail_surrogate c2 && well_formed rest'
         | [] => false
         end
       else negb (is_trail_surrogate c) && well_formed rest)
  end.

(** The number of leading 1 bits of an octet (5 stands for five or more). *)
Definition leading_ones (B : Z) : Z :=
  if B <? 0x80 then 0 else if B <? 0xC0 then 1 else if B <? 0xE0 then 2
  else if B <? 0xF0 then 3 else if B <? 0xF8 then 4 else 5.

(** [ParseHexOctet]: the two hexadecimal digits after a [%]. *)
Definition hex_octet (a b : Z) : option Z :=
  match digit_value 16 a, digit_value 16 b with
  | Some x, Some y => Some (16 * x + y)
  | _, _ => None
  end.

(** The [j] escaped octets that continue a multi-octet sequence. *)
Fixpoint continuation_octets (j : nat) (s : jsstring)
  : option (list Z * jsstring) :=
  match j with
  | O => Some ([], s)
  | S j' =>
      match s with
      | p :: a :: b :: rest =>
          if p =? 37 then
            match hex_octet a b, continuation_octets j' rest with
            | Some B, Some (Bs, rest') => Some (B :: Bs, rest')
            | _, _ => None
            end
          else None
      | _ => None
      end
  end.

Definition is_continuation (B : Z) : bool := (0x80 <=? B) && (B <=? 0xBF).

(** The code point a well-formed UTF-8 sequence of [n] octets encodes: the
    shortest form only, no surrogate, at most U+10FFFF. *)
Definition utf8_code_point (n B : Z) (rest : list Z) : option Z :=
  if forallb is_continuation rest then
    match rest with
    | [c1] =>
        let cp := Z.land B 0x1F * 0x40 + Z.land c1 0x3F in
        if (n =? 2) && (0x80 <=? cp) then Some cp else None
    | [c1; c2] =>
        let cp := Z.land B 0x0F * 0x1000 + Z.land c1 0x3F * 0x40
                  + Z.land c2 0x3F in
        if (n =? 3) && (0x800 <=? cp)
           && negb ((0xD800 <=? cp) && (cp <=? 0xDFFF))
        then Some cp else None
    | [c1; c2; c3] =>
        let cp := Z.land B 0x07 * 0x40000 + Z.land c1 0x3F * 0x1000
                  + Z.land c2 0x3F * 0x40 + Z.land c3 0x3F in
        if (n =? 4) && (0x10000 <=? cp) && (cp <=? 0x10FFFF)
        then Some cp else None
    | _ => None
    end
  else None.

(** [Decode(string, empty set)] of [decodeURIComponent]; each round reads one
    code unit or one escaped UTF-8 sequence, so [length string] rounds reach
    the end. *)
Fixpoint Decode_loop (fuel : nat) (s : jsstring) : completion jsstring :=
  match fuel, s with
  | O, _ | _, [] => Normal []
  | S fuel', c :: rest =>
      if c =? 37 then
        match rest with
        | a :: b :: rest' =>
            match hex_octet a b with
            | Some B =>
                let n := leading_ones B in
                if n =? 0 then R ← Decode_loop fuel' rest'; Normal (B :: R)
                else if (n =? 1) || (4 <? n) then Throw URIError
                else
                  match continuation_octets (Z.to_nat (n - 1)) rest' with
                  | Some (Octets, rest'') =>
                      match utf8_code_point n B Octets with
                      | Some V =>
                          R ← Decode_loop fuel' rest'';
                          Normal (UTF16EncodeCodePoint V ++ R)
                      | None => Throw URIError
                      end
                  | None => Throw URIError
                  end
            | None => Throw URIError
            end
        | _ => Throw URIError
        end
      else R ← Decode_loop fuel' rest; Normal (c :: R)
  end.

(** [decodeURIComponent(v)]. *)
Definition decodeURIComponent (v : arg) : completion jsstring :=
  let string := ToString_arg v in
  Decode_loop (length string) string.

(** ** Dates *)

(** A Date object: its time value, [NaN] or a whole number of milliseconds
    since the epoch. *)
Record Date := { DateValue : number }.

(** [TimeClip(time)]. *)
Definition TimeClip (time : number) : number :=
  match time with
  | Finite neg m e =>
      let '(num, den) := frac_of_finite m e in
      if 8640000000000000 * den <? num then NaN
      else number_of_Z (if neg then - (num / den) else num / den)
  | Zero _ => Zero false
  | _ => NaN
  end.

(** The integer a time value is, when it is finite. *)
Definition time_integer (tv : number) : option Z :=
  match tv with
  | Finite neg m e =>
      let '(num, den) := frac_of_finite m e in
      Some (if neg then - (num / den) else num / den)
  | Zero _ => Some 0
  | _ => None
  end.

Definition msPerDay : Z := 86400000.
Definition msPerHour : Z := 3600000.
Definition msPerMinute : Z := 60000.
Definition msPerSecond : Z := 1000.

Definition Day (t : Z) : Z := t / msPerDay.
Definition TimeWithinDay (t : Z) : Z := t mod msPerDay.

Definition DaysInYear (y : Z) : Z :=
  if negb (y mod 4 =? 0) then 365
  else if negb (y mod 100 =? 0) then 366
  else if negb (y mod 400 =? 0) then 365
  else 366.

Definition DayFromYear (y : Z) : Z :=
  365 * (y - 1970) + (y - 1969) / 4 - (y - 1901) / 100 + (y - 1601) / 400.

(** The largest [y] with [DayFromYear y <= d], next to the mean-year
    quotient. *)
Definition YearFromDay (d : Z) : Z :=
  let y := 1970 + d * 400 / 146097 in
  if d <? DayFromYear y then y - 1
  else if DayFromYear (y + 1) <=? d then y + 1
  else y.

Definition YearFromTime (t : Z) : Z := YearFromDay (Day t).
Definition DayWithinYear (t : Z) : Z := Day t - DayFromYear (YearFromTime t).
Definition InLeapYear (t : Z) : Z :=
  if DaysInYear (YearFromTime t) =? 366 then 1 else 0.

(** The day within the year on which month [m] (0 to 11) starts. *)
Definition month_start (m leap : Z) : Z :=
  if m =? 0 then 0 else if m =? 1 then 31 else if m =? 2 then 59 + leap
  else if m =? 3 then 90 + leap else if m =? 4 then 120 + leap
  else if m =? 5 then 151 + leap else if m =? 6 then 181 + leap
  else if m =? 7 then 212 + leap else if m =? 8 then 243 + leap
  else if m =? 9 then 273 + leap else if m =? 10 then 304 + leap
  else if m =? 11 then 334 + leap else 365 + leap.

Definition MonthFromTime (t : Z) : Z :=
  let d := DayWithinYear t in
  let leap := InLeapYear t in
  if d <? 31 then 0 else if d <? 59 + leap then 1 else if d <? 90 + leap then 2
  else if d <? 120 + leap then 3 else if d <? 151 + leap then 4
  else if d <? 181 + leap then 5 else if d <? 212 + leap then 6
  else if d <? 243 + leap then 7 else if d <? 273 + leap then 8
  else if d <? 304 + leap then 9 else if d <? 334 + leap then 10
  else 11.

Definition DateFromTime (t : Z) : Z :=
  DayWithinYear t - month_start (MonthFromTime t) (InLeapYear t) + 1.

Definition HourFromTime (t : Z) : Z := (t / msPerHour) mod 24.
Definition MinFromTime (t : Z) : Z := (t / msPerMinute) mod 60.
Definition SecFromTime (t : Z) : Z := (t / msPerSecond) mod 60.
Definition msFromTime (t : Z) : Z := t mod msPerSecond.

Definition MakeTime (hour min sec ms : Z) : Z :=
  hour * msPerHour + min * msPerMinute + sec * msPerSecond + ms.

(** [MakeDay(year, month, date)] for a month from 0 to 11. *)
Definition MakeDay (year month date : Z) : Z :=
  DayFromYear year
  + month_start month (if DaysInYear year =? 366 then 1 else 0) + date - 1.

Definition MakeDate (day time : Z) : Z := day * msPerDay + time.

(** [d.toISOString()]: a RangeError for an invalid date. *)
Definition Date_toISOString (d : Date) : completion jsstring :=
  match time_integer (DateValue d) with
  | None => Throw RangeError
  | Some t =>
      let y := YearFromTime t in
      let year :=
        if (0 <=? y) && (y <=? 9999) then digits_fixed 4 y
        else (if 0 <=? y then [43] else [45]) ++ digits_fixed 6 (Z.abs y) in
      Normal (year ++ [45] ++ digits_fixed 2 (MonthFromTime t + 1)
              ++ [45] ++ digits_fixed 2 (DateFromTime t)
              ++ [84] ++ digits_fixed 2 (HourFromTime t)
              ++ [58] ++ digits_fixed 2 (MinFromTime t)
              ++ [58] ++ digits_fixed 2 (SecFromTime t)
              ++ [46] ++ digits_fixed 3 (msFromTime t) ++ [90])
  end.

(** [d.valueOf()]. *)
Definition Date_valueOf (d : Date) : number := DateValue d.

(** [new Date(n)] for a Number. *)
Definition new_Date_number (n : number) : Date := {| DateValue := TimeClip n |}.

(** Exactly [k] decimal digits at the head of [s]: their value and the rest. *)
Fixpoint read_digits (k : nat) (acc : Z) (s : jsstring) : option (Z * jsstring) :=
  match k with
  | O => Some (acc, s)
  | S k' =>
      match s with
      | c :: rest =>
          if (48 <=? c) && (c <=? 57) then read_digits k' (acc * 10 + (c - 48)) rest
          else None
      | [] => None
      end
  end.

(** The given code unit at the head of [s]: the rest. *)
Definition expect (c : Z) (s : jsstring) : option jsstring :=
  match s with
  | c' :: rest => if c' =? c then Some rest else None
  | [] => None
  end.

(** The year of a date-time string: four digits, or a sign and six digits
    other than [-000000]. *)
Definition read_year (s : jsstring) : option (Z * jsstring) :=
  match s with
  | c :: rest =>
      if c =? 43 then read_digits 6 0 rest
      else if c =? 45 then
        '(y, rest') ← read_digits 6 0 rest;
        if y =? 0 then None else Some (- y, rest')
      else read_digits 4 0 s
  | [] => None
  end.

(** The time value of a string in the full UTC form of the Date Time String
    Format, [YYYY-MM-DDTHH:mm:ss.sssZ] with a four-digit or an expanded year
    and every field in its range. *)
Definition parse_utc_date_time (s : jsstring) : option Z :=
  '(year, s) ← read_year s;
  s ← expect 45 s; '(month, s) ← read_digits 2 0 s;
  s ← expect 45 s; '(date, s) ← read_digits 2 0 s;
  s ← expect 84 s; '(hour, s) ← read_digits 2 0 s;
  s ← expect 58 s; '(min, s) ← read_digits 2 0 s;
  s ← expect 58 s; '(sec, s) ← read_digits 2 0 s;
  s ← expect 46 s; '(ms, s) ← read_digits 3 0 s;
  s ← expect 90 s;
  let leap := if DaysInYear year =? 366 then 1 else 0 in
  if str_eqb s [] && (1 <=? month) && (month <=? 12) && (1 <=? date)
     && (date <=? month_start month leap - month_start (month - 1) leap)
     && (hour <=? 23) && (min <=? 59) && (sec <=? 59)
  then Some (MakeDate (MakeDay year (month - 1) date) (MakeTime hour min sec ms))
  else None.

Section Date_parse.

(** What the engine makes of a string that is not in that form: another form
    of the format (a date alone, a local time, a time zone offset) or a
    format of the engine's own; [NaN] when it recognises none. *)
Variable Date_parse_other : jsstring → number.

(** [Date.parse(string)]. *)
Definition Date_parse (string : jsstring) : number :=
  match parse_utc_date_time string with
  | Some tv => number_of_Z tv
  | None => Date_parse_other string
  end.

(** [new Date(v)] for a string, or for [undefined]. *)
Definition new_Date_string (v : arg) : Date :=
  match v with
  | Some s => {| DateValue := TimeClip (Date_parse s) |}
  | None => {| DateValue := NaN |}
  end.

End Date_parse.

(** ** JSON *)

#[local] Set Warnings "-register-all".

(** The values [JSON.parse] returns and [JSON.stringify] is given here:
    data, and [undefined].  An object is the list of its properties in the
    order of its own property keys. *)
Inductive value :=
| VUndefined
| VNull
| VBoolean (b : bool)
| VNumber (n : number)
| VString (s : jsstring)
| VArray (items : list value)
| VObject (props : list (jsstring * value)).

(** A lower-case hexadecimal digit. *)
Definition hex_digit_lower (d : Z) : Z := if d <? 10 then 48 + d else 87 + d.

(** [UnicodeEscape(C)]. *)
Definition UnicodeEscape (c : Z) : jsstring :=
  [92; 117; hex_digit_lower (c / 4096); hex_digit_lower (c / 256 mod 16);
   hex_digit_lower (c / 16 mod 16); hex_digit_lower (c mod 16)].

(** The inside of [QuoteJSONString(s)]: the two-character escapes, a
    [\uXXXX] escape for the other control characters and for a surrogate on
    its own, every other code point as it is. *)
Fixpoint quote_body (s : jsstring) : jsstring :=
  match s with
  | [] => []
  | c :: rest =>
      if c =? 8 then [92; 98] ++ quote_body rest
      else if c =? 9 then [92; 116] ++ quote_body rest
      else if c =? 10 then [92; 110] ++ quote_body rest
      else if c =? 12 then [92; 102] ++ quote_body rest
      else if c =? 13 then [92; 114] ++ quote_body rest
      else if c =? 34 then [92; 34] ++ quote_body rest
      else if c =? 92 then [92; 92] ++ quote_body rest
      else if c <? 32 then UnicodeEscape c ++ quote_body rest
      else if is_lead_surrogate c then
        match rest with
        | c2 :: rest' =>
            if is_trail_surrogate c2 then c :: c2 :: quote_body rest'
            else UnicodeEscape c ++ quote_body rest
        | [] => UnicodeEscape c
        end
      else if is_trail_surrogate c then UnicodeEscape c ++ quote_body rest
      else c :: quote_body rest
  end.

Definition QuoteJSONString (s : jsstring) : jsstring :=
  [34] ++ quote_body s ++ [34].

Definition is_finite (x : number) : bool :=
  match x with
  | Zero _ | Finite _ _ _ => true
  | _ => false
  end.

(** [SerializeJSONProperty]: [None] is [undefined]. *)
Fixpoint stringify (v : value) : option jsstring :=
  match v with
  | VUndefined => None
  | VNull => Some (js "null")
  | VBoolean b => Some (if b then js "true" else js "false")
  | VNumber n => Some (if is_finite n then Number_toString n else js "null")
  | VString s => Some (QuoteJSONString s)
  | VArray items =>
      Some ([91] ++ join [44]
              (map (λ item, match stringify item with
                            | Some text => text
                            | None => js "null"
                            end) items) ++ [93])
  | VObject props =>
      Some ([123] ++ join [44]
              (omap (λ kv, match stringify (snd kv) with
                           | Some text => Some (QuoteJSONString (fst kv) ++ [58] ++ text)
                           | None => None
                           end) props) ++ [125])
  end.

(** [JSON.stringify(v)], no replacer and no indentation. *)
Definition JSON_stringify (v : value) : arg := stringify v.

(** The array index a property key is, if it is one: the canonical decimal
    string of an integer below 2^32 - 1. *)
Definition array_index (k : jsstring) : option Z :=
  match k with
  | [] => None
  | c :: rest =>
      if forallb (λ c, (48 <=? c) && (c <=? 57)) k
         && (negb (c =? 48) || bool_decide (rest = []))
      then
        let i := digits_value 10 (map (λ c, c - 48) k) in
        if i <? 2 ^ 32 - 1 then Some i else None
      else None
  end.

(** Where a new property with an array index goes: before the first key
    that is no array index or a larger one. *)
Fixpoint insert_index (i : Z) (k : jsstring) (v : value)
    (props : list (jsstring * value)) : list (jsstring * value) :=
  match props with
  | [] => [(k, v)]
  | (k', v') :: rest =>
      match array_index k' with
      | Some j => if j <? i then (k', v') :: insert_index i k v rest
                  else (k, v) :: props
      | None => (k, v) :: props
      end
  end.

(** A new value for a property that is there, in its place. *)
Fixpoint replace_value (k : jsstring) (v : value)
    (props : list (jsstring * value)) : list (jsstring * value) :=
  match props with
  | [] => []
  | (k', v') :: rest =>
      if str_eqb k' k then (k', v) :: rest
      else (k', v') :: replace_value k v rest
  end.

(** [CreateDataProperty(O, k, v)] on an ordinary object: array indices come
    first in ascending order, then the other keys in the order they were
    made. *)
Definition object_define (props : list (jsstring * value)) (k : jsstring)
    (v : value) : list (jsstring * value) :=
  if existsb (λ kv, str_eqb (fst kv) k) props then replace_value k v props
  else match array_index k with
       | Some i => insert_index i k v props
       | None => props ++ [(k, v)]
       end.

Definition is_json_whitespace (c : Z) : bool :=
  (c =? 32) || (c =? 9) || (c =? 10) || (c =? 13).

Fixpoint skip_whitespace (s : jsstring) : jsstring :=
  match s with
  | c :: rest => if is_json_whitespace c then skip_whitespace rest else s
  | [] => []
  end.

(** A JSON number at the head of [s]. *)
Definition json_number (s : jsstring) : option (number * jsstring) :=
  let '(neg, s1) :=
    match s with
    | c :: rest => if c =? 45 then (true, rest) else (false, s)
    | [] => (false, [])
    end in
  let '(int_digits, s2) :=
    match s1 with
    | c :: rest => if c =? 48 then ([0], rest) else span_digits 10 s1
    | [] => ([], [])
    end in
  match int_digits with
  | [] => None
  | _ =>
      let '(frac_digits, s3) :=
        match s2 with
        | c :: rest =>
            if c =? 46 then
              match span_digits 10 rest with
              | ([], _) => ([], s2)
              | (ds, rest') => (ds, rest')
              end
            else ([], s2)
        | [] => ([], [])
        end in
      let '(exp10, s4) :=
        match exponent_part s3 with
        | Some (ex, rest) => (ex, rest)
        | None => (0, s3)
        end in
      Some (number_of_decimal neg (digits_value 10 (int_digits ++ frac_digits))
              (exp10 - Z.of_nat (length frac_digits)), s4)
  end.

(** The characters of a JSON string after its opening quote, up to the
    closing one. *)
Fixpoint json_string (s : jsstring) : option (jsstring * jsstring) :=
  match s with
  | [] => None
  | c :: rest =>
      if c =? 34 then Some ([], rest)
      else if c =? 92 then
        match rest with
        | e :: rest' =>
            if e =? 117 then
              match rest' with
              | h1 :: h2 :: h3 :: h4 :: rest'' =>
                  match digit_value 16 h1, digit_value 16 h2,
                        digit_value 16 h3, digit_value 16 h4 with
                  | Some a, Some b, Some c', Some d =>
                      '(chars, after) ← json_string rest'';
                      Some (((a * 16 + b) * 16 + c') * 16 + d :: chars, after)
                  | _, _, _, _ => None
                  end
              | _ => None
              end
            else
              let unescaped :=
                if (e =? 34) || (e =? 92) || (e =? 47) then Some e
                else if e =? 98 then Some 8
                else if e =? 102 then Some 12
                else if e =? 110 then Some 10
                else if e =? 114 then Some 13
                else if e =? 116 then Some 9
                else None in
              match unescaped with
              | Some u => '(chars, after) ← json_string rest'; Some (u :: chars, after)
              | None => None
              end
        | [] => None
        end
      else if c <? 32 then None
      else '(chars, after) ← json_string rest; Some (c :: chars, after)
  end.

(** A JSON value at the head of [s], after white space; every call reads at
    least one code unit, so [length s] rounds of [fuel] are enough. *)
Fixpoint json_value (fuel : nat) (s : jsstring) : option (value * jsstring) :=
  match fuel with
  | O => None
  | S fuel' =>
      match skip_whitespace s with
      | [] => None
      | c :: rest =>
          if c =? 123 then
            match skip_whitespace rest with
            | c' :: rest' =>
                if c' =? 125 then Some (VObject [], rest')
                else '(members, after) ← json_members fuel' rest;
                     Some (VObject (fold_left (λ o kv, object_define o (fst kv) (snd kv))
                                      members []), after)
            | [] => None
            end
          else if c =? 91 then
            match skip_whitespace rest with
            | c' :: rest' =>
                if c' =? 93 then Some (VArray [], rest')
                else '(items, after) ← json_elements fuel' rest;
                     Some (VArray items, after)
            | [] => None
            end
          else if c =? 34 then
            '(chars, after) ← json_string rest; Some (VString chars, after)
          else if starts_with (js "true") (c :: rest) then
            Some (VBoolean true, drop 4 (c :: rest))
          else if starts_with (js "false") (c :: rest) then
            Some (VBoolean false, drop 5 (c :: rest))
          else if starts_with (js "null") (c :: rest) then
            Some (VNull, drop 4 (c :: rest))
          else '(n, after) ← json_number (c :: rest); Some (VNumber n, after)
      end
  end
with json_elements (fuel : nat) (s : jsstring) : option (list value * jsstring) :=
  match fuel with
  | O => None
  | S fuel' =>
      '(item, s1) ← json_value fuel' s;
      match skip_whitespace s1 with
      | c :: rest =>
          if c =? 44 then
            '(items, after) ← json_elements fuel' rest; Some (item :: items, after)
          else if c =? 93 then Some ([item], rest)
          else None
      | [] => None
      end
  end
with json_members (fuel : nat) (s : jsstring)
  : option (list (jsstring * value) * jsstring) :=
  match fuel with
  | O => None
  | S fuel' =>
      s0 ← expect 34 (skip_whitespace s);
      '(key, s1) ← json_string s0;
      s2 ← expect 58 (skip_whitespace s1);
      '(item, s3) ← json_value fuel' s2;
      match skip_whitespace s3 with
      | c :: rest =>
          if c =? 44 then
            '(members, after) ← json_members fuel' rest;
            Some ((key, item) :: members, after)
          else if c =? 125 then Some ([(key, item)], rest)
          else None
      | [] => None
      end
  end.

(** [JSON.parse(text)], no reviver: a SyntaxError for a text that is not
    JSON. *)
Definition JSON_parse (text : jsstring) : completion value :=
  match json_value (S (length text)) text with
  | Some (v, rest) =>
      match skip_whitespace rest with
      | [] => Normal v
      | _ :: _ => Throw SyntaxError
      end
  | None => Throw SyntaxError
  end.

(** ** Parsers and builders *)

(** [Parser<T>]: [parse] and an optional [serialize]. *)
Record Parser (T : Type) : Type := {
  parse : arg → completion (nullable T);
  serialize : option (T → completion jsstring)
}.
Arguments parse {T} _ _.
Arguments serialize {T} _.

(** What [parseServerSide] is given: [string | string[] | undefined]. *)
Inductive raw :=
| RawString (s : jsstring)
| RawArray (items : list jsstring)
| RawUndefined.

(** A parameter with the default value [''] ([value = '']). *)
Definition default_empty (value : raw) : raw :=
  match value with
  | RawUndefined => RawString []
  | _ => value
  end.

Inductive HistoryOptions := push | replace.

(** Modelled from the spec: the [Options] type of [./defs], which is not
    among the source files.  Its fields are [history: 'push' | 'replace'],
    [shallow: boolean], [scroll: boolean] and [throttleMs: number], each
    optional; an options object is the finite map of the fields it has,
    a field that is there holding a value of its type or [undefined]. *)
Inductive optval :=
| OUndefined
| OHistory (h : HistoryOptions)
| OBool (b : bool)
| ONumber (n : number).

(** The names an [Options] object may have a property under. *)
Definition Options_keys : gset string :=
  {[ "history"; "shallow"; "scroll"; "throttleMs" ]}%string.

(** A reference to an object of the store. *)
Definition loc := positive.

Section builder.
Context {T : Type}.

(** The function objects a builder holds under [parseServerSide]: the method
    written in [createParser], or the one written in [withDefault], a closure
    over [defaultValue] and over [nullableParse], which is the method
    [parseServerSide] of [this] bound to [this]. *)
Inductive psfun :=
| ps_createParser
| ps_withDefault (nullableParse : psfun) (bound_this : loc) (defaultValue : T).

(** A property of a builder object. *)
Inductive prop :=
| Pparse (f : arg → completion (nullable T))
| Pserialize (f : T → completion jsstring)
| PparseServerSide (f : psfun)
| PwithDefault
| PwithOptions
| PdefaultValue (d : T)
| Poption (v : optval).

(** The store of builder objects. *)
Local Abbreviation store := (gmap loc (gmap string prop)).

(** A new object. *)
Definition alloc (h : store) (o : gmap string prop) : loc * store :=
  let l := fresh (dom h) in (l, <[l := o]> h).

(** [this.parse(str)]. *)
Definition call_parse (h : store) (this : loc) (str : arg)
  : completion (nullable T) :=
  match h !! this ≫= (λ o, o !! "parse"%string) with
  | Some (Pparse f) => f str
  | _ => Throw TypeError
  end.

(** The body of [parseServerSide] in [createParser]. *)
Definition parseServerSide_body (h : store) (this : loc) (value : raw)
  : completion (nullable T) :=
  let value := default_empty value in
  let str : arg := Some [] in
  let str := match value with RawArray items => head items | _ => str end in
  let str := match value with RawString s => Some s | _ => str end in
  call_parse h this str.

(** Calling a function object held under [parseServerSide] with the given
    [this]. *)
Fixpoint apply_psfun (f : psfun) (h : store) (this : loc) (value : raw)
  : completion (nullable T) :=
  match f with
  | ps_createParser => parseServerSide_body h this value
  | ps_withDefault nullableParse bound_this defaultValue =>
      let value := default_empty value in
      r ← apply_psfun nullableParse h bound_this value;
      Normal (nullish_coalesce r defaultValue)
  end.

(** [b.parseServerSide(value)]. *)
Definition parseServerSide (h : store) (b : loc) (value : raw)
  : completion (nullable T) :=
  match h !! b ≫= (λ o, o !! "parseServerSide"%string) with
  | Some (PparseServerSide f) => apply_psfun f h b value
  | _ => Throw TypeError
  end.

(** The body of [withDefault]: a copy of [this] with [defaultValue] and a new
    [parseServerSide]. *)
Definition withDefault_body (h : store) (this : loc) (defaultValue : T)
  : completion (loc * store) :=
  match h !! this with
  | Some o =>
      match o !! "parseServerSide"%string with
      | Some (PparseServerSide f) =>
          let nullableParse := f in
          Normal (alloc h
            (<["parseServerSide"%string :=
                 PparseServerSide (ps_withDefault nullableParse this defaultValue)]>
               (<["defaultValue"%string := PdefaultValue defaultValue]> o)))
      | _ => Throw TypeError
      end
  | None => Throw TypeError
  end.

(** The body of [withOptions]: [{ ...this, ...options }]. *)
Definition withOptions_body (h : store) (this : loc)
    (options : gmap string optval) : completion (loc * store) :=
  match h !! this with
  | Some o => Normal (alloc h ((Poption <$> options) ∪ o))
  | None => Throw TypeError
  end.

(** [b.withDefault(defaultValue)]. *)
Definition withDefault (h : store) (b : loc) (defaultValue : T)
  : completion (loc * store) :=
  match h !! b ≫= (λ o, o !! "withDefault"%string) with
  | Some PwithDefault => withDefault_body h b defaultValue
  | _ => Throw TypeError
  end.

(** [b.withOptions(options)]. *)
Definition withOptions (h : store) (b : loc) (options : gmap string optval)
  : completion (loc * store) :=
  match h !! b ≫= (λ o, o !! "withOptions"%string) with
  | Some PwithOptions => withOptions_body h b options
  | _ => Throw TypeError
  end.

(** [{ ...parser }]. *)
Definition spread_parser (parser : Parser T) : gmap string prop :=
  match serialize parser with
  | Some f =>
      <["serialize"%string := Pserialize f]>
        {["parse"%string := Pparse (parse parser)]}
  | None => {["parse"%string := Pparse (parse parser)]}
  end.

(** [createParser(parser)]. *)
Definition createParser (parser : Parser T) (h : store) : loc * store :=
  alloc h
    (<["withOptions"%string := PwithOptions]>
       (<["withDefault"%string := PwithDefault]>
          (<["parseServerSide"%string := PparseServerSide ps_createParser]>
             (spread_parser parser)))).

(** [b.parse(v)] and [b.serialize(v)] on a builder. *)
Definition builder_parse (h : store) (b : loc) (v : arg)
  : completion (nullable T) := call_parse h b v.

Definition builder_serialize (h : store) (b : loc) (v : T)
  : completion jsstring :=
  match h !! b ≫= (λ o, o !! "serialize"%string) with
  | Some (Pserialize f) => f v
  | _ => Throw TypeError
  end.

End builder.
Arguments psfun T : clear implicits.
Arguments prop T : clear implicits.

(** The store of builder objects of the parsers of a [T]. *)
Abbreviation store T := (gmap loc (gmap string (prop T))).

(** ** The parsers *)

(** A template literal with one hole, on a value of type [T]. *)
Class Template (T : Type) := template : T → completion jsstring.

#[global] Instance template_string : Template jsstring := λ v, Normal v.

Definition string_parser : Parser jsstring := {|
  parse := λ v, Normal (match v with Some s => Val s | None => Undefined end);
  serialize := Some (λ v, template v)
|}.

Definition parseAsString := createParser string_parser.

Definition boolean_parser : Parser bool := {|
  parse := λ v,
    Normal (Val (match v with Some s => str_eqb s (js "true") | None => false end));
  serialize := Some (λ v : bool, Normal (if v then js "true" else js "false"))
|}.

Definition parseAsBoolean := createParser boolean_parser.

Definition stringEnum_parser (validValues : list jsstring) : Parser jsstring := {|
  parse := λ query,
    match query with
    | Some asEnum =>
        if includes validValues asEnum then Normal (Val asEnum)
        else Normal Null
    | None => Normal Null
    end;
  serialize := Some (λ value, Normal value)
|}.

Definition parseAsStringEnum (validValues : list jsstring) :=
  createParser (stringEnum_parser validValues).

Section arrayOf.
Context {ItemType : Type} `{!Template ItemType}.

Definition arrayOf_parse (itemParser : Parser ItemType) (separator : jsstring)
    (query : arg) : completion (nullable (list ItemType)) :=
  match query with
  | None => Throw TypeError
  | Some query =>
      if str_eqb query [] then Normal (Val [])
      else
        decoded ← map_completion (λ item, decodeURIComponent (Some item))
                    (split query separator);
        parsed ← map_completion (λ item, parse itemParser (Some item)) decoded;
        Normal (Val (filter_nullish parsed))
  end.

Definition arrayOf_serialize (itemParser : Parser ItemType)
    (separator : jsstring) (values : list ItemType) : completion jsstring :=
  strings ← map_completion
              (λ value,
                 match serialize itemParser with
                 | Some f => f value
                 | None => template value
                 end) values;
  encoded ← map_completion (λ item, encodeURIComponent (Some item)) strings;
  Normal (join separator encoded).

Definition arrayOf_parser (itemParser : Parser ItemType)
    (separator : jsstring) : Parser (list ItemType) := {|
  parse := arrayOf_parse itemParser separator;
  serialize := Some (arrayOf_serialize itemParser separator)
|}.

Definition parseAsArrayOf (itemParser : Parser ItemType)
    (separator : jsstring) :=
  createParser (arrayOf_parser itemParser separator).

End arrayOf.

#[global] Instance template_number : Template number :=
  λ v, Normal (Number_toString v).
#[global] Instance template_boolean : Template bool :=
  λ v, Normal (if v then js "true" else js "false").

Definition integer_parser : Parser number := {|
  parse := λ v,
    let int := parseInt v in
    if Number_isNaN int then Normal Null
    else Normal (Val int);
  serialize := Some (λ v, Normal (Number_toFixed (Math_round v)))
|}.

Definition parseAsInteger := createParser integer_parser.

Definition float_parser : Parser number := {|
  parse := λ v,
    let float := parseFloat v in
    if Number_isNaN float then Normal Null
    else Normal (Val float);
  serialize := Some (λ v, Normal (Number_toString v))
|}.

Definition parseAsFloat := createParser float_parser.

Definition timestamp_parser : Parser Date := {|
  parse := λ v, Normal (Val (new_Date_number (parseInt v)));
  serialize := Some (λ v, Normal (Number_toString (Date_valueOf v)))
|}.

Definition parseAsTimestamp := createParser timestamp_parser.

Section IsoDateTime.
Variable Date_parse_other : jsstring → number.

Definition isoDateTime_parser : Parser Date := {|
  parse := λ v, Normal (Val (new_Date_string Date_parse_other v));
  serialize := Some Date_toISOString
|}.

Definition parseAsIsoDateTime := createParser isoDateTime_parser.

End IsoDateTime.

(** A value as [parse] returns it: [null] and [undefined] are the nullish
    results. *)
Definition nullable_of_value (v : value) : nullable value :=
  match v with
  | VUndefined => Undefined
  | VNull => Null
  | _ => Val v
  end.

(** [parseAsJson(parser)]; [parser] is the optional validator, which returns
    a value or throws. *)
Definition json_parser (parser : option (value → completion value))
  : Parser value := {|
  parse := λ query,
    try_catch
      (text ← decodeURIComponent query;
       obj ← JSON_parse text;
       match parser with
       | Some f => v ← f obj; Normal (nullable_of_value v)
       | None => Normal (nullable_of_value obj)
       end)
      Null;
  serialize := Some (λ value, encodeURIComponent (JSON_stringify value))
|}.

Definition parseAsJson (parser : option (value → completion value)) :=
  createParser (json_parser parser).

(** ** The testing adapter *)

(** A [URLSearchParams] object: its list of name-value pairs. *)
Definition URLSearchParams := list (jsstring * jsstring).

(** The code points of a string as a USVString: a surrogate on its own
    becomes U+FFFD. *)
Fixpoint code_points (s : jsstring) : list Z :=
  match s with
  | [] => []
  | c :: rest =>
      if is_lead_surrogate c then
        match rest with
        | c2 :: rest' =>
            if is_trail_surrogate c2
            then surrogate_pair_code_point c c2 :: code_points rest'
            else 0xFFFD :: code_points rest
        | [] => [0xFFFD]
        end
      else if is_trail_surrogate c then 0xFFFD :: code_points rest
      else c :: code_points rest
  end.

Definition usv_string (s : jsstring) : jsstring :=
  concat (map UTF16EncodeCodePoint (code_points s)).

Definition utf8_encode (s : jsstring) : list Z :=
  concat (map utf8_octets (code_points s)).

(** The state of the UTF-8 decoder between two bytes. *)
Record utf8_state := {
  u_code_point : Z;
  u_needed : Z;
  u_lower : Z;
  u_upper : Z
}.

Definition utf8_start : utf8_state :=
  {| u_code_point := 0; u_needed := 0; u_lower := 0x80; u_upper := 0xBF |}.

(** A byte read with no sequence under way: what it puts out, and the
    state after it. *)
Definition utf8_lead (b : Z) : list Z * utf8_state :=
  if b <=? 0x7F then ([b], utf8_start)
  else if (0xC2 <=? b) && (b <=? 0xDF) then
    ([], {| u_code_point := Z.land b 0x1F; u_needed := 1;
            u_lower := 0x80; u_upper := 0xBF |})
  else if (0xE0 <=? b) && (b <=? 0xEF) then
    ([], {| u_code_point := Z.land b 0xF; u_needed := 2;
            u_lower := if b =? 0xE0 then 0xA0 else 0x80;
            u_upper := if b =? 0xED then 0x9F else 0xBF |})
  else if (0xF0 <=? b) && (b <=? 0xF4) then
    ([], {| u_code_point := Z.land b 0x7; u_needed := 3;
            u_lower := if b =? 0xF0 then 0x90 else 0x80;
            u_upper := if b =? 0xF4 then 0x8F else 0xBF |})
  else ([0xFFFD], utf8_start).

(** UTF-8 decode without BOM: an ill-formed sequence puts out U+FFFD. *)
Fixpoint utf8_decode (st : utf8_state) (bytes : list Z) : list Z :=
  match bytes with
  | [] => if u_needed st =? 0 then [] else [0xFFFD]
  | b :: rest =>
      if u_needed st =? 0 then
        let '(out, st') := utf8_lead b in out ++ utf8_decode st' rest
      else if (u_lower st <=? b) && (b <=? u_upper st) then
        let cp := u_code_point st * 0x40 + Z.land b 0x3F in
        if u_needed st =? 1 then cp :: utf8_decode utf8_start rest
        else utf8_decode {| u_code_point := cp; u_needed := u_needed st - 1;
                            u_lower := 0x80; u_upper := 0xBF |} rest
      else
        let '(out, st') := utf8_lead b in
        0xFFFD :: out ++ utf8_decode st' rest
  end.

(** Percent-decode a byte sequence: a [%] not followed by two hexadecimal
    digits stays. *)
Fixpoint percent_decode (bytes : list Z) : list Z :=
  match bytes with
  | [] => []
  | b :: rest =>
      if b =? 37 then
        match rest with
        | x :: y :: rest' =>
            match hex_octet x y with
            | Some B => B :: percent_decode rest'
            | None => b :: percent_decode rest
            end
        | _ => b :: percent_decode rest
        end
      else b :: percent_decode rest
  end.

(** The bytes up to the first [=] and those after it. *)
Fixpoint split_equals (bytes : list Z) : list Z * list Z :=
  match bytes with
  | [] => ([], [])
  | b :: rest =>
      if b =? 61 then ([], rest)
      else let '(name, value) := split_equals rest in (b :: name, value)
  end.

Definition form_decode (bytes : list Z) : jsstring :=
  concat (map UTF16EncodeCodePoint
            (utf8_decode utf8_start
               (percent_decode (map (λ b, if b =? 43 then 32 else b) bytes)))).

(** The [application/x-www-form-urlencoded] parser. *)
Definition urlencoded_parse (bytes : list Z) : URLSearchParams :=
  omap (λ sequence,
          match sequence with
          | [] => None
          | _ :: _ =>
              let '(name, value) := split_equals sequence in
              Some (form_decode name, form_decode value)
          end)
       (split bytes [38]).

(** What [searchParams] of the adapter's props may be. *)
Inductive SearchParamsInit :=
| InitString (s : jsstring)
| InitRecord (entries : list (jsstring * jsstring))
| InitParams (params : URLSearchParams).

(** [new URLSearchParams(init)]; [None] is [undefined]. *)
Definition new_URLSearchParams (init : option SearchParamsInit)
  : URLSearchParams :=
  match init with
  | None => []
  | Some (InitString s) =>
      let s := match s with
               | c :: rest => if c =? 63 then rest else s
               | [] => []
               end in
      urlencoded_parse (utf8_encode s)
  | Some (InitRecord entries) =>
      map (λ kv, (usv_string (fst kv), usv_string (snd kv))) entries
  | Some (InitParams params) => params
  end.

Section testing.

(** The resolved options [updateUrl] is given ([Required<AdapterOptions>],
    declared in [./defs]), the update queue ([../update-queue]) and what the
    callback of a test acts on. *)
Context {AdapterOptions Queue World : Type}.

(** [renderQueryString] of [../url-encoding] and [resetQueue] of
    [../update-queue], which are not among the source files. *)
Variable renderQueryString : URLSearchParams → jsstring.
Variable resetQueue : Queue → Queue.

Record UrlUpdateEvent := {
  searchParams : URLSearchParams;
  queryString : jsstring;
  options : AdapterOptions
}.

Definition OnUrlUpdateFunction := UrlUpdateEvent → World → World.

Record TestingAdapterProps (Children : Type) := {
  props_searchParams : option SearchParamsInit;
  onUrlUpdate : option OnUrlUpdateFunction;
  rateLimitFactor : option number;
  resetUrlUpdateQueueOnMount : option bool;
  children : Children
}.
Arguments props_searchParams {Children} _.
Arguments onUrlUpdate {Children} _.
Arguments rateLimitFactor {Children} _.
Arguments resetUrlUpdateQueueOnMount {Children} _.
Arguments children {Children} _.

Record AdapterInterface := {
  adapter_searchParams : URLSearchParams;
  updateUrl : URLSearchParams → AdapterOptions → World → World;
  adapter_rateLimitFactor : number
}.

(** [useAdapter] as [NuqsTestingAdapter] defines it from its props. *)
Definition useAdapter {Children} (props : TestingAdapterProps Children)
  : AdapterInterface := {|
  adapter_searchParams := new_URLSearchParams (props_searchParams props);
  updateUrl := λ search options,
    match onUrlUpdate props with
    | Some callback =>
        callback {| searchParams := search;
                    queryString := renderQueryString search;
                    options := options |}
    | None => λ w, w
    end;
  adapter_rateLimitFactor :=
    match rateLimitFactor props with
    | Some f => f
    | None => Zero false
    end
|}.

(** The element [createElement(context.Provider, { value: { useAdapter } },
    props.children)]. *)
Record ProviderElement (Children : Type) := {
  provided_useAdapter : AdapterInterface;
  provider_children : Children
}.
Arguments provided_useAdapter {Children} _.
Arguments provider_children {Children} _.

(** [NuqsTestingAdapter(props)]: the queue is reset unless
    [resetUrlUpdateQueueOnMount] is false. *)
Definition NuqsTestingAdapter {Children} (props : TestingAdapterProps Children)
    (queue : Queue) : ProviderElement Children * Queue :=
  let queue :=
    match resetUrlUpdateQueueOnMount props with
    | Some false => queue
    | _ => resetQueue queue
    end in
  ({| provided_useAdapter := useAdapter props;
      provider_children := children props |}, queue).

End testing.
Arguments props_searchParams {AdapterOptions World Children} _.
Arguments onUrlUpdate {AdapterOptions World Children} _.
Arguments rateLimitFactor {AdapterOptions World Children} _.
Arguments resetUrlUpdateQueueOnMount {AdapterOptions World Children} _.
Arguments children {AdapterOptions World Children} _.
Arguments provided_useAdapter {AdapterOptions World Children} _.
Arguments provider_children {AdapterOptions World Children} _.

Section testing_wrapper.

Context {AdapterOptions Queue World : Type}.
Variable renderQueryString : URLSearchParams → jsstring.
Variable resetQueue : Queue → Queue.

(** [withNuqsTestingAdapter(props)], rendered: the wrapper it returns gives
    [createElement(NuqsTestingAdapter, props, children)], the element of
    [NuqsTestingAdapter] called with [props] and the wrapper's [children] for
    their [children].  [None] is the call without an argument, whose [props]
    are [{}]. *)
Definition withNuqsTestingAdapter {Children : Type}
    (props : option (@TestingAdapterProps AdapterOptions World unit))
    (children : Children) (queue : Queue)
  : @ProviderElement AdapterOptions World Children * Queue :=
  let props :=
    match props with
    | Some props => props
    | None => {| props_searchParams := None; onUrlUpdate := None;
                 rateLimitFactor := None; resetUrlUpdateQueueOnMount := None;
                 children := tt |}
    end in
  NuqsTestingAdapter renderQueryString resetQueue
    {| props_searchParams := props_searchParams props;
       onUrlUpdate := onUrlUpdate props;
       rateLimitFactor := rateLimitFactor props;
       resetUrlUpdateQueueOnMount := resetUrlUpdateQueueOnMount props;
       children := children |} queue.

End testing_wrapper.

(** * What the theorems are about *)

(** ** Builder objects *)

(** The object [createParser] makes. *)
Definition created {T} (parser : Parser T) : gmap string (prop T) :=
  <["withOptions"%string := PwithOptions]>
    (<["withDefault"%string := PwithDefault]>
       (<["parseServerSide"%string := PparseServerSide ps_createParser]>
          (spread_parser parser))).

(** ** Text *)

(** A character of an encoded URI component. *)
Definition uri_char (x : Z) : Prop := uri_unescaped x = true ∨ x = 37.

(** A decimal digit. *)
Definition is_digit (c : Z) : Prop := 48 <= c <= 57.

(** The integer a string of decimal digits denotes. *)
Definition digit_string_value (ds : jsstring) : Z :=
  digits_value 10 (map (λ c, c - 48) ds).

(** A decimal literal: an integer part, a fraction part after a point when
    it is not empty, an exponent part when there is one. *)
Definition literal (ip fp : jsstring) (ex : option Z) : jsstring :=
  ip ++ match fp with [] => [] | _ :: _ => 46 :: fp end
     ++ match ex with
        | None => []
        | Some x => [101] ++ (if 0 <=? x then [43] else [45]) ++ decimal (Z.abs x)
        end.

(** What may follow a number: nothing, or a character that continues no
    literal. *)
Definition number_stop (rest : jsstring) : Prop :=
  match rest with
  | [] => True
  | c :: _ => ¬ is_digit c ∧ c ≠ 46 ∧ c ≠ 101 ∧ c ≠ 69
  end.

(** An integer part with no zero before another digit. *)
Definition no_leading_zero (ip : jsstring) : Prop :=
  ip = [48] ∨ ∃ c tl, ip = c :: tl ∧ c ≠ 48.

(** A code unit of a string. *)
Definition code_unit (c : Z) : bool := (0 <=? c) && (c <=? 0xFFFF).

(** A code unit below the surrogates. *)
Definition plain (c : Z) : Prop := 0 <= c < 0xD800.

(** A string literal of this file with a backquote for every double
    quote. *)
Definition jsq (s : string) : jsstring :=
  map (λ c, if c =? 96 then 34 else c) (js s).

(** ** Numbers *)

(** 2^L <= p/q, for a fraction with positive terms. *)
Definition pow2_le (L p q : Z) : Prop :=
  q * 2 ^ Z.max 0 L <= p * 2 ^ Z.max 0 (- L).

(** A Number with no fraction part. *)
Definition integer_valued (x : number) : bool :=
  match x with
  | Finite _ m e => let '(num, den) := frac_of_finite m e in num mod den =? 0
  | Zero _ => true
  | _ => false
  end.

(** A Number of magnitude below [bound]. *)
Definition magnitude_below (bound : Z) (x : number) : bool :=
  match x with
  | Finite _ m e => let '(num, den) := frac_of_finite m e in num <? bound * den
  | Zero _ => true
  | _ => false
  end.

(** The Numbers the float parser gives back: all but [NaN] and [-0]. *)
Definition float_domain (v : number) : Prop :=
  is_binary64 v = true ∧ v ≠ NaN ∧ v ≠ Zero true.

(** ** Dates *)

(** The time values of Date objects: [NaN], or a whole number of
    milliseconds of magnitude at most 8.64e15, as [TimeClip] returns it. *)
Definition time_value (tv : number) : Prop :=
  tv = NaN ∨ tv = Zero false
  ∨ (is_binary64 tv = true ∧ integer_valued tv = true
     ∧ magnitude_below (8640000000000000 + 1) tv = true ∧ ∃ neg m e, tv = Finite neg m e).

(** The year as [toISOString] writes it. *)
Definition iso_year (y : Z) : jsstring :=
  if (0 <=? y) && (y <=? 9999) then digits_fixed 4 y
  else (if 0 <=? y then [43] else [45]) ++ digits_fixed 6 (Z.abs y).

(** ** JSON values *)

(** Array indices in ascending order above [lower], then keys that are no
    array indices. *)
Fixpoint index_keys_ascending (lower : Z) (keys : list jsstring) : bool :=
  match keys with
  | [] => true
  | k :: rest =>
      match array_index k with
      | Some i => (lower <? i) && index_keys_ascending i rest
      | None => forallb (λ k', bool_decide (array_index k' = None)) rest
      end
  end.

(** The keys of an ordinary object in the order of its own property keys:
    no key twice, the array indices first and ascending. *)
Definition own_property_keys (keys : list jsstring) : bool :=
  bool_decide (NoDup keys) && index_keys_ascending (-1) keys.

(** The values [JSON.stringify] writes so that [JSON.parse] gives them
    back: no [undefined], finite Numbers other than [-0], strings of code
    units, objects in the order of their own property keys. *)
Fixpoint json_safe (v : value) : bool :=
  match v with
  | VUndefined => false
  | VNull | VBoolean _ => true
  | VNumber n => is_binary64 n && is_finite n && negb (number_eqb n (Zero true))
  | VString s => forallb code_unit s
  | VArray items => forallb json_safe items
  | VObject props =>
      own_property_keys (map fst props)
      && forallb (λ kv, forallb code_unit (fst kv) && json_safe (snd kv)) props
  end.

(** The calls of the reader a value takes. *)
Fixpoint value_size (v : value) : nat :=
  match v with
  | VArray items => S (foldr (λ item n, S (value_size item) + n)%nat O items)
  | VObject props => S (foldr (λ kv n, S (value_size (snd kv)) + n)%nat O props)
  | _ => 1%nat
  end.

(** A text that starts with the first character of a value. *)
Definition value_start (text : jsstring) : Prop :=
  match text with
  | c :: _ => is_json_whitespace c = false ∧ c ≠ 93 ∧ c ≠ 125
  | [] => False
  end.

(** The text of a value is read back as the value, before whatever may
    follow a value. *)
Definition reads_back (v : value) (text : jsstring) : Prop :=
  (value_size v <= length text)%nat ∧ value_start text
  ∧ ∀ fuel rest, (value_size v <= fuel)%nat → number_stop rest →
      json_value fuel (text ++ rest) = Some (v, rest).

(** The text of a property of an object. *)
Definition member_text (key text : jsstring) : jsstring :=
  QuoteJSONString key ++ [58] ++ text.

(** A validator that accepts the value as it is, or none. *)
Definition accepts (parser : option (value → completion value)) (v : value) : Prop :=
  match parser with
  | Some f => f v = Normal v
  | None => True
  end.

(** ** Serialize, then parse *)

(** [parse(serialize(v))] is [v]. *)
Definition round_trips {T} (p : Parser T) (v : T) : Prop :=
  ∃ f text, serialize p = Some f ∧ f v = Normal text
            ∧ parse p (Some text) = Normal (Val v).

(** [codec.parse(codec.serialize(v))] is [r], for a builder [codec] made in
    any store. *)
Definition parses_back {T} (codec : store T → loc * store T) (v : T)
    (r : nullable T) : Prop :=
  ∀ h : store T,
    let '(b, h') := codec h in
    ∃ text, builder_serialize h' b v = Normal text
            ∧ builder_parse h' b (Some text) = Normal r.

Section arrayOf_items.
Context {ItemType : Type} `{!Template ItemType}.
Variable itemParser : Parser ItemType.

(** How [parseAsArrayOf] turns an item into text. *)
Definition item_text (value : ItemType) : completion jsstring :=
  match serialize itemParser with
  | Some f => f value
  | None => template value
  end.

(** An item that comes back from its text, which [encodeURIComponent]
    accepts. *)
Definition item_round_trips (value : ItemType) : Prop :=
  ∃ text, item_text value = Normal text
          ∧ well_formed text = true
          ∧ parse itemParser (Some text) = Normal (Val value).

(** The one array [parseAsArrayOf] does not tell from the empty one: a
    single item whose text is empty. *)
Definition lone_empty_text (values : list ItemType) : Prop :=
  ∃ v, values = [v] ∧ item_text v = Normal [].

End arrayOf_items.

(** ** Chains of calls on a builder *)

(** A call on a builder that returns a builder. *)
Inductive builder_call (T : Type) :=
| CallWithDefault (defaultValue : T)
| CallWithOptions (options : gmap string optval).
Arguments CallWithDefault {T} _.
Arguments CallWithOptions {T} _.

(** [b.withDefault(d)] or [b.withOptions(options)]. *)
Definition call_builder {T} (h : store T) (b : loc) (c : builder_call T)
  : completion (loc * store T) :=
  match c with
  | CallWithDefault d => withDefault h b d
  | CallWithOptions options => withOptions h b options
  end.

(** [b.c1(...).c2(...)...]: each call on the builder the one before it
    returned. *)
Fixpoint chain {T} (calls : list (builder_call T)) (b : loc) (h : store T)
  : completion (loc * store T) :=
  match calls with
  | [] => Normal (b, h)
  | c :: rest => '(b', h') ← call_builder h b c; chain rest b' h'
  end.

(** An options argument of type [Options]. *)
Definition typed_call {T} (c : builder_call T) : Prop :=
  match c with
  | CallWithDefault _ => True
  | CallWithOptions options => dom options ⊆ Options_keys
  end.

(** The default value of the first [withDefault] of the calls, after
    [first]. *)
Definition first_default_from {T} (first : option T)
    (calls : list (builder_call T)) : option T :=
  fold_left (λ first c, match first, c with
                        | None, CallWithDefault d => Some d
                        | _, _ => first
                        end) calls first.

(** The default value of the last [withDefault] of the calls, after
    [last]. *)
Definition last_default_from {T} (last : option T)
    (calls : list (builder_call T)) : option T :=
  fold_left (λ last c, match c with
                       | CallWithDefault d => Some d
                       | CallWithOptions _ => last
                       end) calls last.

(** The options of the calls over [options], a later call over the ones
    before it. *)
Definition merged_options_from {T} (options : gmap string optval)
    (calls : list (builder_call T)) : gmap string optval :=
  fold_left (λ options c, match c with
                          | CallWithDefault _ => options
                          | CallWithOptions o => o ∪ options
                          end) calls options.

(** The string [parseServerSide] hands to [parse]. *)
Definition first_value (value : raw) : arg :=
  match value with
  | RawString s => Some s
  | RawArray items => head items
  | RawUndefined => Some []
  end.

(** [r ?? d] when there is a default value [d]. *)
Definition with_default {T} (r : nullable T) (default : option T) : nullable T :=
  match default with
  | Some d => nullish_coalesce r d
  | None => r
  end.

Section chains.
Context {T : Type}.
Variable parser : Parser T.
Implicit Types (h : store T) (o : gmap string (prop T)).

(** A function under [parseServerSide] that parses with [parser] and falls
    back on [default], on whatever builder of [parser] it is called, in
    the store and in every store that holds more objects. *)
Definition parses_with (h : store T) (f : psfun T) (default : option T) : Prop :=
  ∀ h' this value,
    h ⊆ h' →
    h' !! this ≫= (λ o, o !! "parse"%string) = Some (Pparse (parse parser)) →
    apply_psfun f h' this value
    = (r ← parse parser (first_value value); Normal (with_default r default)).

(** A builder of [parser]: its methods, the default values of the first
    and of the last [withDefault] behind it, and its options. *)
Definition builder_of (h : store T) (b : loc) (first last : option T)
    (options : gmap string optval) : Prop :=
  ∃ o f,
    h !! b = Some o
    ∧ o !! "parse"%string = Some (Pparse (parse parser))
    ∧ o !! "serialize"%string = Pserialize <$> serialize parser
    ∧ o !! "withDefault"%string = Some PwithDefault
    ∧ o !! "withOptions"%string = Some PwithOptions
    ∧ o !! "parseServerSide"%string = Some (PparseServerSide f)
    ∧ parses_with h f first
    ∧ o !! "defaultValue"%string = PdefaultValue <$> last
    ∧ ∀ k, k ∈ Options_keys → o !! k = Poption <$> options !! k.

End chains.

(** ** What the number parsers read back *)

(** [x] with [+0] for [-0]. *)
Definition positive_zero (x : number) : number :=
  match x with
  | Zero _ => Zero false
  | _ => x
  end.

(** What the integer parser reads from what it wrote for [v]:
    [Math.round(v)], with [0] for [-0], and [null] for [NaN] and the
    infinities. *)
Definition integer_read (v : number) : nullable number :=
  if is_finite v then Val (positive_zero (Math_round v)) else Null.

(** What the float parser reads from what it wrote for [v]: [v], but [0]
    for [-0] and [null] for [NaN]. *)
Definition float_read (v : number) : nullable number :=
  match v with
  | NaN => Null
  | Zero _ => Val (Zero false)
  | _ => Val v
  end.

(** The Numbers the integer parser writes in digits: the finite ones of
    magnitude below 10^21, and those it writes as they are, [NaN] and the
    infinities. *)
Definition integer_writable (v : number) : Prop :=
  is_binary64 v = true
  ∧ (magnitude_below (10 ^ 21) v = true ∨ is_finite v = false).

(** ** Arrays of any items *)

(** A template literal on an array: [Array.prototype.toString], the items
    as strings with commas between them. *)
#[global] Instance template_list {T} `{!Template T} : Template (list T) :=
  λ values, texts ← map_completion template values; Normal (join (js ",") texts).

Section arrayOf_any_items.
Context {ItemType : Type} `{!Template ItemType}.
Variable itemParser : Parser ItemType.

(** An item [parseAsArrayOf] writes as a text [encodeURIComponent]
    accepts, and what the item parser reads from that text. *)
Definition item_parses_to (value : ItemType) (r : nullable ItemType) : Prop :=
  ∃ text, item_text itemParser value = Normal text
          ∧ well_formed text = true
          ∧ parse itemParser (Some text) = Normal r.

End arrayOf_any_items.

(** ** JSON values read back *)

(** A value of the language: its Numbers binary64 values, its strings and
    keys made of code units, no key twice in an object. *)
Fixpoint language_value (v : value) : bool :=
  match v with
  | VNumber n => is_binary64 n
  | VString s => forallb code_unit s
  | VArray items => forallb language_value items
  | VObject props =>
      bool_decide (NoDup (map fst props))
      && forallb (λ kv, forallb code_unit (fst kv) && language_value (snd kv)) props
  | _ => true
  end.

(** Whether a value is [undefined]. *)
Definition is_undefined (v : value) : bool :=
  match v with VUndefined => true | _ => false end.

(** What [JSON.parse] reads from what [JSON.stringify] writes for a value:
    [null] for [undefined] in an array and for a Number that is not
    finite, [0] for [-0], an object without its [undefined] properties and
    in the order of its own property keys. *)
Fixpoint json_normal (v : value) : value :=
  match v with
  | VUndefined => VNull
  | VNumber n => if is_finite n then VNumber (positive_zero n) else VNull
  | VArray items => VArray (map json_normal items)
  | VObject props =>
      VObject
        (fold_left (λ o kv, object_define o (fst kv) (snd kv))
           (omap (λ kv, if is_undefined (snd kv) then None
                        else Some (fst kv, json_normal (snd kv))) props) [])
  | _ => v
  end.

(** ** Query strings *)

(** A character that stands for itself in a query string: ASCII, and none
    of [%], [&], [+] and [=]. *)
Definition query_plain (c : Z) : bool :=
  (0 <=? c) && (c <? 128)
  && negb ((c =? 37) || (c =? 38) || (c =? 43) || (c =? 61)).

(** The query string of name-value pairs written as they are:
    [name=value] joined by [&]. *)
Definition query_of (pairs : list (jsstring * jsstring)) : jsstring :=
  join [38] (map (λ kv, kv.1 ++ 61 :: kv.2) pairs).

(** * The model on known values *)

(** The platform functions of the model give what engines give. *)

Example parseInt_values :
  parseInt (Some (js "1")) = number_of_Z 1
  ∧ parseInt (Some (js "  -0x1F")) = number_of_Z (-31)
  ∧ parseInt (Some (js "abc")) = NaN
  ∧ parseInt None = NaN.
Proof. vm_compute. repeat split; reflexivity. Qed.

Example split_values :
  split (js "a,b,,c") (js ",") = [js "a"; js "b"; js ""; js "c"]
  ∧ split (js "") (js ",") = [js ""]
  ∧ split (js "aXYbXYXYc") (js "XY") = [js "a"; js "b"; js ""; js "c"].
Proof. vm_compute. repeat split; reflexivity. Qed.

Example rounding_values :
  number_of_Z 9007199254740993 = Finite false 4503599627370496 1
  ∧ number_of_Z (2 ^ 1024) = Infinity false
  ∧ number_of_Z (2 ^ 1024 - 2 ^ 970 - 1) = Finite false (2 ^ 53 - 1) 971
  ∧ number_of_Z (2 ^ 1024 - 2 ^ 970) = Infinity false
  ∧ number_of_rat false 1 (Pos.pow 2 1075) = Zero false
  ∧ number_of_rat false 3 (Pos.pow 2 1075) = Finite false 2 (-1074)
  ∧ number_of_rat false 1 3 = Finite false 6004799503160661 (-54).
Proof. vm_compute. repeat split; reflexivity. Qed.

Example uri_values :
  encodeURIComponent (Some (js "a,b c")) = Normal (js "a%2Cb%20c")
  ∧ decodeURIComponent (Some (js "a%2Cb%20c%2f")) = Normal (js "a,b c/")
  ∧ decodeURIComponent (Some (js "%")) = Throw URIError
  ∧ decodeURIComponent (Some (js "%E4%F6%FC")) = Throw URIError
  ∧ decodeURIComponent (Some (js "%C3%A9%E2%82%AC%F0%9F%98%80x"))
    = Normal [233; 8364; 0xD83D; 0xDE00; 120]
  ∧ encodeURIComponent (Some [233; 8364; 0xD83D; 0xDE00; 120])
    = Normal (js "%C3%A9%E2%82%AC%F0%9F%98%80x")
  ∧ encodeURIComponent (Some [0xD83D; 120]) = Throw URIError
  ∧ decodeURIComponent (Some (js "%C0%80")) = Throw URIError
  ∧ decodeURIComponent (Some (js "%ED%A0%80")) = Throw URIError
  ∧ decodeURIComponent None = Normal (js "undefined").
Proof. vm_compute. repeat split; reflexivity. Qed.

Example builder_values :
  let '(b, h) := parseAsString ∅ in
  parseServerSide h b (RawArray []) = Normal Undefined
  ∧ parseServerSide h b RawUndefined = Normal (Val [])
  ∧ parseServerSide h b (RawArray [js "a"; js "b"]) = Normal (Val (js "a"))
  ∧ match withDefault h b (js "zz") with
    | Normal (b', h') =>
        parseServerSide h' b' (RawArray []) = Normal (Val (js "zz"))
        ∧ parseServerSide h' b' (RawString (js "q")) = Normal (Val (js "q"))
        ∧ builder_serialize h' b' (js "x") = Normal (js "x")
    | _ => False
    end
  ∧ let '(a, h2) := parseAsArrayOf string_parser (js ",") ∅ in
    parseServerSide h2 a (RawArray []) = Throw TypeError
    ∧ parseServerSide h2 a (RawString (js "a,b%20c,,d"))
      = Normal (Val [js "a"; js "b c"; js ""; js "d"])
    ∧ builder_serialize h2 a [js ""] = Normal (js "")
    ∧ builder_parse h2 a (Some (js "")) = Normal (Val [])
    ∧ builder_parse h2 a (Some (js "%")) = Throw URIError.
Proof. vm_compute. repeat split; reflexivity. Qed.

Example Number_toString_values :
  map Number_toString
    [number_of_Z 1; number_of_Z 1000; number_of_decimal false 1 (-1);
     number_of_decimal false 15 (-1); number_of_decimal true 123456 (-3);
     number_of_decimal false 1 23; number_of_decimal false 1 21;
     number_of_decimal false 1 (-7); number_of_decimal false 123 (-8);
     Finite false 1 (-1074); Finite false (2 ^ 53 - 1) 971;
     number_of_decimal false 3 (-1); number_of_decimal false 1 (-6);
     number_of_Z 123456789012345680000; number_of_frac false 1 3;
     NaN; Infinity true; Zero true]
  = map js
      ["1"; "1000"; "0.1"; "1.5"; "-123.456"; "1e+23"; "1e+21"; "1e-7";
       "0.00000123"; "5e-324"; "1.7976931348623157e+308"; "0.3"; "0.000001";
       "123456789012345680000"; "0.3333333333333333"; "NaN"; "-Infinity";
       "0"]%string.
Proof. vm_compute. reflexivity. Qed.

Example parseFloat_values :
  map (λ s, parseFloat (Some (js s)))
    ["1.5"; "  -0.1e1x"; ".5"; "5."; "."; "-.e"; "1e"; "Infinity";
     "-Infinityx"; "1e+23"; "abc"; "-0"; "0x10"; "1e-400"; "1e400"]%string
  = [number_of_decimal false 15 (-1); number_of_Z (-1);
     number_of_decimal false 5 (-1); number_of_Z 5; NaN; NaN; number_of_Z 1;
     Infinity false; Infinity true; number_of_decimal false 1 23; NaN;
     Zero true; Zero false; Zero false; Infinity false].
Proof. vm_compute. reflexivity. Qed.

Example toFixed_round_values :
  map Number_toFixed
    [number_of_Z 12; number_of_Z (-12); Zero true; number_of_decimal false 1 21;
     number_of_decimal true 2 (-1); number_of_decimal false 25 (-1);
     number_of_Z 999999999999999999999]
  = map js ["12"; "-12"; "0"; "1e+21"; "-0"; "3"; "1e+21"]%string
  ∧ map Math_round
      [number_of_decimal false 25 (-1); number_of_decimal true 25 (-1);
       number_of_decimal true 5 (-1); number_of_decimal true 2 (-1);
       number_of_decimal false 2 (-1); number_of_decimal true 26 (-1); NaN]
    = [number_of_Z 3; number_of_Z (-2); Zero true; Zero true; Zero false;
       number_of_Z (-3); NaN].
Proof. vm_compute. repeat split; reflexivity. Qed.

Example Date_values :
  map (λ z, Date_toISOString (new_Date_number (number_of_Z z)))
    [0; 1700000000123; -1; 8640000000000000; -8640000000000000;
     8640000000000001; -62198755200000; 951782400000]
  = [Normal (js "1970-01-01T00:00:00.000Z");
     Normal (js "2023-11-14T22:13:20.123Z");
     Normal (js "1969-12-31T23:59:59.999Z");
     Normal (js "+275760-09-13T00:00:00.000Z");
     Normal (js "-271821-04-20T00:00:00.000Z");
     Throw RangeError;
     Normal (js "-000001-01-01T00:00:00.000Z");
     Normal (js "2000-02-29T00:00:00.000Z")]
  ∧ map (λ s, parse_utc_date_time (js s))
      ["1970-01-01T00:00:00.000Z"; "2023-11-14T22:13:20.123Z";
       "1969-12-31T23:59:59.999Z"; "+275760-09-13T00:00:00.000Z";
       "-271821-04-20T00:00:00.000Z"; "-000001-01-01T00:00:00.000Z";
       "2000-02-29T00:00:00.000Z"; "2001-02-29T00:00:00.000Z";
       "2001-13-01T00:00:00.000Z"; "2001-12-31T00:00:00.000";
       "-000000-01-01T00:00:00.000Z"]%string
    = [Some 0; Some 1700000000123; Some (-1); Some 8640000000000000;
       Some (-8640000000000000); Some (-62198755200000); Some 951782400000;
       None; None; None; None].
Proof. vm_compute. repeat split; reflexivity. Qed.

Example JSON_parse_values :
  map (λ s, JSON_parse (jsq s))
    ["1"; " [1, 2 ,[ ] ,{ } ] ";
     "{`a`:1,`2`:true,`b`:null,`1`:`x\n\u00E9`,`a`:-0}"; "undefined"; "01";
     "1."; "[1,]"; "-1.5e+2"; "`\ud83d`"; "tru"; "nullx"; "{`a` 1}"; ""]%string
  = [Normal (VNumber (number_of_Z 1));
     Normal (VArray [VNumber (number_of_Z 1); VNumber (number_of_Z 2);
                     VArray []; VObject []]);
     Normal (VObject [(js "1", VString [120; 10; 233]); (js "2", VBoolean true);
                      (js "a", VNumber (Zero true)); (js "b", VNull)]);
     Throw SyntaxError; Throw SyntaxError; Throw SyntaxError; Throw SyntaxError;
     Normal (VNumber (number_of_Z (-150))); Normal (VString [0xD83D]);
     Throw SyntaxError; Throw SyntaxError; Throw SyntaxError; Throw SyntaxError].
Proof. vm_compute. reflexivity. Qed.

Example JSON_stringify_values :
  map JSON_stringify
    [VUndefined;
     VArray [VUndefined; VNumber NaN;
             VString [34; 10; 1; 0xD83D; 0xD83D; 0xDE00; 233]];
     VObject [(js "a", VUndefined);
              (js "b", VNumber (number_of_decimal false 15 (-1)));
              (js "c", VObject [])]]
  = [None;
     Some (jsq "[null,null,`\`\n\u0001\ud83d" ++ [0xD83D; 0xDE00; 233] ++ jsq "`]");
     Some (jsq "{`b`:1.5,`c`:{}}")].
Proof. vm_compute. reflexivity. Qed.

Example URLSearchParams_values :
  map (λ s, new_URLSearchParams (Some (InitString (js s))))
    ["?q=hello"; "a=1&b=2&&a=3"; "x=a+b%20c%zz&y"; "=v&k=%C3%A9%FF"]%string
  = [[(js "q", js "hello")];
     [(js "a", js "1"); (js "b", js "2"); (js "a", js "3")];
     [(js "x", js "a b c%zz"); (js "y", js "")];
     [(js "", js "v"); (js "k", [233; 0xFFFD])]].
Proof. vm_compute. reflexivity. Qed.

(** * Builders *)

Section builder_facts.
Context {T : Type}.
Implicit Types (h : store T) (o : gmap string (prop T)) (parser : Parser T).

Lemma alloc_spec h o :
  h !! (alloc h o).1 = None ∧ (alloc h o).2 = <[(alloc h o).1 := o]> h.
Proof.
  split; [|done]. apply (not_elem_of_dom (D := gset loc)). apply is_fresh.
Qed.

Lemma default_empty_idemp value : default_empty (default_empty value) = default_empty value.
Proof. by destruct value. Qed.

Lemma parseServerSide_body_default h this value :
  parseServerSide_body h this (default_empty value) = parseServerSide_body h this value.
Proof. unfold parseServerSide_body. by rewrite default_empty_idemp. Qed.

Lemma created_parse parser :
  created parser !! "parse"%string = Some (Pparse (parse parser)).
Proof.
  unfold created, spread_parser.
  do 3 (rewrite lookup_insert_ne; [|done]).
  destruct (serialize parser).
  - rewrite lookup_insert_ne; [|done]. apply lookup_singleton_eq.
  - apply lookup_singleton_eq.
Qed.

Lemma created_serialize parser :
  created parser !! "serialize"%string = Pserialize <$> serialize parser.
Proof.
  unfold created, spread_parser.
  do 3 (rewrite lookup_insert_ne; [|done]).
  destruct (serialize parser); simpl.
  - apply lookup_insert_eq.
  - by rewrite lookup_singleton_ne.
Qed.

Lemma created_parseServerSide parser :
  created parser !! "parseServerSide"%string = Some (PparseServerSide ps_createParser).
Proof.
  unfold created. do 2 (rewrite lookup_insert_ne; [|done]). apply lookup_insert_eq.
Qed.

Lemma created_withDefault parser :
  created parser !! "withDefault"%string = Some PwithDefault.
Proof. unfold created. rewrite lookup_insert_ne; [|done]. apply lookup_insert_eq. Qed.

Lemma created_withOptions parser :
  created parser !! "withOptions"%string = Some PwithOptions.
Proof. unfold created. apply lookup_insert_eq. Qed.

Lemma createParser_spec parser h :
  ∃ b, createParser parser h = (b, <[b := created parser]> h) ∧ h !! b = None.
Proof.
  exists (alloc h (created parser)).1. split; [done|]. apply alloc_spec.
Qed.

(** A builder kept its [parse], whatever else the store holds. *)
Lemma call_parse_lookup h b o f v :
  h !! b = Some o → o !! "parse"%string = Some (Pparse f) → call_parse h b v = f v.
Proof. intros Hb Ho. unfold call_parse. by rewrite Hb; simpl; rewrite Ho. Qed.

Lemma createParser_parse parser h :
  let '(b, h') := createParser parser h in
  ∀ v, builder_parse h' b v = parse parser v.
Proof.
  destruct (createParser_spec parser h) as (b & -> & _). intros v.
  apply (call_parse_lookup _ _ (created parser)); [apply lookup_insert_eq | apply created_parse].
Qed.

Lemma createParser_serialize parser h f :
  serialize parser = Some f →
  let '(b, h') := createParser parser h in
  ∀ v, builder_serialize h' b v = f v.
Proof.
  intros Hf. destruct (createParser_spec parser h) as (b & -> & _). intros v.
  unfold builder_serialize. rewrite lookup_insert_eq. simpl.
  by rewrite created_serialize, Hf.
Qed.

Lemma createParser_parseServerSide parser h value :
  let '(b, h') := createParser parser h in
  parseServerSide h' b value =
    parse parser (match value with
                  | RawString s => Some s
                  | RawArray items => head items
                  | RawUndefined => Some []
                  end).
Proof.
  destruct (createParser_spec parser h) as (b & -> & _).
  unfold parseServerSide. rewrite lookup_insert_eq. simpl.
  rewrite created_parseServerSide. simpl. unfold parseServerSide_body.
  rewrite (call_parse_lookup _ _ (created parser) (parse parser));
    [| apply lookup_insert_eq | apply created_parse].
  by destruct value.
Qed.

(** What [withDefault] leaves in the store: a new object, the old ones as
    they were. *)
Lemma withDefault_spec h b o f d :
  h !! b = Some o →
  o !! "withDefault"%string = Some PwithDefault →
  o !! "parseServerSide"%string = Some (PparseServerSide f) →
  ∃ q, withDefault h b d =
         Normal (q, <[q := <["parseServerSide"%string :=
                               PparseServerSide (ps_withDefault f b d)]>
                             (<["defaultValue"%string := PdefaultValue d]> o)]> h)
       ∧ h !! q = None.
Proof.
  intros Hb Hwd Hps. unfold withDefault, withDefault_body.
  rewrite Hb. simpl. rewrite Hwd, Hps.
  eexists. split; [reflexivity|].
  apply (alloc_spec h (<["parseServerSide"%string :=
                          PparseServerSide (ps_withDefault f b d)]>
                        (<["defaultValue"%string := PdefaultValue d]> o))).
Qed.

(** C3.  For a builder [p] made by [createParser] and a default value [d],
    [p.withDefault(d)] is a new builder that holds [d] under
    [defaultValue]; its [parseServerSide] returns the value
    [p.parseServerSide] returns when that is a value, and [d] when that is
    [null] or [undefined], so it returns neither [null] nor [undefined],
    and it throws what [p.parseServerSide] throws. *)
Theorem withDefault_parseServerSide parser h0 (d : T) :
  let '(p, h) := createParser parser h0 in
  ∃ q h', withDefault h p d = Normal (q, h')
    ∧ h' !! q ≫= (λ o, o !! "defaultValue"%string) = Some (PdefaultValue d)
    ∧ ∀ value,
        match parseServerSide h p value with
        | Normal (Val v) => parseServerSide h' q value = Normal (Val v)
        | Normal Null | Normal Undefined =>
            parseServerSide h' q value = Normal (Val d)
        | Throw e => parseServerSide h' q value = Throw e
        end
        ∧ parseServerSide h' q value ≠ Normal Null
        ∧ parseServerSide h' q value ≠ Normal Undefined.
Proof.
  destruct (createParser_spec parser h0) as (p & -> & Hp).
  destruct (withDefault_spec (<[p := created parser]> h0) p (created parser)
              ps_createParser d) as (q & Hq & Hfresh);
    [apply lookup_insert_eq | apply created_withDefault
     | apply created_parseServerSide |].
  eexists q, _. split; [exact Hq|].
  assert (q ≠ p) as Hne by (intros ->; by rewrite lookup_insert_eq in Hfresh).
  split.
  { rewrite lookup_insert_eq. simpl. rewrite lookup_insert_ne; [|done].
    apply lookup_insert_eq. }
  intros value.
  assert (parseServerSide
            (<[q := <["parseServerSide"%string :=
                        PparseServerSide (ps_withDefault ps_createParser p d)]>
                      (<["defaultValue"%string := PdefaultValue d]> (created parser))]>
               (<[p := created parser]> h0)) q value
          = (r ← parseServerSide (<[p := created parser]> h0) p value;
             Normal (nullish_coalesce r d))) as Heq.
  { unfold parseServerSide at 1. rewrite lookup_insert_eq. simpl.
    rewrite lookup_insert_eq. simpl.
    rewrite parseServerSide_body_default.
    unfold parseServerSide. rewrite lookup_insert_eq. simpl.
    rewrite created_parseServerSide. simpl.
    unfold parseServerSide_body, call_parse.
    rewrite lookup_insert_ne; [|done]. reflexivity. }
  rewrite Heq.
  destruct (parseServerSide (<[p := created parser]> h0) p value) as [[| |v]|e];
    simpl; repeat split; first [reflexivity | discriminate].
Qed.

(** C8.  For a builder [b] and options [opts], [b.withOptions(opts)] is a
    new object: the store keeps [b] and every other object as they were.
    The new object has each property of [opts], and each property of [b]
    that [opts] has none for; [opts] being of type [Options], that leaves
    [parse] and [serialize] those of [b], and they return what those of [b]
    return. *)
Theorem withOptions_merges h b o (opts : gmap string optval) :
  h !! b = Some o →
  o !! "withOptions"%string = Some PwithOptions →
  dom opts ⊆ Options_keys →
  ∃ b' h' o',
    withOptions h b opts = Normal (b', h')
    ∧ h !! b' = None
    ∧ h' !! b' = Some o'
    ∧ (∀ l, l ≠ b' → h' !! l = h !! l)
    ∧ h' !! b = Some o
    ∧ (∀ k, o' !! k = match opts !! k with
                      | Some v => Some (Poption v)
                      | None => o !! k
                      end)
    ∧ o' !! "parse"%string = o !! "parse"%string
    ∧ o' !! "serialize"%string = o !! "serialize"%string
    ∧ (∀ v, builder_parse h' b' v = builder_parse h b v)
    ∧ (∀ v, builder_serialize h' b' v = builder_serialize h b v).
Proof.
  intros Hb Hwo Hdom. unfold withOptions, withOptions_body.
  rewrite Hb. simpl. rewrite Hwo.
  destruct (alloc_spec h ((Poption <$> opts) ∪ o)) as [Hfresh Hstore].
  destruct (alloc h ((Poption <$> opts) ∪ o)) as [b' h'] eqn:Ha.
  simpl in Hfresh, Hstore. subst h'.
  assert (b ≠ b') as Hne by (intros ->; congruence).
  assert (∀ k, ((Poption <$> opts) ∪ o) !! k
               = match opts !! k with
                 | Some v => Some (Poption v)
                 | None => o !! k
                 end) as Hmerge.
  { intros k. rewrite lookup_union, lookup_fmap.
    destruct (opts !! k); simpl; [by destruct (o !! k) | by destruct (o !! k)]. }
  assert (∀ k, k ∉ Options_keys → opts !! k = None) as Hout.
  { intros k Hk. apply (not_elem_of_dom (D := gset string)). set_solver. }
  assert (opts !! "parse"%string = None) as Hparse
    by (apply Hout; apply (bool_decide_unpack _); by vm_compute).
  assert (opts !! "serialize"%string = None) as Hser
    by (apply Hout; apply (bool_decide_unpack _); by vm_compute).
  exists b', (<[b' := (Poption <$> opts) ∪ o]> h), ((Poption <$> opts) ∪ o).
  split; [done|]. split; [done|].
  split; [apply lookup_insert_eq|].
  split; [intros l Hl; by rewrite lookup_insert_ne|].
  split; [by rewrite lookup_insert_ne|].
  split; [exact Hmerge|].
  split; [by rewrite Hmerge, Hparse|].
  split; [by rewrite Hmerge, Hser|].
  split; intros v.
  - unfold builder_parse, call_parse. rewrite lookup_insert_eq, Hb. simpl.
    by rewrite Hmerge, Hparse.
  - unfold builder_serialize. rewrite lookup_insert_eq, Hb. simpl.
    by rewrite Hmerge, Hser.
Qed.

End builder_facts.

(** C10.  [parseServerSide] of a builder made by [createParser] hands
    [parse] the first element of an empty array, which is [undefined], and
    not the empty string; it hands [parse] the empty string for an input of
    [undefined].  So [parseAsString.parseServerSide([])] returns
    [undefined], and [parseAsString.parseServerSide(undefined)] the empty
    string. *)
Theorem parseServerSide_empty_array {T} (parser : Parser T) (h : store T) :
  let '(b, h') := createParser parser h in
  parseServerSide h' b (RawArray []) = parse parser None
  ∧ parseServerSide h' b RawUndefined = parse parser (Some [])
  ∧ (∀ hs : store jsstring,
       let '(s, hs') := parseAsString hs in
       parseServerSide hs' s (RawArray []) = Normal Undefined
       ∧ parseServerSide hs' s RawUndefined = Normal (Val [])).
Proof.
  pose proof (createParser_parseServerSide parser h) as Hps.
  destruct (createParser parser h) as [b h'].
  split; [apply (Hps (RawArray [])) | split; [apply (Hps RawUndefined) |]].
  intros hs. unfold parseAsString.
  pose proof (createParser_parseServerSide string_parser hs) as Hs.
  destruct (createParser string_parser hs) as [s hs'].
  split; [apply (Hs (RawArray [])) | apply (Hs RawUndefined)].
Qed.

Lemma withOptions_merges_witness :
  let h : store jsstring := <[1%positive := created string_parser]> ∅ in
  ∃ b' h' o',
    withOptions h 1%positive {["history"%string := OHistory push]} = Normal (b', h')
    ∧ h' !! 1%positive = Some (created string_parser)
    ∧ h' !! b' = Some o'
    ∧ o' !! "history"%string = Some (Poption (OHistory push))
    ∧ o' !! "parse"%string = Some (Pparse (parse string_parser)).
Proof.
  intros h.
  destruct (withOptions_merges h 1%positive (created string_parser)
              {["history"%string := OHistory push]})
    as (b' & h' & o' & Hw & _ & Hb' & _ & Hb & Hmerge & Hparse & _).
  - apply lookup_insert_eq.
  - apply created_withOptions.
  - apply (bool_decide_unpack _). by vm_compute.
  - exists b', h', o'. split; [exact Hw|]. split; [exact Hb|]. split; [exact Hb'|].
    split.
    + rewrite Hmerge. by rewrite lookup_singleton_eq.
    + rewrite Hparse. apply created_parse.
Defined.

(** * [parseServerSide] *)

(** C2.  [parseServerSide] of a builder made by [createParser] hands
    [parse] the first element of an array and the empty string for
    [undefined]; with the integer parser, ['1', '2'] gives 1.  It throws
    what [parse] throws, and the first element of an empty array is
    [undefined]: [parseAsArrayOf(parseAsString).parseServerSide([])] throws
    a TypeError. *)
Theorem parseServerSide_first_wins :
  (∀ T (parser : Parser T) (h : store T) x xs,
     let '(b, h') := createParser parser h in
     parseServerSide h' b (RawArray (x :: xs)) = parse parser (Some x)
     ∧ parseServerSide h' b (RawString x) = parse parser (Some x)
     ∧ parseServerSide h' b RawUndefined = parse parser (Some []))
  ∧ (∀ h : store number,
       let '(b, h') := parseAsInteger h in
       parseServerSide h' b (RawArray [js "1"; js "2"]) = Normal (Val (number_of_Z 1)))
  ∧ (∀ h : store (list jsstring),
       let '(b, h') := parseAsArrayOf string_parser (js ",") h in
       parseServerSide h' b (RawArray []) = Throw TypeError).
Proof.
  split; [|split].
  - intros T parser h x xs.
    pose proof (createParser_parseServerSide parser h) as Hps.
    destruct (createParser parser h) as [b h'].
    split; [apply (Hps (RawArray (x :: xs)))|].
    split; [apply (Hps (RawString x)) | apply (Hps RawUndefined)].
  - intros h. unfold parseAsInteger.
    pose proof (createParser_parseServerSide integer_parser h) as Hps.
    destruct (createParser integer_parser h) as [b h'].
    rewrite Hps. by vm_compute.
  - intros h. unfold parseAsArrayOf.
    pose proof (createParser_parseServerSide
                  (arrayOf_parser string_parser (js ",")) h) as Hps.
    destruct (createParser (arrayOf_parser string_parser (js ",")) h) as [b h'].
    rewrite Hps. reflexivity.
Qed.

(** * Decode failures *)

(** C4.  Two inputs on which [parse] of a parser of the library does not
    return [null]: [parseAsArrayOf(parseAsString).parse('%')] throws the
    URIError of [decodeURIComponent], and [parseAsTimestamp.parse('abc')]
    returns a Date whose time value is [NaN]. *)
Theorem parse_decode_failures :
  (∀ h : store (list jsstring),
     let '(b, h') := parseAsArrayOf string_parser (js ",") h in
     builder_parse h' b (Some (js "%")) = Throw URIError)
  ∧ (∀ h : store Date,
       let '(b, h') := parseAsTimestamp h in
       builder_parse h' b (Some (js "abc")) = Normal (Val {| DateValue := NaN |})).
Proof.
  split; intros h.
  - unfold parseAsArrayOf.
    pose proof (createParser_parse (arrayOf_parser string_parser (js ",")) h) as Hp.
    destruct (createParser _ h) as [b h']. rewrite Hp. by vm_compute.
  - unfold parseAsTimestamp.
    pose proof (createParser_parse timestamp_parser h) as Hp.
    destruct (createParser _ h) as [b h']. rewrite Hp. by vm_compute.
Qed.

(** * [parseAsJson] *)

(** C7.  When the query URI-decodes and the text is JSON, and the validator
    throws on the value, [parseAsJson(validator).parse] returns [null]: the
    exception does not reach the caller. *)
Theorem parseAsJson_validator_throws (validator : value → completion value)
    (h : store value) (query text : jsstring) (obj : value) (e : exn) :
  decodeURIComponent (Some query) = Normal text →
  JSON_parse text = Normal obj →
  validator obj = Throw e →
  let '(b, h') := parseAsJson (Some validator) h in
  builder_parse h' b (Some query) = Normal Null.
Proof.
  intros Hd Hj Hv. unfold parseAsJson.
  pose proof (createParser_parse (json_parser (Some validator)) h) as Hp.
  destruct (createParser _ h) as [b h']. rewrite Hp. simpl.
  rewrite Hd. simpl. rewrite Hj. simpl. rewrite Hv. reflexivity.
Qed.

Lemma parseAsJson_validator_throws_witness :
  decodeURIComponent (Some (js "%5B1%5D")) = Normal (js "[1]")
  ∧ JSON_parse (js "[1]") = Normal (VArray [VNumber (number_of_Z 1)])
  ∧ let '(b, h') := parseAsJson (Some (λ _, Throw (Thrown (js "invalid")))) ∅ in
    builder_parse h' b (Some (js "%5B1%5D")) = Normal Null.
Proof.
  split; [by vm_compute|]. split; [by vm_compute|].
  apply (parseAsJson_validator_throws (λ _, Throw (Thrown (js "invalid"))) ∅
           (js "%5B1%5D") (js "[1]") (VArray [VNumber (number_of_Z 1)])
           (Thrown (js "invalid"))); by vm_compute.
Defined.

(** * [parseAsArrayOf]: parse *)

Lemma map_completion_Forall2 {A B} (f : A → completion B) xs ys :
  map_completion f xs = Normal ys ↔ Forall2 (λ x y, f x = Normal y) xs ys.
Proof.
  revert ys. induction xs as [|x xs IH]; intros ys; simpl.
  - split; [intros [= <-]; constructor | by inversion 1].
  - split.
    + destruct (f x) as [y|] eqn:Hx; simpl; [|done].
      destruct (map_completion f xs) as [ys'|] eqn:Hxs; simpl; [|done].
      intros [= <-]. constructor; [done | by apply IH].
    + inversion 1 as [|? y ? ys' Hx Hxs]; subst.
      rewrite Hx. simpl. apply IH in Hxs. by rewrite Hxs.
Qed.

Lemma map_completion_throws {A B} (f : A → completion B) xs x e :
  x ∈ xs → f x = Throw e → ∃ e', map_completion f xs = Throw e'.
Proof.
  induction xs as [|x' xs IH]; intros Hin Hx; [by apply elem_of_nil in Hin|].
  simpl. apply elem_of_cons in Hin as [<- | Hin].
  - rewrite Hx. by eexists.
  - destruct (f x'); simpl; [|by eexists].
    destruct (IH Hin Hx) as [e' ->]. by eexists.
Qed.

Lemma filter_nullish_spec {T} (rs : list (nullable T)) :
  Val <$> filter_nullish rs = List.filter not_nullish rs.
Proof.
  induction rs as [|[| |v] rs IH]; simpl; [done..|]. by rewrite <- IH.
Qed.

Lemma arrayOf_parse_nonempty {ItemType} `{!Template ItemType}
    (itemParser : Parser ItemType) (separator query : jsstring) :
  query ≠ [] →
  parse (arrayOf_parser itemParser separator) (Some query) =
    (decoded ← map_completion (λ item, decodeURIComponent (Some item))
                 (split query separator);
     parsed ← map_completion (λ item, parse itemParser (Some item)) decoded;
     Normal (Val (filter_nullish parsed))).
Proof.
  intros Hne. unfold arrayOf_parser, arrayOf_parse, parse.
  assert (str_eqb query [] = false) as ->
    by (unfold str_eqb; by apply bool_decide_eq_false).
  reflexivity.
Qed.

(** C6.  [parseAsArrayOf(itemParser, separator).parse('')] returns the
    empty array, where [''.split(separator)] has one piece.  For another
    query, with the pieces of [query.split(separator)], what
    [decodeURIComponent] makes of each and what [itemParser.parse] makes of
    each of those, [parse] returns the results that are neither [null] nor
    [undefined], in their order; it throws when [decodeURIComponent] or
    [itemParser.parse] throws on a piece. *)
Theorem arrayOf_parse_pipeline {ItemType} `{!Template ItemType}
    (itemParser : Parser ItemType) (separator : jsstring)
    (h : store (list ItemType)) :
  let '(b, h') := parseAsArrayOf itemParser separator h in
  builder_parse h' b (Some []) = Normal (Val [])
  ∧ (separator ≠ [] → split [] separator = [[]])
  ∧ ∀ query : jsstring, query ≠ [] →
      (∀ decoded parsed,
         Forall2 (λ item d, decodeURIComponent (Some item) = Normal d)
           (split query separator) decoded →
         Forall2 (λ d r, parse itemParser (Some d) = Normal r) decoded parsed →
         ∃ values,
           builder_parse h' b (Some query) = Normal (Val values)
           ∧ Val <$> values = List.filter not_nullish parsed)
      ∧ (∀ item e,
           item ∈ split query separator →
           decodeURIComponent (Some item) = Throw e →
           ∃ e', builder_parse h' b (Some query) = Throw e')
      ∧ (∀ decoded d e,
           Forall2 (λ item d, decodeURIComponent (Some item) = Normal d)
             (split query separator) decoded →
           d ∈ decoded →
           parse itemParser (Some d) = Throw e →
           ∃ e', builder_parse h' b (Some query) = Throw e').
Proof.
  unfold parseAsArrayOf.
  pose proof (createParser_parse (arrayOf_parser itemParser separator) h) as Hp.
  destruct (createParser _ h) as [b h'].
  split; [by rewrite Hp|].
  split; [by destruct separator|].
  intros query Hne. rewrite Hp.
  rewrite (arrayOf_parse_nonempty itemParser separator query Hne).
  split; [|split].
  - intros decoded parsed Hd Hr.
    apply (map_completion_Forall2 (λ item, decodeURIComponent (Some item))) in Hd.
    apply (map_completion_Forall2 (λ item, parse itemParser (Some item))) in Hr.
    rewrite Hd. simpl. rewrite Hr. simpl.
    eexists. split; [reflexivity | apply filter_nullish_spec].
  - intros item e Hin He.
    destruct (map_completion_throws (λ item, decodeURIComponent (Some item))
                _ _ _ Hin He) as [e' ->].
    by eexists.
  - intros decoded d e Hd Hin He.
    apply (map_completion_Forall2 (λ item, decodeURIComponent (Some item))) in Hd.
    rewrite Hd. simpl.
    destruct (map_completion_throws (λ item, parse itemParser (Some item))
                _ _ _ Hin He) as [e' ->].
    by eexists.
Qed.

Lemma arrayOf_parse_pipeline_witness :
  let '(b, h') := parseAsArrayOf integer_parser (js ",") ∅ in
  builder_parse h' b (Some (js "1,x,%32"))
  = Normal (Val [number_of_Z 1; number_of_Z 2]).
Proof.
  pose proof (arrayOf_parse_pipeline integer_parser (js ",") ∅) as H.
  destruct (parseAsArrayOf integer_parser (js ",") ∅) as [b h'].
  destruct H as (_ & _ & H).
  destruct (H (js "1,x,%32")) as (H1 & _); [done|].
  destruct (H1 [js "1"; js "x"; js "2"]
              [Val (number_of_Z 1); Null; Val (number_of_Z 2)])
    as (values & Hb & Hv).
  - repeat constructor.
  - repeat constructor.
  - etrans; [exact Hb|].
    destruct values as [|x [|y [|z values]]]; try discriminate Hv.
    by injection Hv as -> ->.
Defined.

(** * Unicode *)

(** Boolean tests on integers, read as propositions. *)
Ltac Zbool :=
  repeat match goal with
    | H : _ && _ = true |- _ => apply andb_true_iff in H as [? ?]
    | H : _ || _ = false |- _ => apply orb_false_iff in H as [? ?]
    | H : _ && _ = false |- _ => apply andb_false_iff in H as [?|?]
    | H : _ || _ = true |- _ => apply orb_true_iff in H as [?|?]
    | H : negb _ = true |- _ => apply negb_true_iff in H
    | H : negb _ = false |- _ => apply negb_false_iff in H
    | H : (_ <=? _) = true |- _ => apply Z.leb_le in H
    | H : (_ <=? _) = false |- _ => apply Z.leb_gt in H
    | H : (_ <? _) = true |- _ => apply Z.ltb_lt in H
    | H : (_ <? _) = false |- _ => apply Z.ltb_ge in H
    | H : (_ =? _) = true |- _ => apply Z.eqb_eq in H
    | H : (_ =? _) = false |- _ => apply Z.eqb_neq in H
    end.

(** Linear arithmetic with division and remainder by constants. *)
Ltac zdiv := Z.to_euclidean_division_equations; lia.

Lemma is_lead_surrogate_spec c :
  is_lead_surrogate c = true ↔ 0xD800 <= c <= 0xDBFF.
Proof. unfold is_lead_surrogate. rewrite andb_true_iff, !Z.leb_le. tauto. Qed.

Lemma is_trail_surrogate_spec c :
  is_trail_surrogate c = true ↔ 0xDC00 <= c <= 0xDFFF.
Proof. unfold is_trail_surrogate. rewrite andb_true_iff, !Z.leb_le. tauto. Qed.

Lemma surrogate_pair_round_trip c c2 :
  is_lead_surrogate c = true → is_trail_surrogate c2 = true →
  UTF16EncodeCodePoint (surrogate_pair_code_point c c2) = [c; c2].
Proof.
  rewrite is_lead_surrogate_spec, is_trail_surrogate_spec. intros Hc Hc2.
  unfold UTF16EncodeCodePoint, surrogate_pair_code_point.
  assert (((c - 55296) * 1024 + (c2 - 56320) + 65536 <=? 65535) = false) as ->
    by (apply Z.leb_gt; lia).
  replace ((c - 55296) * 1024 + (c2 - 56320) + 65536 - 65536)
    with ((c2 - 56320) + (c - 55296) * 1024) by lia.
  rewrite Z.div_add, Z.mod_add by lia.
  rewrite Z.div_small, Z.mod_small by lia.
  f_equal; [lia | f_equal; lia].
Qed.

(** A string with every surrogate in a pair is its own USVString. *)
Lemma usv_string_well_formed s : well_formed s = true → usv_string s = s.
Proof.
  unfold usv_string.
  assert (∀ n s, (length s < n)%nat → well_formed s = true →
                 concat (map UTF16EncodeCodePoint (code_points s)) = s) as H.
  { clear s. induction n as [|n IH]; intros s Hlen Hwf; [lia|].
    destruct s as [|c rest]; [done|]. simpl in Hwf |- *.
    apply andb_true_iff in Hwf as [Hrange Hwf].
    destruct (is_lead_surrogate c) eqn:Hlead.
    - destruct rest as [|c2 rest']; [done|].
      apply andb_true_iff in Hwf as [Htrail Hwf]. rewrite Htrail. simpl.
      rewrite surrogate_pair_round_trip by done. simpl.
      f_equal. f_equal. apply IH; [simpl in Hlen; lia | done].
    - apply andb_true_iff in Hwf as [Htrail Hwf].
      apply negb_true_iff in Htrail. rewrite Htrail. simpl.
      unfold UTF16EncodeCodePoint at 1.
      Zbool. assert ((c <=? 65535) = true) as -> by (apply Z.leb_le; lia).
      simpl. f_equal. apply IH; [simpl in Hlen; lia | done]. }
  apply (H (S (length s))). lia.
Qed.

(** * URI components: decoding what was encoded *)

Lemma lor_add a n x : 0 <= n → 0 <= x < 2 ^ n → Z.lor (a * 2 ^ n) x = a * 2 ^ n + x.
Proof.
  intros Hn Hx. rewrite <- Z.add_lor_land.
  assert (Z.land (a * 2 ^ n) x = 0) as ->; [|lia].
  apply Z.bits_inj'. intros i Hi. rewrite Z.land_spec, Z.bits_0.
  destruct (Z.lt_ge_cases i n).
  - rewrite Z.mul_pow2_bits_low by lia. done.
  - destruct (Z.eq_dec x 0) as [->|]; [by rewrite Z.bits_0, andb_false_r|].
    rewrite (Z.bits_above_log2 x i), andb_false_r; [done|lia|].
    apply Z.log2_lt_pow2; [lia|]. 
    assert (2 ^ n <= 2 ^ i) by (apply Z.pow_le_mono_r; lia). lia.
Qed.

Lemma digit_value_hex_digit d :
  0 <= d < 16 → digit_value 16 (hex_digit d) = Some d.
Proof.
  intros Hd. unfold digit_value, hex_digit.
  repeat (case_match; Zbool; try lia); f_equal; lia.
Qed.

Lemma hex_octet_percent B :
  0 <= B < 256 → hex_octet (hex_digit (B / 16)) (hex_digit (B mod 16)) = Some B.
Proof.
  intros HB. unfold hex_octet.
  rewrite !digit_value_hex_digit by zdiv.
  f_equal. zdiv.
Qed.

Lemma utf8_octets_arith cp :
  0 <= cp < 0x110000 →
  utf8_octets cp =
    if cp <? 0x80 then [cp]
    else if cp <? 0x800 then [0xC0 + cp / 64; 0x80 + cp mod 64]
    else if cp <? 0x10000 then
      [0xE0 + cp / 4096; 0x80 + cp / 64 mod 64; 0x80 + cp mod 64]
    else [0xF0 + cp / 262144; 0x80 + cp / 4096 mod 64; 0x80 + cp / 64 mod 64;
          0x80 + cp mod 64].
Proof.
  intros Hcp. unfold utf8_octets.
  change 0x3F with (Z.ones 6).
  rewrite !Z.land_ones, !Z.shiftr_div_pow2 by lia.
  change (2 ^ 6) with 64. change (2 ^ 12) with 4096. change (2 ^ 18) with 262144.
  assert (∀ x, 0 <= x < 64 → Z.lor 0x80 x = 0x80 + x) as H80
    by (intros x Hx; apply (lor_add 2 6); lia).
  assert (∀ x, 0 <= x < 32 → Z.lor 0xC0 x = 0xC0 + x) as HC0
    by (intros x Hx; apply (lor_add 6 5); lia).
  assert (∀ x, 0 <= x < 16 → Z.lor 0xE0 x = 0xE0 + x) as HE0
    by (intros x Hx; apply (lor_add 14 4); lia).
  assert (∀ x, 0 <= x < 8 → Z.lor 0xF0 x = 0xF0 + x) as HF0
    by (intros x Hx; apply (lor_add 30 3); lia).
  repeat case_match; Zbool; try lia.
  - reflexivity.
  - rewrite HC0, H80; [done| |]; zdiv.
  - rewrite HE0, !H80; [done| | |]; zdiv.
  - rewrite HF0, !H80; [done| | | |]; zdiv.
Qed.

Lemma Decode_loop_escape fuel B s :
  0 <= B < 256 →
  Decode_loop (S fuel) (percent_octet B ++ s) =
    if leading_ones B =? 0 then R ← Decode_loop fuel s; Normal (B :: R)
    else if (leading_ones B =? 1) || (4 <? leading_ones B) then Throw URIError
    else
      match continuation_octets (Z.to_nat (leading_ones B - 1)) s with
      | Some (Octets, rest'') =>
          match utf8_code_point (leading_ones B) B Octets with
          | Some V => R ← Decode_loop fuel rest''; Normal (UTF16EncodeCodePoint V ++ R)
          | None => Throw URIError
          end
      | None => Throw URIError
      end.
Proof.
  intros HB. unfold percent_octet. cbn [app Decode_loop].
  rewrite Z.eqb_refl. by rewrite hex_octet_percent.
Qed.

Ltac reduce_count n k :=
  change (n =? 0) with false; change ((n =? 1) || (4 <? n)) with false;
  change (Z.to_nat (n - 1)) with k; cbv iota.

Lemma continuation_octets_percent j B s :
  0 <= B < 256 →
  continuation_octets (S j) (percent_octet B ++ s) =
    match continuation_octets j s with
    | Some (Bs, rest') => Some (B :: Bs, rest')
    | None => None
    end.
Proof.
  intros HB. unfold percent_octet. cbn [app continuation_octets].
  rewrite Z.eqb_refl. by rewrite hex_octet_percent.
Qed.

Lemma Decode_code_point fuel cp rest :
  0 <= cp < 0x110000 → ¬ (0xD800 <= cp <= 0xDFFF) →
  Decode_loop (S fuel) (concat (map percent_octet (utf8_octets cp)) ++ rest) =
    (R ← Decode_loop fuel rest; Normal (UTF16EncodeCodePoint cp ++ R)).
Proof.
  intros Hcp Hsur. rewrite utf8_octets_arith by done.
  assert (0x1F = Z.ones 5) as H1F by done.
  assert (0x0F = Z.ones 4) as H0F by done.
  assert (0x07 = Z.ones 3) as H07 by done.
  assert (0x3F = Z.ones 6) as H3F by done.
  repeat case_match; Zbool; cbn [map concat]; rewrite ?app_nil_r, <- ?app_assoc.
  - rewrite Decode_loop_escape by lia.
    assert (leading_ones cp = 0) as -> by (unfold leading_ones; repeat case_match; Zbool; lia).
    cbn [Z.eqb]. unfold UTF16EncodeCodePoint.
    assert ((cp <=? 65535) = true) as -> by (apply Z.leb_le; lia). done.
  - rewrite Decode_loop_escape by zdiv.
    assert (leading_ones (192 + cp / 64) = 2) as ->
      by (unfold leading_ones; repeat case_match; Zbool; zdiv).
    reduce_count 2 1%nat.
    rewrite continuation_octets_percent by zdiv. cbn [continuation_octets].
    unfold utf8_code_point. cbn [forallb]. unfold is_continuation.
    rewrite H1F, H3F, !Z.land_ones by lia.
    assert ((128 <=? 128 + cp mod 64) && (128 + cp mod 64 <=? 191) && true = true) as ->
      by (rewrite andb_true_r; apply andb_true_iff; split; apply Z.leb_le; zdiv).
    replace ((192 + cp / 64) mod 2 ^ 5 * 64 + (128 + cp mod 64) mod 2 ^ 6) with cp by zdiv.
    change (2 =? 2) with true. cbn [andb].
    assert ((128 <=? cp) = true) as -> by (apply Z.leb_le; lia). done.
  - rewrite Decode_loop_escape by zdiv.
    assert (leading_ones (224 + cp / 4096) = 3) as ->
      by (unfold leading_ones; repeat case_match; Zbool; zdiv).
    reduce_count 3 2%nat.
    rewrite !continuation_octets_percent by zdiv. cbn [continuation_octets].
    unfold utf8_code_point. cbn [forallb]. unfold is_continuation.
    rewrite H0F, H3F, !Z.land_ones by lia.
    assert ((128 <=? 128 + cp / 64 mod 64) && (128 + cp / 64 mod 64 <=? 191)
            && ((128 <=? 128 + cp mod 64) && (128 + cp mod 64 <=? 191) && true) = true) as ->
      by (rewrite andb_true_r, !andb_true_iff, !Z.leb_le; zdiv).
    replace ((224 + cp / 4096) mod 2 ^ 4 * 4096 + (128 + cp / 64 mod 64) mod 2 ^ 6 * 64
             + (128 + cp mod 64) mod 2 ^ 6) with cp by zdiv.
    change (3 =? 3) with true. cbn [andb].
    assert ((2048 <=? cp) = true) as -> by (apply Z.leb_le; lia).
    assert (negb ((55296 <=? cp) && (cp <=? 57343)) = true) as ->.
    { apply negb_true_iff, andb_false_iff. rewrite Z.leb_gt, Z.leb_gt. lia. }
    done.
  - rewrite Decode_loop_escape by zdiv.
    assert (leading_ones (240 + cp / 262144) = 4) as ->
      by (unfold leading_ones; repeat case_match; Zbool; zdiv).
    reduce_count 4 3%nat.
    rewrite !continuation_octets_percent by zdiv. cbn [continuation_octets].
    unfold utf8_code_point. cbn [forallb]. unfold is_continuation.
    rewrite H07, H3F, !Z.land_ones by lia.
    assert ((128 <=? 128 + cp / 4096 mod 64) && (128 + cp / 4096 mod 64 <=? 191)
            && ((128 <=? 128 + cp / 64 mod 64) && (128 + cp / 64 mod 64 <=? 191)
            && ((128 <=? 128 + cp mod 64) && (128 + cp mod 64 <=? 191) && true)) = true) as ->
      by (rewrite andb_true_r, !andb_true_iff, !Z.leb_le; zdiv).
    replace ((240 + cp / 262144) mod 2 ^ 3 * 262144 + (128 + cp / 4096 mod 64) mod 2 ^ 6 * 4096
             + (128 + cp / 64 mod 64) mod 2 ^ 6 * 64
             + (128 + cp mod 64) mod 2 ^ 6) with cp by zdiv.
    change (4 =? 4) with true. cbn [andb].
    assert ((65536 <=? cp) = true) as -> by (apply Z.leb_le; lia).
    assert ((cp <=? 1114111) = true) as -> by (apply Z.leb_le; lia).
    done.
Qed.

Lemma hex_digit_unescaped d : 0 <= d < 16 → uri_unescaped (hex_digit d) = true.
Proof.
  intros Hd. unfold uri_unescaped, hex_digit.
  case_match; Zbool.
  - assert ((48 <=? 48 + d) && (48 + d <=? 57) = true) as ->; [|done].
    apply andb_true_iff. rewrite !Z.leb_le. lia.
  - assert ((65 <=? 55 + d) && (55 + d <=? 90) = true) as ->; [|by rewrite orb_true_r].
    apply andb_true_iff. rewrite !Z.leb_le. lia.
Qed.

Lemma percent_octet_chars B : 0 <= B < 256 → Forall uri_char (percent_octet B).
Proof.
  intros HB. unfold percent_octet.
  apply Forall_cons_2; [by right|].
  apply Forall_cons_2; [left; apply hex_digit_unescaped; zdiv|].
  apply Forall_cons_2; [left; apply hex_digit_unescaped; zdiv|].
  apply Forall_nil_2.
Qed.

Lemma escaped_code_point_chars cp :
  0 <= cp < 0x110000 →
  Forall uri_char (concat (map percent_octet (utf8_octets cp))).
Proof.
  intros Hcp. rewrite utf8_octets_arith by done.
  repeat case_match; Zbool; cbn [map concat]; rewrite ?app_nil_r;
    repeat (apply Forall_app; split); apply percent_octet_chars; zdiv.
Qed.

Lemma escaped_code_point_length cp :
  (1 <= length (concat (map percent_octet (utf8_octets cp))))%nat.
Proof.
  unfold utf8_octets. repeat case_match; simpl; lia.
Qed.

(** [decodeURIComponent] undoes [encodeURIComponent] on a well-formed
    string; the encoded text has unescaped characters and [%] only. *)
Lemma Encode_Decode s :
  well_formed s = true →
  ∃ enc, Encode s = Normal enc
         ∧ (∀ fuel, (length enc <= fuel)%nat → Decode_loop fuel enc = Normal s)
         ∧ Forall uri_char enc
         ∧ (s ≠ [] → enc ≠ []).
Proof.
  assert (∀ n s, (length s < n)%nat → well_formed s = true →
            ∃ enc, Encode s = Normal enc
              ∧ (∀ fuel, (length enc <= fuel)%nat → Decode_loop fuel enc = Normal s)
              ∧ Forall uri_char enc ∧ (s ≠ [] → enc ≠ [])) as H.
  { clear s. induction n as [|n IH]; intros s Hlen Hwf; [lia|].
    destruct s as [|c rest].
    { exists []. repeat split; [by intros [|?] | constructor | done]. }
    cbn [well_formed] in Hwf. apply andb_true_iff in Hwf as [Hrange Hwf].
    cbn [Encode]. destruct (uri_unescaped c) eqn:Hun.
    - assert (is_lead_surrogate c = false) as Hl.
      { unfold uri_unescaped in Hun. unfold is_lead_surrogate.
        apply andb_false_iff. rewrite !Z.leb_gt. Zbool; lia. }
      rewrite Hl in Hwf. apply andb_true_iff in Hwf as [_ Hwf].
      destruct (IH rest) as (enc & -> & Hdec & Hchars & _); [simpl in Hlen; lia | done |].
      exists (c :: enc). split; [done|]. split; [|split; [by constructor; [left|] | done]].
      intros [|fuel] Hfuel; [simpl in Hfuel; lia|]. cbn [Decode_loop].
      assert ((c =? 37) = false) as ->.
      { apply Z.eqb_neq. intros ->. by vm_compute in Hun. }
      rewrite Hdec by (simpl in Hfuel; lia). done.
    - destruct (is_lead_surrogate c) eqn:Hl.
      + destruct rest as [|c2 rest']; [done|].
        apply andb_true_iff in Hwf as [Ht Hwf]. rewrite Ht.
        destruct (IH rest') as (enc & -> & Hdec & Hchars & _); [simpl in Hlen; lia | done |].
        pose proof Hl as Hl'. pose proof Ht as Ht'.
        apply is_lead_surrogate_spec in Hl'. apply is_trail_surrogate_spec in Ht'.
        assert (0x10000 <= surrogate_pair_code_point c c2 < 0x110000) as Hcp
          by (unfold surrogate_pair_code_point; lia).
        eexists. split; [reflexivity|]. split; [|split].
        * intros [|fuel] Hfuel.
          { pose proof (escaped_code_point_length (surrogate_pair_code_point c c2)).
            rewrite length_app in Hfuel. lia. }
          rewrite Decode_code_point by lia.
          rewrite Hdec.
          -- cbn. by rewrite surrogate_pair_round_trip.
          -- pose proof (escaped_code_point_length (surrogate_pair_code_point c c2)).
             rewrite length_app in Hfuel. lia.
        * apply Forall_app. split; [apply escaped_code_point_chars; lia | done].
        * intros _ Hnil. apply (f_equal length) in Hnil. rewrite length_app in Hnil.
          pose proof (escaped_code_point_length (surrogate_pair_code_point c c2)).
          simpl in Hnil. lia.
      + apply andb_true_iff in Hwf as [Ht Hwf]. apply negb_true_iff in Ht. rewrite Ht.
        destruct (IH rest) as (enc & -> & Hdec & Hchars & _); [simpl in Hlen; lia | done |].
        assert (0 <= c < 0x10000) as Hc by (Zbool; lia).
        assert (¬ (0xD800 <= c <= 0xDFFF)) as Hns.
        { unfold is_lead_surrogate, is_trail_surrogate in Hl, Ht. Zbool; lia. }
        eexists. split; [reflexivity|]. split; [|split].
        * intros [|fuel] Hfuel.
          { pose proof (escaped_code_point_length c).
            rewrite length_app in Hfuel. lia. }
          rewrite Decode_code_point by lia.
          rewrite Hdec.
          -- cbn. unfold UTF16EncodeCodePoint.
             assert ((c <=? 65535) = true) as -> by (apply Z.leb_le; lia). done.
          -- pose proof (escaped_code_point_length c).
             rewrite length_app in Hfuel. lia.
        * apply Forall_app. split; [apply escaped_code_point_chars; lia | done].
        * intros _ Hnil. apply (f_equal length) in Hnil. rewrite length_app in Hnil.
          pose proof (escaped_code_point_length c).
          simpl in Hnil. lia. }
  intros Hwf. apply (H (S (length s))); [lia | done].
Qed.

Lemma decodeURIComponent_encodeURIComponent s :
  well_formed s = true →
  ∃ enc, encodeURIComponent (Some s) = Normal enc
         ∧ decodeURIComponent (Some enc) = Normal s
         ∧ Forall uri_char enc
         ∧ (s ≠ [] → enc ≠ []).
Proof.
  intros Hwf. destruct (Encode_Decode s Hwf) as (enc & He & Hd & Hc & Hn).
  exists enc. split; [done|]. split; [|done]. apply Hd. simpl. lia.
Qed.

(** * The testing adapter *)

(** C9.  [updateUrl] of the adapter calls the [onUrlUpdate] callback of the
    props, when there is one, once with the event of the search params it
    was given, their rendered query string and the options it was given;
    with a callback that records its events, a sequence of [updateUrl] calls
    leaves the sequence of their events.  The adapter's [searchParams] are
    [new URLSearchParams(props.searchParams)]: the pairs of a
    [URLSearchParams] instance, the entries of an object (of well-formed
    strings), the pairs a string is parsed to (['?q=hello'] gives [q]
    with value [hello]), none when the prop is absent. *)
Theorem testing_adapter_reports {AdapterOptions Queue Children : Type}
    (renderQueryString : URLSearchParams → jsstring)
    (resetQueue : Queue → Queue) :
  (∀ (World : Type) (props : @TestingAdapterProps AdapterOptions World Children)
     search (opts : AdapterOptions) (w : World),
     updateUrl (useAdapter renderQueryString props) search opts w
     = match onUrlUpdate props with
       | Some callback =>
           callback {| searchParams := search;
                       queryString := renderQueryString search;
                       options := opts |} w
       | None => w
       end)
  ∧ (∀ (props : @TestingAdapterProps AdapterOptions
                    (list (@UrlUpdateEvent AdapterOptions)) Children)
       (calls : list (URLSearchParams * AdapterOptions)),
       onUrlUpdate props = Some (λ event log, log ++ [event]) →
       fold_left (λ log call,
                    updateUrl (useAdapter renderQueryString props)
                      call.1 call.2 log) calls []
       = map (λ call, {| searchParams := call.1;
                         queryString := renderQueryString call.1;
                         options := call.2 |}) calls)
  ∧ (∀ (World : Type) (props : @TestingAdapterProps AdapterOptions World Children)
       (queue : Queue),
       provided_useAdapter
         (NuqsTestingAdapter renderQueryString resetQueue props queue).1
       = useAdapter renderQueryString props
       ∧ adapter_searchParams (useAdapter renderQueryString props)
         = new_URLSearchParams (props_searchParams props))
  ∧ (∀ params, new_URLSearchParams (Some (InitParams params)) = params)
  ∧ (∀ entries,
       Forall (λ kv, well_formed kv.1 = true ∧ well_formed kv.2 = true) entries →
       new_URLSearchParams (Some (InitRecord entries)) = entries)
  ∧ new_URLSearchParams (Some (InitString (js "?q=hello"))) = [(js "q", js "hello")]
  ∧ new_URLSearchParams (Some (InitString (js "a=1&b=x%20y&a=2")))
    = [(js "a", js "1"); (js "b", js "x y"); (js "a", js "2")]
  ∧ new_URLSearchParams None = [].
Proof.
  split; [|split; [|split; [|split; [|split; [|split; [|split]]]]]].
  - intros World props search opts w. simpl. by destruct (onUrlUpdate props).
  - intros props calls Hcb.
    assert (∀ log,
              fold_left (λ log call,
                           updateUrl (useAdapter renderQueryString props)
                             call.1 call.2 log) calls log
              = log ++ map (λ call, {| searchParams := call.1;
                                       queryString := renderQueryString call.1;
                                       options := call.2 |}) calls) as H.
    { induction calls as [|call calls IH]; intros log; simpl.
      - by rewrite app_nil_r.
      - rewrite IH, Hcb. by rewrite <- app_assoc. }
    apply (H []).
  - intros World props queue. split; reflexivity.
  - reflexivity.
  - intros entries Hwf. simpl.
    induction Hwf as [|[k v] entries [Hk Hv] _ IH]; [done|]. simpl in *.
    by rewrite IH, !usv_string_well_formed.
  - by vm_compute.
  - by vm_compute.
  - reflexivity.
Qed.

(** * [parseAsArrayOf]: serialize, then parse *)

Lemma split_scan_single_end c item cur :
  c ∉ item → split_scan [c] item O cur = [rev cur ++ item].
Proof.
  revert cur. induction item as [|x item IH]; intros cur Hc; simpl.
  - by rewrite app_nil_r.
  - apply not_elem_of_cons in Hc as [Hx Hc].
    assert ((c =? x) = false) as -> by (apply Z.eqb_neq; congruence). simpl.
    rewrite IH by done. simpl. by rewrite <- app_assoc.
Qed.

Lemma split_scan_single_sep c item cur rest :
  c ∉ item →
  split_scan [c] (item ++ c :: rest) O cur
  = (rev cur ++ item) :: split_scan [c] rest O [].
Proof.
  revert cur. induction item as [|x item IH]; intros cur Hc; simpl.
  - rewrite Z.eqb_refl. simpl. by rewrite app_nil_r.
  - apply not_elem_of_cons in Hc as [Hx Hc].
    assert ((c =? x) = false) as -> by (apply Z.eqb_neq; congruence). simpl.
    rewrite IH by done. simpl. by rewrite <- app_assoc.
Qed.

(** Splitting what was joined with a one-character separator that is in no
    item gives the items back. *)
Lemma split_join c items :
  items ≠ [] → Forall (λ item, c ∉ item) items →
  split (join [c] items) [c] = items.
Proof.
  intros Hne Hall. unfold split.
  induction Hall as [|item items Hc Hall IH]; [done|].
  destruct items as [|item' items].
  - simpl. by rewrite split_scan_single_end.
  - change (join [c] (item :: item' :: items))
      with (item ++ c :: join [c] (item' :: items)).
    rewrite split_scan_single_sep by done. simpl. f_equal. by apply IH.
Qed.

Lemma join_nil_inv c items : join [c] items = [] → items = [] ∨ items = [[]].
Proof.
  destruct items as [|x [|y rest]]; simpl; [by left | intros ->; by right |].
  intros H. apply (f_equal length) in H. rewrite length_app in H. simpl in H. lia.
Qed.

Lemma filter_nullish_Val {T} (vs : list T) : filter_nullish (Val <$> vs) = vs.
Proof. induction vs; simpl; [done | by f_equal]. Qed.

Section arrayOf_round_trip.
Context {ItemType : Type} `{!Template ItemType}.
Variable itemParser : Parser ItemType.

Lemma arrayOf_round_trip (c : Z) (values : list ItemType) :
  uri_unescaped c = false → c ≠ 37 →
  Forall (item_round_trips itemParser) values →
  ∃ texts joined,
    Forall2 (λ value text, item_text itemParser value = Normal text) values texts
    ∧ arrayOf_serialize itemParser [c] values = Normal joined
    ∧ (joined = [] ↔ values = [] ∨ texts = [[]])
    ∧ (values = [] ∨ texts ≠ [[]] →
       arrayOf_parse itemParser [c] (Some joined) = Normal (Val values)).
Proof.
  intros Hc Hc' Hall.
  assert (∃ texts encs,
            Forall2 (λ value text, item_text itemParser value = Normal text) values texts
            ∧ Forall2 (λ text enc, encodeURIComponent (Some text) = Normal enc) texts encs
            ∧ Forall2 (λ enc text, decodeURIComponent (Some enc) = Normal text) encs texts
            ∧ Forall2 (λ text r, parse itemParser (Some text) = Normal r) texts (Val <$> values)
            ∧ Forall (λ enc, c ∉ enc) encs
            ∧ Forall2 (λ text enc, text = [] ↔ enc = []) texts encs)
    as (texts & encs & Ht & He & Hd & Hp & Hsep & Hnil).
  { induction Hall as [|value values (text & Htext & Hwf & Hparse) _
                         (texts & encs & Ht & He & Hd & Hp & Hsep & Hnil)].
    - exists [], []. split_and!; simpl; constructor.
    - destruct (decodeURIComponent_encodeURIComponent text Hwf)
        as (enc & Henc & Hdec & Hchars & Hne).
      exists (text :: texts), (enc :: encs).
      split_and!; try (by constructor).
      + constructor; [|done]. intros Hin.
        rewrite Forall_forall in Hchars.
        destruct (Hchars c Hin) as [Hun | ->]; congruence.
      + constructor; [|done]. split; [intros ->|intros ->].
        * by vm_compute in Henc; injection Henc as <-.
        * destruct text; [done|]. by destruct Hne.
  }
  exists texts, (join [c] encs).
  assert (arrayOf_serialize itemParser [c] values = Normal (join [c] encs)) as Hser.
  { unfold arrayOf_serialize.
    apply (map_completion_Forall2 (item_text itemParser)) in Ht.
    unfold item_text in Ht. rewrite Ht. simpl.
    apply (map_completion_Forall2 (λ item, encodeURIComponent (Some item))) in He.
    by rewrite He. }
  split; [done|]. split; [done|].
  assert (join [c] encs = [] ↔ values = [] ∨ texts = [[]]) as Hjoin.
  { split.
    - intros [-> | ->]%join_nil_inv.
      + left. inversion He; subst. by inversion Ht.
      + right. inversion Hnil as [|text ? texts' ? Hx Hrest]; subst.
        inversion Hrest; subst. f_equal. by apply Hx.
    - intros [-> | ->].
      + inversion Ht; subst. by inversion He.
      + inversion Hnil as [|? enc ? encs' Hx Hrest]; subst. inversion Hrest; subst.
        assert (enc = []) as -> by by apply Hx. done. }
  split; [done|].
  intros Hok. unfold arrayOf_parse.
  destruct (decide (values = [])) as [-> | Hvs].
  { inversion Ht; subst. inversion He; subst. done. }
  assert (join [c] encs ≠ []) as Hne.
  { rewrite Hjoin. intros [? | ?]; [done|]. by destruct Hok. }
  assert (str_eqb (join [c] encs) [] = false) as ->
    by (unfold str_eqb; by apply bool_decide_eq_false).
  rewrite split_join; [| |done].
  - apply (map_completion_Forall2 (λ item, decodeURIComponent (Some item))) in Hd.
    rewrite Hd. simpl.
    apply (map_completion_Forall2 (λ item, parse itemParser (Some item))) in Hp.
    rewrite Hp. simpl. by rewrite filter_nullish_Val.
  - intros ->. inversion He; subst. by inversion Ht.
Qed.

End arrayOf_round_trip.

(** * Rounding to binary64 *)

Lemma div_mod_ratio a b a' b' :
  0 < b → 0 < b' → a * b' = a' * b →
  a / b = a' / b' ∧ (a mod b) * b' = (a' mod b') * b.
Proof.
  intros Hb Hb' Heq.
  pose proof (Z.div_mod a b ltac:(lia)) as Ha.
  pose proof (Z.div_mod a' b' ltac:(lia)) as Ha'.
  pose proof (Z.mod_pos_bound a b Hb) as Hr.
  pose proof (Z.mod_pos_bound a' b' Hb') as Hr'.
  set (q := a / b) in *. set (r := a mod b) in *.
  set (q' := a' / b') in *. set (r' := a' mod b') in *.
  assert (q = q') as Hq.
  { assert ((q - q') * (b * b') = r' * b - r * b') as H by nia.
    assert (- (b * b') < r' * b - r * b' < b * b') as Hbound by nia.
    assert (0 < b * b') by nia.
    destruct (Z.lt_trichotomy q q') as [?|[?|?]]; [|done|]; nia. }
  split; [done|]. subst q'. nia.
Qed.

Lemma round_half_even_ratio a b a' b' :
  0 < b → 0 < b' → a * b' = a' * b →
  round_half_even a b = round_half_even a' b'.
Proof.
  intros Hb Hb' Heq. unfold round_half_even.
  destruct (div_mod_ratio a b a' b' Hb Hb' Heq) as [-> Hr].
  assert ((2 * (a mod b) ?= b) = (2 * (a' mod b') ?= b')) as ->; [|done].
  destruct (Z.compare_spec (2 * (a' mod b')) b') as [H|H|H].
  - apply Z.compare_eq_iff. nia.
  - apply Z.compare_lt_iff. nia.
  - apply Z.compare_gt_iff. nia.
Qed.

Lemma pow2_le_ratio L p q p' q' :
  0 < q → 0 < q' → p * q' = p' * q → pow2_le L p q → pow2_le L p' q'.
Proof.
  unfold pow2_le. intros Hq Hq' Heq H.
  assert (0 < 2 ^ Z.max 0 L) by (apply Z.pow_pos_nonneg; lia).
  assert (0 < 2 ^ Z.max 0 (- L)) by (apply Z.pow_pos_nonneg; lia).
  set (A := 2 ^ Z.max 0 L) in *. set (B := 2 ^ Z.max 0 (- L)) in *.
  assert (q * (q' * A) <= q * (p' * B)); [|nia].
  replace (q * (p' * B)) with (p * B * q') by nia. nia.
Qed.

Lemma pow2_le_pred L p q : 0 <= p → 0 < q → pow2_le (L + 1) p q → pow2_le L p q.
Proof.
  unfold pow2_le. intros Hp Hq H.
  destruct (Z.le_gt_cases 0 L).
  - rewrite (Z.max_r 0 (L + 1)), (Z.max_l 0 (- (L + 1))) in H by lia.
    rewrite (Z.max_r 0 L), (Z.max_l 0 (- L)) by lia.
    rewrite Z.pow_add_r in H by lia.
    assert (0 < 2 ^ L) by (apply Z.pow_pos_nonneg; lia). nia.
  - rewrite (Z.max_l 0 (L + 1)), (Z.max_r 0 (- (L + 1))) in H by lia.
    rewrite (Z.max_l 0 L), (Z.max_r 0 (- L)) by lia.
    replace (- L) with (- (L + 1) + 1) by lia.
    rewrite Z.pow_add_r by lia.
    assert (0 < 2 ^ (- (L + 1))) by (apply Z.pow_pos_nonneg; lia). nia.
Qed.

Lemma pow2_le_mono L L' p q :
  0 <= p → 0 < q → L <= L' → pow2_le L' p q → pow2_le L p q.
Proof.
  intros Hp Hq HL H.
  replace L' with (L + Z.of_nat (Z.to_nat (L' - L))) in H by lia.
  induction (Z.to_nat (L' - L)) as [|n IH].
  - by rewrite Z.add_0_r in H.
  - apply IH. apply pow2_le_pred; [done..|].
    by replace (L + Z.of_nat n + 1) with (L + Z.of_nat (S n)) by lia.
Qed.

Lemma pow2_le_unique L L' p q :
  0 <= p → 0 < q →
  pow2_le L p q → ¬ pow2_le (L + 1) p q →
  pow2_le L' p q → ¬ pow2_le (L' + 1) p q → L = L'.
Proof.
  intros Hp Hq H1 H2 H3 H4.
  destruct (Z.lt_trichotomy L L') as [?|[?|?]]; [|done|].
  - destruct H2. by apply (pow2_le_mono _ L'); [..|lia|].
  - destruct H4. by apply (pow2_le_mono _ L); [..|lia|].
Qed.

Lemma floor_log2_rat_spec (p q : positive) :
  pow2_le (floor_log2_rat p q) (Z.pos p) (Z.pos q)
  ∧ ¬ pow2_le (floor_log2_rat p q + 1) (Z.pos p) (Z.pos q).
Proof.
  unfold floor_log2_rat, pow2_le.
  pose proof (Z.log2_spec (Z.pos p) ltac:(lia)) as [Hp1 Hp2].
  pose proof (Z.log2_spec (Z.pos q) ltac:(lia)) as [Hq1 Hq2].
  pose proof (Z.log2_nonneg (Z.pos p)). pose proof (Z.log2_nonneg (Z.pos q)).
  set (lp := Z.log2 (Z.pos p)) in *. set (lq := Z.log2 (Z.pos q)) in *.
  rewrite <- Z.add_1_r in Hp2, Hq2. rewrite Z.pow_add_r in Hp2, Hq2 by lia.
  change (2 ^ 1) with 2 in *.
  assert (0 < 2 ^ lp) by (apply Z.pow_pos_nonneg; lia).
  assert (0 < 2 ^ lq) by (apply Z.pow_pos_nonneg; lia).
  destruct (Z.leb_spec 0 (lp - lq)) as [Hd|Hd].
  - assert (2 ^ lp = 2 ^ lq * 2 ^ (lp - lq)) as Hsplit
      by (rewrite <- Z.pow_add_r by lia; f_equal; lia).
    assert (0 < 2 ^ (lp - lq)) by (apply Z.pow_pos_nonneg; lia).
    destruct (Z.leb_spec (Z.pos q * 2 ^ (lp - lq)) (Z.pos p)) as [Hc|Hc].
    + rewrite (Z.max_r 0 (lp - lq)), (Z.max_l 0 (- (lp - lq))) by lia.
      rewrite (Z.max_r 0 (lp - lq + 1)), (Z.max_l 0 (- (lp - lq + 1))) by lia.
      rewrite Z.pow_add_r by lia. change (2 ^ 1) with 2. change (2 ^ 0) with 1.
      split; nia.
    + destruct (Z.eq_dec (lp - lq) 0) as [Hz|Hz].
      * replace (lp - lq - 1) with (-1) by lia.
        rewrite Hz in Hc, Hsplit. change (2 ^ 0) with 1 in Hc, Hsplit.
        change (2 ^ Z.max 0 (-1)) with 1. change (2 ^ Z.max 0 (- -1)) with 2.
        change (2 ^ Z.max 0 (-1 + 1)) with 1. change (2 ^ Z.max 0 (- (-1 + 1))) with 1.
        split; nia.
      * rewrite (Z.max_r 0 (lp - lq - 1)), (Z.max_l 0 (- (lp - lq - 1))) by lia.
        rewrite (Z.max_r 0 (lp - lq - 1 + 1)), (Z.max_l 0 (- (lp - lq - 1 + 1))) by lia.
        replace (lp - lq - 1 + 1) with (lp - lq) by lia.
        assert (2 ^ (lp - lq) = 2 * 2 ^ (lp - lq - 1)) as Hs2.
        { replace (lp - lq) with (1 + (lp - lq - 1)) at 1 by lia.
          by rewrite Z.pow_add_r by lia. }
        assert (0 < 2 ^ (lp - lq - 1)) by (apply Z.pow_pos_nonneg; lia).
        change (2 ^ 0) with 1. split; nia.
  - assert (2 ^ lq = 2 ^ lp * 2 ^ (- (lp - lq))) as Hsplit
      by (rewrite <- Z.pow_add_r by lia; f_equal; lia).
    assert (0 < 2 ^ (- (lp - lq))) by (apply Z.pow_pos_nonneg; lia).
    destruct (Z.leb_spec (Z.pos q) (Z.pos p * 2 ^ (- (lp - lq)))) as [Hc|Hc].
    + rewrite (Z.max_l 0 (lp - lq)), (Z.max_r 0 (- (lp - lq))) by lia.
      rewrite (Z.max_l 0 (lp - lq + 1)), (Z.max_r 0 (- (lp - lq + 1))) by lia.
      assert (2 ^ (- (lp - lq)) = 2 * 2 ^ (- (lp - lq + 1))) as Hs2.
      { replace (- (lp - lq)) with (1 + - (lp - lq + 1)) at 1 by lia.
        by rewrite Z.pow_add_r by lia. }
      assert (0 < 2 ^ (- (lp - lq + 1))) by (apply Z.pow_pos_nonneg; lia).
      change (2 ^ 0) with 1. split; nia.
    + rewrite (Z.max_l 0 (lp - lq - 1)), (Z.max_r 0 (- (lp - lq - 1))) by lia.
      rewrite (Z.max_l 0 (lp - lq - 1 + 1)), (Z.max_r 0 (- (lp - lq - 1 + 1))) by lia.
      replace (lp - lq - 1 + 1) with (lp - lq) by lia.
      assert (2 ^ (- (lp - lq - 1)) = 2 * 2 ^ (- (lp - lq))) as Hs2.
      { replace (- (lp - lq - 1)) with (1 + - (lp - lq)) at 1 by lia.
        by rewrite Z.pow_add_r by lia. }
      change (2 ^ 0) with 1. split; nia.
Qed.

Lemma floor_log2_rat_unique (p q : positive) L :
  pow2_le L (Z.pos p) (Z.pos q) → ¬ pow2_le (L + 1) (Z.pos p) (Z.pos q) →
  floor_log2_rat p q = L.
Proof.
  intros H1 H2. destruct (floor_log2_rat_spec p q) as [H3 H4].
  by apply (pow2_le_unique _ _ (Z.pos p) (Z.pos q)).
Qed.

Lemma floor_log2_rat_ratio (p q p' q' : positive) :
  Z.pos p * Z.pos q' = Z.pos p' * Z.pos q →
  floor_log2_rat p q = floor_log2_rat p' q'.
Proof.
  intros Heq. destruct (floor_log2_rat_spec p' q') as [H1 H2].
  apply floor_log2_rat_unique.
  - apply (pow2_le_ratio _ (Z.pos p') (Z.pos q')); [done..|lia|done].
  - intros H. apply H2. by apply (pow2_le_ratio _ (Z.pos p) (Z.pos q)).
Qed.

(** The Number value for a fraction is that for its value. *)
Lemma number_of_rat_ratio neg (p q p' q' : positive) :
  Z.pos p * Z.pos q' = Z.pos p' * Z.pos q →
  number_of_rat neg p q = number_of_rat neg p' q'.
Proof.
  intros Heq. unfold number_of_rat.
  rewrite (floor_log2_rat_ratio p q p' q' Heq).
  set (e := Z.max (floor_log2_rat p' q' - (prec - 1)) emin).
  assert ((if 0 <=? e
           then round_half_even (Z.pos p) (Z.pos q * 2 ^ e)
           else round_half_even (Z.pos p * 2 ^ (- e)) (Z.pos q))
          = (if 0 <=? e
             then round_half_even (Z.pos p') (Z.pos q' * 2 ^ e)
             else round_half_even (Z.pos p' * 2 ^ (- e)) (Z.pos q'))) as ->; [|done].
  destruct (Z.leb_spec 0 e).
  - assert (0 < 2 ^ e) by (apply Z.pow_pos_nonneg; lia).
    apply round_half_even_ratio; nia.
  - assert (0 < 2 ^ (- e)) by (apply Z.pow_pos_nonneg; lia).
    apply round_half_even_ratio; nia.
Qed.

Lemma round_half_even_exact a b m : 0 < b → a = m * b → round_half_even a b = m.
Proof.
  intros Hb ->. unfold round_half_even.
  rewrite Z.div_mul, Z.mod_mul by lia.
  assert ((2 * 0 ?= b) = Lt) as -> by (apply Z.compare_lt_iff; lia). done.
Qed.

Lemma canonical_spec m e :
  canonical m e = true ↔
  Z.pos m < 2 ^ 53 ∧ e <= 971 ∧ ((2 ^ 52 <= Z.pos m ∧ -1074 <= e) ∨ e = -1074).
Proof.
  unfold canonical, prec, emax, emin. change (53 - 1) with 52.
  rewrite !andb_true_iff, orb_true_iff, andb_true_iff, Z.ltb_lt, !Z.leb_le, Z.eqb_eq.
  tauto.
Qed.

Lemma log2_canonical m e :
  canonical m e = true →
  Z.max (Z.log2 (Z.pos m) + e - (prec - 1)) emin = e.
Proof.
  intros (Hm & He & Hn)%canonical_spec. unfold prec, emin.
  assert (Z.log2 (Z.pos m) < 53) by (apply Z.log2_lt_pow2; lia).
  destruct Hn as [[Hn ?]| ->].
  - assert (52 <= Z.log2 (Z.pos m)) by (apply Z.log2_le_pow2; lia). lia.
  - lia.
Qed.

(** The Number value for the value of a binary64 value is that value. *)
Lemma number_of_rat_exact neg m e (p q : positive) :
  canonical m e = true →
  Z.pos p * (frac_of_finite m e).2 = (frac_of_finite m e).1 * Z.pos q →
  number_of_rat neg p q = Finite neg m e.
Proof.
  intros Hcan Heq. unfold number_of_rat.
  pose proof (Z.log2_spec (Z.pos m) ltac:(lia)) as [Hm1 Hm2].
  pose proof (Z.log2_nonneg (Z.pos m)) as Hlm.
  set (lm := Z.log2 (Z.pos m)) in *.
  rewrite <- Z.add_1_r in Hm2. rewrite Z.pow_add_r in Hm2 by lia.
  change (2 ^ 1) with 2 in Hm2.
  assert (0 < 2 ^ lm) by (apply Z.pow_pos_nonneg; lia).
  assert (floor_log2_rat p q = lm + e) as ->.
  { apply floor_log2_rat_unique; unfold pow2_le, frac_of_finite in *.
    - destruct (Z.leb_spec 0 e); simpl in Heq.
      + rewrite (Z.max_r 0 (lm + e)), (Z.max_l 0 (- (lm + e))) by lia.
        rewrite Z.pow_add_r by lia. change (2 ^ 0) with 1.
        assert (0 < 2 ^ e) by (apply Z.pow_pos_nonneg; lia). nia.
      + assert (0 < 2 ^ (- e)) by (apply Z.pow_pos_nonneg; lia).
        destruct (Z.le_gt_cases 0 (lm + e)).
        * rewrite (Z.max_r 0 (lm + e)), (Z.max_l 0 (- (lm + e))) by lia.
          change (2 ^ 0) with 1.
          assert (2 ^ lm = 2 ^ (lm + e) * 2 ^ (- e)) as Hs
            by (rewrite <- Z.pow_add_r by lia; f_equal; lia).
          assert (0 < 2 ^ (lm + e)) by (apply Z.pow_pos_nonneg; lia). nia.
        * rewrite (Z.max_l 0 (lm + e)), (Z.max_r 0 (- (lm + e))) by lia.
          change (2 ^ 0) with 1.
          assert (2 ^ (- e) = 2 ^ lm * 2 ^ (- (lm + e))) as Hs
            by (rewrite <- Z.pow_add_r by lia; f_equal; lia).
          assert (0 < 2 ^ (- (lm + e))) by (apply Z.pow_pos_nonneg; lia). nia.
    - destruct (Z.leb_spec 0 e); simpl in Heq.
      + rewrite (Z.max_r 0 (lm + e + 1)), (Z.max_l 0 (- (lm + e + 1))) by lia.
        rewrite !Z.pow_add_r by lia. change (2 ^ 0) with 1. change (2 ^ 1) with 2.
        assert (0 < 2 ^ e) by (apply Z.pow_pos_nonneg; lia). nia.
      + assert (0 < 2 ^ (- e)) by (apply Z.pow_pos_nonneg; lia).
        destruct (Z.le_gt_cases 0 (lm + e + 1)).
        * rewrite (Z.max_r 0 (lm + e + 1)), (Z.max_l 0 (- (lm + e + 1))) by lia.
          change (2 ^ 0) with 1.
          assert (2 * 2 ^ lm = 2 ^ (lm + e + 1) * 2 ^ (- e)) as Hs.
          { rewrite <- Z.pow_add_r by lia. replace (lm + e + 1 + - e) with (1 + lm) by lia.
            by rewrite Z.pow_add_r by lia. }
          assert (0 < 2 ^ (lm + e + 1)) by (apply Z.pow_pos_nonneg; lia). nia.
        * rewrite (Z.max_l 0 (lm + e + 1)), (Z.max_r 0 (- (lm + e + 1))) by lia.
          change (2 ^ 0) with 1.
          assert (2 ^ (- e) = 2 * 2 ^ lm * 2 ^ (- (lm + e + 1))) as Hs.
          { replace (- e) with (1 + lm + - (lm + e + 1)) at 1 by lia.
            by rewrite !Z.pow_add_r by lia. }
          assert (0 < 2 ^ (- (lm + e + 1))) by (apply Z.pow_pos_nonneg; lia). nia. }
  unfold lm. rewrite log2_canonical by done.
  apply canonical_spec in Hcan as (Hm & He & Hn).
  assert ((if 0 <=? e
           then round_half_even (Z.pos p) (Z.pos q * 2 ^ e)
           else round_half_even (Z.pos p * 2 ^ (- e)) (Z.pos q)) = Z.pos m) as ->.
  { unfold frac_of_finite in Heq. destruct (Z.leb_spec 0 e); simpl in Heq.
    - assert (0 < 2 ^ e) by (apply Z.pow_pos_nonneg; lia).
      apply round_half_even_exact; nia.
    - assert (0 < 2 ^ (- e)) by (apply Z.pow_pos_nonneg; lia).
      apply round_half_even_exact; nia. }
  unfold prec, emax.
  assert ((Z.pos m =? 2 ^ 53) = false) as -> by (apply Z.eqb_neq; lia).
  assert ((971 <? e) = false) as -> by (apply Z.ltb_ge; lia). done.
Qed.

(** * Decimal digits *)

Lemma digits_fixed_length k z : length (digits_fixed k z) = k.
Proof.
  revert z. induction k as [|k IH]; intros z; simpl; [done|].
  rewrite length_app, IH. simpl. lia.
Qed.

Lemma digits_fixed_digits k z : Forall is_digit (digits_fixed k z).
Proof.
  revert z. induction k as [|k IH]; intros z; simpl; [constructor|].
  apply Forall_app. split; [apply IH|].
  apply Forall_cons_2; [|constructor]. unfold is_digit. zdiv.
Qed.

Lemma digit_value_digit c : is_digit c → digit_value 10 c = Some (c - 48).
Proof.
  intros Hc. unfold digit_value, is_digit in *.
  assert ((48 <=? c) && (c <=? 57) = true) as ->; [|done].
  apply andb_true_iff. rewrite !Z.leb_le. lia.
Qed.

Lemma span_digits_app ds rest :
  Forall is_digit ds →
  span_digits 10 (ds ++ rest)
  = (map (λ c, c - 48) ds ++ (span_digits 10 rest).1, (span_digits 10 rest).2).
Proof.
  induction 1 as [|c ds Hc _ IH]; simpl.
  - by destruct (span_digits 10 rest).
  - rewrite digit_value_digit by done. by rewrite IH.
Qed.

Lemma span_digits_all ds :
  Forall is_digit ds → span_digits 10 ds = (map (λ c, c - 48) ds, []).
Proof.
  intros H. rewrite <- (app_nil_r ds) at 1. rewrite span_digits_app by done.
  simpl. by rewrite app_nil_r.
Qed.

Lemma fold_digits_fixed k z acc :
  fold_left (λ acc d, acc * 10 + d) (map (λ c, c - 48) (digits_fixed k z)) acc
  = acc * 10 ^ Z.of_nat k + z mod 10 ^ Z.of_nat k.
Proof.
  revert z acc. induction k as [|k IH]; intros z acc.
  - simpl. rewrite Z.mod_1_r. lia.
  - cbn [digits_fixed]. rewrite map_app, fold_left_app, IH. simpl.
    rewrite Nat2Z.inj_succ, Z.pow_succ_r by lia.
    assert (0 < 10 ^ Z.of_nat k) by (apply Z.pow_pos_nonneg; lia).
    rewrite Z.rem_mul_r by lia. ring.
Qed.

Lemma digits_value_fixed k z :
  0 <= z < 10 ^ Z.of_nat k →
  digits_value 10 (map (λ c, c - 48) (digits_fixed k z)) = z.
Proof.
  intros Hz. unfold digits_value. rewrite fold_digits_fixed.
  rewrite Z.mod_small by done. lia.
Qed.

Lemma count_digits_lower fuel z :
  1 <= z → 10 ^ (Z.of_nat (count_digits fuel z) - 1) <= z.
Proof.
  revert z. induction fuel as [|fuel IH]; intros z Hz; simpl; [lia|].
  destruct (Z.ltb_spec z 10); [simpl; lia|].
  rewrite Nat2Z.inj_succ. replace (Z.succ _ - 1) with (1 + (Z.of_nat (count_digits fuel (z / 10)) - 1)) by lia.
  assert (1 <= z / 10) by zdiv.
  assert (1 <= count_digits fuel (z / 10))%nat by (destruct fuel; simpl; [lia|]; case_match; lia).
  rewrite Z.pow_add_r by lia.
  specialize (IH (z / 10) ltac:(done)). change (10 ^ 1) with 10. zdiv.
Qed.

Lemma count_digits_upper fuel z :
  0 <= z < 10 ^ (Z.of_nat fuel + 1) → z < 10 ^ Z.of_nat (count_digits fuel z).
Proof.
  revert z. induction fuel as [|fuel IH]; intros z Hz; simpl.
  - simpl in Hz. lia.
  - destruct (Z.ltb_spec z 10); [simpl; lia|].
    rewrite Nat2Z.inj_succ, Z.pow_succ_r by lia.
    rewrite Nat2Z.inj_succ in Hz.
    replace (Z.succ (Z.of_nat fuel) + 1) with (1 + (Z.of_nat fuel + 1)) in Hz by lia.
    rewrite Z.pow_add_r in Hz by lia. change (10 ^ 1) with 10 in Hz.
    specialize (IH (z / 10)).
    assert (0 <= z / 10 < 10 ^ (Z.of_nat fuel + 1)) as H' by zdiv.
    specialize (IH H'). zdiv.
Qed.

Lemma pow2_le_pow10 n : 0 <= n → 2 ^ n <= 10 ^ n.
Proof. intros Hn. apply Z.pow_le_mono_l. lia. Qed.

Lemma num_digits_upper z : 0 <= z → z < 10 ^ Z.of_nat (num_digits z).
Proof.
  intros Hz. unfold num_digits. apply count_digits_upper.
  destruct (Z.eq_dec z 0) as [->|]; [simpl; lia|].
  pose proof (Z.log2_spec z ltac:(lia)) as [_ H].
  pose proof (Z.log2_nonneg z).
  rewrite Z2Nat.id by done. rewrite <- Z.add_1_r in H.
  pose proof (pow2_le_pow10 (Z.log2 z + 1) ltac:(lia)). lia.
Qed.

Lemma num_digits_lower z : 1 <= z → 10 ^ (Z.of_nat (num_digits z) - 1) <= z.
Proof. apply count_digits_lower. Qed.

Lemma num_digits_pos z : (1 <= num_digits z)%nat.
Proof. unfold num_digits. destruct (Z.to_nat _); simpl; [lia|]. case_match; lia. Qed.

Lemma decimal_digits z : Forall is_digit (decimal z).
Proof. apply digits_fixed_digits. Qed.

Lemma decimal_value z :
  0 <= z → digits_value 10 (map (λ c, c - 48) (decimal z)) = z.
Proof.
  intros Hz. apply digits_value_fixed. split; [done | by apply num_digits_upper].
Qed.

Lemma decimal_cons z : ∃ d ds, decimal z = d :: ds ∧ is_digit d ∧ Forall is_digit ds.
Proof.
  pose proof (decimal_digits z) as H. pose proof (num_digits_pos z) as Hn.
  unfold decimal in *. pose proof (digits_fixed_length (num_digits z) z) as Hl.
  destruct (digits_fixed (num_digits z) z) as [|d ds]; [simpl in Hl; lia|].
  exists d, ds. split; [done|]. by apply Forall_cons_1 in H.
Qed.

Lemma is_digit_not_whitespace c : is_digit c → is_whitespace c = false.
Proof.
  unfold is_digit, is_whitespace. intros H.
  repeat (apply orb_false_iff; split); try apply andb_false_iff;
    rewrite ?Z.eqb_neq, ?Z.leb_gt; lia.
Qed.

(** [parseInt] reads a decimal integer, signed or not, as its Number value. *)
Lemma parseInt_decimal (neg : bool) z :
  0 <= z →
  parseInt (Some ((if neg then [45] else []) ++ decimal z))
  = match z with
    | Z.pos p => number_of_rat neg p 1
    | _ => Zero neg
    end.
Proof.
  intros Hz. destruct (decimal_cons z) as (d & ds & Hdec & Hd & Hds).
  pose proof (decimal_value z Hz) as Hval. rewrite Hdec in Hval.
  unfold parseInt, ToString_arg. rewrite Hdec.
  assert (trim_start ((if neg then [45] else []) ++ d :: ds)
          = (if neg then [45] else []) ++ d :: ds) as ->.
  { destruct neg; simpl; [done|]. by rewrite is_digit_not_whitespace. }
  assert ((let '(neg0, unsigned) :=
             match (if neg then [45] else []) ++ d :: ds with
             | [] => (false, [])
             | c :: rest =>
                 if c =? 45 then (true, rest)
                 else if c =? 43 then (false, rest)
                 else (false, (if neg then [45] else []) ++ d :: ds)
             end in (neg0, unsigned)) = (neg, d :: ds)) as Hsign.
  { destruct neg; simpl; [done|]. unfold is_digit in Hd.
    assert ((d =? 45) = false) as -> by (apply Z.eqb_neq; lia).
    assert ((d =? 43) = false) as -> by (apply Z.eqb_neq; lia). done. }
  destruct (match (if neg then [45] else []) ++ d :: ds with
            | [] => (false, [])
            | c :: rest => _
            end) as [neg0 unsigned].
  injection Hsign as -> ->.
  assert (match d :: ds with
          | c0 :: x :: rest =>
              if (c0 =? 48) && ((x =? 120) || (x =? 88)) then (16, rest)
              else (10, d :: ds)
          | _ => (10, d :: ds)
          end = (10, d :: ds)) as ->.
  { destruct ds as [|x rest]; [done|].
    apply Forall_cons_1 in Hds as [Hx _]. unfold is_digit in Hx.
    assert ((x =? 120) = false) as -> by (apply Z.eqb_neq; lia).
    assert ((x =? 88) = false) as -> by (apply Z.eqb_neq; lia).
    by rewrite andb_false_r. }
  rewrite span_digits_all by (by constructor).
  cbn [map]. cbn [map] in Hval. rewrite Hval. done.
Qed.

(** * The integer parser *)

Lemma frac_of_finite_pos m e :
  0 < (frac_of_finite m e).1 ∧ 0 < (frac_of_finite m e).2.
Proof.
  unfold frac_of_finite. destruct (Z.leb_spec 0 e); simpl.
  - assert (0 < 2 ^ e) by (apply Z.pow_pos_nonneg; lia). nia.
  - assert (0 < 2 ^ (- e)) by (apply Z.pow_pos_nonneg; lia). lia.
Qed.

(** The integer an integer-valued finite value is. *)
Lemma integer_valued_quotient b m e :
  integer_valued (Finite b m e) = true →
  ∃ z, 1 <= z ∧ (frac_of_finite m e).1 = z * (frac_of_finite m e).2.
Proof.
  unfold integer_valued. pose proof (frac_of_finite_pos m e) as [Hn Hd].
  destruct (frac_of_finite m e) as [num den]. simpl in *.
  intros H%Z.eqb_eq. exists (num / den).
  pose proof (Z.div_mod num den ltac:(lia)) as Hdm. rewrite H in Hdm.
  split; [nia | lia].
Qed.

Lemma half_up_integer z den : 0 < den → (2 * (z * den) + den) / (2 * den) = z.
Proof.
  intros Hd. replace (2 * (z * den) + den) with (z * (2 * den) + den) by ring.
  rewrite Z.div_add_l by lia. rewrite Z.div_small by lia. lia.
Qed.

Lemma half_up_integer_neg z den : 0 < den → (-2 * (z * den) + den) / (2 * den) = - z.
Proof.
  intros Hd. replace (-2 * (z * den) + den) with (- z * (2 * den) + den) by ring.
  rewrite Z.div_add_l by lia. rewrite Z.div_small by lia. lia.
Qed.

Lemma number_of_Z_exact neg m e z :
  canonical m e = true → 1 <= z →
  (frac_of_finite m e).1 = z * (frac_of_finite m e).2 →
  number_of_rat neg (Z.to_pos z) 1 = Finite neg m e.
Proof.
  intros Hcan Hz Hq. apply number_of_rat_exact; [done|].
  rewrite Z2Pos.id by lia. lia.
Qed.

Lemma Math_round_integer v :
  is_binary64 v = true → integer_valued v = true → Math_round v = v.
Proof.
  destruct v as [| | |neg m e]; try done. intros Hcan Hint.
  destruct (integer_valued_quotient _ m e Hint) as (z & Hz & Hq).
  pose proof (number_of_Z_exact neg m e z Hcan Hz Hq) as Hex.
  pose proof (frac_of_finite_pos m e) as [Hn Hd].
  unfold Math_round. destruct (0 <=? e); [done|].
  destruct (frac_of_finite m e) as [num den]. simpl in *. subst num.
  destruct neg.
  - rewrite half_up_integer_neg by done.
    assert ((- z =? 0) = false) as -> by (apply Z.eqb_neq; lia).
    destruct z as [|p|p]; try lia. exact Hex.
  - rewrite half_up_integer by done.
    assert ((z =? 0) = false) as -> by (apply Z.eqb_neq; lia).
    destruct z as [|p|p]; try lia. exact Hex.
Qed.

(** The integer parser gives back every integer of magnitude below 10^21,
    [-0] apart. *)
Lemma integer_round_trip v :
  is_binary64 v = true → integer_valued v = true →
  magnitude_below (10 ^ 21) v = true → v ≠ Zero true →
  round_trips integer_parser v.
Proof.
  intros Hcan Hint Hmag Hz. eexists _, _. split; [reflexivity|].
  cbn beta. rewrite Math_round_integer by done.
  destruct v as [| | [|] |neg m e]; try done.
  { split; [reflexivity|]. by vm_compute. }
  destruct (integer_valued_quotient _ m e Hint) as (z & Hz1 & Hq).
  pose proof (number_of_Z_exact neg m e z Hcan Hz1 Hq) as Hex.
  pose proof (frac_of_finite_pos m e) as [Hn Hd].
  unfold Number_toFixed. unfold magnitude_below in Hmag.
  destruct (frac_of_finite m e) as [num den]. simpl in *. subst num.
  apply Z.ltb_lt in Hmag.
  assert ((10 ^ 21 * den <=? z * den) = false) as -> by (apply Z.leb_gt; lia).
  rewrite half_up_integer by done.
  split; [reflexivity|].
  rewrite parseInt_decimal by lia.
  destruct z as [|p|p]; try lia. simpl in Hex. rewrite Hex. done.
Qed.

Lemma integer_negative_zero :
  ∃ f text, serialize integer_parser = Some f ∧ f (Zero true) = Normal text
            ∧ parse integer_parser (Some text) = Normal (Val (Zero false)).
Proof. eexists _, _. split; [reflexivity|]. split; [reflexivity|]. by vm_compute. Qed.

(** * The decimals of a binary64 value *)

Lemma number_eqb_eq x y : number_eqb x y = true ↔ x = y.
Proof.
  split.
  - destruct x as [|a|a|a m e], y as [|b|b|b m' e']; simpl; try done.
    + by intros ->%Bool.eqb_prop.
    + by intros ->%Bool.eqb_prop.
    + rewrite !andb_true_iff. intros [[->%Bool.eqb_prop ->%Pos.eqb_eq] ->%Z.eqb_eq]. done.
  - intros <-. destruct x as [|a|a|a m e]; simpl; try done.
    + by destruct a.
    + by destruct a.
    + rewrite Pos.eqb_refl, Z.eqb_refl. by destruct a.
Qed.

(** The Number value for a decimal is that for any fraction of its value. *)
Lemma number_of_decimal_rat neg c e (P Q : positive) :
  0 < c →
  c * 10 ^ Z.max 0 e * Z.pos Q = Z.pos P * 10 ^ Z.max 0 (- e) →
  number_of_decimal neg c e = number_of_rat neg P Q.
Proof.
  intros Hc Heq. unfold number_of_decimal, number_of_frac.
  destruct (Z.leb_spec 0 e).
  - rewrite (Z.max_r 0 e), (Z.max_l 0 (- e)) in Heq by lia. change (10 ^ 0) with 1 in Heq.
    assert (0 < 10 ^ e) by (apply Z.pow_pos_nonneg; lia).
    destruct (c * 10 ^ e) as [|p|p] eqn:Hp; try nia.
    apply number_of_rat_ratio. simpl (Z.to_pos 1). lia.
  - rewrite (Z.max_l 0 e), (Z.max_r 0 (- e)) in Heq by lia. change (10 ^ 0) with 1 in Heq.
    assert (0 < 10 ^ (- e)) by (apply Z.pow_pos_nonneg; lia).
    destruct c as [|p|p]; try lia.
    apply number_of_rat_ratio. rewrite Z2Pos.id by lia. lia.
Qed.

Lemma number_of_decimal_ratio neg c e c' e' :
  0 < c → 0 < c' →
  c * 10 ^ Z.max 0 e * 10 ^ Z.max 0 (- e') = c' * 10 ^ Z.max 0 e' * 10 ^ Z.max 0 (- e) →
  number_of_decimal neg c e = number_of_decimal neg c' e'.
Proof.
  intros Hc Hc' Heq.
  assert (0 < 10 ^ Z.max 0 e) by (apply Z.pow_pos_nonneg; lia).
  assert (0 < 10 ^ Z.max 0 (- e)) by (apply Z.pow_pos_nonneg; lia).
  assert (0 < 10 ^ Z.max 0 e') by (apply Z.pow_pos_nonneg; lia).
  assert (0 < 10 ^ Z.max 0 (- e')) by (apply Z.pow_pos_nonneg; lia).
  rewrite (number_of_decimal_rat neg c e (Z.to_pos (c * 10 ^ Z.max 0 e))
             (Z.to_pos (10 ^ Z.max 0 (- e)))); [|done|rewrite !Z2Pos.id by nia; lia].
  rewrite (number_of_decimal_rat neg c' e' (Z.to_pos (c * 10 ^ Z.max 0 e))
             (Z.to_pos (10 ^ Z.max 0 (- e)))); [done|done|].
  rewrite !Z2Pos.id by nia. lia.
Qed.

Lemma number_of_decimal_shift neg c e :
  0 < c → number_of_decimal neg (c * 10) e = number_of_decimal neg c (e + 1).
Proof.
  intros Hc. apply number_of_decimal_ratio; [lia|lia|].
  destruct (Z.le_gt_cases 0 e).
  - rewrite (Z.max_r 0 e), (Z.max_l 0 (- e)), (Z.max_r 0 (e + 1)), (Z.max_l 0 (- (e + 1))) by lia.
    rewrite Z.pow_add_r by lia. change (10 ^ 1) with 10. ring.
  - rewrite (Z.max_l 0 e), (Z.max_r 0 (- e)), (Z.max_l 0 (e + 1)), (Z.max_r 0 (- (e + 1))) by lia.
    replace (- e) with (- (e + 1) + 1) by lia.
    rewrite Z.pow_add_r by lia. change (10 ^ 1) with 10. ring.
Qed.

(** A decimal of the value of a binary64 value has that Number value. *)
Lemma number_of_decimal_exact neg m e c e10 :
  canonical m e = true → 0 < c →
  c * 10 ^ Z.max 0 e10 * (frac_of_finite m e).2
  = (frac_of_finite m e).1 * 10 ^ Z.max 0 (- e10) →
  number_of_decimal neg c e10 = Finite neg m e.
Proof.
  intros Hcan Hc Heq. pose proof (frac_of_finite_pos m e) as [Hn Hd].
  rewrite (number_of_decimal_rat neg c e10 (Z.to_pos (frac_of_finite m e).1)
             (Z.to_pos (frac_of_finite m e).2)); [|done|by rewrite !Z2Pos.id by lia].
  apply number_of_rat_exact; [done|]. rewrite !Z2Pos.id by lia. lia.
Qed.

Section candidates.
Variables (x : number) (num den n : Z).
Hypothesis Hnum : 0 < num.
Hypothesis Hden : 0 < den.
Hypothesis Hupper : num < 10 ^ Z.max 0 n * den ∧ (n < 0 → num * 10 ^ (- n) < den).
Hypothesis Hx : ∃ neg m e, x = Finite neg m e.

Lemma digits_candidate_sound k s n' :
  1 <= k →
  digits_candidate x num den n k = Some (s, n') →
  1 <= s < 10 ^ k ∧ (n' = n ∨ n' = n + 1)
  ∧ number_of_decimal false s (n' - k) = x.
Proof.
  intros Hk. unfold digits_candidate.
  set (scale := k - n).
  assert (∃ a b, (if 0 <=? scale then (num * 10 ^ scale, den)
                  else (num, den * 10 ^ (- scale))) = (a, b)
                 ∧ 0 < a ∧ 0 < b ∧ a < 10 ^ k * b) as (a & b & -> & Ha & Hb & Hab).
  { destruct Hupper as [Hu1 Hu2]. destruct (Z.leb_spec 0 scale) as [Hs|Hs].
    - eexists _, _. split; [done|].
      assert (0 < 10 ^ scale) by (apply Z.pow_pos_nonneg; lia).
      split; [nia|]. split; [done|].
      destruct (Z.le_gt_cases 0 n).
      + rewrite Z.max_r in Hu1 by lia.
        replace k with (n + scale) by (unfold scale; lia).
        rewrite Z.pow_add_r by lia. nia.
      + specialize (Hu2 ltac:(lia)).
        replace scale with (- n + k) by (unfold scale; lia).
        rewrite Z.pow_add_r by lia.
        assert (0 < 10 ^ k) by (apply Z.pow_pos_nonneg; lia). nia.
    - eexists _, _. split; [done|].
      assert (0 < 10 ^ (- scale)) by (apply Z.pow_pos_nonneg; lia).
      split; [done|]. split; [nia|].
      rewrite Z.max_r in Hu1 by (unfold scale in *; lia).
      replace n with (k + - scale) in Hu1 by (unfold scale; lia).
      rewrite Z.pow_add_r in Hu1 by lia. nia. }
  assert (0 <= a / b < 10 ^ k) as Hlo.
  { split; [apply Z.div_pos; lia | apply Z.div_lt_upper_bound; lia]. }
  assert (∀ s0, 0 <= s0 → number_eqb (number_of_decimal false s0 (- scale)) x = true →
                1 <= s0 ∧ number_of_decimal false s0 (- scale) = x) as Hok.
  { intros s0 Hs0 Heq%number_eqb_eq. split; [|done].
    destruct (Z.eq_dec s0 0) as [->|]; [|lia].
    destruct Hx as (? & ? & ? & ->). unfold number_of_decimal, number_of_frac in Heq.
    by destruct (0 <=? - scale). }
  assert (∀ s0, 1 <= s0 <= 10 ^ k → number_of_decimal false s0 (- scale) = x →
            (if s0 =? 10 ^ k then Some (10 ^ (k - 1), n + 1) else Some (s0, n)) = Some (s, n') →
            1 <= s < 10 ^ k ∧ (n' = n ∨ n' = n + 1)
            ∧ number_of_decimal false s (n' - k) = x) as Hpick.
  { intros s0 Hs0 Hval. destruct (Z.eqb_spec s0 (10 ^ k)) as [->|Hne]; intros [= <- <-].
    - assert (10 ^ k = 10 ^ (k - 1) * 10) as Hpow.
      { replace k with (k - 1 + 1) at 1 by lia. by rewrite Z.pow_add_r by lia. }
      assert (0 < 10 ^ (k - 1)) by (apply Z.pow_pos_nonneg; lia).
      split; [lia|]. split; [by right|].
      rewrite <- Hval, Hpow, number_of_decimal_shift by done. f_equal. unfold scale. lia.
    - split; [lia|]. split; [by left|]. rewrite <- Hval. f_equal. unfold scale. lia. }
  cbv zeta.
  destruct (number_eqb (number_of_decimal false (a / b) (- scale)) x) eqn:Hlo_ok;
    destruct (number_eqb (number_of_decimal false (a / b + 1) (- scale)) x) eqn:Hhi_ok;
    try done.
  - destruct (Hok (a / b) ltac:(lia) Hlo_ok) as [? ?].
    destruct (Hok (a / b + 1) ltac:(lia) Hhi_ok) as [? ?].
    destruct (2 * (a mod b) ?= b); [destruct (Z.even (a / b))| |]; apply Hpick; (done || lia).
  - destruct (Hok (a / b) ltac:(lia) Hlo_ok) as [? ?]. apply Hpick; (done || lia).
  - destruct (Hok (a / b + 1) ltac:(lia) Hhi_ok) as [? ?]. apply Hpick; (done || lia).
Qed.

Lemma shortest_digits_sound fuel k n' k' s :
  1 <= k →
  shortest_digits fuel x num den n k = Some (n', k', s) →
  k <= k' ∧ digits_candidate x num den n k' = Some (s, n').
Proof.
  revert k. induction fuel as [|fuel IH]; intros k Hk; simpl; [done|].
  destruct (digits_candidate x num den n k) as [[s0 n0]|] eqn:Hc.
  - intros [= <- <- <-]. split; [lia|done].
  - intros H. destruct (IH (k + 1) ltac:(lia) H) as [? ?]. split; [lia|done].
Qed.

Lemma shortest_digits_complete fuel k K :
  k <= K < k + Z.of_nat fuel →
  digits_candidate x num den n K ≠ None →
  ∃ n' k' s, shortest_digits fuel x num den n k = Some (n', k', s) ∧ k' <= K.
Proof.
  revert k. induction fuel as [|fuel IH]; intros k HK Hc; simpl; [lia|].
  destruct (digits_candidate x num den n k) as [[s0 n0]|] eqn:Hck.
  - eexists _, _, _. split; [done|lia].
  - destruct (Z.eq_dec k K) as [->|]; [done|].
    apply IH; [lia|done].
Qed.

End candidates.

(** * The digits of [Number::toString] *)

Lemma leading_place_spec fuel num den :
  0 < num < den →
  leading_place fuel num den <= 0
  ∧ num * 10 ^ (- leading_place fuel num den) < den.
Proof.
  revert num. induction fuel as [|fuel IH]; intros num Hn; simpl.
  - change (10 ^ (- 0)) with 1. lia.
  - destruct (Z.leb_spec den (num * 10)).
    + change (10 ^ (- 0)) with 1. lia.
    + destruct (IH (num * 10) ltac:(lia)) as [H1 H2]. split; [lia|].
      replace (- (leading_place fuel (num * 10) den - 1))
        with (1 + - leading_place fuel (num * 10) den) by lia.
      rewrite Z.pow_add_r by lia. change (10 ^ 1) with 10. lia.
Qed.

Lemma decimal_exponent_upper num den :
  0 < num → 0 < den →
  num < 10 ^ Z.max 0 (decimal_exponent num den) * den
  ∧ (decimal_exponent num den < 0 → num * 10 ^ (- decimal_exponent num den) < den).
Proof.
  intros Hn Hd. unfold decimal_exponent. destruct (Z.leb_spec den num).
  - assert (0 <= num / den) by (apply Z.div_pos; lia).
    pose proof (num_digits_upper (num / den) ltac:(done)) as H'.
    pose proof (Z.mul_succ_div_gt num den Hd).
    rewrite Z.max_r by lia. split; [nia|lia].
  - destruct (leading_place_spec 400 num den ltac:(lia)) as [H1 H2].
    rewrite Z.max_l by lia. change (10 ^ 0) with 1. split; [lia|done].
Qed.

Lemma decimal_exponent_integer num den :
  0 < den → den <= num →
  decimal_exponent num den = Z.of_nat (num_digits (num / den)).
Proof. intros Hd Hn. unfold decimal_exponent. by destruct (Z.leb_spec den num); [|lia]. Qed.

Lemma digits_candidate_exact m e n K :
  canonical m e = true →
  (let '(a, b) :=
     if 0 <=? K - n
     then ((frac_of_finite m e).1 * 10 ^ (K - n), (frac_of_finite m e).2)
     else ((frac_of_finite m e).1, (frac_of_finite m e).2 * 10 ^ (- (K - n)))
   in a mod b = 0) →
  digits_candidate (Finite false m e) (frac_of_finite m e).1 (frac_of_finite m e).2 n K
  ≠ None.
Proof.
  intros Hcan Hdiv. pose proof (frac_of_finite_pos m e) as [Hn Hd].
  unfold digits_candidate.
  set (num := (frac_of_finite m e).1) in *. set (den := (frac_of_finite m e).2) in *.
  set (scale := K - n) in *.
  assert (number_eqb (number_of_decimal false
            ((let '(a, b) := if 0 <=? scale then (num * 10 ^ scale, den)
                             else (num, den * 10 ^ (- scale)) in a / b))
            (- scale)) (Finite false m e) = true) as Hok.
  { apply number_eqb_eq. destruct (Z.leb_spec 0 scale).
    - assert (0 < 10 ^ scale) by (apply Z.pow_pos_nonneg; lia).
      pose proof (Z.div_mod (num * 10 ^ scale) den ltac:(lia)) as Hdm.
      rewrite Hdiv in Hdm.
      apply number_of_decimal_exact; [done| |].
      + assert (0 < num * 10 ^ scale) by nia. nia.
      + fold num den. rewrite (Z.max_l 0 (- scale)), (Z.max_r 0 (- - scale)) by lia.
        replace (- - scale) with scale by lia. change (10 ^ 0) with 1. lia.
    - assert (0 < 10 ^ (- scale)) by (apply Z.pow_pos_nonneg; lia).
      pose proof (Z.div_mod num (den * 10 ^ (- scale)) ltac:(nia)) as Hdm.
      rewrite Hdiv in Hdm.
      apply number_of_decimal_exact; [done| |].
      + assert (0 < den * 10 ^ (- scale)) by nia. nia.
      + fold num den. rewrite (Z.max_r 0 (- scale)), (Z.max_l 0 (- - scale)) by lia.
        change (10 ^ 0) with 1. lia. }
  destruct (if 0 <=? scale then (num * 10 ^ scale, den) else (num, den * 10 ^ (- scale)))
    as [a b].
  cbv zeta. rewrite Hok.
  destruct (number_eqb (number_of_decimal false (a / b + 1) (- scale)) (Finite false m e));
    [destruct (2 * (a mod b) ?= b); [destruct (Z.even (a / b))| |]|];
    by repeat case_match.
Qed.

Lemma pow10_split j : 0 <= j → 10 ^ j = 5 ^ j * 2 ^ j.
Proof. intros Hj. by rewrite <- Z.pow_mul_l. Qed.

Lemma pow_lt_inv b x y : 1 < b → 0 <= y → b ^ x < b ^ y → x < y.
Proof.
  intros Hb Hy H. destruct (Z.lt_ge_cases x y); [done|].
  assert (b ^ y <= b ^ x) by (apply Z.pow_le_mono_r; lia). lia.
Qed.

(** The digits [Number::toString] works with: they are found, [s] has at
    most [k] digits, and the Number value for s * 10^(n-k) is the value. *)
Lemma toString_digits_spec m e :
  canonical m e = true →
  ∃ n k s,
    toString_digits m e = Some (n, k, s)
    ∧ 1 <= k ∧ 1 <= s < 10 ^ k
    ∧ number_of_decimal false s (n - k) = Finite false m e
    ∧ (n = decimal_exponent (frac_of_finite m e).1 (frac_of_finite m e).2
       ∨ n = decimal_exponent (frac_of_finite m e).1 (frac_of_finite m e).2 + 1)
    ∧ ∀ K, 1 <= K <= 1100 →
        digits_candidate (Finite false m e) (frac_of_finite m e).1 (frac_of_finite m e).2
          (decimal_exponent (frac_of_finite m e).1 (frac_of_finite m e).2) K ≠ None →
        k <= K.
Proof.
  intros Hcan. pose proof (frac_of_finite_pos m e) as [Hn Hd].
  pose proof (decimal_exponent_upper _ _ Hn Hd) as Hup.
  unfold toString_digits.
  destruct (frac_of_finite m e) as [num den] eqn:Hfrac. cbn [fst snd] in *.
  set (n0 := decimal_exponent num den) in *.
  assert (∃ K, 1 <= K <= 1100
               ∧ digits_candidate (Finite false m e) num den n0 K ≠ None) as (K0 & HK0 & Hc0).
  { pose proof (digits_candidate_exact m e n0) as Hex. rewrite Hfrac in Hex. simpl in Hex.
    pose proof Hcan as (Hm & He & Hnorm)%canonical_spec.
    unfold frac_of_finite in Hfrac. destruct (Z.leb_spec 0 e) as [He0|He0].
    - injection Hfrac as <- <-. exists n0.
      assert (1 <= n0 <= 1100) as Hn0.
      { unfold n0. assert (0 < 2 ^ e) by (apply Z.pow_pos_nonneg; lia).
        rewrite decimal_exponent_integer by nia.
        pose proof (num_digits_pos (Z.pos m * 2 ^ e / 1)).
        rewrite Z.div_1_r.
        pose proof (num_digits_lower (Z.pos m * 2 ^ e) ltac:(nia)) as Hlow.
        assert (2 ^ e <= 2 ^ 971) by (apply Z.pow_le_mono_r; lia).
        assert (Z.pos m * 2 ^ e < 10 ^ 400) as Hb.
        { assert (2 ^ 53 * 2 ^ 971 < 10 ^ 400) by (by vm_compute). nia. }
        assert (Z.of_nat (num_digits (Z.pos m * 2 ^ e)) - 1 < 400)
          by (apply (pow_lt_inv 10); lia).
        rewrite Z.div_1_r in *. lia. }
      split; [done|]. apply Hex; [done|].
      rewrite Z.sub_diag. simpl. by rewrite Z.mod_1_r.
    - injection Hfrac as <- <-. exists (n0 - e).
      assert (0 < 2 ^ (- e)) by (apply Z.pow_pos_nonneg; lia).
      assert (e < n0 <= 16) as Hn0.
      { split.
        - destruct (Z.lt_ge_cases n0 0) as [Hneg|]; [|lia].
          destruct Hup as [_ Hup]. specialize (Hup Hneg).
          assert (0 < 10 ^ (- n0)) by (apply Z.pow_pos_nonneg; lia).
          assert (10 ^ (- n0) < 10 ^ (- e)).
          { pose proof (pow2_le_pow10 (- e) ltac:(lia)). nia. }
          assert (- n0 < - e) by (apply (pow_lt_inv 10); lia). lia.
        - unfold n0, decimal_exponent. destruct (Z.leb_spec (2 ^ (- e)) (Z.pos m)).
          + assert (1 <= Z.pos m / 2 ^ (- e)) by (apply Z.div_le_lower_bound; lia).
            pose proof (num_digits_lower (Z.pos m / 2 ^ (- e)) ltac:(done)) as Hlow.
            assert (Z.pos m / 2 ^ (- e) <= Z.pos m) by (apply Z.div_le_upper_bound; nia).
            assert (Z.pos m < 10 ^ 16) by (change (2 ^ 53) with 9007199254740992 in Hm; lia).
            assert (Z.of_nat (num_digits (Z.pos m / 2 ^ (- e))) - 1 < 16)
              by (apply (pow_lt_inv 10); lia).
            lia.
          + destruct (leading_place_spec 400 (Z.pos m) (2 ^ (- e)) ltac:(lia)). lia. }
      split; [lia|]. apply Hex; [done|].
      replace (n0 - e - n0) with (- e) by lia.
      assert ((0 <=? - e) = true) as -> by (apply Z.leb_le; lia).
      rewrite pow10_split by lia.
      replace (Z.pos m * (5 ^ (- e) * 2 ^ (- e))) with (Z.pos m * 5 ^ (- e) * 2 ^ (- e)) by ring.
      apply Z.mod_mul. lia. }
  assert (∃ neg m0 e0, Finite false m e = Finite neg m0 e0) as Hx by (by eexists _, _, _).
  destruct (shortest_digits_complete (Finite false m e) num den n0 1100 1 K0
              ltac:(lia) Hc0) as (n & k & s & Hs & HkK).
  exists n, k, s. split; [done|].
  destruct (shortest_digits_sound (Finite false m e) num den n0 1100 1 n k s
              ltac:(lia) Hs) as [Hk1 Hcand].
  destruct (digits_candidate_sound (Finite false m e) num den n0 Hn Hd Hup Hx k s n
              ltac:(lia) Hcand) as (Hs1 & Hn' & Hval).
  split; [lia|]. split; [done|]. split; [done|]. split; [done|].
  intros K HK HcK.
  destruct (shortest_digits_complete (Finite false m e) num den n0 1100 1 K
              ltac:(lia) HcK) as (n2 & k2 & s2 & Hs2 & Hk2).
  rewrite Hs in Hs2. injection Hs2 as <- <- <-. done.
Qed.

(** * The timestamp parser *)

Lemma number_of_rat_sign neg neg' p q m e :
  number_of_rat neg p q = Finite neg m e → number_of_rat neg' p q = Finite neg' m e.
Proof.
  unfold number_of_rat.
  destruct (if _ =? _ then _ else _) as [m' e'].
  destruct (emax <? e'); [done|]. destruct m'; try done. by intros [= -> ->].
Qed.

Lemma number_of_decimal_sign neg neg' c e10 m e :
  number_of_decimal neg c e10 = Finite neg m e →
  number_of_decimal neg' c e10 = Finite neg' m e.
Proof.
  unfold number_of_decimal, number_of_frac.
  destruct (0 <=? e10).
  - destruct (c * 10 ^ e10); try done. apply number_of_rat_sign.
  - destruct c; try done. apply number_of_rat_sign.
Qed.

(** [parseInt] on decimal digits, signed or not. *)
Lemma parseInt_digits (neg : bool) ds :
  ds ≠ [] → Forall is_digit ds →
  parseInt (Some ((if neg then [45] else []) ++ ds))
  = match digits_value 10 (map (λ c, c - 48) ds) with
    | Z.pos p => number_of_rat neg p 1
    | _ => Zero neg
    end.
Proof.
  intros Hne Hall. destruct ds as [|d ds]; [done|].
  apply Forall_cons_1 in Hall as [Hd Hds].
  unfold parseInt, ToString_arg.
  assert (trim_start ((if neg then [45] else []) ++ d :: ds)
          = (if neg then [45] else []) ++ d :: ds) as ->.
  { destruct neg; simpl; [done|]. by rewrite is_digit_not_whitespace. }
  assert ((let '(neg0, unsigned) :=
             match (if neg then [45] else []) ++ d :: ds with
             | [] => (false, [])
             | c :: rest =>
                 if c =? 45 then (true, rest)
                 else if c =? 43 then (false, rest)
                 else (false, (if neg then [45] else []) ++ d :: ds)
             end in (neg0, unsigned)) = (neg, d :: ds)) as Hsign.
  { destruct neg; simpl; [done|]. unfold is_digit in Hd.
    assert ((d =? 45) = false) as -> by (apply Z.eqb_neq; lia).
    assert ((d =? 43) = false) as -> by (apply Z.eqb_neq; lia). done. }
  destruct (match (if neg then [45] else []) ++ d :: ds with
            | [] => (false, [])
            | c :: rest => _
            end) as [neg0 unsigned].
  injection Hsign as -> ->.
  assert (match d :: ds with
          | c0 :: x :: rest =>
              if (c0 =? 48) && ((x =? 120) || (x =? 88)) then (16, rest)
              else (10, d :: ds)
          | _ => (10, d :: ds)
          end = (10, d :: ds)) as ->.
  { destruct ds as [|x rest]; [done|].
    apply Forall_cons_1 in Hds as [Hx _]. unfold is_digit in Hx.
    assert ((x =? 120) = false) as -> by (apply Z.eqb_neq; lia).
    assert ((x =? 88) = false) as -> by (apply Z.eqb_neq; lia).
    by rewrite andb_false_r. }
  rewrite span_digits_all by (by constructor). done.
Qed.

Lemma repeat_zero_digits j : Forall is_digit (repeat 48 j).
Proof. induction j; simpl; constructor; [unfold is_digit; lia | done]. Qed.

Lemma fold_repeat_zero j acc :
  fold_left (λ acc d, acc * 10 + d) (map (λ c, c - 48) (repeat 48 j)) acc
  = acc * 10 ^ Z.of_nat j.
Proof.
  revert acc. induction j as [|j IH]; intros acc.
  - simpl. lia.
  - cbn [repeat map fold_left]. rewrite IH, Nat2Z.inj_succ, Z.pow_succ_r by lia.
    change (48 - 48) with 0. ring.
Qed.

Lemma digits_fixed_ne k z : (1 <= k)%nat → digits_fixed k z ≠ [].
Proof.
  intros Hk H. apply (f_equal length) in H. rewrite digits_fixed_length in H.
  simpl in H. lia.
Qed.

(** [parseInt] gives an integer of magnitude below 10^20 back from its
    [Number::toString]. *)
Lemma parseInt_toString_integer neg m e :
  canonical m e = true →
  integer_valued (Finite neg m e) = true →
  magnitude_below (10 ^ 20) (Finite neg m e) = true →
  parseInt (Some (Number_toString (Finite neg m e))) = Finite neg m e.
Proof.
  intros Hcan Hint Hmag.
  destruct (integer_valued_quotient _ m e Hint) as (z & Hz & Hq).
  destruct (toString_digits_spec m e Hcan)
    as (n & k & s & Hdig & Hk & Hs & Hval & Hn & Hmin).
  pose proof (frac_of_finite_pos m e) as [Hnum Hden].
  unfold magnitude_below in Hmag.
  destruct (frac_of_finite m e) as [num den] eqn:Hfrac. simpl in *. subst num.
  apply Z.ltb_lt in Hmag.
  assert (z < 10 ^ 20) by (by apply (Z.mul_lt_mono_pos_r den)).
  rewrite decimal_exponent_integer in Hn, Hmin by nia.
  rewrite Z.div_mul in Hn, Hmin by lia.
  pose proof (num_digits_pos z) as Hnd1.
  pose proof (num_digits_lower z Hz) as Hnd2.
  assert (Z.of_nat (num_digits z) - 1 < 20) by (apply (pow_lt_inv 10); lia).
  assert (k <= Z.of_nat (num_digits z)) as Hkn.
  { apply Hmin; [lia|].
    pose proof (digits_candidate_exact m e (Z.of_nat (num_digits z)) (Z.of_nat (num_digits z)) Hcan)
      as Hex.
    rewrite Hfrac in Hex. simpl in Hex. apply Hex.
    rewrite Z.sub_diag. simpl. rewrite Z.mul_1_r. apply Z.mod_mul. lia. }
  unfold Number_toString. rewrite Hdig. unfold toString_format.
  assert ((k <=? n) && (n <=? 21) = true) as ->
    by (apply andb_true_iff; rewrite !Z.leb_le; lia).
  rewrite parseInt_digits.
  - rewrite map_app. unfold digits_value. rewrite fold_left_app.
    fold (digits_value 10 (map (λ c, c - 48) (digits_fixed (Z.to_nat k) s))).
    rewrite digits_value_fixed by (rewrite Z2Nat.id by lia; lia).
    rewrite fold_repeat_zero, Z2Nat.id by lia.
    assert (0 < 10 ^ (n - k)) by (apply Z.pow_pos_nonneg; lia).
    apply (number_of_decimal_sign _ neg) in Hval.
    unfold number_of_decimal, number_of_frac in Hval.
    assert ((0 <=? n - k) = true) as Hnk by (apply Z.leb_le; lia).
    rewrite Hnk in Hval.
    destruct (s * 10 ^ (n - k)) as [|p|p] eqn:Hp; try nia. exact Hval.
  - intros [Hnil _]%app_eq_nil. revert Hnil. apply digits_fixed_ne. lia.
  - apply Forall_app. split; [apply digits_fixed_digits | apply repeat_zero_digits].
Qed.

Lemma TimeClip_time_value tv : time_value tv → TimeClip tv = tv.
Proof.
  intros [-> | [-> | (Hcan & Hint & Hmag & neg & m & e & ->)]]; [done..|].
  destruct (integer_valued_quotient _ m e Hint) as (z & Hz & Hq).
  pose proof (number_of_Z_exact neg m e z Hcan Hz Hq) as Hex.
  pose proof (frac_of_finite_pos m e) as [Hnum Hden].
  unfold TimeClip. unfold magnitude_below in Hmag.
  destruct (frac_of_finite m e) as [num den]. simpl in *. subst num.
  apply Z.ltb_lt in Hmag.
  assert (z < 8640000000000000 + 1) by (by apply (Z.mul_lt_mono_pos_r den)).
  assert ((8640000000000000 * den <? z * den) = false) as ->
    by (apply Z.ltb_ge, Z.mul_le_mono_nonneg_r; lia).
  rewrite Z.div_mul by lia.
  destruct neg; destruct z as [|p|p]; try lia; exact Hex.
Qed.

(** The timestamp parser gives back every Date, an invalid one too. *)
Lemma timestamp_round_trip d :
  time_value (DateValue d) → round_trips timestamp_parser d.
Proof.
  intros Htv. eexists _, _. split; [reflexivity|]. split; [reflexivity|].
  simpl. unfold new_Date_number, Date_valueOf. destruct d as [tv]. simpl in *.
  do 3 f_equal.
  pose proof (TimeClip_time_value tv Htv) as Hclip.
  destruct Htv as [-> | [-> | (Hcan & Hint & Hmag & neg & m & e & ->)]];
    [by vm_compute..|].
  rewrite parseInt_toString_integer; [done..|].
  unfold magnitude_below in *. destruct (frac_of_finite m e) as [num den] eqn:Hf.
  pose proof (frac_of_finite_pos m e) as [_ Hden]. rewrite Hf in Hden. simpl in Hden.
  apply Z.ltb_lt in Hmag. apply Z.ltb_lt.
  assert ((8640000000000000 + 1) * den < 10 ^ 20 * den); [|lia].
  apply Z.mul_lt_mono_pos_r; [done | by vm_compute].
Qed.

(** * The float parser *)

Lemma digit_value_not_digit c : ¬ is_digit c → digit_value 10 c = None.
Proof.
  unfold is_digit, digit_value. intros H.
  destruct ((48 <=? c) && (c <=? 57)) eqn:E; [Zbool; lia|done].
Qed.

Lemma span_digits_stop c rest : ¬ is_digit c → span_digits 10 (c :: rest) = ([], c :: rest).
Proof. intros H. simpl. by rewrite digit_value_not_digit. Qed.

Lemma span_digits_then ds rest :
  Forall is_digit ds →
  match rest with [] => True | c :: _ => ¬ is_digit c end →
  span_digits 10 (ds ++ rest) = (map (λ c, c - 48) ds, rest).
Proof.
  intros Hds Hrest. rewrite span_digits_app by done.
  destruct rest as [|c rest]; simpl.
  - by rewrite app_nil_r.
  - rewrite digit_value_not_digit by done. simpl. by rewrite app_nil_r.
Qed.

Lemma exponent_part_literal x rest :
  match rest with [] => True | c :: _ => ¬ is_digit c end →
  exponent_part ([101] ++ (if 0 <=? x then [43] else [45]) ++ decimal (Z.abs x) ++ rest)
  = Some (x, rest).
Proof.
  intros Hrest. unfold exponent_part. cbn [app]. change (101 =? 101) with true. cbn [orb].
  destruct (Z.leb_spec 0 x) as [Hx|Hx]; cbn [app].
  - change (43 =? 45) with false. change (43 =? 43) with true. cbv iota.
    rewrite span_digits_then by (done || apply decimal_digits).
    destruct (decimal_cons (Z.abs x)) as (d & ds & Hd & _).
    pose proof (decimal_value (Z.abs x) ltac:(lia)) as Hv.
    rewrite Hd in *. cbn [map]. cbn [map] in Hv. rewrite Hv. f_equal. f_equal. lia.
  - change (45 =? 45) with true. cbv iota.
    rewrite span_digits_then by (done || apply decimal_digits).
    destruct (decimal_cons (Z.abs x)) as (d & ds & Hd & _).
    pose proof (decimal_value (Z.abs x) ltac:(lia)) as Hv.
    rewrite Hd in *. cbn [map]. cbn [map] in Hv. rewrite Hv. f_equal. f_equal. lia.
Qed.

Lemma exponent_part_stop rest : number_stop rest → exponent_part rest = None.
Proof.
  destruct rest as [|c rest]; [done|]. intros (_ & _ & H1 & H2). simpl.
  assert ((c =? 101) = false) as -> by (by apply Z.eqb_neq).
  assert ((c =? 69) = false) as -> by (by apply Z.eqb_neq). done.
Qed.

Lemma number_stop_not_digit rest :
  number_stop rest → match rest with [] => True | c :: _ => ¬ is_digit c end.
Proof. destruct rest; [done|]. by intros [? _]. Qed.

(** The longest decimal prefix of a literal is the literal. *)
Lemma unsigned_decimal_prefix_literal ip fp ex :
  ip ≠ [] → Forall is_digit ip → Forall is_digit fp →
  unsigned_decimal_prefix (literal ip fp ex)
  = Some (digit_string_value (ip ++ fp),
          match ex with Some x => x | None => 0 end - Z.of_nat (length fp)).
Proof.
  intros Hne Hip Hfp. unfold unsigned_decimal_prefix, literal.
  set (extext := match ex with
                 | None => []
                 | Some x => [101] ++ (if 0 <=? x then [43] else [45]) ++ decimal (Z.abs x)
                 end).
  assert (exponent_part extext = match ex with Some x => Some (x, []) | None => None end) as Hex.
  { unfold extext. destruct ex as [x|]; [|done].
    pose proof (exponent_part_literal x [] I) as H. by rewrite !app_nil_r in H. }
  assert (match extext with [] => True | c :: _ => ¬ is_digit c ∧ c ≠ 46 end) as Hstop.
  { unfold extext. destruct ex; [|done]. simpl. unfold is_digit. lia. }
  destruct fp as [|f fp].
  - rewrite app_nil_l.
    rewrite span_digits_then; [|done|by destruct extext as [|c ?]; [|destruct Hstop]].
    assert ((let '(frac_digits, after_frac, _) :=
               match extext with
               | [] => ([], [], false)
               | c :: rest =>
                   if c =? 46
                   then let '(ds, rest') := span_digits 10 rest in (ds, rest', true)
                   else ([], extext, false)
               end in (frac_digits, after_frac)) = ([], extext)) as Hfrac.
    { destruct extext as [|c rest]; [done|]. destruct Hstop as [_ Hc].
      by assert ((c =? 46) = false) as -> by (by apply Z.eqb_neq). }
    destruct (match extext with [] => _ | c :: rest => _ end) as [[fd af] hp].
    injection Hfrac as -> ->.
    destruct ip as [|i ip]; [done|]. cbn [map]. rewrite Hex.
    rewrite !app_nil_r. unfold digit_string_value. cbn [map length].
    by destruct ex.
  - rewrite span_digits_then; [|done|unfold is_digit; simpl; lia].
    change ((46 :: f :: fp) ++ extext) with (46 :: ((f :: fp) ++ extext)).
    cbv iota. change (46 =? 46) with true. cbv iota.
    rewrite span_digits_then; [|done|by destruct extext as [|c ?]; [|destruct Hstop]].
    destruct ip as [|i ip]; [done|]. cbn [map]. rewrite Hex.
    unfold digit_string_value. rewrite !map_app. cbn [map length]. rewrite length_map.
    by destruct ex.
Qed.

Lemma digit_string_value_app a b :
  digit_string_value (a ++ b)
  = fold_left (λ acc d, acc * 10 + d) (map (λ c, c - 48) b) (digit_string_value a).
Proof. unfold digit_string_value, digits_value. by rewrite map_app, fold_left_app. Qed.

Lemma digit_string_value_fixed k z :
  0 <= z < 10 ^ Z.of_nat k → digit_string_value (digits_fixed k z) = z.
Proof. apply digits_value_fixed. Qed.

Lemma take_drop_digits (j : nat) ds : Forall is_digit ds →
  Forall is_digit (take j ds) ∧ Forall is_digit (drop j ds).
Proof. intros H. split; [by apply Forall_take | by apply Forall_drop]. Qed.

Lemma single_no_leading_zero ip : length ip = 1%nat → no_leading_zero ip.
Proof.
  destruct ip as [|c [|? ?]]; try done. intros _.
  destruct (Z.eq_dec c 48) as [->|Hc]; [by left | right; by eexists _, _].
Qed.

Lemma digits_fixed_head k s :
  ∃ tl, digits_fixed (S k) s = (48 + (s / 10 ^ Z.of_nat k) mod 10) :: tl.
Proof.
  revert s. induction k as [|k IH]; intros s.
  - exists []. cbn [digits_fixed app]. change (10 ^ Z.of_nat 0) with 1.
    by rewrite Z.div_1_r.
  - destruct (IH (s / 10)) as [tl Htl]. eexists.
    change (digits_fixed (S (S k)) s)
      with (digits_fixed (S k) (s / 10) ++ [48 + s mod 10]).
    rewrite Htl. cbn [app]. f_equal.
    rewrite Nat2Z.inj_succ, Z.pow_succ_r by lia.
    rewrite Z.div_div by (try apply Z.pow_pos_nonneg; lia). done.
Qed.

(** The first of the [k] digits of [s] is not a zero when [s] has [k]
    digits. *)
Lemma digits_fixed_leading k s :
  1 <= k → 10 ^ (k - 1) <= s < 10 ^ k →
  ∃ c tl, digits_fixed (Z.to_nat k) s = c :: tl ∧ is_digit c ∧ c ≠ 48.
Proof.
  intros Hk Hs. destruct (Z.to_nat k) as [|j] eqn:Hj; [lia|].
  destruct (digits_fixed_head j s) as [tl Htl]. eexists _, tl. split; [done|].
  assert (Z.of_nat j = k - 1) as -> by lia.
  assert (0 < 10 ^ (k - 1)) by (apply Z.pow_pos_nonneg; lia).
  assert (10 ^ k = 10 ^ (k - 1) * 10) as Hpow.
  { replace k with (k - 1 + 1) at 1 by lia. by rewrite Z.pow_add_r by lia. }
  assert (1 <= s / 10 ^ (k - 1)) by (apply Z.div_le_lower_bound; lia).
  assert (s / 10 ^ (k - 1) < 10) by (apply Z.div_lt_upper_bound; lia).
  rewrite Z.mod_small by lia. unfold is_digit. lia.
Qed.

(** The text of [Number::toString] is a literal of the value
    s * 10^(n-k). *)
Lemma toString_format_literal n k s :
  1 <= k → 1 <= s < 10 ^ k →
  ∃ ip fp ex,
    toString_format n k s = literal ip fp ex
    ∧ ip ≠ [] ∧ Forall is_digit ip ∧ Forall is_digit fp
    ∧ (∀ neg, number_of_decimal neg (digit_string_value (ip ++ fp))
                (match ex with Some x => x | None => 0 end - Z.of_nat (length fp))
              = number_of_decimal neg s (n - k))
    ∧ ((1 <= n → 10 ^ (k - 1) <= s) → no_leading_zero ip).
Proof.
  intros Hk Hs. unfold toString_format.
  pose proof (digits_fixed_leading k s Hk) as Hlead.
  set (ds := digits_fixed (Z.to_nat k) s) in *.
  assert (Forall is_digit ds) as Hds by apply digits_fixed_digits.
  assert (length ds = Z.to_nat k) as Hlen by apply digits_fixed_length.
  assert (digit_string_value ds = s) as Hval
    by (apply digit_string_value_fixed; rewrite Z2Nat.id by lia; lia).
  assert (ds ≠ []) as Hne by (apply digits_fixed_ne; lia).
  destruct ((k <=? n) && (n <=? 21)) eqn:HA; [|destruct ((0 <? n) && (n <=? 21)) eqn:HB;
    [|destruct ((-6 <? n) && (n <=? 0)) eqn:HC]].
  - Zbool. exists (ds ++ repeat 48 (Z.to_nat (n - k))), [], None.
    split; [unfold literal; by rewrite !app_nil_r|].
    split; [by intros [? _]%app_eq_nil|].
    split; [apply Forall_app; split; [done | apply repeat_zero_digits]|].
    split; [constructor|]. split.
    + intros neg. rewrite app_nil_r, digit_string_value_app.
      rewrite fold_repeat_zero, Hval, Z2Nat.id by lia. simpl (length []).
      unfold number_of_decimal. change (0 - Z.of_nat 0) with 0.
      change (0 <=? 0) with true. cbv iota.
      assert ((0 <=? n - k) = true) as -> by (apply Z.leb_le; lia).
      change (10 ^ 0) with 1. by rewrite Z.mul_1_r.
    + intros Hlow. destruct Hlead as (c & tl & -> & _ & Hc); [lia|].
      right. by eexists _, _.
  - assert (n < k) by (Zbool; lia). clear HA. Zbool.
    exists (take (Z.to_nat n) ds), (drop (Z.to_nat n) ds), None.
    assert (length (drop (Z.to_nat n) ds) = Z.to_nat (k - n)) as Hdl
      by (rewrite length_drop; lia).
    split.
    { unfold literal. destruct (drop (Z.to_nat n) ds) eqn:Hd; [simpl in Hdl; lia|].
      by rewrite app_nil_r. }
    split.
    { intros Hnil. apply (f_equal length) in Hnil. rewrite length_take in Hnil.
      change (length []) with 0%nat in Hnil. lia. }
    split; [by apply Forall_take|]. split; [by apply Forall_drop|].
    split; [intros neg; rewrite take_drop, Hval, Hdl; f_equal; lia|].
    intros Hlow. destruct Hlead as (c & tl & Hds' & _ & Hc); [lia|].
    right. rewrite Hds'. destruct (Z.to_nat n) as [|j] eqn:Hj; [lia|].
    by eexists _, _.
  - clear HA HB. Zbool. exists [48], (repeat 48 (Z.to_nat (- n)) ++ ds), None.
    split.
    { unfold literal. destruct (repeat 48 (Z.to_nat (- n)) ++ ds) eqn:Hd.
      - by apply app_eq_nil in Hd as [_ ?].
      - by rewrite app_nil_r. }
    split; [done|]. split; [constructor; [unfold is_digit; lia | constructor]|].
    split; [apply Forall_app; split; [apply repeat_zero_digits | done]|].
    split; [|by left].
    intros neg.
    change ([48] ++ repeat 48 (Z.to_nat (- n)) ++ ds)
      with (repeat 48 (S (Z.to_nat (- n))) ++ ds).
    rewrite digit_string_value_app.
    assert (digit_string_value (repeat 48 (S (Z.to_nat (- n)))) = 0) as ->.
    { unfold digit_string_value, digits_value. by rewrite fold_repeat_zero. }
    fold (digits_value 10 (map (λ c, c - 48) ds)). fold (digit_string_value ds).
    rewrite Hval, length_app, repeat_length, Hlen. f_equal. lia.
  - clear HA HB HC. destruct (Z.eqb_spec k 1) as [->|Hk1].
    + exists ds, [], (Some (n - 1)).
      split; [unfold literal; by rewrite app_nil_l|].
      split; [done|]. split; [done|]. split; [constructor|].
      split; [intros neg; rewrite app_nil_r, Hval; f_equal; simpl; lia|].
      intros _. apply single_no_leading_zero. by rewrite Hlen.
    + exists (take 1 ds), (drop 1 ds), (Some (n - 1)).
      assert (length (drop 1 ds) = Z.to_nat (k - 1)) as Hdl
        by (rewrite length_drop; lia).
      split.
      { unfold literal. destruct (drop 1 ds) eqn:Hd; [simpl in Hdl; lia|].
        reflexivity. }
      split.
      { intros Hnil. apply (f_equal length) in Hnil. rewrite length_take in Hnil.
        change (length []) with 0%nat in Hnil. lia. }
      split; [by apply Forall_take|]. split; [by apply Forall_drop|].
      split; [intros neg; rewrite take_drop, Hval, Hdl; f_equal; lia|].
      intros _. apply single_no_leading_zero. rewrite length_take. lia.
Qed.

Lemma parseFloat_literal (neg : bool) ip fp ex :
  ip ≠ [] → Forall is_digit ip → Forall is_digit fp →
  parseFloat (Some ((if neg then [45] else []) ++ literal ip fp ex))
  = number_of_decimal neg (digit_string_value (ip ++ fp))
      (match ex with Some x => x | None => 0 end - Z.of_nat (length fp)).
Proof.
  intros Hne Hip Hfp.
  pose proof (unsigned_decimal_prefix_literal ip fp ex Hne Hip Hfp) as Hpre.
  unfold parseFloat, ToString_arg.
  destruct ip as [|d ip]; [done|]. apply Forall_cons_1 in Hip as [Hd Hip].
  assert (∃ tail, literal (d :: ip) fp ex = d :: tail) as [tail Hlit] by (by eexists).
  rewrite Hlit in *.
  assert (starts_with (js "Infinity") (d :: tail) = false) as Hinf.
  { change (starts_with (js "Infinity") (d :: tail))
      with ((73 =? d) && starts_with (js "nfinity") tail).
    unfold is_digit in Hd.
    assert ((73 =? d) = false) as -> by (apply Z.eqb_neq; lia). done. }
  destruct neg; cbn [app trim_start].
  - change (is_whitespace 45) with false. cbv iota.
    change (45 =? 45) with true. cbv iota. by rewrite Hinf, Hpre.
  - rewrite is_digit_not_whitespace by done. unfold is_digit in Hd.
    assert ((d =? 45) = false) as -> by (apply Z.eqb_neq; lia).
    assert ((d =? 43) = false) as -> by (apply Z.eqb_neq; lia).
    by rewrite Hinf, Hpre.
Qed.

(** [parseFloat] gives every finite non-zero value back from its
    [Number::toString]. *)
Lemma parseFloat_toString neg m e :
  canonical m e = true →
  parseFloat (Some (Number_toString (Finite neg m e))) = Finite neg m e.
Proof.
  intros Hcan.
  destruct (toString_digits_spec m e Hcan)
    as (n & k & s & Hdig & Hk & Hs & Hval & _).
  destruct (toString_format_literal n k s Hk Hs)
    as (ip & fp & ex & Hfmt & Hne & Hip & Hfp & Hnum & _).
  unfold Number_toString. rewrite Hdig, Hfmt.
  rewrite parseFloat_literal by done.
  rewrite Hnum. by apply (number_of_decimal_sign false).
Qed.

(** The float parser gives back every number but [NaN] and [-0]. *)
Lemma float_round_trip v : float_domain v → round_trips float_parser v.
Proof.
  intros (Hcan & Hnan & Hz). eexists _, _. split; [reflexivity|]. split; [reflexivity|].
  cbn [parse float_parser].
  destruct v as [|neg|[|]|neg m e].
  - by destruct Hnan.
  - by destruct neg; vm_compute.
  - by destruct Hz.
  - by vm_compute.
  - rewrite parseFloat_toString by exact Hcan. reflexivity.
Qed.

(** * The ISO date-time parser *)

(** ** The calendar *)

Lemma DayFromYear_succ y : DayFromYear (y + 1) = DayFromYear y + DaysInYear y.
Proof.
  unfold DayFromYear, DaysInYear.
  destruct (y mod 4 =? 0) eqn:H4; destruct (y mod 100 =? 0) eqn:H100;
    destruct (y mod 400 =? 0) eqn:H400; cbn [negb]; cbv iota; Zbool; zdiv.
Qed.

(** [YearFromDay] is the year the day falls in. *)
Lemma YearFromDay_spec d :
  DayFromYear (YearFromDay d) <= d < DayFromYear (YearFromDay d + 1).
Proof.
  unfold YearFromDay. set (y := 1970 + d * 400 / 146097).
  assert (DayFromYear (y - 1) <= d < DayFromYear (y + 2)) as Hy.
  { unfold DayFromYear. subst y.
    pose proof (Z.div_mod (d * 400) 146097 ltac:(lia)).
    pose proof (Z.mod_pos_bound (d * 400) 146097 ltac:(lia)).
    set (q := d * 400 / 146097) in *. set (r := (d * 400) mod 146097) in *.
    clearbody q r. split; zdiv. }
  destruct (d <? DayFromYear y) eqn:H1.
  { replace (y - 1 + 1) with y by lia. Zbool; lia. }
  destruct (DayFromYear (y + 1) <=? d) eqn:H2; Zbool; [|lia].
  replace (y + 1 + 1) with (y + 2) by lia. lia.
Qed.

Lemma DayFromYear_mono y y' : y <= y' → DayFromYear y <= DayFromYear y'.
Proof. unfold DayFromYear. intros. zdiv. Qed.

Lemma DaysInYear_cases y : DaysInYear y = 365 ∨ DaysInYear y = 366.
Proof.
  unfold DaysInYear.
  destruct (y mod 4 =? 0), (y mod 100 =? 0), (y mod 400 =? 0); cbn; auto.
Qed.

Lemma DayWithinYear_range t :
  0 <= DayWithinYear t < 365 + InLeapYear t ∧ (InLeapYear t = 0 ∨ InLeapYear t = 1).
Proof.
  unfold DayWithinYear, InLeapYear, YearFromTime.
  pose proof (YearFromDay_spec (Day t)) as H.
  rewrite DayFromYear_succ in H.
  destruct (DaysInYear_cases (YearFromDay (Day t))) as [E|E]; rewrite E in *;
    cbn; lia.
Qed.

(** The month and the date of a day are in the range the date parser
    checks, and [MakeDay] gives the day back from them. *)
Lemma month_date_range t :
  let m := MonthFromTime t in
  let leap := InLeapYear t in
  0 <= m <= 11
  ∧ 1 <= DateFromTime t <= month_start (m + 1) leap - month_start m leap
  ∧ 1 <= DateFromTime t <= 31
  ∧ MakeDay (YearFromTime t) m (DateFromTime t) = Day t.
Proof.
  intros m leap. subst m.
  unfold MakeDay, DateFromTime, MonthFromTime.
  pose proof (DayWithinYear_range t) as [Hd Hl].
  fold (InLeapYear t). fold leap in Hd, Hl |- *.
  assert (DayFromYear (YearFromTime t) + DayWithinYear t = Day t) as <-
    by (unfold DayWithinYear; lia).
  set (d := DayWithinYear t) in *. clearbody d leap.
  repeat match goal with
         | |- context [?a <? ?b] =>
             let E := fresh "E" in destruct (a <? b) eqn:E; Zbool
         end;
    unfold month_start;
    repeat match goal with
           | |- context [?a =? ?b] =>
               let v := eval vm_compute in (a =? b) in change (a =? b) with v
           end;
    cbv iota; lia.
Qed.

Lemma MakeTime_within_day t :
  MakeTime (HourFromTime t) (MinFromTime t) (SecFromTime t) (msFromTime t)
  = TimeWithinDay t.
Proof.
  unfold MakeTime, HourFromTime, MinFromTime, SecFromTime, msFromTime,
    TimeWithinDay, msPerHour, msPerMinute, msPerSecond, msPerDay.
  zdiv.
Qed.

Lemma MakeDate_time t : MakeDate (Day t) (TimeWithinDay t) = t.
Proof. unfold MakeDate, Day, TimeWithinDay, msPerDay. zdiv. Qed.

Lemma time_fields_range t :
  0 <= HourFromTime t <= 23 ∧ 0 <= MinFromTime t <= 59
  ∧ 0 <= SecFromTime t <= 59 ∧ 0 <= msFromTime t <= 999.
Proof.
  unfold HourFromTime, MinFromTime, SecFromTime, msFromTime, msPerSecond.
  zdiv.
Qed.

(** The years of the time values a Date can hold. *)
Lemma YearFromTime_range t :
  - 8640000000000000 <= t <= 8640000000000000 →
  -271821 <= YearFromTime t <= 275760.
Proof.
  intros Ht. unfold YearFromTime.
  pose proof (YearFromDay_spec (Day t)) as [Hlo Hhi].
  assert (-100000000 <= Day t <= 100000000) as Hd
    by (unfold Day, msPerDay; zdiv).
  set (y := YearFromDay (Day t)) in *. clearbody y.
  destruct (Z_lt_le_dec 275760 y) as [Hy|Hy].
  { pose proof (DayFromYear_mono 275761 y ltac:(lia)) as Hm.
    change (DayFromYear 275761) with 100000110 in Hm. lia. }
  destruct (Z_lt_le_dec y (-271821)) as [Hy'|Hy']; [|lia].
  pose proof (DayFromYear_mono (y + 1) (-271821) ltac:(lia)) as Hm.
  change (DayFromYear (-271821)) with (-100000109) in Hm. lia.
Qed.

(** ** Reading the fields back *)

Lemma read_digits_app ds acc rest :
  Forall is_digit ds →
  read_digits (length ds) acc (ds ++ rest)
  = Some (fold_left (λ acc d, acc * 10 + d) (map (λ c, c - 48) ds) acc, rest).
Proof.
  intros Hds. revert acc. induction Hds as [|c ds Hc _ IH]; intros acc; [done|].
  cbn [length app read_digits map fold_left]. unfold is_digit in Hc.
  assert ((48 <=? c) && (c <=? 57) = true) as ->
    by (apply andb_true_iff; rewrite !Z.leb_le; lia).
  apply IH.
Qed.

Lemma read_digits_fixed k z rest :
  0 <= z < 10 ^ Z.of_nat k →
  read_digits k 0 (digits_fixed k z ++ rest) = Some (z, rest).
Proof.
  intros Hz. rewrite <- (digits_fixed_length k z) at 1.
  rewrite read_digits_app by apply digits_fixed_digits.
  rewrite fold_digits_fixed, Z.mod_small by done. done.
Qed.

Lemma expect_cons c rest : expect c (c :: rest) = Some rest.
Proof. unfold expect. by rewrite Z.eqb_refl. Qed.

Lemma read_year_iso_year y rest :
  -999999 <= y <= 999999 → read_year (iso_year y ++ rest) = Some (y, rest).
Proof.
  intros Hy. unfold iso_year.
  destruct ((0 <=? y) && (y <=? 9999)) eqn:E.
  - Zbool. pose proof (digits_fixed_digits 4 y) as Hd.
    pose proof (read_digits_fixed 4 y rest ltac:(lia)) as Hr.
    pose proof (digits_fixed_length 4 y) as Hl.
    destruct (digits_fixed 4 y) as [|c ds]; [done|]. clear Hl.
    apply Forall_cons in Hd as [Hc _]. unfold is_digit in Hc.
    cbn [app read_year].
    assert ((c =? 43) = false) as -> by (apply Z.eqb_neq; lia).
    assert ((c =? 45) = false) as -> by (apply Z.eqb_neq; lia).
    exact Hr.
  - clear E. destruct (0 <=? y) eqn:E0.
    + cbn [app read_year]. change (43 =? 43) with true. cbv iota.
      rewrite read_digits_fixed by lia. f_equal. f_equal. lia.
    + cbn [app read_year]. change (45 =? 43) with false.
      change (45 =? 45) with true. cbv iota.
      rewrite read_digits_fixed by lia. cbn [mbind option_bind].
      Zbool. assert ((Z.abs y =? 0) = false) as -> by (apply Z.eqb_neq; lia).
      f_equal. f_equal. lia.
Qed.

(** The date parser reads the time value back from what [toISOString]
    writes. *)
Lemma parse_utc_date_time_toISOString t :
  - 8640000000000000 <= t <= 8640000000000000 →
  parse_utc_date_time
    (iso_year (YearFromTime t) ++ [45] ++ digits_fixed 2 (MonthFromTime t + 1)
       ++ [45] ++ digits_fixed 2 (DateFromTime t)
       ++ [84] ++ digits_fixed 2 (HourFromTime t)
       ++ [58] ++ digits_fixed 2 (MinFromTime t)
       ++ [58] ++ digits_fixed 2 (SecFromTime t)
       ++ [46] ++ digits_fixed 3 (msFromTime t) ++ [90])
  = Some t.
Proof.
  intros Ht. pose proof (YearFromTime_range t Ht) as Hy.
  pose proof (month_date_range t) as (Hm & Hdate & Hdate' & Hday).
  pose proof (time_fields_range t) as (Hh & Hmin & Hs & Hms).
  unfold parse_utc_date_time.
  apply bind_Some. eexists (_, _). split; [apply read_year_iso_year; lia|].
  cbv beta iota.
  do 6 (apply bind_Some; eexists; split; [apply expect_cons|];
        apply bind_Some; eexists (_, _);
        split; [apply read_digits_fixed; change (Z.of_nat 2) with 2;
                change (Z.of_nat 3) with 3; lia|];
        cbv beta iota).
  apply bind_Some. eexists. split; [apply expect_cons|].
  fold (InLeapYear t).
  replace (MonthFromTime t + 1 - 1) with (MonthFromTime t) by lia.
  rewrite Hday, MakeTime_within_day, MakeDate_time.
  assert (∀ b : bool, b = true → (if b then Some t else None) = Some t) as Hif
    by (by intros ? ->).
  apply Hif. unfold str_eqb. rewrite bool_decide_eq_true_2 by done.
  repeat (apply andb_true_iff; split); try apply Z.leb_le; try done; lia.
Qed.

(** ** The ISO date-time parser *)

Lemma time_integer_time_value tv :
  time_value tv → tv ≠ NaN →
  ∃ t, time_integer tv = Some t ∧ number_of_Z t = tv
       ∧ - 8640000000000000 <= t <= 8640000000000000.
Proof.
  intros [-> | [-> | (Hcan & Hint & Hmag & neg & m & e & ->)]] Hnan; [done|..].
  { exists 0. split_and!; try done; lia. }
  destruct (integer_valued_quotient _ m e Hint) as (z & Hz & Hq).
  pose proof (number_of_Z_exact neg m e z Hcan Hz Hq) as Hex.
  pose proof (frac_of_finite_pos m e) as [Hnum Hden].
  unfold time_integer. unfold magnitude_below in Hmag.
  destruct (frac_of_finite m e) as [num den]. cbn [fst snd] in *. subst num.
  apply Z.ltb_lt in Hmag.
  assert (z < 8640000000000000 + 1) by (by apply (Z.mul_lt_mono_pos_r den)).
  rewrite Z.div_mul by lia.
  eexists. split; [done|].
  split; [destruct neg; destruct z as [|p|p]; try lia; exact Hex|].
  destruct neg; lia.
Qed.

Section IsoDateTime_round_trip.
Variable Date_parse_other : jsstring → number.

(** The ISO date-time parser gives back every valid Date, whatever the
    engine makes of the strings outside the format. *)
Lemma isoDateTime_round_trip d :
  time_value (DateValue d) → DateValue d ≠ NaN →
  round_trips (isoDateTime_parser Date_parse_other) d.
Proof.
  intros Htv Hnan. destruct d as [tv]. cbn [DateValue] in *.
  destruct (time_integer_time_value tv Htv Hnan) as (t & Ht & Hnum & Hrange).
  eexists _, _. split; [reflexivity|].
  unfold Date_toISOString. cbn [DateValue]. rewrite Ht.
  fold (iso_year (YearFromTime t)).
  split; [reflexivity|].
  cbn [parse isoDateTime_parser]. unfold new_Date_string, Date_parse.
  rewrite parse_utc_date_time_toISOString by done.
  by rewrite Hnum, (TimeClip_time_value tv Htv).
Qed.

End IsoDateTime_round_trip.

(** * The JSON parser *)

(** ** Numbers in a JSON text *)

(** A decimal of [k] digits found for a value of at least 1 has a first
    digit that is not zero. *)
Lemma digits_candidate_lower x num den n0 k s n :
  0 < num → 0 < den → 1 <= k →
  (1 <= n0 → 10 ^ (n0 - 1) * den <= num) →
  digits_candidate x num den n0 k = Some (s, n) →
  1 <= n → 10 ^ (k - 1) <= s.
Proof.
  intros Hnum Hden Hk Hlow Hc Hn. unfold digits_candidate in Hc.
  set (scale := k - n0) in *.
  assert (∀ s0, (if s0 =? 10 ^ k then Some (10 ^ (k - 1), n0 + 1) else Some (s0, n0))
                = Some (s, n) →
                s = 10 ^ (k - 1) ∨ (s = s0 ∧ n = n0)) as Hpick.
  { intros s0. destruct (s0 =? 10 ^ k); intros [= <- <-]; auto. }
  assert (∃ a b, (if 0 <=? scale then (num * 10 ^ scale, den)
                  else (num, den * 10 ^ (- scale))) = (a, b)
                 ∧ 0 < b ∧ (1 <= n0 → 10 ^ (k - 1) * b <= a)) as (a & b & Hab & Hb & Hl).
  { destruct (Z.leb_spec 0 scale) as [Hs|Hs].
    - eexists _, _. split; [done|]. split; [done|]. intros H0.
      specialize (Hlow H0).
      replace (k - 1) with (n0 - 1 + scale) by (unfold scale; lia).
      rewrite Z.pow_add_r by lia.
      assert (0 < 10 ^ scale) by (apply Z.pow_pos_nonneg; lia). nia.
    - eexists _, _. split; [done|].
      assert (0 < 10 ^ (- scale)) by (apply Z.pow_pos_nonneg; lia).
      split; [nia|]. intros H0. specialize (Hlow H0).
      replace (n0 - 1) with (k - 1 + - scale) in Hlow by (unfold scale; lia).
      rewrite Z.pow_add_r in Hlow by lia. lia. }
  rewrite Hab in Hc. cbv zeta in Hc.
  assert (s = 10 ^ (k - 1) ∨ ((s = a / b ∨ s = a / b + 1) ∧ n = n0)) as [->|[Hs ->]].
  { destruct (number_eqb (number_of_decimal false (a / b) (- scale)) x);
      destruct (number_eqb (number_of_decimal false (a / b + 1) (- scale)) x);
      try done;
      [destruct (2 * (a mod b) ?= b); [destruct (Z.even (a / b))| |]|..];
      apply Hpick in Hc as [?|[? ?]]; auto. }
  - lia.
  - assert (10 ^ (k - 1) <= a / b) by (apply Z.div_le_lower_bound; [done|]; lia).
    lia.
Qed.

(** The value is at least 10^(n-1) when its decimal exponent [n] is
    positive. *)
Lemma decimal_exponent_lower num den :
  0 < num → 0 < den → 1 <= decimal_exponent num den →
  10 ^ (decimal_exponent num den - 1) * den <= num.
Proof.
  intros Hn Hd. unfold decimal_exponent. destruct (Z.leb_spec den num) as [H|H].
  - intros _. assert (1 <= num / den) by (apply Z.div_le_lower_bound; lia).
    pose proof (num_digits_lower (num / den) ltac:(done)) as Hl.
    pose proof (Z.mul_div_le num den Hd). nia.
  - destruct (leading_place_spec 400 num den ltac:(lia)). intros ?. lia.
Qed.

Lemma toString_digits_lower m e n k s :
  canonical m e = true → toString_digits m e = Some (n, k, s) →
  1 <= n → 10 ^ (k - 1) <= s.
Proof.
  intros Hcan Hts Hn. pose proof (frac_of_finite_pos m e) as [Hnum Hden].
  unfold toString_digits in Hts.
  destruct (frac_of_finite m e) as [num den]. cbn [fst snd] in *.
  destruct (shortest_digits_sound (Finite false m e) num den
              (decimal_exponent num den) 1100 1 n k s ltac:(lia) Hts) as [Hk Hc].
  apply (digits_candidate_lower _ _ _ _ _ _ _ Hnum Hden Hk
           (decimal_exponent_lower num den Hnum Hden) Hc Hn).
Qed.

(** A JSON number is read back from a literal with no leading zero. *)
Lemma json_number_literal (neg : bool) ip fp ex rest :
  ip ≠ [] → Forall is_digit ip → Forall is_digit fp → no_leading_zero ip →
  number_stop rest →
  json_number ((if neg then [45] else []) ++ literal ip fp ex ++ rest)
  = Some (number_of_decimal neg (digit_string_value (ip ++ fp))
            (match ex with Some x => x | None => 0 end - Z.of_nat (length fp)),
          rest).
Proof.
  intros Hne Hip Hfp Hlead Hstop. unfold literal.
  set (extext := match ex with
                 | None => []
                 | Some x => [101] ++ (if 0 <=? x then [43] else [45]) ++ decimal (Z.abs x)
                 end).
  set (fptext := match fp with [] => [] | _ :: _ => 46 :: fp end).
  assert (exponent_part (extext ++ rest)
          = match ex with Some x => Some (x, rest) | None => None end) as Hex.
  { unfold extext. destruct ex as [x|].
    - rewrite <- !app_assoc. apply exponent_part_literal.
      by apply number_stop_not_digit.
    - by apply exponent_part_stop. }
  assert (match extext ++ rest with
          | [] => True | c :: _ => ¬ is_digit c ∧ c ≠ 46
          end) as Hstop'.
  { unfold extext. destruct ex; [cbn; unfold is_digit; lia|].
    destruct rest as [|c ?]; [done|]. cbn. destruct Hstop as (? & ? & _). done. }
  assert (match fptext ++ extext ++ rest with
          | [] => True | c :: _ => ¬ is_digit c
          end) as Hstop''.
  { unfold fptext. destruct fp; [|cbn; unfold is_digit; lia].
    cbn [app]. destruct (extext ++ rest); [done|]. by destruct Hstop'. }
  assert (∃ c tl, ip = c :: tl ∧ is_digit c) as (c0 & tl0 & Hip0 & Hc0).
  { destruct ip as [|c tl]; [done|]. apply Forall_cons in Hip as [? ?]. by eexists _, _. }
  unfold json_number.
  (* the sign *)
  assert ((let '(neg', s1) :=
             match (if neg then [45] else []) ++ (ip ++ fptext ++ extext) ++ rest with
             | c :: rest0 => if c =? 45 then (true, rest0)
                             else (false, (if neg then [45] else []) ++
                                          (ip ++ fptext ++ extext) ++ rest)
             | [] => (false, [])
             end in (neg', s1)) = (neg, ip ++ fptext ++ extext ++ rest)) as Hsign.
  { destruct neg; cbn [app].
    - change (45 =? 45) with true. cbv iota. by rewrite <- !app_assoc.
    - rewrite Hip0. cbn [app]. unfold is_digit in Hc0.
      assert ((c0 =? 45) = false) as -> by (apply Z.eqb_neq; lia).
      by rewrite <- !app_assoc. }
  destruct (match (if neg then [45] else []) ++ (ip ++ fptext ++ extext) ++ rest with
            | c :: rest0 => _ | [] => _ end) as [neg' s1].
  injection Hsign as -> ->.
  (* the integer part *)
  assert ((let '(int_digits, s2) :=
             match ip ++ fptext ++ extext ++ rest with
             | c :: rest0 => if c =? 48 then ([0], rest0)
                             else span_digits 10 (ip ++ fptext ++ extext ++ rest)
             | [] => ([], [])
             end in (int_digits, s2))
          = (map (λ c, c - 48) ip, fptext ++ extext ++ rest)) as Hint.
  { destruct Hlead as [->|(c & tl & -> & Hc)].
    - cbn [app]. by change (48 =? 48) with true.
    - cbn [app]. assert ((c =? 48) = false) as -> by (by apply Z.eqb_neq).
      change (c :: tl ++ fptext ++ extext ++ rest)
        with ((c :: tl) ++ fptext ++ extext ++ rest).
      by rewrite span_digits_then. }
  destruct (match ip ++ fptext ++ extext ++ rest with
            | c :: rest0 => _ | [] => _ end) as [int_digits s2].
  injection Hint as -> ->.
  rewrite Hip0 at 1. cbn [map]. cbv iota.
  (* the fraction *)
  assert ((let '(frac_digits, s3) :=
             match fptext ++ extext ++ rest with
             | c :: rest0 =>
                 if c =? 46 then
                   match span_digits 10 rest0 with
                   | ([], _) => ([], fptext ++ extext ++ rest)
                   | (ds, rest') => (ds, rest')
                   end
                 else ([], fptext ++ extext ++ rest)
             | [] => ([], [])
             end in (frac_digits, s3))
          = (map (λ c, c - 48) fp, extext ++ rest)) as Hfrac.
  { unfold fptext. destruct fp as [|f fp'].
    - cbn [app map]. destruct (extext ++ rest) as [|c ?]; [done|].
      destruct Hstop' as [_ Hc].
      by assert ((c =? 46) = false) as -> by (by apply Z.eqb_neq).
    - cbn [app]. change (46 =? 46) with true. cbv iota.
      change (f :: fp' ++ extext ++ rest) with ((f :: fp') ++ extext ++ rest).
      rewrite span_digits_then;
        [done|done|by destruct (extext ++ rest); [|destruct Hstop']]. }
  destruct (match fptext ++ extext ++ rest with
            | c :: rest0 => _ | [] => _ end) as [frac_digits s3].
  injection Hfrac as -> ->.
  rewrite Hex. rewrite length_map.
  unfold digit_string_value. rewrite map_app.
  by destruct ex.
Qed.

(** [JSON.parse] reads a finite Number back from the text
    [JSON.stringify] writes for it, but for [-0]. *)
Lemma json_number_toString x rest :
  is_binary64 x = true → is_finite x = true → x ≠ Zero true → number_stop rest →
  json_number (Number_toString x ++ rest) = Some (x, rest).
Proof.
  intros Hcan Hfin Hz Hstop. destruct x as [|?|[|]|neg m e]; try done.
  - change (Number_toString (Zero false) ++ rest)
      with ((if false then [45] else []) ++ literal [48] [] None ++ rest).
    rewrite json_number_literal; try done.
    + repeat constructor; unfold is_digit; lia.
    + by left.
  - cbn [is_binary64] in Hcan.
    destruct (toString_digits_spec m e Hcan)
      as (n & k & s & Hdig & Hk & Hs & Hval & _).
    destruct (toString_format_literal n k s Hk Hs)
      as (ip & fp & ex & Hfmt & Hne & Hip & Hfp & Hnum & Hlead).
    unfold Number_toString. rewrite Hdig, Hfmt, <- app_assoc.
    rewrite json_number_literal; try done.
    + rewrite Hnum. by rewrite (number_of_decimal_sign false neg _ _ _ _ Hval).
    + apply Hlead. by apply (toString_digits_lower m e n k s).
Qed.

(** The text of a finite Number starts with a digit or a minus sign. *)
Lemma Number_toString_head x :
  is_binary64 x = true → is_finite x = true →
  ∃ c tl, Number_toString x = c :: tl ∧ (is_digit c ∨ c = 45).
Proof.
  intros Hcan Hfin. destruct x as [|?|?|neg m e]; try done.
  - exists 48, []. split; [reflexivity|]. left. unfold is_digit. lia.
  - cbn [is_binary64] in Hcan.
    destruct (toString_digits_spec m e Hcan)
      as (n & k & s & Hdig & Hk & Hs & Hval & _).
    destruct (toString_format_literal n k s Hk Hs)
      as (ip & fp & ex & Hfmt & Hne & Hip & Hfp & Hnum & Hlead).
    unfold Number_toString. rewrite Hdig, Hfmt.
    destruct neg; [eexists _, _; split; [reflexivity|by right]|].
    destruct ip as [|c tl]; [done|]. apply Forall_cons in Hip as [Hc _].
    eexists _, _. split; [reflexivity|by left].
Qed.

(** ** Strings in a JSON text *)

Lemma digit_value_hex_digit_lower d :
  0 <= d < 16 → digit_value 16 (hex_digit_lower d) = Some d.
Proof.
  intros Hd. unfold digit_value, hex_digit_lower.
  repeat (case_match; Zbool; try lia); f_equal; lia.
Qed.

Lemma json_string_escape c tail :
  0 <= c < 65536 →
  json_string (UnicodeEscape c ++ tail)
  = '(chars, after) ← json_string tail; Some (c :: chars, after).
Proof.
  intros Hc. unfold UnicodeEscape. cbn [app json_string].
  change (92 =? 34) with false. change (92 =? 92) with true.
  change (117 =? 117) with true. cbv iota.
  rewrite !digit_value_hex_digit_lower by zdiv.
  replace (((c / 4096 * 16 + c / 256 mod 16) * 16 + c / 16 mod 16) * 16 + c mod 16)
    with c by zdiv.
  done.
Qed.

Lemma json_string_plain c tail :
  32 <= c → c ≠ 34 → c ≠ 92 →
  json_string (c :: tail)
  = '(chars, after) ← json_string tail; Some (c :: chars, after).
Proof.
  intros H1 H2 H3. cbn [json_string].
  assert ((c =? 34) = false) as -> by (by apply Z.eqb_neq).
  assert ((c =? 92) = false) as -> by (by apply Z.eqb_neq).
  assert ((c <? 32) = false) as -> by (apply Z.ltb_ge; lia).
  done.
Qed.

Lemma json_string_two c u tail :
  (u =? 34) || (u =? 92) || (u =? 47) = false →
  (if u =? 98 then Some 8 else if u =? 102 then Some 12
   else if u =? 110 then Some 10 else if u =? 114 then Some 13
   else if u =? 116 then Some 9 else None) = Some c →
  u ≠ 117 →
  json_string ([92; u] ++ tail)
  = '(chars, after) ← json_string tail; Some (c :: chars, after).
Proof.
  intros H1 H2 H3. cbn [app json_string].
  change (92 =? 34) with false. change (92 =? 92) with true. cbv iota.
  assert ((u =? 117) = false) as -> by (by apply Z.eqb_neq).
  by rewrite H1, H2.
Qed.

(** The string is read back from what [QuoteJSONString] writes for it. *)
Lemma json_string_quote_body s rest :
  forallb code_unit s = true →
  json_string (quote_body s ++ 34 :: rest) = Some (s, rest).
Proof.
  assert (∀ n s, (length s < n)%nat → forallb code_unit s = true →
            json_string (quote_body s ++ 34 :: rest) = Some (s, rest)) as H;
    [|by apply (H (S (length s))); lia].
  clear s. induction n as [|n IH]; intros s Hlen Hs; [lia|].
  destruct s as [|c tl]; [done|].
  cbn [forallb] in Hs. apply andb_true_iff in Hs as [Hc Htl].
  unfold code_unit in Hc. Zbool. cbn [length] in Hlen.
  assert (json_string (quote_body tl ++ 34 :: rest) = Some (tl, rest)) as Htail
    by (apply IH; [lia|done]).
  cbn [quote_body].
  destruct (Z.eqb_spec c 8) as [->|?].
  { rewrite <- app_assoc, (json_string_two 8) by done. by rewrite Htail. }
  destruct (Z.eqb_spec c 9) as [->|?].
  { rewrite <- app_assoc, (json_string_two 9) by done. by rewrite Htail. }
  destruct (Z.eqb_spec c 10) as [->|?].
  { rewrite <- app_assoc, (json_string_two 10) by done. by rewrite Htail. }
  destruct (Z.eqb_spec c 12) as [->|?].
  { rewrite <- app_assoc, (json_string_two 12) by done. by rewrite Htail. }
  destruct (Z.eqb_spec c 13) as [->|?].
  { rewrite <- app_assoc, (json_string_two 13) by done. by rewrite Htail. }
  destruct (Z.eqb_spec c 34) as [->|?].
  { cbn [app json_string]. change (92 =? 34) with false.
    change (92 =? 92) with true. cbv iota. change (34 =? 117) with false.
    cbv iota. change ((34 =? 34) || (34 =? 92) || (34 =? 47)) with true.
    cbv iota. by rewrite Htail. }
  destruct (Z.eqb_spec c 92) as [->|?].
  { cbn [app json_string]. change (92 =? 34) with false.
    change (92 =? 92) with true. cbv iota. change (92 =? 117) with false.
    cbv iota. change ((92 =? 34) || (92 =? 92) || (92 =? 47)) with true.
    cbv iota. by rewrite Htail. }
  destruct (Z.ltb_spec c 32).
  { rewrite <- app_assoc, json_string_escape by lia. by rewrite Htail. }
  destruct (is_lead_surrogate c) eqn:Hlead.
  - apply is_lead_surrogate_spec in Hlead.
    destruct tl as [|c2 tl'].
    { rewrite json_string_escape by lia. done. }
    destruct (is_trail_surrogate c2) eqn:Htrail.
    + apply is_trail_surrogate_spec in Htrail.
      cbn [forallb] in Htl. apply andb_true_iff in Htl as [_ Htl'].
      cbn [length] in Hlen. cbn [app].
      rewrite json_string_plain, json_string_plain by lia.
      rewrite IH by (done || lia). done.
    + rewrite <- app_assoc, json_string_escape by lia. by rewrite Htail.
  - destruct (is_trail_surrogate c) eqn:Htrail.
    + rewrite <- app_assoc, json_string_escape by lia. by rewrite Htail.
    + cbn [app]. rewrite json_string_plain by lia. by rewrite Htail.
Qed.

(** ** The order of the properties of an object *)

Lemma index_keys_ascending_before lower ks k rest i :
  index_keys_ascending lower (ks ++ k :: rest) = true →
  array_index k = Some i →
  lower < i ∧ Forall (λ k', ∃ j, array_index k' = Some j ∧ j < i) ks.
Proof.
  revert lower. induction ks as [|k' ks IH]; intros lower Hasc Hk.
  - cbn [app index_keys_ascending] in Hasc. rewrite Hk in Hasc. Zbool.
    split; [lia|constructor].
  - cbn [app index_keys_ascending] in Hasc.
    destruct (array_index k') as [j|] eqn:Hj.
    + apply andb_true_iff in Hasc as [Hlt Hasc]. apply Z.ltb_lt in Hlt.
      destruct (IH j Hasc Hk) as [Hji Hall]. split; [lia|].
      constructor; [|done]. exists j. split; [done|lia].
    + rewrite forallb_app in Hasc. apply andb_true_iff in Hasc as [_ Hasc].
      cbn [forallb] in Hasc. apply andb_true_iff in Hasc as [Hnone _].
      apply bool_decide_eq_true in Hnone. congruence.
Qed.

Lemma insert_index_last i k v props :
  Forall (λ kv : jsstring * value, ∃ j, array_index kv.1 = Some j ∧ j < i) props →
  insert_index i k v props = props ++ [(k, v)].
Proof.
  induction 1 as [|[k' v'] props (j & Hj & Hlt) _ IH]; [done|].
  cbn [insert_index app]. cbn [fst] in Hj. rewrite Hj.
  assert ((j <? i) = true) as -> by (by apply Z.ltb_lt). by rewrite IH.
Qed.

Lemma Forall_map_fst {A B} (P : A → Prop) (l : list (A * B)) :
  Forall P (map fst l) → Forall (λ kv, P kv.1) l.
Proof.
  induction l as [|x l IH]; [constructor|].
  cbn [map]. intros [? ?]%Forall_cons. constructor; [done|by apply IH].
Qed.

Lemma existsb_key_absent k (props : list (jsstring * value)) :
  k ∉ map fst props → existsb (λ kv, str_eqb kv.1 k) props = false.
Proof.
  intros Hk. induction props as [|[k' v'] props IH]; [done|].
  cbn [existsb map fst] in *. apply not_elem_of_cons in Hk as [Hne Hk].
  unfold str_eqb at 1. rewrite bool_decide_eq_false_2 by done. by apply IH.
Qed.

(** Defining the properties of an object one after the other in the order
    of its keys gives the object. *)
Lemma object_define_own_order props :
  own_property_keys (map fst props) = true →
  fold_left (λ o kv, object_define o kv.1 kv.2) props [] = props.
Proof.
  intros [Hnd Hasc]%andb_true_iff. apply bool_decide_eq_true in Hnd.
  assert (∀ todo made, made ++ todo = props →
            fold_left (λ o kv, object_define o kv.1 kv.2) todo made = props) as H;
    [|by apply H].
  induction todo as [|[k v] todo IH]; intros made Heq.
  - by rewrite app_nil_r in Heq.
  - cbn [fold_left fst snd].
    assert (object_define made k v = made ++ [(k, v)]) as ->.
    { rewrite <- Heq, map_app in Hnd, Hasc. cbn [map fst] in Hnd, Hasc.
      apply NoDup_app in Hnd as (_ & Hnot & _).
      unfold object_define. rewrite existsb_key_absent.
      - destruct (array_index k) as [i|] eqn:Hi; [|done].
        destruct (index_keys_ascending_before _ _ _ _ _ Hasc Hi) as [_ Hall].
        apply insert_index_last.
        by apply Forall_map_fst in Hall.
      - intros Hin. apply (Hnot k Hin). left. }
    apply IH. by rewrite <- app_assoc.
Qed.

(** ** Values in a JSON text *)

Lemma json_value_S fuel' s :
  json_value (S fuel') s =
  match skip_whitespace s with
  | [] => None
  | c :: rest =>
      if c =? 123 then
        match skip_whitespace rest with
        | c' :: rest' =>
            if c' =? 125 then Some (VObject [], rest')
            else '(members, after) ← json_members fuel' rest;
                 Some (VObject (fold_left (λ o kv, object_define o (fst kv) (snd kv))
                                  members []), after)
        | [] => None
        end
      else if c =? 91 then
        match skip_whitespace rest with
        | c' :: rest' =>
            if c' =? 93 then Some (VArray [], rest')
            else '(items, after) ← json_elements fuel' rest;
                 Some (VArray items, after)
        | [] => None
        end
      else if c =? 34 then
        '(chars, after) ← json_string rest; Some (VString chars, after)
      else if starts_with (js "true") (c :: rest) then
        Some (VBoolean true, drop 4 (c :: rest))
      else if starts_with (js "false") (c :: rest) then
        Some (VBoolean false, drop 5 (c :: rest))
      else if starts_with (js "null") (c :: rest) then
        Some (VNull, drop 4 (c :: rest))
      else '(n, after) ← json_number (c :: rest); Some (VNumber n, after)
  end.
Proof. reflexivity. Qed.

Lemma json_elements_S fuel' s :
  json_elements (S fuel') s =
  '(item, s1) ← json_value fuel' s;
  match skip_whitespace s1 with
  | c :: rest =>
      if c =? 44 then
        '(items, after) ← json_elements fuel' rest; Some (item :: items, after)
      else if c =? 93 then Some ([item], rest)
      else None
  | [] => None
  end.
Proof. reflexivity. Qed.

Lemma json_members_S fuel' s :
  json_members (S fuel') s =
  s0 ← expect 34 (skip_whitespace s);
  '(key, s1) ← json_string s0;
  s2 ← expect 58 (skip_whitespace s1);
  '(item, s3) ← json_value fuel' s2;
  match skip_whitespace s3 with
  | c :: rest =>
      if c =? 44 then
        '(members, after) ← json_members fuel' rest;
        Some ((key, item) :: members, after)
      else if c =? 125 then Some ([(key, item)], rest)
      else None
  | [] => None
  end.
Proof. reflexivity. Qed.

Lemma skip_whitespace_start c rest :
  is_json_whitespace c = false → skip_whitespace (c :: rest) = c :: rest.
Proof. intros H. cbn [skip_whitespace]. by rewrite H. Qed.

Lemma skip_whitespace_value text rest :
  value_start text → ∃ c tl, text = c :: tl ∧ c ≠ 93 ∧ c ≠ 125
                             ∧ skip_whitespace (text ++ rest) = c :: tl ++ rest.
Proof.
  destruct text as [|c tl]; [done|]. intros (Hws & H1 & H2).
  exists c, tl. split_and!; try done. by apply skip_whitespace_start.
Qed.

(** *** Scalars *)

Lemma reads_back_null : reads_back VNull (js "null").
Proof.
  split; [cbn; lia|]. split; [by cbn|].
  intros [|fuel] rest Hfuel _; [cbn in Hfuel; lia|].
  rewrite json_value_S. reflexivity.
Qed.

Lemma reads_back_boolean b :
  reads_back (VBoolean b) (if b then js "true" else js "false").
Proof.
  split; [destruct b; cbn; lia|]. split; [by destruct b; cbn|].
  intros [|fuel] rest Hfuel _; [cbn in Hfuel; lia|].
  rewrite json_value_S. by destruct b.
Qed.

Lemma reads_back_string s :
  forallb code_unit s = true → reads_back (VString s) (QuoteJSONString s).
Proof.
  intros Hs. split; [cbn; lia|]. split; [by cbn|].
  intros [|fuel] rest Hfuel _; [cbn in Hfuel; lia|].
  rewrite json_value_S. unfold QuoteJSONString. cbn [app].
  rewrite skip_whitespace_start by done.
  change (34 =? 123) with false. change (34 =? 91) with false.
  change (34 =? 34) with true. cbv iota.
  rewrite <- app_assoc. cbn [app]. by rewrite json_string_quote_body.
Qed.

Lemma reads_back_number n :
  is_binary64 n = true → is_finite n = true → n ≠ Zero true →
  reads_back (VNumber n) (Number_toString n).
Proof.
  intros Hcan Hfin Hz.
  destruct (Number_toString_head n Hcan Hfin) as (c & tl & Htext & Hc).
  assert (is_json_whitespace c = false ∧ c ≠ 93 ∧ c ≠ 125 ∧ c ≠ 123 ∧ c ≠ 91
          ∧ c ≠ 34 ∧ c ≠ 116 ∧ c ≠ 102 ∧ c ≠ 110) as (Hws & ? & ? & ? & ? & ? & ? & ? & ?).
  { unfold is_json_whitespace, is_digit in *.
    split; [|lia].
    repeat (apply orb_false_iff; split); apply Z.eqb_neq; lia. }
  split; [rewrite Htext; cbn; lia|]. split; [by rewrite Htext|].
  intros [|fuel] rest Hfuel Hstop; [cbn in Hfuel; lia|].
  rewrite json_value_S.
  pose proof (json_number_toString n rest Hcan Hfin Hz Hstop) as Hnum.
  rewrite Htext in *. cbn [app] in *.
  rewrite skip_whitespace_start by done.
  assert ((c =? 123) = false) as -> by (by apply Z.eqb_neq).
  assert ((c =? 91) = false) as -> by (by apply Z.eqb_neq).
  assert ((c =? 34) = false) as -> by (by apply Z.eqb_neq).
  cbn [starts_with js].
  change (Z.of_N (N_of_ascii "t")) with 116.
  change (Z.of_N (N_of_ascii "f")) with 102.
  change (Z.of_N (N_of_ascii "n")) with 110.
  assert ((116 =? c) = false) as -> by (apply Z.eqb_neq; lia).
  assert ((102 =? c) = false) as -> by (apply Z.eqb_neq; lia).
  assert ((110 =? c) = false) as -> by (apply Z.eqb_neq; lia).
  cbn [andb]. by rewrite Hnum.
Qed.

(** *** Arrays *)

Lemma number_stop_punctuation c rest :
  c = 44 ∨ c = 93 ∨ c = 125 → number_stop (c :: rest).
Proof. intros H. cbn. unfold is_digit. lia. Qed.

Lemma join_cons_cons sep (x y : jsstring) rest :
  join sep (x :: y :: rest) = x ++ sep ++ join sep (y :: rest).
Proof. reflexivity. Qed.

Lemma json_elements_join items texts fuel rest :
  Forall2 reads_back items texts → items ≠ [] →
  (foldr (λ item n, S (value_size item) + n)%nat O items <= fuel)%nat →
  json_elements fuel (join [44] texts ++ 93 :: rest) = Some (items, rest).
Proof.
  intros Hall. revert fuel.
  induction Hall as [|item text items texts (_ & _ & Hread) Hrest IH];
    intros fuel Hne Hfuel; [done|].
  cbn [foldr] in Hfuel. destruct fuel as [|fuel]; [lia|].
  rewrite json_elements_S.
  destruct Hrest as [|item2 text2 items2 texts2 H2 Hrest2].
  - cbn [join]. rewrite Hread; [|cbn [snd] in *; lia|apply number_stop_punctuation; auto].
    cbn [mbind option_bind]. rewrite skip_whitespace_start by done.
    by change (93 =? 44) with false.
  - rewrite join_cons_cons, <- !app_assoc. cbn [app].
    rewrite Hread; [|cbn [snd] in *; lia|apply number_stop_punctuation; auto].
    cbn [mbind option_bind]. rewrite skip_whitespace_start by done.
    change (44 =? 44) with true. cbv iota.
    rewrite IH by (done || lia). done.
Qed.

Lemma join_length_values {A} (size : A → nat) (items : list A) texts :
  Forall2 (λ item text, (size item <= length text)%nat) items texts →
  (foldr (λ item n, S (size item) + n)%nat O items
   <= S (length (join [44%Z] texts)))%nat.
Proof.
  induction 1 as [|item text items texts Hle Hrest IH]; [cbn; lia|].
  cbn [foldr]. destruct Hrest as [|item2 text2 items2 texts2 H2 Hrest2].
  - cbn. lia.
  - rewrite join_cons_cons, !length_app. cbn [length] in *.
    set (F := foldr _ _ _) in *. set (J := length (join _ _)) in *. lia.
Qed.

Lemma reads_back_array items texts :
  Forall2 reads_back items texts →
  reads_back (VArray items) ([91] ++ join [44] texts ++ [93]).
Proof.
  intros Hall. split.
  { cbn [value_size app length]. rewrite length_app. cbn [length].
    pose proof (join_length_values value_size items texts) as H.
    assert (Forall2 (λ item text, (value_size item <= length text)%nat) items texts)
      as Hle by (eapply Forall2_impl; [done|]; by intros ?? [? _]).
    specialize (H Hle). lia. }
  split; [by cbn|].
  intros [|fuel] rest Hfuel _; [cbn in Hfuel; lia|].
  cbn [value_size] in Hfuel.
  rewrite json_value_S. cbn [app]. rewrite skip_whitespace_start by done.
  change (91 =? 123) with false. change (91 =? 91) with true. cbv iota.
  rewrite <- app_assoc. cbn [app].
  destruct Hall as [|item text items texts Hread Hrest].
  - cbn [join app]. rewrite skip_whitespace_start by done.
    by change (93 =? 93) with true.
  - assert (value_start (join [44] (text :: texts))) as Hstart.
    { destruct Hread as (_ & Hs & _). destruct text as [|c tl]; [done|].
      by destruct texts. }
    destruct (skip_whitespace_value _ (93 :: rest) Hstart)
      as (c & tl & Hjoin & Hc & _ & ->).
    assert ((c =? 93) = false) as -> by (by apply Z.eqb_neq).
    rewrite (json_elements_join (item :: items)); [done| |done|lia].
    by constructor.
Qed.

(** *** Objects *)

Lemma json_members_join (props : list (jsstring * value)) texts fuel rest :
  Forall2 (λ kv text, forallb code_unit kv.1 = true ∧ reads_back kv.2 text)
    props texts →
  props ≠ [] →
  (foldr (λ kv n, S (value_size (snd kv)) + n)%nat O props <= fuel)%nat →
  json_members fuel
    (join [44] (zip_with member_text (map fst props) texts) ++ 125 :: rest)
  = Some (props, rest).
Proof.
  intros Hall. revert fuel.
  induction Hall as [|[key item] text props texts [Hkey (_ & _ & Hread)] Hrest IH];
    intros fuel Hne Hfuel; [done|].
  cbn [foldr snd] in Hfuel. destruct fuel as [|fuel]; [lia|].
  rewrite json_members_S. cbn [map fst zip_with].
  assert (∀ tail,
            (s0 ← expect 34 (skip_whitespace (member_text key text ++ tail));
             '(key', s1) ← json_string s0;
             s2 ← expect 58 (skip_whitespace s1);
             '(item', s3) ← json_value fuel s2;
             match skip_whitespace s3 with
             | c :: rest0 =>
                 if c =? 44 then
                   '(members, after) ← json_members fuel rest0;
                   Some ((key', item') :: members, after)
                 else if c =? 125 then Some ([(key', item')], rest0)
                 else None
             | [] => None
             end)
            = '(item', s3) ← json_value fuel (text ++ tail);
              match skip_whitespace s3 with
              | c :: rest0 =>
                  if c =? 44 then
                    '(members, after) ← json_members fuel rest0;
                    Some ((key, item') :: members, after)
                  else if c =? 125 then Some ([(key, item')], rest0)
                  else None
              | [] => None
              end) as Hmember.
  { intros tail. unfold member_text, QuoteJSONString.
    rewrite <- !app_assoc. cbn [app].
    rewrite skip_whitespace_start by done. rewrite expect_cons.
    cbn [mbind option_bind]. rewrite json_string_quote_body by done.
    cbn [mbind option_bind]. rewrite skip_whitespace_start by done.
    rewrite expect_cons. done. }
  destruct Hrest as [|[key2 item2] text2 props2 texts2 H2 Hrest2].
  - cbn [map zip_with join]. rewrite Hmember.
    rewrite Hread; [|cbn [snd] in *; lia|apply number_stop_punctuation; auto].
    cbn [mbind option_bind]. rewrite skip_whitespace_start by done.
    by change (125 =? 44) with false.
  - cbn [map fst zip_with]. rewrite join_cons_cons, <- !app_assoc.
    rewrite Hmember. cbn [app].
    rewrite Hread; [|cbn [snd] in *; lia|apply number_stop_punctuation; auto].
    cbn [mbind option_bind]. rewrite skip_whitespace_start by done.
    change (44 =? 44) with true. cbv iota.
    pose proof (IH fuel ltac:(done) ltac:(lia)) as IH'.
    cbn [map fst zip_with] in IH'. rewrite IH'. done.
Qed.

Lemma reads_back_object (props : list (jsstring * value)) texts :
  own_property_keys (map fst props) = true →
  Forall2 (λ kv text, forallb code_unit kv.1 = true ∧ reads_back kv.2 text)
    props texts →
  reads_back (VObject props)
    ([123] ++ join [44] (zip_with member_text (map fst props) texts) ++ [125]).
Proof.
  intros Hkeys Hall. split.
  { cbn [value_size app length]. rewrite length_app. cbn [length].
    pose proof (join_length_values (λ kv : jsstring * value, value_size kv.2) props
                  (zip_with member_text (map fst props) texts)) as H.
    assert (Forall2 (λ (kv : jsstring * value) text,
                       (value_size kv.2 <= length text)%nat) props
              (zip_with member_text (map fst props) texts)) as Hle.
    { clear -Hall. induction Hall as [|[k v] text props texts [_ [Hle _]] _ IH];
        [constructor|].
      cbn [map fst zip_with]. constructor; [|done].
      unfold member_text. rewrite !length_app. cbn [snd] in *. lia. }
    specialize (H Hle). lia. }
  split; [by cbn|].
  intros [|fuel] rest Hfuel _; [cbn in Hfuel; lia|].
  cbn [value_size] in Hfuel.
  rewrite json_value_S. cbn [app]. rewrite skip_whitespace_start by done.
  change (123 =? 123) with true. cbv iota.
  rewrite <- app_assoc. cbn [app].
  destruct Hall as [|[key item] text props texts Hread Hrest].
  - cbn [map zip_with join app]. rewrite skip_whitespace_start by done.
    by change (125 =? 125) with true.
  - set (whole := join _ (zip_with _ _ _)).
    assert (∃ tl, whole = 34 :: tl) as [tl Hwhole].
    { unfold whole. cbn [map fst zip_with].
      cbn [join member_text QuoteJSONString app].
      case_match; eexists; reflexivity. }
    rewrite Hwhole. cbn [app]. rewrite skip_whitespace_start by done.
    change (34 =? 125) with false. cbv iota.
    change (34 :: tl ++ 125 :: rest) with ((34 :: tl) ++ 125 :: rest).
    rewrite <- Hwhole. unfold whole.
    rewrite (json_members_join ((key, item) :: props)); [| |done|lia].
    + cbn [mbind option_bind]. by rewrite object_define_own_order.
    + by constructor.
Qed.

(** *** Every value *)

Lemma value_size_item item items :
  item ∈ items →
  (value_size item < S (foldr (λ item n, S (value_size item) + n)%nat O items))%nat.
Proof.
  induction 1 as [item items|item item' items _ IH]; cbn [foldr]; lia.
Qed.

Lemma value_size_member (kv : jsstring * value) props :
  kv ∈ props →
  (value_size kv.2 < S (foldr (λ kv n, S (value_size (snd kv)) + n)%nat O props))%nat.
Proof.
  induction 1 as [kv props|kv kv' props _ IH]; cbn [foldr]; lia.
Qed.

(** [JSON.stringify] writes a text for every such value, and the text is
    read back as the value. *)
Lemma stringify_reads_back v :
  json_safe v = true → ∃ text, stringify v = Some text ∧ reads_back v text.
Proof.
  assert (∀ n v, (value_size v < n)%nat → json_safe v = true →
            ∃ text, stringify v = Some text ∧ reads_back v text) as H;
    [|by apply (H (S (value_size v))); lia].
  clear v. induction n as [|n IH]; intros v Hsize Hsafe; [lia|].
  destruct v as [| |b|x|s|items|props]; cbn [json_safe] in Hsafe.
  - done.
  - eexists. split; [reflexivity|apply reads_back_null].
  - eexists. split; [reflexivity|apply reads_back_boolean].
  - apply andb_true_iff in Hsafe as [[Hcan Hfin]%andb_true_iff Hz].
    eexists. split; [reflexivity|]. cbn beta. rewrite Hfin.
    apply reads_back_number; [done..|].
    intros ->. by destruct (number_eqb _ _) eqn:E in Hz.
  - eexists. split; [reflexivity|by apply reads_back_string].
  - cbn [value_size] in Hsize.
    assert (Forall (λ item, ∃ text, stringify item = Some text
                                    ∧ reads_back item text) items) as Hall.
    { apply Forall_forall. intros item Hin.
      rewrite forallb_forall in Hsafe.
      apply IH; [|by apply Hsafe, list_elem_of_In].
      pose proof (value_size_item item items Hin). lia. }
    set (texts := map (λ item, match stringify item with
                               | Some t => t
                               | None => js "null"
                               end) items).
    exists ([91] ++ join [44] texts ++ [93]). split; [reflexivity|].
    apply reads_back_array. unfold texts. clear -Hall.
    induction Hall as [|item items (t & Ht & Hread) _ IH]; [constructor|].
    cbn [map]. constructor; [|done]. by rewrite Ht.
  - cbn [value_size] in Hsize.
    apply andb_true_iff in Hsafe as [Hkeys Hsafe].
    assert (Forall (λ kv : jsstring * value,
              forallb code_unit kv.1 = true
              ∧ ∃ text, stringify kv.2 = Some text ∧ reads_back kv.2 text) props) as Hall.
    { apply Forall_forall. intros kv Hin.
      rewrite forallb_forall in Hsafe.
      destruct (proj1 (andb_true_iff _ _) (Hsafe kv (proj1 (list_elem_of_In _ _) Hin)))
        as [Hk Hv].
      split; [done|]. apply IH; [|done].
      pose proof (value_size_member kv props Hin). lia. }
    set (texts := map (λ kv : jsstring * value,
                         match stringify kv.2 with Some t => t | None => [] end) props).
    exists ([123] ++ join [44] (zip_with member_text (map fst props) texts) ++ [125]).
    split.
    + assert (omap (λ kv : jsstring * value,
                      match stringify kv.2 with
                      | Some text => Some (QuoteJSONString kv.1 ++ [58] ++ text)
                      | None => None
                      end) props
              = zip_with member_text (map fst props) texts) as Homap.
      { clear -Hall. unfold texts.
        induction Hall as [|[k v] props [_ (t & Ht & _)] _ IH]; [done|].
        cbn [omap list_omap map fst snd zip_with] in *. rewrite Ht. by rewrite IH. }
      change (stringify (VObject props))
        with (Some ([123] ++ join [44]
                      (omap (λ kv : jsstring * value,
                               match stringify kv.2 with
                               | Some text => Some (QuoteJSONString kv.1 ++ [58] ++ text)
                               | None => None
                               end) props) ++ [125])).
      by rewrite Homap.
    + apply reads_back_object; [done|].
      unfold texts. clear -Hall.
      induction Hall as [|[k v] props [Hk (t & Ht & Hread)] _ IH]; [constructor|].
      cbn [map]. constructor; [|done]. cbn [fst snd] in *. by rewrite Ht.
Qed.

(** ** A JSON text is a string [encodeURIComponent] accepts *)

Lemma well_formed_plain_cons c s :
  plain c → well_formed (c :: s) = well_formed s.
Proof.
  intros Hc. unfold plain in Hc. cbn [well_formed].
  assert (is_lead_surrogate c = false) as ->.
  { apply not_true_is_false. rewrite is_lead_surrogate_spec. lia. }
  assert (is_trail_surrogate c = false) as ->.
  { apply not_true_is_false. rewrite is_trail_surrogate_spec. lia. }
  assert ((0 <=? c) = true) as -> by (apply Z.leb_le; lia).
  assert ((c <=? 65535) = true) as -> by (apply Z.leb_le; lia).
  done.
Qed.

Lemma well_formed_plain_app a s :
  Forall plain a → well_formed (a ++ s) = well_formed s.
Proof.
  induction 1 as [|c a Hc _ IH]; [done|].
  cbn [app]. by rewrite well_formed_plain_cons.
Qed.

Lemma well_formed_plain a : Forall plain a → well_formed a = true.
Proof. intros H. rewrite <- (app_nil_r a). by rewrite well_formed_plain_app. Qed.

Lemma well_formed_app a b :
  well_formed a = true → well_formed b = true → well_formed (a ++ b) = true.
Proof.
  intros Ha Hb.
  assert (∀ n a, (length a < n)%nat → well_formed a = true →
            well_formed (a ++ b) = true) as H;
    [|apply (H (S (length a))); [lia|done]].
  clear a Ha. induction n as [|n IH]; intros a Hlen Ha; [lia|].
  destruct a as [|c a]; [done|].
  cbn [app well_formed length] in *.
  apply andb_true_iff in Ha as [Hrange Ha]. rewrite Hrange. cbn [andb].
  destruct (is_lead_surrogate c).
  - destruct a as [|c2 a]; [done|]. cbn [app length] in *.
    apply andb_true_iff in Ha as [-> Ha]. cbn [andb]. apply IH; [lia|done].
  - apply andb_true_iff in Ha as [-> Ha]. cbn [andb]. apply IH; [lia|done].
Qed.

Lemma well_formed_join sep texts :
  well_formed sep = true → Forall (λ t, well_formed t = true) texts →
  well_formed (join sep texts) = true.
Proof.
  intros Hsep. induction 1 as [|t texts Ht Hrest IH]; [done|].
  destruct Hrest as [|t2 texts2 Ht2 Hrest2]; [done|].
  rewrite join_cons_cons. by repeat apply well_formed_app.
Qed.

Lemma is_digit_plain ds : Forall is_digit ds → Forall plain ds.
Proof. intros H. eapply Forall_impl; [done|]. unfold is_digit, plain. lia. Qed.

Lemma hex_digit_lower_plain d : 0 <= d < 16 → plain (hex_digit_lower d).
Proof. unfold hex_digit_lower, plain. intros. case_match; lia. Qed.

Lemma UnicodeEscape_plain c : 0 <= c < 65536 → Forall plain (UnicodeEscape c).
Proof.
  intros Hc. unfold UnicodeEscape.
  repeat apply Forall_cons_2; try apply Forall_nil_2;
    try (apply hex_digit_lower_plain; zdiv); unfold plain; lia.
Qed.

Lemma quote_body_well_formed s :
  forallb code_unit s = true → well_formed (quote_body s) = true.
Proof.
  assert (∀ n s, (length s < n)%nat → forallb code_unit s = true →
            well_formed (quote_body s) = true) as H;
    [|by apply (H (S (length s))); lia].
  clear s. induction n as [|n IH]; intros s Hlen Hs; [lia|].
  destruct s as [|c tl]; [done|].
  cbn [forallb] in Hs. apply andb_true_iff in Hs as [Hc Htl].
  pose proof Hc as Hc'. unfold code_unit in Hc'. Zbool. cbn [length] in Hlen.
  assert (well_formed (quote_body tl) = true) as Htail by (apply IH; [lia|done]).
  assert (∀ a, Forall plain a → well_formed (a ++ quote_body tl) = true) as Hesc
    by (intros a Ha; by rewrite well_formed_plain_app).
  cbn [quote_body].
  repeat (case_match; [apply Hesc; repeat constructor; unfold plain; lia|]).
  destruct (Z.ltb_spec c 32); [apply Hesc, UnicodeEscape_plain; lia|].
  destruct (is_lead_surrogate c) eqn:Hlead.
  - destruct tl as [|c2 tl'].
    { apply well_formed_plain, UnicodeEscape_plain. lia. }
    destruct (is_trail_surrogate c2) eqn:Htrail.
    + cbn [forallb] in Htl. apply andb_true_iff in Htl as [Hc2 Htl'].
      cbn [length] in Hlen. cbn [well_formed].
      rewrite Hlead, Htrail. fold (code_unit c). rewrite Hc. cbn [andb].
      apply IH; [lia|done].
    + apply Hesc, UnicodeEscape_plain. lia.
  - destruct (is_trail_surrogate c) eqn:Htrail.
    + apply Hesc, UnicodeEscape_plain. lia.
    + cbn [well_formed]. rewrite Hlead, Htrail. fold (code_unit c).
      rewrite Hc. done.
Qed.

Lemma QuoteJSONString_well_formed s :
  forallb code_unit s = true → well_formed (QuoteJSONString s) = true.
Proof.
  intros Hs. unfold QuoteJSONString.
  apply well_formed_app; [done|]. apply well_formed_app; [|done].
  by apply quote_body_well_formed.
Qed.

Lemma literal_plain ip fp ex :
  Forall is_digit ip → Forall is_digit fp → Forall plain (literal ip fp ex).
Proof.
  intros Hip Hfp. unfold literal. apply Forall_app. split; [by apply is_digit_plain|].
  apply Forall_app. split.
  - destruct fp; [constructor|]. constructor; [unfold plain; lia|].
    by apply is_digit_plain.
  - destruct ex as [x|]; [|constructor].
    apply Forall_app. split; [repeat constructor; unfold plain; lia|].
    apply Forall_app. split; [destruct (0 <=? x); repeat constructor; unfold plain; lia|].
    apply is_digit_plain, decimal_digits.
Qed.

Lemma Number_toString_plain x :
  is_binary64 x = true → is_finite x = true → Forall plain (Number_toString x).
Proof.
  intros Hcan Hfin. destruct x as [|?|?|neg m e]; try done.
  - repeat constructor; unfold plain; cbn; lia.
  - cbn [is_binary64] in Hcan.
    destruct (toString_digits_spec m e Hcan)
      as (n & k & s & Hdig & Hk & Hs & Hval & _).
    destruct (toString_format_literal n k s Hk Hs)
      as (ip & fp & ex & Hfmt & Hne & Hip & Hfp & _).
    unfold Number_toString. rewrite Hdig, Hfmt.
    apply Forall_app. split; [destruct neg; repeat constructor; unfold plain; lia|].
    by apply literal_plain.
Qed.

(** The text [JSON.stringify] writes has every surrogate in a pair. *)
Lemma stringify_well_formed v text :
  json_safe v = true → stringify v = Some text → well_formed text = true.
Proof.
  assert (∀ n v text, (value_size v < n)%nat → json_safe v = true →
            stringify v = Some text → well_formed text = true) as H;
    [|by apply (H (S (value_size v))); lia].
  clear v text. induction n as [|n IH]; intros v text Hsize Hsafe Htext; [lia|].
  destruct v as [| |b|x|s|items|props]; cbn [json_safe] in Hsafe.
  - done.
  - by injection Htext as <-.
  - injection Htext as <-. by destruct b.
  - apply andb_true_iff in Hsafe as [[Hcan Hfin]%andb_true_iff Hz].
    cbn [stringify] in Htext. rewrite Hfin in Htext. injection Htext as <-.
    by apply well_formed_plain, Number_toString_plain.
  - injection Htext as <-. by apply QuoteJSONString_well_formed.
  - cbn [value_size] in Hsize.
    change (stringify (VArray items))
      with (Some ([91] ++ join [44]
                    (map (λ item, match stringify item with
                                  | Some text => text
                                  | None => js "null"
                                  end) items) ++ [93])) in Htext.
    injection Htext as <-. cbn [app].
    rewrite well_formed_plain_cons by (unfold plain; lia).
    apply well_formed_app; [|done].
    apply well_formed_join; [done|]. apply List.Forall_map, Forall_forall.
    intros item Hin. rewrite forallb_forall in Hsafe.
    pose proof (value_size_item item items Hin).
    destruct (stringify item) as [t|] eqn:Ht; [|done].
    apply (IH item); [lia|by apply Hsafe, list_elem_of_In|done].
  - cbn [value_size] in Hsize.
    apply andb_true_iff in Hsafe as [_ Hsafe].
    change (stringify (VObject props))
      with (Some ([123] ++ join [44]
                    (omap (λ kv : jsstring * value,
                             match stringify kv.2 with
                             | Some text => Some (QuoteJSONString kv.1 ++ [58] ++ text)
                             | None => None
                             end) props) ++ [125])) in Htext.
    injection Htext as <-. cbn [app].
    rewrite well_formed_plain_cons by (unfold plain; lia).
    apply well_formed_app; [|done].
    apply well_formed_join; [done|]. apply Forall_forall.
    intros t (kv & Hin & Ht)%list_elem_of_omap.
    rewrite forallb_forall in Hsafe.
    destruct (proj1 (andb_true_iff _ _) (Hsafe kv (proj1 (list_elem_of_In _ _) Hin)))
      as [Hk Hv].
    pose proof (value_size_member kv props Hin).
    destruct (stringify kv.2) as [t'|] eqn:Ht'; [|done]. injection Ht as <-.
    apply well_formed_app; [by apply QuoteJSONString_well_formed|].
    rewrite well_formed_plain_cons by (unfold plain; lia).
    apply (IH kv.2); [lia|done|done].
Qed.

(** ** The JSON parser *)

Lemma JSON_parse_stringify v :
  json_safe v = true →
  ∃ text, JSON_stringify v = Some text ∧ well_formed text = true
          ∧ JSON_parse text = Normal v.
Proof.
  intros Hsafe.
  destruct (stringify_reads_back v Hsafe) as (text & Htext & Hsize & _ & Hread).
  exists text. split; [done|]. split; [by apply (stringify_well_formed v)|].
  unfold JSON_parse. specialize (Hread (S (length text)) [] ltac:(lia) I).
  rewrite app_nil_r in Hread. by rewrite Hread.
Qed.

(** The JSON parser gives back every such value; [null] comes back as the
    [null] that [parse] returns for it. *)
Lemma json_round_trip parser v :
  json_safe v = true → accepts parser v →
  ∃ f text, serialize (json_parser parser) = Some f ∧ f v = Normal text
            ∧ parse (json_parser parser) (Some text) = Normal (nullable_of_value v).
Proof.
  intros Hsafe Hacc.
  destruct (JSON_parse_stringify v Hsafe) as (text & Htext & Hwf & Hparse).
  destruct (decodeURIComponent_encodeURIComponent text Hwf) as (enc & Henc & Hdec & _).
  eexists _, enc. split; [reflexivity|]. cbn beta. rewrite Htext.
  split; [done|]. cbn [parse json_parser]. rewrite Hdec.
  cbn [mbind completion_bind]. rewrite Hparse. cbn [mbind completion_bind].
  destruct parser as [f|]; [|done]. cbn in Hacc. by rewrite Hacc.
Qed.

(** * Serialize, then parse *)

(** ** Builders *)

(** What [parse] and [serialize] of a parser do, they do on the builder
    [createParser] makes of it. *)
Lemma createParser_parses_back {T} (p : Parser T) (v : T) (r : nullable T) :
  (∃ f text, serialize p = Some f ∧ f v = Normal text
             ∧ parse p (Some text) = Normal r) →
  parses_back (createParser p) v r.
Proof.
  intros (f & text & Hf & Hser & Hparse) h.
  pose proof (createParser_parse p h) as Hp.
  pose proof (createParser_serialize p h f Hf) as Hs.
  destruct (createParser p h) as [b h'].
  exists text. by rewrite Hs, Hp.
Qed.

(** ** The codecs with nothing to compute *)

Lemma string_round_trip (v : jsstring) : round_trips string_parser v.
Proof. by eexists _, _. Qed.

Lemma boolean_round_trip (v : bool) : round_trips boolean_parser v.
Proof. eexists _, _. split; [reflexivity|]. split; [reflexivity|]. by destruct v. Qed.

Lemma stringEnum_round_trip validValues v :
  includes validValues v = true → round_trips (stringEnum_parser validValues) v.
Proof.
  intros Hin. eexists _, _. split; [reflexivity|]. split; [reflexivity|].
  cbn [parse stringEnum_parser]. by rewrite Hin.
Qed.

(** ** Arrays *)

Section arrayOf_domain.
Context {ItemType : Type} `{!Template ItemType}.
Variable itemParser : Parser ItemType.

Lemma lone_empty_text_texts values texts :
  Forall2 (λ value text, item_text itemParser value = Normal text) values texts →
  lone_empty_text itemParser values ↔ texts = [[]].
Proof.
  intros Hall. split.
  - intros (v & -> & Hv). inversion Hall as [|? text ? ? Ht Hrest]; subst.
    inversion Hrest; subst. rewrite Hv in Ht. by injection Ht as <-.
  - intros ->. inversion Hall as [|v ? vs ? Ht Hrest]; subst.
    inversion Hrest; subst. by exists v.
Qed.

Lemma arrayOf_round_trips (c : Z) values :
  uri_unescaped c = false → c ≠ 37 →
  Forall (item_round_trips itemParser) values → ¬ lone_empty_text itemParser values →
  round_trips (arrayOf_parser itemParser [c]) values.
Proof.
  intros Hc Hc' Hall Hlone.
  destruct (arrayOf_round_trip itemParser c values Hc Hc' Hall)
    as (texts & joined & Htexts & Hser & _ & Hparse).
  exists (arrayOf_serialize itemParser [c]), joined.
  split; [done|]. split; [done|]. apply Hparse. right.
  by rewrite <- (lone_empty_text_texts values texts Htexts).
Qed.

(** The array of one item whose text is empty is written as the empty
    string, which is read as the empty array, whatever the separator and
    the item parser: that array does not come back. *)
Lemma arrayOf_lone_empty (separator : jsstring) values :
  lone_empty_text itemParser values →
  arrayOf_serialize itemParser separator values = Normal []
  ∧ arrayOf_parse itemParser separator (Some []) = Normal (Val [])
  ∧ values ≠ [].
Proof.
  intros (v & -> & Htext). split; [|split; [done|discriminate]].
  unfold item_text in Htext. unfold arrayOf_serialize.
  cbn [map_completion]. rewrite Htext. reflexivity.
Qed.

End arrayOf_domain.

(** ** At the edges of the domains *)

(** [-0] is written as ["0"] by the float parser and read as [0]. *)
Lemma float_negative_zero :
  ∃ f, serialize float_parser = Some f ∧ f (Zero true) = Normal (js "0")
       ∧ parse float_parser (Some (js "0")) = Normal (Val (Zero false)).
Proof. eexists. split; [reflexivity|]. split; by vm_compute. Qed.

(** [NaN] is written as ["NaN"] by the float parser and read as [null]. *)
Lemma float_NaN_null :
  ∃ f, serialize float_parser = Some f ∧ f NaN = Normal (js "NaN")
       ∧ parse float_parser (Some (js "NaN")) = Normal Null.
Proof. eexists. split; [reflexivity|]. split; by vm_compute. Qed.

(** [serialize] of the ISO date-time parser throws a RangeError on an
    invalid Date. *)
Lemma isoDateTime_serialize_invalid (Date_parse_other : jsstring → number) :
  ∃ f, serialize (isoDateTime_parser Date_parse_other) = Some f
       ∧ f {| DateValue := NaN |} = Throw RangeError.
Proof. eexists. split; reflexivity. Qed.

(** [undefined] is written as ["undefined"] by the JSON parser, which is no
    JSON text, and read as [null]. *)
Lemma json_undefined_null :
  ∃ f, serialize (json_parser None) = Some f
       ∧ f VUndefined = Normal (js "undefined")
       ∧ parse (json_parser None) (Some (js "undefined")) = Normal Null.
Proof. eexists. split; [reflexivity|]. split; by vm_compute. Qed.

(** [NaN] in a JSON value is written as [null], and [-0] as [0]. *)
Lemma json_NaN_negative_zero :
  ∃ f, serialize (json_parser None) = Some f
       ∧ f (VArray [VNumber NaN; VNumber (Zero true)]) = Normal (js "%5Bnull%2C0%5D")
       ∧ parse (json_parser None) (Some (js "%5Bnull%2C0%5D"))
         = Normal (Val (VArray [VNull; VNumber (Zero false)])).
Proof. eexists. split; [reflexivity|]. split; by vm_compute. Qed.

(** [serialize] of an array of strings throws a URIError on a surrogate
    with no partner. *)
Lemma arrayOf_serialize_lone_surrogate :
  round_trips string_parser [0xD800]
  ∧ arrayOf_serialize string_parser (js ",") [[0xD800]] = Throw URIError.
Proof. split; [apply string_round_trip | by vm_compute]. Qed.

(** An item with the separator in it comes back as one item: the separator
    is escaped in the items. *)
Lemma arrayOf_separator_in_item :
  arrayOf_serialize string_parser (js ",") [js "a,b"; js "c"] = Normal (js "a%2Cb,c")
  ∧ arrayOf_parse string_parser (js ",") (Some (js "a%2Cb,c"))
    = Normal (Val [js "a,b"; js "c"]).
Proof. split; by vm_compute. Qed.

(** With a separator [encodeURIComponent] leaves as it is, an item with the
    separator in it comes back as two. *)
Lemma arrayOf_unescaped_separator :
  uri_unescaped 45 = true
  ∧ arrayOf_serialize string_parser (js "-") [js "a-b"] = Normal (js "a-b")
  ∧ arrayOf_parse string_parser (js "-") (Some (js "a-b"))
    = Normal (Val [js "a"; js "b"]).
Proof. split_and!; by vm_compute. Qed.

(** The separator [%]: [encodeURIComponent] escapes it, and the escapes of
    the items are split at it. *)
Lemma arrayOf_percent_separator :
  uri_unescaped 37 = false
  ∧ arrayOf_serialize string_parser (js "%") [js "a b"; js "c"]
    = Normal (js "a%20b%c")
  ∧ arrayOf_parse string_parser (js "%") (Some (js "a%20b%c"))
    = Normal (Val [js "a"; js "20b"; js "c"]).
Proof. split_and!; by vm_compute. Qed.

Lemma arrayOf_lone_empty_witness :
  arrayOf_serialize string_parser (js "%") [js ""] = Normal []
  ∧ arrayOf_parse string_parser (js "%") (Some []) = Normal (Val [])
  ∧ [js ""] ≠ [].
Proof.
  apply (arrayOf_lone_empty string_parser (js "%") [js ""]).
  exists []. split; reflexivity.
Defined.

(** ** Every codec *)




(** * Chains of calls on a builder *)

Section chains_laws.
Context {T : Type}.
Variable parser : Parser T.
Implicit Types (h : store T) (o : gmap string (prop T)).

Lemma Options_keys_spec k :
  k ∈ Options_keys
  ↔ k = "history"%string ∨ k = "shallow"%string ∨ k = "scroll"%string
    ∨ k = "throttleMs"%string.
Proof.
  unfold Options_keys. rewrite !elem_of_union, !elem_of_singleton. tauto.
Qed.

Lemma Options_keys_not_method k :
  k ∈ Options_keys →
  k ≠ "parse"%string ∧ k ≠ "serialize"%string ∧ k ≠ "parseServerSide"%string
  ∧ k ≠ "withDefault"%string ∧ k ≠ "withOptions"%string
  ∧ k ≠ "defaultValue"%string.
Proof.
  intros [-> | [-> | [-> | ->]]]%Options_keys_spec; split_and!; discriminate.
Qed.

Lemma first_value_default_empty value :
  first_value (default_empty value) = first_value value.
Proof. by destruct value. Qed.

Lemma parses_with_mono h h' f default :
  parses_with parser h f default → h ⊆ h' → parses_with parser h' f default.
Proof.
  intros Hf Hsub h'' this value Hsub' Hthis. apply Hf; [|done].
  by transitivity h'.
Qed.

Lemma builder_of_mono h h' b first last options :
  builder_of parser h b first last options → h ⊆ h' →
  builder_of parser h' b first last options.
Proof.
  intros (o & f & Hb & Hrest) Hsub. exists o, f.
  split; [by eapply lookup_weaken|].
  destruct Hrest as (? & ? & ? & ? & ? & Hf & ? & ?).
  do 5 (split; [done|]). split; [by eapply parses_with_mono|]. by split.
Qed.

(** What [createParser] makes is a builder of the parser. *)
Lemma createParser_builder_of h0 :
  let '(p, h) := createParser parser h0 in
  builder_of parser h p None None ∅ ∧ h0 ⊆ h.
Proof.
  destruct (createParser_spec parser h0) as (p & -> & Hfresh).
  split; [|by apply insert_subseteq].
  exists (created parser), ps_createParser.
  split; [apply lookup_insert_eq|].
  split; [apply created_parse|]. split; [apply created_serialize|].
  split; [apply created_withDefault|]. split; [apply created_withOptions|].
  split; [apply created_parseServerSide|].
  split.
  - intros h' this value _ Hthis. cbn [apply_psfun].
    unfold parseServerSide_body, call_parse. rewrite Hthis.
    destruct value as [s|items|]; cbn [default_empty first_value];
      by destruct (parse parser _).
  - split; [|intros k Hk; rewrite lookup_empty; cbn].
    + unfold created, spread_parser.
      do 3 (rewrite lookup_insert_ne; [|done]).
      destruct (serialize parser);
        [rewrite lookup_insert_ne; [|done]|]; by rewrite lookup_singleton_ne.
    + destruct (Options_keys_not_method k Hk) as (? & ? & ? & ? & ? & ?).
      unfold created, spread_parser.
      do 3 (rewrite lookup_insert_ne; [|done]).
      destruct (serialize parser);
        [rewrite lookup_insert_ne; [|done]|]; by rewrite lookup_singleton_ne.
Qed.

(** [withDefault] on a builder of the parser. *)
Lemma withDefault_builder_of h b first last options d :
  builder_of parser h b first last options →
  ∃ q h', withDefault h b d = Normal (q, h')
    ∧ h ⊆ h'
    ∧ builder_of parser h' q (match first with Some d1 => Some d1 | None => Some d end)
        (Some d) options.
Proof.
  intros (o & f & Hb & Hparse & Hser & Hwd & Hwo & Hps & Hf & Hdv & Hopts).
  destruct (withDefault_spec h b o f d Hb Hwd Hps) as (q & -> & Hfresh).
  eexists q, _. split; [done|].
  assert (h ⊆ <[q := <["parseServerSide"%string :=
                         PparseServerSide (ps_withDefault f b d)]>
                       (<["defaultValue"%string := PdefaultValue d]> o)]> h) as Hsub
    by (by apply insert_subseteq).
  split; [done|].
  eexists _, _. split; [apply lookup_insert_eq|].
  split; [by do 2 (rewrite lookup_insert_ne; [|done])|].
  split; [by do 2 (rewrite lookup_insert_ne; [|done])|].
  split; [by do 2 (rewrite lookup_insert_ne; [|done])|].
  split; [by do 2 (rewrite lookup_insert_ne; [|done])|].
  split; [apply lookup_insert_eq|].
  split.
  - intros h'' this value Hsub' _. cbn [apply_psfun].
    rewrite Hf.
    + rewrite first_value_default_empty.
      destruct (parse parser (first_value value)) as [[| |v]|e]; by destruct first.
    + by transitivity (<[q := <["parseServerSide"%string :=
                                  PparseServerSide (ps_withDefault f b d)]>
                                (<["defaultValue"%string := PdefaultValue d]> o)]> h).
    + assert (h'' !! b = Some o) as -> by (eapply lookup_weaken; [exact Hb|];
        by transitivity (<[q := <["parseServerSide"%string :=
                                    PparseServerSide (ps_withDefault f b d)]>
                                  (<["defaultValue"%string := PdefaultValue d]> o)]> h)).
      exact Hparse.
  - split; [rewrite lookup_insert_ne; [|done]; apply lookup_insert_eq|].
    intros k Hk. destruct (Options_keys_not_method k Hk) as (? & ? & ? & ? & ? & ?).
    do 2 (rewrite lookup_insert_ne; [|done]). by apply Hopts.
Qed.

(** [withOptions] on a builder of the parser. *)
Lemma withOptions_builder_of h b first last options opts :
  builder_of parser h b first last options → dom opts ⊆ Options_keys →
  ∃ q h', withOptions h b opts = Normal (q, h')
    ∧ h ⊆ h'
    ∧ builder_of parser h' q first last (opts ∪ options).
Proof.
  intros (o & f & Hb & Hparse & Hser & Hwd & Hwo & Hps & Hf & Hdv & Hopts) Hdom.
  destruct (withOptions_merges h b o opts Hb Hwo Hdom)
    as (q & h' & o' & -> & Hfresh & Hq & Hframe & _ & Hmerge & _).
  exists q, h'.
  assert (h ⊆ h') as Hsub.
  { apply map_subseteq_spec. intros l x Hl. rewrite Hframe; [done|].
    intros ->. congruence. }
  split; [done|]. split; [done|].
  assert (∀ k, k ∉ Options_keys → o' !! k = o !! k) as Hkeep.
  { intros k Hk. rewrite Hmerge.
    assert (opts !! k = None) as ->; [|done].
    apply (not_elem_of_dom (D := gset string)). intros Hin. apply Hk, Hdom, Hin. }
  assert (∀ k, k ∈ Options_keys →
               k ≠ "parse"%string ∧ k ≠ "serialize"%string
               ∧ k ≠ "parseServerSide"%string ∧ k ≠ "withDefault"%string
               ∧ k ≠ "withOptions"%string ∧ k ≠ "defaultValue"%string) as Hnot
    by apply Options_keys_not_method.
  exists o', f. split; [done|].
  split; [rewrite Hkeep; [done|]; intros Hk; by destruct (Hnot _ Hk) as (? & _)|].
  split; [rewrite Hkeep; [done|]; intros Hk; by destruct (Hnot _ Hk) as (_ & ? & _)|].
  split; [rewrite Hkeep; [done|]; intros Hk;
          by destruct (Hnot _ Hk) as (_ & _ & _ & ? & _)|].
  split; [rewrite Hkeep; [done|]; intros Hk;
          by destruct (Hnot _ Hk) as (_ & _ & _ & _ & ? & _)|].
  split; [rewrite Hkeep; [done|]; intros Hk;
          by destruct (Hnot _ Hk) as (_ & _ & ? & _)|].
  split; [by eapply parses_with_mono|].
  split; [rewrite Hkeep; [done|]; intros Hk;
          by destruct (Hnot _ Hk) as (_ & _ & _ & _ & _ & ?)|].
  intros k Hk. rewrite Hmerge, lookup_union.
  destruct (opts !! k) as [v|]; cbn.
  - by destruct (options !! k).
  - rewrite Hopts by done. by destruct (options !! k).
Qed.

(** Every chain of calls on a builder of the parser returns one. *)
Lemma chain_builder_of calls h b first last options :
  Forall typed_call calls → builder_of parser h b first last options →
  ∃ q h', chain calls b h = Normal (q, h')
    ∧ h ⊆ h'
    ∧ builder_of parser h' q (first_default_from first calls)
        (last_default_from last calls) (merged_options_from options calls).
Proof.
  intros Htyped. revert h b first last options.
  induction Htyped as [|c calls Hc _ IH]; intros h b first last options Hb.
  - by exists b, h.
  - destruct c as [d|opts]; cbn [chain call_builder].
    + destruct (withDefault_builder_of h b first last options d Hb)
        as (q & h1 & -> & Hsub & Hq). cbn [mbind completion_bind].
      destruct (IH _ _ _ _ _ Hq) as (q' & h' & Hchain & Hsub' & Hq').
      exists q', h'. split; [exact Hchain|]. split; [by transitivity h1|].
      unfold first_default_from, last_default_from, merged_options_from in *.
      cbn [fold_left]. by destruct first.
    + destruct (withOptions_builder_of h b first last options opts Hb Hc)
        as (q & h1 & -> & Hsub & Hq). cbn [mbind completion_bind].
      destruct (IH _ _ _ _ _ Hq) as (q' & h' & Hchain & Hsub' & Hq').
      exists q', h'. split; [exact Hchain|]. split; [by transitivity h1|].
      unfold first_default_from, last_default_from, merged_options_from in *.
      cbn [fold_left]. by destruct first.
Qed.

(** What a builder of the parser does. *)
Lemma builder_of_parse h b first last options v :
  builder_of parser h b first last options → builder_parse h b v = parse parser v.
Proof.
  intros (o & f & Hb & Hparse & _). unfold builder_parse, call_parse.
  rewrite Hb. cbn. by rewrite Hparse.
Qed.

Lemma builder_of_serialize h b first last options v :
  builder_of parser h b first last options →
  builder_serialize h b v
  = match serialize parser with Some f => f v | None => Throw TypeError end.
Proof.
  intros (o & f & Hb & _ & Hser & _). unfold builder_serialize.
  rewrite Hb. cbn. rewrite Hser. by destruct (serialize parser).
Qed.

Lemma builder_of_parseServerSide h b first last options value :
  builder_of parser h b first last options →
  parseServerSide h b value
  = (r ← parse parser (first_value value); Normal (with_default r first)).
Proof.
  intros (o & f & Hb & Hparse & _ & _ & _ & Hps & Hf & _).
  unfold parseServerSide. rewrite Hb. cbn. rewrite Hps.
  apply Hf; [done|]. rewrite Hb. cbn. exact Hparse.
Qed.

End chains_laws.

(** Whatever [withDefault] and [withOptions] calls follow [createParser],
    with options of type [Options]: no call throws, and the builder at the
    end parses and serializes as the parser does; its [parseServerSide]
    hands [parse] the first value and, when there is a [withDefault] among
    the calls, returns the default value of the first one in place of
    [null] and [undefined]. *)
Theorem chain_parseServerSide {T} (parser : Parser T) (h0 : store T)
    (calls : list (builder_call T)) :
  Forall typed_call calls →
  let '(p, h) := createParser parser h0 in
  ∃ b h',
    chain calls p h = Normal (b, h')
    ∧ (∀ v, builder_parse h' b v = parse parser v)
    ∧ (∀ v, builder_serialize h' b v
            = match serialize parser with
              | Some f => f v
              | None => Throw TypeError
              end)
    ∧ (∀ value,
         parseServerSide h' b value
         = (r ← parse parser (first_value value);
            Normal (with_default r (first_default_from None calls)))).
Proof.
  intros Htyped. pose proof (createParser_builder_of parser h0) as Hp.
  destruct (createParser parser h0) as [p h]. destruct Hp as [Hp _].
  destruct (chain_builder_of parser calls h p None None ∅ Htyped Hp)
    as (b & h' & Hchain & _ & Hb).
  exists b, h'. split; [done|].
  split; [intros v; by eapply builder_of_parse|].
  split; [intros v; by eapply builder_of_serialize|].
  intros value. by eapply builder_of_parseServerSide.
Qed.

Lemma chain_parseServerSide_witness :
  let '(p, h) := createParser string_parser ∅ in
  ∃ b h',
    chain [CallWithOptions {["history"%string := OHistory push]};
           CallWithDefault (js "x"); CallWithDefault (js "y")] p h
    = Normal (b, h')
    ∧ parseServerSide h' b (RawArray []) = Normal (Val (js "x")).
Proof.
  pose proof (chain_parseServerSide string_parser ∅
                [CallWithOptions {["history"%string := OHistory push]};
                 CallWithDefault (js "x"); CallWithDefault (js "y")]) as H.
  destruct (createParser string_parser ∅) as [p h].
  destruct H as (b & h' & Hchain & _ & _ & Hps).
  - repeat constructor. cbn [typed_call].
    apply (bool_decide_unpack _). by vm_compute.
  - exists b, h'. split; [exact Hchain|]. rewrite Hps. reflexivity.
Defined.

(** The attributes of the builder at the end of such a chain:
    [defaultValue] is the default value of the last [withDefault], and each
    option is that of the last [withOptions] that has it. *)
Theorem chain_attributes {T} (parser : Parser T) (h0 : store T)
    (calls : list (builder_call T)) :
  Forall typed_call calls →
  let '(p, h) := createParser parser h0 in
  ∃ b h' o,
    chain calls p h = Normal (b, h')
    ∧ h' !! b = Some o
    ∧ o !! "defaultValue"%string = PdefaultValue <$> last_default_from None calls
    ∧ ∀ k, k ∈ Options_keys →
           o !! k = Poption <$> merged_options_from ∅ calls !! k.
Proof.
  intros Htyped. pose proof (createParser_builder_of parser h0) as Hp.
  destruct (createParser parser h0) as [p h]. destruct Hp as [Hp _].
  destruct (chain_builder_of parser calls h p None None ∅ Htyped Hp)
    as (b & h' & Hchain & _ & (o & f & Hb & _ & _ & _ & _ & _ & _ & Hdv & Hopts)).
  by exists b, h', o.
Qed.

Lemma chain_attributes_witness :
  let '(p, h) := createParser string_parser ∅ in
  ∃ b h' o,
    chain [CallWithOptions {["history"%string := OHistory push]};
           CallWithDefault (js "x");
           CallWithOptions {["history"%string := OHistory replace]};
           CallWithDefault (js "y")] p h
    = Normal (b, h')
    ∧ h' !! b = Some o
    ∧ o !! "defaultValue"%string = Some (PdefaultValue (js "y"))
    ∧ o !! "history"%string = Some (Poption (OHistory replace)).
Proof.
  pose proof (chain_attributes string_parser ∅
                [CallWithOptions {["history"%string := OHistory push]};
                 CallWithDefault (js "x");
                 CallWithOptions {["history"%string := OHistory replace]};
                 CallWithDefault (js "y")]) as H.
  destruct (createParser string_parser ∅) as [p h].
  destruct H as (b & h' & o & Hchain & Hb & Hdv & Hopts).
  - repeat constructor; cbn [typed_call];
      apply (bool_decide_unpack _); by vm_compute.
  - exists b, h', o. split; [exact Hchain|]. split; [exact Hb|].
    split; [exact Hdv|]. rewrite Hopts.
    + by vm_compute.
    + apply (bool_decide_unpack _). by vm_compute.
Defined.

(** No call of such a chain changes a builder there is: the store holds
    every object it held, as it was, and the builder [createParser] made
    still returns what [parse] returns, with no default value. *)
Theorem chain_keeps_builders {T} (parser : Parser T) (h0 : store T)
    (calls : list (builder_call T)) :
  Forall typed_call calls →
  let '(p, h) := createParser parser h0 in
  ∃ b h',
    chain calls p h = Normal (b, h')
    ∧ (∀ l o, h !! l = Some o → h' !! l = Some o)
    ∧ (calls ≠ [] → b ≠ p)
    ∧ (∀ value, parseServerSide h' p value = parse parser (first_value value))
    ∧ h' !! p ≫= (λ o, o !! "defaultValue"%string) = None.
Proof.
  intros Htyped. pose proof (createParser_builder_of parser h0) as Hp.
  pose proof (createParser_parseServerSide parser h0) as Hps.
  destruct (createParser_spec parser h0) as (p & Hcreate & Hfresh).
  rewrite Hcreate in *. destruct Hp as [Hp _].
  set (h := <[p := created parser]> h0) in *.
  assert (∀ calls b h1 first last options,
            Forall typed_call calls → builder_of parser h1 b first last options →
            calls ≠ [] →
            ∃ q h', chain calls b h1 = Normal (q, h') ∧ h1 !! q = None) as Hnew.
  { clear. intros calls. induction calls as [|c calls IH];
      intros b h1 first last options Htyped Hb Hne; [done|].
    apply Forall_cons in Htyped as [Hc Htyped].
    assert (∃ q h2 first' last' options',
              call_builder h1 b c = Normal (q, h2) ∧ h1 ⊆ h2 ∧ h1 !! q = None
              ∧ builder_of parser h2 q first' last' options')
      as (q & h2 & first' & last' & options' & Hcall & Hsub & Hq & Hb2).
    { destruct Hb as (o & f & Hb & Hparse & Hser & Hwd & Hwo & Hps & Hrest).
      destruct c as [d|opts]; cbn [call_builder].
      - destruct (withDefault_spec h1 b o f d Hb Hwd Hps) as (q & Hq & Hfresh).
        destruct (withDefault_builder_of parser h1 b first last options d)
          as (q' & h2 & Hq' & Hsub & Hb2);
          [by exists o, f|].
        rewrite Hq in Hq'. injection Hq' as <- <-.
        by eexists q, _, _, _, _.
      - destruct (withOptions_merges h1 b o opts Hb Hwo Hc)
          as (q & h2 & o' & Hq & Hfresh & _).
        destruct (withOptions_builder_of parser h1 b first last options opts)
          as (q' & h2' & Hq' & Hsub & Hb2);
          [by exists o, f|done|].
        rewrite Hq in Hq'. injection Hq' as <- <-.
        by eexists q, _, _, _, _. }
    cbn [chain]. rewrite Hcall. cbn [mbind completion_bind].
    destruct calls as [|c' calls'].
    - by exists q, h2.
    - destruct (IH q h2 first' last' options' Htyped Hb2 ltac:(done))
        as (q' & h' & Hchain & Hfresh').
      exists q', h'. split; [done|].
      destruct (h1 !! q') eqn:E; [|done].
      eapply lookup_weaken in E; [|exact Hsub]. congruence. }
  destruct (chain_builder_of parser calls h p None None ∅ Htyped Hp)
    as (b & h' & Hchain & Hsub & Hb).
  exists b, h'. split; [done|].
  split; [intros l o Hl; by eapply lookup_weaken|].
  split.
  { intros Hne. destruct (Hnew calls p h None None ∅ Htyped Hp Hne)
      as (q & h'' & Hchain' & Hq).
    rewrite Hchain in Hchain'. injection Hchain' as <- <-.
    intros ->. unfold h in Hq. by rewrite lookup_insert_eq in Hq. }
  pose proof (builder_of_mono parser h h' p None None ∅ Hp Hsub) as Hp'.
  split.
  - intros value. rewrite (builder_of_parseServerSide parser h' p None None ∅) by done.
    cbn [with_default]. by destruct (parse parser (first_value value)).
  - destruct Hp' as (o & f & -> & _ & _ & _ & _ & _ & _ & Hdv & _). cbn. exact Hdv.
Qed.

Lemma chain_keeps_builders_witness :
  let '(p, h) := createParser string_parser ∅ in
  ∃ b h',
    chain [CallWithDefault (js "x");
           CallWithOptions {["scroll"%string := OBool true]}] p h
    = Normal (b, h')
    ∧ b ≠ p
    ∧ parseServerSide h' p (RawArray []) = Normal Undefined.
Proof.
  pose proof (chain_keeps_builders string_parser ∅
                [CallWithDefault (js "x");
                 CallWithOptions {["scroll"%string := OBool true]}]) as H.
  destruct (createParser string_parser ∅) as [p h].
  destruct H as (b & h' & Hchain & _ & Hne & Hps & _).
  - repeat constructor. cbn [typed_call].
    apply (bool_decide_unpack _). by vm_compute.
  - exists b, h'. split; [exact Hchain|]. split; [by apply Hne|].
    rewrite Hps. reflexivity.
Defined.

(** [withDefault] twice: [parseServerSide] of
    [p.withDefault(d1).withDefault(d2)] falls back on [d1], the default
    value of the first call, while [defaultValue] is [d2]. *)
Theorem withDefault_twice {T} (parser : Parser T) (h0 : store T) (d1 d2 : T) :
  let '(p, h) := createParser parser h0 in
  ∃ q1 h1 q2 h2 o,
    withDefault h p d1 = Normal (q1, h1)
    ∧ withDefault h1 q1 d2 = Normal (q2, h2)
    ∧ h2 !! q2 = Some o
    ∧ o !! "defaultValue"%string = Some (PdefaultValue d2)
    ∧ ∀ value,
        parseServerSide h2 q2 value
        = (r ← parse parser (first_value value); Normal (nullish_coalesce r d1)).
Proof.
  pose proof (createParser_builder_of parser h0) as Hp.
  destruct (createParser parser h0) as [p h]. destruct Hp as [Hp _].
  destruct (withDefault_builder_of parser h p None None ∅ d1 Hp)
    as (q1 & h1 & Hq1 & _ & Hb1).
  destruct (withDefault_builder_of parser h1 q1 _ _ ∅ d2 Hb1)
    as (q2 & h2 & Hq2 & _ & Hb2).
  pose proof (λ value, builder_of_parseServerSide parser h2 q2 _ _ _ value Hb2) as Hps.
  destruct Hb2 as (o & f & Hb & _ & _ & _ & _ & _ & _ & Hdv & _).
  by exists q1, h1, q2, h2, o.
Qed.

(** The parser [parseAsString.withDefault('')]: [parseServerSide] returns
    a string for every input, the first value there is and the empty
    string when there is none. *)
Theorem string_withDefault_empty (h0 : store jsstring) (value : raw) :
  let '(p, h) := parseAsString h0 in
  ∃ q h',
    withDefault h p [] = Normal (q, h')
    ∧ parseServerSide h' q value
      = Normal (Val (match value with
                     | RawString s => s
                     | RawArray (first :: _) => first
                     | RawArray [] | RawUndefined => []
                     end))
    ∧ (∀ v, builder_parse h' q (Some v) = Normal (Val v))
    ∧ (∀ v, builder_serialize h' q v = Normal v)
    ∧ h' !! q ≫= (λ o, o !! "defaultValue"%string) = Some (PdefaultValue []).
Proof.
  unfold parseAsString.
  pose proof (createParser_builder_of string_parser h0) as Hp.
  destruct (createParser string_parser h0) as [p h]. destruct Hp as [Hp _].
  destruct (withDefault_builder_of string_parser h p None None ∅ [] Hp)
    as (q & h' & Hq & _ & Hb).
  exists q, h'. split; [done|].
  split.
  { rewrite (builder_of_parseServerSide string_parser h' q _ _ _ value Hb).
    by destruct value as [s|[|first rest]|]. }
  split; [intros v; by rewrite (builder_of_parse string_parser h' q _ _ _ _ Hb)|].
  split; [intros v; by rewrite (builder_of_serialize string_parser h' q _ _ _ _ Hb)|].
  destruct Hb as (o & f & -> & _ & _ & _ & _ & _ & _ & Hdv & _). cbn. exact Hdv.
Qed.

(** * The enum parser *)

Lemma includes_elem_of (values : list jsstring) (x : jsstring) :
  includes values x = true ↔ x ∈ values.
Proof.
  unfold includes. rewrite existsb_exists. split.
  - intros (y & Hin & Heq). apply bool_decide_eq_true in Heq as ->.
    by apply list_elem_of_In.
  - intros Hin. exists x. split; [by apply list_elem_of_In|].
    by apply bool_decide_eq_true.
Qed.

(** [parseAsStringEnum(validValues)] never returns a string that is not
    one of [validValues]: [parse] returns the query when it is one of
    them, which [serialize] writes as it is, and [null] when it is not;
    [parseServerSide] of [parseAsStringEnum(validValues).withDefault(d)]
    returns the first value when it is one of [validValues], and [d] for
    every other input. *)
Theorem stringEnum_members (validValues : list jsstring) (d : jsstring)
    (h0 : store jsstring) :
  let '(p, h) := parseAsStringEnum validValues h0 in
  (∀ query,
     builder_parse h p (Some query)
     = Normal (if bool_decide (query ∈ validValues) then Val query else Null)
     ∧ builder_serialize h p query = Normal query)
  ∧ ∃ q h',
      withDefault h p d = Normal (q, h')
      ∧ ∀ value,
          parseServerSide h' q value
          = Normal (Val (match first_value value with
                         | Some first =>
                             if bool_decide (first ∈ validValues) then first else d
                         | None => d
                         end)).
Proof.
  unfold parseAsStringEnum.
  pose proof (createParser_builder_of (stringEnum_parser validValues) h0) as Hp.
  destruct (createParser (stringEnum_parser validValues) h0) as [p h].
  destruct Hp as [Hp _].
  assert (∀ query,
            parse (stringEnum_parser validValues) (Some query)
            = Normal (if bool_decide (query ∈ validValues) then Val query else Null))
    as Hparse.
  { intros query. cbn [parse stringEnum_parser].
    destruct (includes validValues query) eqn:Hin.
    - apply includes_elem_of in Hin. by rewrite bool_decide_eq_true_2.
    - rewrite bool_decide_eq_false_2; [done|].
      intros Hin'. apply includes_elem_of in Hin'. congruence. }
  split.
  - intros query.
    rewrite (builder_of_parse _ h p _ _ _ _ Hp), Hparse.
    by rewrite (builder_of_serialize _ h p _ _ _ _ Hp).
  - destruct (withDefault_builder_of (stringEnum_parser validValues) h p None None ∅ d Hp)
      as (q & h' & Hq & _ & Hb).
    exists q, h'. split; [done|]. intros value.
    rewrite (builder_of_parseServerSide _ h' q _ _ _ value Hb).
    destruct (first_value value) as [first|]; [|done].
    rewrite Hparse. by destruct (bool_decide (first ∈ validValues)).
Qed.

(** * Every Number through the number parsers *)

(** Every integer below 2^53 is a binary64 value. *)
Lemma number_of_Z_small neg z :
  1 <= z < 2 ^ 53 →
  ∃ m e, number_of_rat neg (Z.to_pos z) 1 = Finite neg m e
         ∧ canonical m e = true
         ∧ (frac_of_finite m e).1 = z * (frac_of_finite m e).2.
Proof.
  intros Hz.
  pose proof (Z.log2_spec z ltac:(lia)) as [Hl1 Hl2].
  pose proof (Z.log2_nonneg z) as Hl0.
  assert (Z.log2 z < 53) as Hl53 by (apply Z.log2_lt_pow2; lia).
  set (L := Z.log2 z) in *.
  assert (0 < 2 ^ (52 - L)) as Hpos by (apply Z.pow_pos_nonneg; lia).
  assert (2 ^ L * 2 ^ (52 - L) = 2 ^ 52) as Hsplit
    by (rewrite <- Z.pow_add_r by lia; f_equal; lia).
  assert (2 ^ Z.succ L * 2 ^ (52 - L) = 2 ^ 53) as Hsplit'
    by (rewrite <- Z.pow_add_r by lia; f_equal; lia).
  set (m := z * 2 ^ (52 - L)).
  assert (2 ^ 52 <= m < 2 ^ 53) as Hm by (unfold m; nia).
  assert (canonical (Z.to_pos m) (L - 52) = true) as Hcan.
  { apply canonical_spec. rewrite Z2Pos.id by lia. lia. }
  assert ((frac_of_finite (Z.to_pos m) (L - 52)).1
          = z * (frac_of_finite (Z.to_pos m) (L - 52)).2) as Hfrac.
  { unfold frac_of_finite. rewrite Z2Pos.id by lia.
    destruct (Z.leb_spec 0 (L - 52)); cbn [fst snd].
    - assert (L = 52) as HL by lia. unfold m. rewrite HL.
      change (2 ^ (52 - 52)) with 1. change (2 ^ (52 - 52)) with 1. lia.
    - unfold m. f_equal. f_equal. lia. }
  exists (Z.to_pos m), (L - 52). split; [|done].
  apply number_of_Z_exact; [done|lia|done].
Qed.

Lemma number_of_Z_small_domain neg z :
  1 <= z < 2 ^ 53 →
  ∃ m e, number_of_rat neg (Z.to_pos z) 1 = Finite neg m e
         ∧ is_binary64 (Finite neg m e) = true
         ∧ integer_valued (Finite neg m e) = true
         ∧ ∀ bound, z < bound → magnitude_below bound (Finite neg m e) = true.
Proof.
  intros Hz. destruct (number_of_Z_small neg z Hz) as (m & e & Hnum & Hcan & Hfrac).
  exists m, e. split; [done|]. split; [done|].
  pose proof (frac_of_finite_pos m e) as [Hn Hd].
  unfold integer_valued, magnitude_below.
  destruct (frac_of_finite m e) as [num den]. cbn [fst snd] in *. subst num.
  split; [apply Z.eqb_eq, Z.mod_mul; lia|].
  intros bound Hb. apply Z.ltb_lt. nia.
Qed.

(** What [Math.round] returns for a finite value of magnitude below 10^21
    is written and read back by the integer parser. *)
Lemma Math_round_domain v :
  is_binary64 v = true → magnitude_below (10 ^ 21) v = true →
  ∃ r, Math_round v = r
       ∧ (r = Zero true ∨ r = Zero false
          ∨ (is_binary64 r = true ∧ integer_valued r = true
             ∧ magnitude_below (10 ^ 21) r = true ∧ ∃ neg m e, r = Finite neg m e)).
Proof.
  intros Hcan Hmag. destruct v as [|?|[|]|neg m e]; try done.
  { eexists. split; [done|]. by left. }
  { eexists. split; [done|]. right. by left. }
  cbn [is_binary64] in Hcan. unfold Math_round.
  destruct (Z.leb_spec 0 e) as [He|He].
  { eexists. split; [done|]. right. right. split; [done|].
    split; [|split; [done|by eexists _, _, _]].
    unfold integer_valued, frac_of_finite.
    assert ((0 <=? e) = true) as -> by (by apply Z.leb_le).
    by rewrite Z.mod_1_r. }
  pose proof Hcan as (Hm & _ & _)%canonical_spec.
  unfold frac_of_finite. assert ((0 <=? e) = false) as -> by (by apply Z.leb_gt).
  assert (2 <= 2 ^ (- e)) as Hden.
  { change 2 with (2 ^ 1) at 1. apply Z.pow_le_mono_r; lia. }
  set (num := Z.pos m) in *. set (den := 2 ^ (- e)) in *.
  destruct neg.
  - set (r := (- 2 * num + den) / (2 * den)).
    assert (- 2 ^ 53 < r <= 0) as Hr.
    { unfold r. split.
      - apply Z.lt_le_trans with (- 2 ^ 53 + 1); [lia|].
        apply Z.div_le_lower_bound; lia.
      - assert ((- 2 * num + den) / (2 * den) < 1); [|lia].
        apply Z.div_lt_upper_bound; lia. }
    destruct (Z.eqb_spec r 0) as [Hr0|Hr0].
    { eexists. split; [done|]. by left. }
    destruct (number_of_Z_small_domain true (- r) ltac:(lia))
      as (m' & e' & Hnum & Hcan' & Hint' & Hmag').
    exists (Finite true m' e'). split.
    + destruct r as [|p|p]; try lia. cbn [number_of_Z]. exact Hnum.
    + right. right. split; [done|]. split; [done|].
      split; [apply Hmag'; lia | by eexists _, _, _].
  - set (r := (2 * num + den) / (2 * den)).
    assert (0 <= r < 2 ^ 53) as Hr.
    { unfold r. split; [apply Z.div_pos; lia|].
      apply Z.div_lt_upper_bound; lia. }
    destruct (Z.eqb_spec r 0) as [Hr0|Hr0].
    { eexists. split; [done|]. right. by left. }
    destruct (number_of_Z_small_domain false r ltac:(lia))
      as (m' & e' & Hnum & Hcan' & Hint' & Hmag').
    exists (Finite false m' e'). split.
    + destruct r as [|p|p]; try lia. cbn [number_of_Z]. exact Hnum.
    + right. right. split; [done|]. split; [done|].
      split; [apply Hmag'; lia | by eexists _, _, _].
Qed.

Lemma integer_reads v :
  integer_writable v →
  parse integer_parser (Some (Number_toFixed (Math_round v))) = Normal (integer_read v).
Proof.
  intros [Hcan Hdom]. unfold integer_read. destruct Hdom as [Hmag|Hinf].
  - assert (is_finite v = true) as -> by (by destruct v).
    destruct (Math_round_domain v Hcan Hmag)
      as (r & -> & [-> | [-> | (Hcan' & Hint' & Hmag' & neg & m & e & ->)]]);
      [by vm_compute..|].
    destruct (integer_round_trip (Finite neg m e) Hcan' Hint' Hmag' ltac:(done))
      as (f & text & Hf & Htext & Hparse).
    injection Hf as <-. rewrite Math_round_integer in Htext by done.
    injection Htext as <-. exact Hparse.
  - destruct v as [|[|]|?|?]; try done; by vm_compute.
Qed.

Lemma float_reads v :
  is_binary64 v = true →
  parse float_parser (Some (Number_toString v)) = Normal (float_read v).
Proof.
  intros Hcan.
  assert (∀ v, float_domain v →
            parse float_parser (Some (Number_toString v)) = Normal (Val v)) as Hrt.
  { intros v' Hv'. destruct (float_round_trip v' Hv') as (f & text & Hf & Htext & Hparse).
    injection Hf as <-. injection Htext as <-. exact Hparse. }
  destruct v as [|neg|neg|neg m e]; [by vm_compute| |by vm_compute|];
    by apply Hrt.
Qed.

(** The integer parser on every Number it can be given below 10^21 in
    magnitude, and on [NaN] and the infinities: [parse(serialize(v))] is
    [Math.round(v)], with [0] for [-0], and [null] for [NaN] and the
    infinities. *)
Theorem integer_serialize_parse (v : number) :
  integer_writable v → parses_back parseAsInteger v (integer_read v).
Proof.
  intros Hv. apply createParser_parses_back.
  eexists _, _. split; [reflexivity|]. split; [reflexivity|].
  by apply integer_reads.
Qed.

Lemma integer_serialize_parse_witness :
  parses_back parseAsInteger (Finite true 5629499534213120 (-51))
    (Val (Finite true 4503599627370496 (-51))).
Proof.
  apply (integer_serialize_parse (Finite true 5629499534213120 (-51))).
  split; [reflexivity|]. left. reflexivity.
Defined.

(** The float parser on every Number: [parse(serialize(v))] is [v], but
    [0] for [-0] and [null] for [NaN]. *)
Theorem float_serialize_parse (v : number) :
  is_binary64 v = true → parses_back parseAsFloat v (float_read v).
Proof.
  intros Hcan. apply createParser_parses_back.
  eexists _, _. split; [reflexivity|]. split; [reflexivity|].
  by apply float_reads.
Qed.

Lemma float_serialize_parse_witness :
  parses_back parseAsFloat (Finite true 5629499534213120 (-51))
    (Val (Finite true 5629499534213120 (-51))).
Proof.
  apply (float_serialize_parse (Finite true 5629499534213120 (-51))).
  reflexivity.
Defined.

(** * What the number parsers return *)

(** 2^L <= p/q with both sides scaled by a power of two. *)
Lemma pow2_le_scaled L p q s t :
  0 <= s → 0 <= t → t - s = L →
  pow2_le L p q ↔ q * 2 ^ t <= p * 2 ^ s.
Proof.
  intros Hs Ht HL. unfold pow2_le.
  set (j := s - Z.max 0 (- L)).
  assert (0 <= j) as Hj by lia.
  assert (0 < 2 ^ j) as Hpos by (apply Z.pow_pos_nonneg; lia).
  assert (2 ^ t = 2 ^ Z.max 0 L * 2 ^ j) as ->
    by (rewrite <- Z.pow_add_r by lia; f_equal; lia).
  assert (2 ^ s = 2 ^ Z.max 0 (- L) * 2 ^ j) as ->
    by (rewrite <- Z.pow_add_r by lia; f_equal; lia).
  rewrite !Z.mul_assoc. apply Z.mul_le_mono_pos_r. exact Hpos.
Qed.

Lemma round_half_even_lower num den lo :
  0 < den → lo * den <= num → lo <= round_half_even num den.
Proof.
  intros Hden Hlo. unfold round_half_even.
  assert (lo <= num / den) by (apply Z.div_le_lower_bound; lia).
  destruct (2 * (num mod den) ?= den); [destruct (Z.even _)|..]; lia.
Qed.

Lemma round_half_even_upper num den hi :
  0 < den → num < hi * den → round_half_even num den <= hi.
Proof.
  intros Hden Hhi. unfold round_half_even.
  assert (num / den < hi) by (apply Z.div_lt_upper_bound; lia).
  destruct (2 * (num mod den) ?= den); [destruct (Z.even _)|..]; lia.
Qed.

(** Rounding gives a binary64 value. *)
Lemma number_of_rat_binary64 neg p q : is_binary64 (number_of_rat neg p q) = true.
Proof.
  unfold number_of_rat.
  destruct (floor_log2_rat_spec p q) as [Hlow Hhigh].
  set (k := floor_log2_rat p q) in *.
  change prec with 53. change emin with (-1074). change emax with 971.
  change (53 - 1) with 52.
  set (e := Z.max (k - 52) (-1074)).
  set (m0 := if 0 <=? e then round_half_even (Z.pos p) (Z.pos q * 2 ^ e)
             else round_half_even (Z.pos p * 2 ^ (- e)) (Z.pos q)).
  assert (m0 <= 2 ^ 53 ∧ (e = -1074 ∨ 2 ^ 52 <= m0)) as [Hup Hlo].
  { subst m0. destruct (0 <=? e) eqn:He; Zbool.
    - assert (e = k - 52) as Hek by lia.
      assert (0 < 2 ^ e) by (apply Z.pow_pos_nonneg; lia).
      apply (pow2_le_scaled k _ _ 0 k) in Hlow; [|lia..].
      rewrite (pow2_le_scaled (k + 1) _ _ 0 (k + 1)) in Hhigh by lia.
      replace k with (e + 52) in Hlow, Hhigh by lia.
      replace (e + 52 + 1) with (e + 53) in Hhigh by lia.
      rewrite Z.pow_add_r in Hlow, Hhigh by lia.
      split; [apply round_half_even_upper | right; apply round_half_even_lower]; nia.
    - assert (0 < 2 ^ (- e)) by (apply Z.pow_pos_nonneg; lia).
      split.
      + apply round_half_even_upper; [lia|].
        set (s := Z.max (- e) (- (k + 1))).
        rewrite (pow2_le_scaled (k + 1) _ _ s (k + 1 + s)) in Hhigh by lia.
        assert (2 ^ (- e) <= 2 ^ s) by (apply Z.pow_le_mono_r; lia).
        assert (2 ^ (k + 1 + s) <= 2 ^ 53) by (apply Z.pow_le_mono_r; lia).
        nia.
      + destruct (decide (e = -1074)) as [|Hne]; [by left|right].
        assert (e = k - 52) as Hek by lia.
        apply round_half_even_lower; [lia|].
        apply (pow2_le_scaled k _ _ (- e) 52) in Hlow; [|lia..]. lia. }
  assert (-1074 <= e) as Hemin by lia.
  clearbody m0 e.
  destruct (m0 =? 2 ^ 53) eqn:Hm; Zbool.
  - destruct (971 <? e + 1) eqn:Hmax; [done|]. Zbool.
    change (2 ^ 52) with 4503599627370496. cbn [is_binary64].
    apply canonical_spec. lia.
  - destruct (971 <? e) eqn:Hmax; [done|]. Zbool.
    destruct m0 as [|m|m]; [done| |done]. cbn [is_binary64].
    apply canonical_spec. lia.
Qed.

(** Rounding an integer gives an integer. *)
Lemma number_of_rat_integer neg p :
  is_finite (number_of_rat neg p 1) = true →
  integer_valued (number_of_rat neg p 1) = true.
Proof.
  unfold number_of_rat.
  destruct (floor_log2_rat_spec p 1) as [Hlow Hhigh].
  set (k := floor_log2_rat p 1) in *.
  assert (0 <= k) as Hk.
  { destruct (decide (0 <= k)) as [|Hneg]; [done|]. exfalso. apply Hhigh.
    unfold pow2_le. replace (Z.max 0 (k + 1)) with 0 by lia.
    assert (0 < 2 ^ Z.max 0 (- (k + 1))) by (apply Z.pow_pos_nonneg; lia).
    change (2 ^ 0) with 1. nia. }
  change prec with 53. change emin with (-1074). change emax with 971.
  change (53 - 1) with 52.
  replace (Z.max (k - 52) (-1074)) with (k - 52) by lia.
  set (e := k - 52). assert (-52 <= e) as He by lia. clearbody e.
  destruct (0 <=? e) eqn:Hsign; Zbool.
  - set (m0 := round_half_even _ _). clearbody m0.
    destruct (m0 =? 2 ^ 53).
    + destruct (971 <? e + 1); [done|]. intros _.
      change (2 ^ 52) with 4503599627370496. cbn [integer_valued].
      unfold frac_of_finite. assert ((0 <=? e + 1) = true) as -> by (apply Z.leb_le; lia).
      by rewrite Z.mod_1_r.
    + destruct (971 <? e); [done|]. destruct m0 as [|m|m]; [done| |done].
      intros _. cbn [integer_valued].
      unfold frac_of_finite. assert ((0 <=? e) = true) as -> by (apply Z.leb_le; lia).
      by rewrite Z.mod_1_r.
  - assert (0 < 2 ^ (- e)) as Hpos by (apply Z.pow_pos_nonneg; lia).
    rewrite (round_half_even_exact _ 1 (Z.pos p * 2 ^ (- e))) by lia.
    destruct (Z.pos p * 2 ^ (- e) =? 2 ^ 53) eqn:Hm; Zbool.
    + destruct (971 <? e + 1); [done|]. intros _.
      change (2 ^ 52) with 4503599627370496.
      cbn [integer_valued]. unfold frac_of_finite.
      destruct (0 <=? e + 1) eqn:He1; [by rewrite Z.mod_1_r|]. Zbool.
      apply Z.eqb_eq. change (Z.pos 4503599627370496) with (2 ^ 52).
      replace 52 with ((52 - - (e + 1)) + - (e + 1)) at 1 by lia.
      rewrite Z.pow_add_r by lia. apply Z.mod_mul.
      assert (0 < 2 ^ (- (e + 1))) by (apply Z.pow_pos_nonneg; lia). lia.
    + destruct (971 <? e); [done|].
      destruct (Z.pos p * 2 ^ (- e)) as [|m|m] eqn:Em; [done| |done].
      intros _. cbn [integer_valued]. unfold frac_of_finite.
      assert ((0 <=? e) = false) as -> by (apply Z.leb_gt; lia).
      apply Z.eqb_eq. rewrite <- Em. apply Z.mod_mul. lia.
Qed.

(** What [parseInt] returns. *)
Lemma parseInt_cases s :
  parseInt s = NaN ∨ (∃ neg, parseInt s = Zero neg)
  ∨ ∃ neg p, parseInt s = number_of_rat neg p 1.
Proof.
  unfold parseInt. repeat case_match; eauto.
Qed.

(** What [parseFloat] returns. *)
Lemma parseFloat_cases s :
  parseFloat s = NaN ∨ (∃ neg, parseFloat s = Infinity neg)
  ∨ (∃ neg, parseFloat s = Zero neg)
  ∨ ∃ neg p q, parseFloat s = number_of_rat neg p q.
Proof.
  unfold parseFloat, number_of_decimal, number_of_frac.
  repeat case_match; eauto 8.
Qed.

Lemma parseInt_binary64 s : is_binary64 (parseInt s) = true.
Proof.
  destruct (parseInt_cases s) as [-> | [[neg ->] | (neg & p & ->)]]; [done..|].
  apply number_of_rat_binary64.
Qed.

Lemma parseInt_integer s :
  is_finite (parseInt s) = true → integer_valued (parseInt s) = true.
Proof.
  destruct (parseInt_cases s) as [-> | [[neg ->] | (neg & p & ->)]]; [done..|].
  apply number_of_rat_integer.
Qed.

Lemma parseFloat_binary64 s : is_binary64 (parseFloat s) = true.
Proof.
  destruct (parseFloat_cases s)
    as [-> | [[neg ->] | [[neg ->] | (neg & p & q & ->)]]]; [done..|].
  apply number_of_rat_binary64.
Qed.



(** Every Number [parseAsFloat.parse] returns is written by [serialize]
    as a text from which [parse] reads the same Number, but [0] for [-0]:
    parsing, serializing and parsing again gives what parsing gave, up to
    the sign of zero. *)
Theorem float_parse_serialize_parse (h0 : store number) (query : jsstring)
    (v : number) :
  builder_parse (parseAsFloat h0).2 (parseAsFloat h0).1 (Some query)
  = Normal (Val v) →
  is_binary64 v = true
  ∧ ∃ text,
      builder_serialize (parseAsFloat h0).2 (parseAsFloat h0).1 v = Normal text
      ∧ builder_parse (parseAsFloat h0).2 (parseAsFloat h0).1 (Some text)
        = Normal (Val (positive_zero v)).
Proof.
  unfold parseAsFloat.
  pose proof (createParser_parse float_parser h0) as Hp.
  pose proof (createParser_serialize float_parser h0 _ eq_refl) as Hs.
  destruct (createParser float_parser h0) as [b h]. cbn [fst snd].
  rewrite Hp. cbn [parse float_parser].
  pose proof (parseFloat_binary64 (Some query)) as Hcan.
  destruct (Number_isNaN (parseFloat (Some query))) eqn:Hnan; [done|].
  intros [= <-]. set (v := parseFloat (Some query)) in *.
  split; [done|].
  exists (Number_toString v). rewrite Hs, Hp. split; [done|].
  rewrite float_reads by done. by destruct v.
Qed.

Lemma float_parse_serialize_parse_witness :
  is_binary64 (Infinity false) = true
  ∧ ∃ text,
      builder_serialize (parseAsFloat ∅).2 (parseAsFloat ∅).1 (Infinity false)
      = Normal text
      ∧ builder_parse (parseAsFloat ∅).2 (parseAsFloat ∅).1 (Some text)
        = Normal (Val (Infinity false)).
Proof.
  apply (float_parse_serialize_parse ∅ (js "1e400") (Infinity false)).
  by vm_compute.
Defined.

(** * The Dates the date parsers return *)

(** [TimeClip] returns the time value of a Date. *)
Lemma TimeClip_is_time_value x : time_value (TimeClip x).
Proof.
  destruct x as [|?|?|neg m e]; [by left|by left|right; by left|].
  unfold TimeClip. pose proof (frac_of_finite_pos m e) as [Hn Hd].
  destruct (frac_of_finite m e) as [num den]. cbn [fst snd] in *.
  destruct (Z.ltb_spec (8640000000000000 * den) num) as [|Hle]; [by left|].
  assert (0 <= num / den <= 8640000000000000) as Hq.
  { split; [apply Z.div_pos; lia|]. apply Z.div_le_upper_bound; lia. }
  set (q := num / den) in *.
  destruct (Z.eq_dec q 0) as [->|Hq0]; [destruct neg; right; by left|].
  destruct (number_of_Z_small_domain neg q) as (m' & e' & Hnum & Hcan & Hint & Hmag).
  { change (2 ^ 53) with 9007199254740992. lia. }
  right. right.
  assert (number_of_Z (if neg then - q else q) = Finite neg m' e') as ->.
  { destruct neg; destruct q as [|p|p]; try lia; exact Hnum. }
  split; [done|]. split; [done|]. split; [apply Hmag; lia|]. by eexists _, _, _.
Qed.

(** Every Date [parseAsTimestamp.parse] returns is one Date objects can
    be: its time value is [NaN] or a whole number of milliseconds of
    magnitude at most 8.64e15.  So [serialize] writes it, and [parse]
    reads the same Date from what [serialize] wrote: parsing, serializing
    and parsing again gives what parsing gave. *)
Theorem timestamp_parse_serialize_parse (h0 : store Date) (query : jsstring) :
  let '(b, h) := parseAsTimestamp h0 in
  ∃ d text,
    builder_parse h b (Some query) = Normal (Val d)
    ∧ time_value (DateValue d)
    ∧ builder_serialize h b d = Normal text
    ∧ builder_parse h b (Some text) = Normal (Val d).
Proof.
  unfold parseAsTimestamp.
  pose proof (createParser_parse timestamp_parser h0) as Hp.
  pose proof (createParser_serialize timestamp_parser h0 _ eq_refl) as Hs.
  destruct (createParser timestamp_parser h0) as [b h].
  set (d := new_Date_number (parseInt (Some query))).
  assert (time_value (DateValue d)) as Htv by apply TimeClip_is_time_value.
  destruct (timestamp_round_trip d Htv) as (f & text & Hf & Htext & Hparse).
  injection Hf as <-.
  exists d, text. rewrite !Hp, Hs. by split_and!.
Qed.

(** Every Date [parseAsIsoDateTime.parse] returns is one Date objects can
    be, whatever the engine makes of the string.  When it is a valid date
    [serialize] writes it and [parse] reads the same Date back; when it is
    not, [serialize] throws a RangeError. *)
Theorem isoDateTime_parse_serialize_parse (Date_parse_other : jsstring → number)
    (h0 : store Date) (query : jsstring) :
  let '(b, h) := parseAsIsoDateTime Date_parse_other h0 in
  ∃ d,
    builder_parse h b (Some query) = Normal (Val d)
    ∧ time_value (DateValue d)
    ∧ if Number_isNaN (DateValue d)
      then builder_serialize h b d = Throw RangeError
      else ∃ text, builder_serialize h b d = Normal text
                   ∧ builder_parse h b (Some text) = Normal (Val d).
Proof.
  unfold parseAsIsoDateTime.
  pose proof (createParser_parse (isoDateTime_parser Date_parse_other) h0) as Hp.
  pose proof (createParser_serialize (isoDateTime_parser Date_parse_other) h0 _ eq_refl)
    as Hs.
  destruct (createParser (isoDateTime_parser Date_parse_other) h0) as [b h].
  set (d := new_Date_string Date_parse_other (Some query)).
  assert (time_value (DateValue d)) as Htv by apply TimeClip_is_time_value.
  exists d. rewrite Hp. split; [done|]. split; [done|].
  assert ((DateValue d = NaN ∧ Number_isNaN (DateValue d) = true)
          ∨ (DateValue d ≠ NaN ∧ Number_isNaN (DateValue d) = false))
    as [[Hd ->] | [Hd ->]] by (destruct (DateValue d); auto).
  - rewrite Hs. unfold Date_toISOString. by rewrite Hd.
  - destruct (isoDateTime_round_trip Date_parse_other d Htv Hd)
      as (f & text & Hf & Htext & Hparse).
    injection Hf as <-. exists text. by rewrite Hp, Hs.
Qed.

(** * The Dates of malformed strings *)

(** [number_of_Z] gives no [NaN]. *)
Lemma number_of_Z_not_NaN z : number_of_Z z ≠ NaN.
Proof.
  assert (∀ neg p q, number_of_rat neg p q ≠ NaN) as H.
  { intros neg p q. unfold number_of_rat. repeat case_match; discriminate. }
  destruct z; [discriminate|apply H..].
Qed.

(** [TimeClip] gives [NaN] for [NaN], for the infinities and for the
    Numbers of magnitude above 8.64e15, and for these only. *)
Lemma TimeClip_NaN x :
  TimeClip x = NaN
  ↔ x = NaN ∨ (∃ neg, x = Infinity neg)
    ∨ ∃ neg m e, x = Finite neg m e
                 ∧ 8640000000000000 * (frac_of_finite m e).2 < (frac_of_finite m e).1.
Proof.
  destruct x as [|neg|neg|neg m e]; cbn [TimeClip].
  - split; [by left | done].
  - split; [right; left; by exists neg | done].
  - split; [done | intros [?|[[? ?]|(? & ? & ? & ? & _)]]; done].
  - destruct (frac_of_finite m e) as [num den] eqn:E. cbn [fst snd].
    destruct (Z.ltb_spec (8640000000000000 * den) num) as [Hlt|Hle].
    + split; [|done]. intros _. right; right. exists neg, m, e.
      rewrite E. by split.
    + split; [intros H; by apply number_of_Z_not_NaN in H|].
      intros [?|[[? ?]|(neg' & m' & e' & [= -> -> ->] & Hlt)]]; [done..|].
      rewrite E in Hlt. cbn [fst snd] in Hlt. lia.
Qed.

(** [TimeClip] of an integer of magnitude at most 8.64e15. *)
Lemma TimeClip_number_of_Z z :
  - 8640000000000000 <= z <= 8640000000000000 →
  TimeClip (number_of_Z z) = number_of_Z z.
Proof.
  intros Hz.
  assert (∀ neg p, Z.pos p <= 8640000000000000 →
            TimeClip (number_of_rat neg p 1)
            = number_of_Z (if neg then - Z.pos p else Z.pos p)) as H.
  { intros neg p Hp.
    destruct (number_of_Z_small neg (Z.pos p) ltac:(lia)) as (m & e & Heq & _ & Hq).
    cbn [Z.to_pos] in Heq. rewrite Heq. unfold TimeClip.
    pose proof (frac_of_finite_pos m e) as [Hn Hd].
    destruct (frac_of_finite m e) as [num den]. cbn [fst snd] in *. subst num.
    assert ((8640000000000000 * den <? Z.pos p * den) = false) as -> by (apply Z.ltb_ge; nia).
    by rewrite Z.div_mul by lia. }
  destruct z as [|p|p]; [done|..]; cbn [number_of_Z]; rewrite H by lia; done.
Qed.

(** [parseInt] of a string that starts with no white space, sign or
    digit, and of the empty string. *)
Lemma parseInt_no_integer v :
  match v with
  | [] => True
  | c :: _ => is_whitespace c = false ∧ c ≠ 43 ∧ c ≠ 45 ∧ ¬ is_digit c
  end →
  parseInt (Some v) = NaN.
Proof.
  destruct v as [|c rest]; [done|]. intros (Hws & Hplus & Hminus & Hdigit).
  unfold parseInt. cbn [ToString_arg trim_start]. rewrite Hws.
  assert ((c =? 45) = false) as -> by (by apply Z.eqb_neq).
  assert ((c =? 43) = false) as -> by (by apply Z.eqb_neq).
  assert ((c =? 48) = false) as Hzero
    by (apply Z.eqb_neq; unfold is_digit in Hdigit; lia).
  assert (span_digits 10 (c :: rest) = ([], c :: rest)) as Hspan
    by (by apply span_digits_stop).
  destruct rest as [|x rest]; [by rewrite Hspan|].
  rewrite Hzero. cbn [andb]. by rewrite Hspan.
Qed.

(** [parseInt] of a decimal integer, signed or not, followed by what is no
    digit (and no [x]): the integer. *)
Lemma parseInt_leading_integer (neg : bool) z rest :
  0 <= z →
  match rest with
  | [] => True
  | c :: _ => ¬ is_digit c ∧ c ≠ 120 ∧ c ≠ 88
  end →
  parseInt (Some ((if neg then [45] else []) ++ decimal z ++ rest))
  = match z with
    | Z.pos p => number_of_rat neg p 1
    | _ => Zero neg
    end.
Proof.
  intros Hz Hrest. destruct (decimal_cons z) as (d & ds & Hdec & Hd & Hds).
  assert (Forall is_digit (decimal z)) as Hall by (rewrite Hdec; by constructor).
  assert (span_digits 10 (decimal z ++ rest) = (map (λ c, c - 48) (decimal z), rest))
    as Hspan.
  { apply span_digits_then; [done|]. destruct rest; [done|]. by destruct Hrest. }
  assert (match decimal z ++ rest with
          | c0 :: x :: rest' =>
              if (c0 =? 48) && ((x =? 120) || (x =? 88)) then (16, rest')
              else (10, decimal z ++ rest)
          | _ => (10, decimal z ++ rest)
          end = (10, decimal z ++ rest)) as Hradix.
  { rewrite Hdec. cbn [app]. destruct ds as [|x ds'].
    - destruct rest as [|x rest']; [done|]. destruct Hrest as (_ & Hx & HX).
      cbn [app].
      assert ((x =? 120) = false) as -> by (by apply Z.eqb_neq).
      assert ((x =? 88) = false) as -> by (by apply Z.eqb_neq).
      by rewrite andb_false_r.
    - apply Forall_cons in Hds as [Hx _]. unfold is_digit in Hx. cbn [app].
      assert ((x =? 120) = false) as -> by (apply Z.eqb_neq; lia).
      assert ((x =? 88) = false) as -> by (apply Z.eqb_neq; lia).
      by rewrite andb_false_r. }
  assert (parseInt (Some ((if neg then [45] else []) ++ decimal z ++ rest))
          = let '(R, body) :=
              match decimal z ++ rest with
              | c0 :: x :: rest' =>
                  if (c0 =? 48) && ((x =? 120) || (x =? 88)) then (16, rest')
                  else (10, decimal z ++ rest)
              | _ => (10, decimal z ++ rest)
              end in
            match span_digits R body with
            | ([], _) => NaN
            | (ds, _) =>
                match digits_value R ds with
                | Z.pos p => number_of_rat neg p 1
                | _ => Zero neg
                end
            end) as ->.
  { unfold parseInt. cbn [ToString_arg]. destruct neg; cbn [app].
    - reflexivity.
    - unfold is_digit in Hd. rewrite Hdec. cbn [app trim_start].
      rewrite is_digit_not_whitespace by done.
      assert ((d =? 45) = false) as -> by (apply Z.eqb_neq; lia).
      assert ((d =? 43) = false) as -> by (apply Z.eqb_neq; lia).
      reflexivity. }
  rewrite Hradix, Hspan. rewrite decimal_value by done.
  rewrite Hdec. cbn [map]. reflexivity.
Qed.




(** * Arrays of any items *)

Section arrayOf_any.
Context {ItemType : Type} `{!Template ItemType}.
Variable itemParser : Parser ItemType.

Lemma uri_char_plain x : uri_char x → plain x.
Proof.
  unfold uri_char, uri_unescaped, plain. intros [H| ->]; [|lia].
  repeat (apply orb_true_iff in H as [H|H]); Zbool; lia.
Qed.

Lemma arrayOf_serialize_parse_text (c : Z) (values : list ItemType)
    (rs : list (nullable ItemType)) :
  uri_unescaped c = false → c ≠ 37 →
  Forall2 (item_parses_to itemParser) values rs →
  ∃ joined,
    arrayOf_serialize itemParser [c] values = Normal joined
    ∧ (well_formed [c] = true → well_formed joined = true)
    ∧ (joined = [] ↔ values = [] ∨ lone_empty_text itemParser values)
    ∧ (¬ lone_empty_text itemParser values →
       arrayOf_parse itemParser [c] (Some joined) = Normal (Val (filter_nullish rs))).
Proof.
  intros Hc Hc' Hall.
  assert (∃ texts encs,
            Forall2 (λ value text, item_text itemParser value = Normal text) values texts
            ∧ Forall2 (λ text enc, encodeURIComponent (Some text) = Normal enc) texts encs
            ∧ Forall2 (λ enc text, decodeURIComponent (Some enc) = Normal text) encs texts
            ∧ Forall2 (λ text r, parse itemParser (Some text) = Normal r) texts rs
            ∧ Forall (λ enc, c ∉ enc) encs
            ∧ Forall (Forall uri_char) encs
            ∧ Forall2 (λ text enc, text = [] ↔ enc = []) texts encs)
    as (texts & encs & Ht & He & Hd & Hp & Hsep & Hchars & Hnil).
  { induction Hall as [|value r values rs (text & Htext & Hwf & Hparse) _
                         (texts & encs & Ht & He & Hd & Hp & Hsep & Hchars & Hnil)].
    - exists [], []. split_and!; simpl; constructor.
    - destruct (decodeURIComponent_encodeURIComponent text Hwf)
        as (enc & Henc & Hdec & Hch & Hne).
      exists (text :: texts), (enc :: encs).
      split_and!; try (by constructor).
      + constructor; [|done]. intros Hin.
        rewrite Forall_forall in Hch.
        destruct (Hch c Hin) as [Hun | ->]; congruence.
      + constructor; [|done]. split; [intros ->|intros ->].
        * by vm_compute in Henc; injection Henc as <-.
        * destruct text; [done|]. by destruct Hne. }
  exists (join [c] encs).
  assert (arrayOf_serialize itemParser [c] values = Normal (join [c] encs)) as Hser.
  { unfold arrayOf_serialize.
    apply (map_completion_Forall2 (item_text itemParser)) in Ht.
    unfold item_text in Ht. rewrite Ht. simpl.
    apply (map_completion_Forall2 (λ item, encodeURIComponent (Some item))) in He.
    by rewrite He. }
  split; [done|].
  split.
  { intros Hsep'. apply well_formed_join; [done|].
    eapply Forall_impl; [exact Hchars|]. intros enc Henc. cbn beta in Henc.
    apply well_formed_plain. eapply Forall_impl; [exact Henc|]. apply uri_char_plain. }
  pose proof (lone_empty_text_texts itemParser values texts Ht) as Hlone.
  assert (join [c] encs = [] ↔ values = [] ∨ lone_empty_text itemParser values) as Hjoin.
  { rewrite Hlone. split.
    - intros [-> | ->]%join_nil_inv.
      + left. inversion He; subst. by inversion Ht.
      + right. inversion Hnil as [|text ? texts' ? Hx Hrest]; subst.
        inversion Hrest; subst. f_equal. by apply Hx.
    - intros [-> | ->].
      + inversion Ht; subst. by inversion He.
      + inversion Hnil as [|? enc ? encs' Hx Hrest]; subst. inversion Hrest; subst.
        assert (enc = []) as -> by by apply Hx. done. }
  split; [done|].
  intros Hok. unfold arrayOf_parse.
  destruct (decide (values = [])) as [-> | Hvs].
  { inversion Hall; subst. inversion Ht; subst. inversion He; subst. done. }
  assert (join [c] encs ≠ []) as Hne.
  { rewrite Hjoin. by intros [? | ?]. }
  assert (str_eqb (join [c] encs) [] = false) as ->
    by (unfold str_eqb; by apply bool_decide_eq_false).
  rewrite split_join; [| |done].
  - apply (map_completion_Forall2 (λ item, decodeURIComponent (Some item))) in Hd.
    rewrite Hd. simpl.
    apply (map_completion_Forall2 (λ item, parse itemParser (Some item))) in Hp.
    by rewrite Hp.
  - intros ->. inversion He; subst. by inversion Ht.
Qed.

End arrayOf_any.

Lemma arrayOf_parses_back {ItemType : Type} `{!Template ItemType}
    (itemParser : Parser ItemType) (c : Z) (values : list ItemType)
    (rs : list (nullable ItemType)) :
  uri_unescaped c = false → c ≠ 37 →
  Forall2 (item_parses_to itemParser) values rs →
  ¬ lone_empty_text itemParser values →
  parses_back (parseAsArrayOf itemParser [c]) values (Val (filter_nullish rs)).
Proof.
  intros Hc Hc' Hall Hlone. apply createParser_parses_back.
  destruct (arrayOf_serialize_parse_text itemParser c values rs Hc Hc' Hall)
    as (joined & Hser & _ & _ & Hparse).
  exists (arrayOf_serialize itemParser [c]), joined.
  split; [done|]. split; [done|]. by apply Hparse.
Qed.

(** [parseAsArrayOf(itemParser, separator)], for a separator of one
    character that [encodeURIComponent] escapes: when each item is written
    as a text [encodeURIComponent] accepts, [parse(serialize(values))] is
    the array of what the item parser reads from the text of each item, in
    order, without the [null] and [undefined] ones; the array of one item
    whose text is empty apart. *)
Theorem arrayOf_serialize_parse {ItemType : Type} `{!Template ItemType}
    (itemParser : Parser ItemType) (c : Z) (values : list ItemType)
    (rs : list (nullable ItemType)) :
  uri_unescaped c = false → c ≠ 37 →
  Forall2 (item_parses_to itemParser) values rs →
  ¬ lone_empty_text itemParser values →
  parses_back (parseAsArrayOf itemParser [c]) values (Val (filter_nullish rs)).
Proof.
  intros Hc Hc' Hall Hlone. apply createParser_parses_back.
  destruct (arrayOf_serialize_parse_text itemParser c values rs Hc Hc' Hall)
    as (joined & Hser & _ & _ & Hparse).
  exists (arrayOf_serialize itemParser [c]), joined.
  split; [done|]. split; [done|]. by apply Hparse.
Qed.

Lemma arrayOf_serialize_parse_witness :
  parses_back (parseAsArrayOf float_parser (js ","))
    [Finite false 4503599627370496 (-52); NaN; Zero true]
    (Val [Finite false 4503599627370496 (-52); Zero false]).
Proof.
  apply (arrayOf_serialize_parse float_parser 44
           [Finite false 4503599627370496 (-52); NaN; Zero true]
           [Val (Finite false 4503599627370496 (-52)); Null; Val (Zero false)]).
  - reflexivity.
  - lia.
  - repeat constructor; eexists; (split; [reflexivity|]); split; by vm_compute.
  - intros (v & Hv & Htext). discriminate Hv.
Defined.

(** An array parser is an item parser: arrays of arrays.  For two
    separators of one character that [encodeURIComponent] escapes, the same
    one or not, [parseAsArrayOf(parseAsArrayOf(itemParser, inner), outer)]
    gives back every array of arrays whose items come back from texts
    [encodeURIComponent] accepts, when no inner array is one item whose text
    is empty and the outer array is not the one empty array. *)
Theorem arrayOf_arrayOf_round_trip {ItemType : Type} `{!Template ItemType}
    `{!Template (list ItemType)}
    (itemParser : Parser ItemType) (inner outer : Z)
    (values : list (list ItemType)) :
  uri_unescaped inner = false → inner ≠ 37 → well_formed [inner] = true →
  uri_unescaped outer = false → outer ≠ 37 →
  Forall (λ items, Forall (item_round_trips itemParser) items
                   ∧ ¬ lone_empty_text itemParser items) values →
  values ≠ [[]] →
  parses_back (parseAsArrayOf (arrayOf_parser itemParser [inner]) [outer])
    values (Val values).
Proof.
  intros Hi Hi' Hwf Ho Ho' Hall Hne.
  assert (∀ items, Forall (item_round_trips itemParser) items →
            Forall2 (item_parses_to itemParser) items (Val <$> items)) as Hitems.
  { intros items. induction 1 as [|item items Hitem _ IH]; constructor; done. }
  assert (Forall (λ items,
            ∃ text, arrayOf_serialize itemParser [inner] items = Normal text
                    ∧ well_formed text = true
                    ∧ (text = [] → items = [])
                    ∧ arrayOf_parse itemParser [inner] (Some text) = Normal (Val items))
            values) as Hinner.
  { eapply Forall_impl; [exact Hall|]. intros items [Hrt Hlone]. cbn beta.
    destruct (arrayOf_serialize_parse_text itemParser inner items (Val <$> items)
                Hi Hi' (Hitems items Hrt)) as (text & Hser & Hw & Hnil & Hparse).
    exists text. split; [done|]. split; [by apply Hw|].
    split; [intros Ht; apply Hnil in Ht as [?|?]; done|].
    rewrite Hparse by done. by rewrite filter_nullish_Val. }
  rewrite <- (filter_nullish_Val values) at 2.
  apply arrayOf_parses_back; [done|done| |].
  - clear Hne Hall. induction Hinner as [|items values (text & Hser & Hw & _ & Hparse) _ IH];
      constructor; [|done].
    exists text. by split_and!.
  - intros (items & -> & Htext). apply Hne. f_equal.
    apply Forall_cons in Hinner as [(text & Hser & _ & Hnil & _) _].
    unfold item_text in Htext. cbn in Htext. rewrite Hser in Htext.
    injection Htext as ->. by apply Hnil.
Qed.

Lemma arrayOf_arrayOf_round_trip_witness :
  parses_back (parseAsArrayOf (arrayOf_parser string_parser (js ",")) (js ","))
    [[js "a"; js "b,c"]; []; [js "d"]] (Val [[js "a"; js "b,c"]; []; [js "d"]]).
Proof.
  apply (arrayOf_arrayOf_round_trip string_parser 44 44 [[js "a"; js "b,c"]; []; [js "d"]]).
  - reflexivity.
  - lia.
  - reflexivity.
  - reflexivity.
  - lia.
  - assert (∀ s : jsstring, well_formed s = true → item_round_trips string_parser s)
      as Hitem by (intros s Hs; by exists s).
    repeat (apply Forall_cons_2 || apply Forall_nil_2 || split);
      try (apply Hitem; reflexivity);
      intros (v & Hv & Htext); try discriminate Hv;
      injection Hv as <-; discriminate Htext.
  - discriminate.
Defined.

(** * Arrays of numbers, booleans and dates *)

(** The texts of the number parsers are plain and not empty. *)
Lemma Number_toString_text x :
  is_binary64 x = true →
  Forall plain (Number_toString x) ∧ Number_toString x ≠ [].
Proof.
  intros Hcan.
  destruct (is_finite x) eqn:Hfin.
  - split; [by apply Number_toString_plain|].
    destruct (Number_toString_head x Hcan Hfin) as (c & tl & -> & _). done.
  - destruct x as [|[|]|?|?]; try done;
      (split; [repeat constructor; unfold plain; cbn; lia | done]).
Qed.

Lemma sign_decimal_text (neg : bool) z :
  Forall plain ((if neg then [45] else []) ++ decimal z)
  ∧ (if neg then [45] else []) ++ decimal z ≠ [].
Proof.
  destruct (decimal_cons z) as (d & ds & Hd & _).
  split.
  - apply Forall_app. split; [destruct neg; repeat constructor; unfold plain; lia|].
    apply is_digit_plain, decimal_digits.
  - rewrite Hd. by destruct neg.
Qed.

Lemma Number_toFixed_text x :
  is_binary64 x = true →
  Forall plain (Number_toFixed x) ∧ Number_toFixed x ≠ [].
Proof.
  intros Hcan. destruct x as [|?|?|neg m e];
    [by apply (Number_toString_text NaN)
    |by apply (Number_toString_text (Infinity _))
    |split; [repeat constructor; unfold plain; cbn; lia | done]|].
  unfold Number_toFixed. destruct (frac_of_finite m e) as [num den].
  destruct (10 ^ 21 * den <=? num); [by apply Number_toString_text|].
  apply sign_decimal_text.
Qed.

Lemma Math_round_binary64 v :
  integer_writable v → is_binary64 (Math_round v) = true.
Proof.
  intros [Hcan [Hmag|Hinf]].
  - destruct (Math_round_domain v Hcan Hmag)
      as (r & -> & [-> | [-> | (Hcan' & _)]]); done.
  - by destruct v.
Qed.

Lemma digits_fixed_plain k z : Forall plain (digits_fixed k z).
Proof. apply is_digit_plain, digits_fixed_digits. Qed.

Lemma Date_toISOString_text d text :
  Date_toISOString d = Normal text → Forall plain text ∧ text ≠ [].
Proof.
  unfold Date_toISOString. destruct (time_integer (DateValue d)) as [t|]; [|done].
  fold (iso_year (YearFromTime t)).
  assert (Forall plain (iso_year (YearFromTime t))) as Hyear.
  { unfold iso_year.
    destruct ((0 <=? YearFromTime t) && (YearFromTime t <=? 9999));
      [apply digits_fixed_plain|].
    apply Forall_app. split; [|apply digits_fixed_plain].
    destruct (0 <=? YearFromTime t); repeat constructor; unfold plain; lia. }
  intros [= <-]. split.
  - apply Forall_app. split; [exact Hyear|].
    repeat (apply Forall_cons_2; [unfold plain; zdiv|]). constructor.
  - intros H. apply (f_equal length) in H. rewrite length_app in H.
    cbn [length] in H. lia.
Qed.

(** Items of a parser with a [serialize], from what it writes and reads. *)
Lemma item_parses_to_serialize {T} `{!Template T} (p : Parser T)
    (f : T → completion jsstring) (v : T) (text : jsstring) (r : nullable T) :
  serialize p = Some f → f v = Normal text → Forall plain text →
  parse p (Some text) = Normal r →
  item_parses_to p v r.
Proof.
  intros Hf Htext Hplain Hparse. exists text. unfold item_text. rewrite Hf.
  split; [done|]. split; [by apply well_formed_plain|done].
Qed.

Lemma not_lone_empty_text {T} `{!Template T} (p : Parser T)
    (f : T → completion jsstring) (values : list T) :
  serialize p = Some f →
  Forall (λ v, ∃ text, f v = Normal text ∧ text ≠ []) values →
  ¬ lone_empty_text p values.
Proof.
  intros Hf Hall (v & -> & Hv). unfold item_text in Hv. rewrite Hf in Hv.
  apply Forall_cons in Hall as [(text & Htext & Hne) _]. congruence.
Qed.

(** Arrays of the items of the number, boolean and date parsers, for a
    separator of one character that [encodeURIComponent] escapes.
    [parse(serialize(values))] is: for integers, the array of
    [Math.round] of each item, [0] for [-0], without the [NaN] and
    infinite items; for floats, the array itself with [0] for [-0] and
    without its [NaN] items; for booleans, for Dates as timestamps and for
    valid Dates as ISO date-times, the array itself. *)
Theorem arrayOf_builtin_items (c : Z) :
  uri_unescaped c = false → c ≠ 37 →
  (∀ values : list number,
     Forall integer_writable values →
     parses_back (parseAsArrayOf integer_parser [c]) values
       (Val (filter_nullish (map integer_read values))))
  ∧ (∀ values : list number,
       Forall (λ v, is_binary64 v = true) values →
       parses_back (parseAsArrayOf float_parser [c]) values
         (Val (filter_nullish (map float_read values))))
  ∧ (∀ values : list bool,
       parses_back (parseAsArrayOf boolean_parser [c]) values (Val values))
  ∧ (∀ (T : Template Date) (values : list Date),
       Forall (λ d, time_value (DateValue d)) values →
       parses_back (parseAsArrayOf timestamp_parser [c]) values (Val values))
  ∧ (∀ (T : Template Date) (Date_parse_other : jsstring → number)
       (values : list Date),
       Forall (λ d, time_value (DateValue d) ∧ DateValue d ≠ NaN) values →
       parses_back (parseAsArrayOf (isoDateTime_parser Date_parse_other) [c])
         values (Val values)).
Proof.
  intros Hc Hc'. split_and!.
  - intros values Hall. apply arrayOf_parses_back; [done|done| |].
    + induction Hall as [|v values Hv _ IH]; [constructor|].
      cbn [map]. constructor; [|done].
      eapply item_parses_to_serialize; [reflexivity|reflexivity| |by apply integer_reads].
      by apply Number_toFixed_text, Math_round_binary64.
    + eapply not_lone_empty_text; [reflexivity|].
      eapply Forall_impl; [exact Hall|]. intros v Hv. eexists. split; [reflexivity|].
      by apply Number_toFixed_text, Math_round_binary64.
  - intros values Hall. apply arrayOf_parses_back; [done|done| |].
    + induction Hall as [|v values Hv _ IH]; [constructor|].
      cbn [map]. constructor; [|done].
      eapply item_parses_to_serialize; [reflexivity|reflexivity| |by apply float_reads].
      by apply Number_toString_text.
    + eapply not_lone_empty_text; [reflexivity|].
      eapply Forall_impl; [exact Hall|]. intros v Hv. eexists. split; [reflexivity|].
      by apply Number_toString_text.
  - intros values. rewrite <- (filter_nullish_Val values) at 2.
    apply arrayOf_parses_back; [done|done| |].
    + induction values as [|v values IH]; constructor; [|done].
      eapply item_parses_to_serialize; [reflexivity|reflexivity| |by destruct v].
      destruct v; repeat constructor; unfold plain; cbn; lia.
    + eapply not_lone_empty_text; [reflexivity|].
      apply Forall_forall. intros v _. eexists. split; [reflexivity|]. by destruct v.
  - intros T values Hall. rewrite <- (filter_nullish_Val values) at 2.
    assert (∀ d, time_value (DateValue d) → is_binary64 (DateValue d) = true) as Hbin.
    { intros d [-> | [-> | (? & _)]]; done. }
    apply arrayOf_parses_back; [done|done| |].
    + induction Hall as [|d values Hd _ IH]; constructor; [|done].
      destruct (timestamp_round_trip d Hd) as (f & text & Hf & Htext & Hparse).
      injection Hf as <-.
      eapply item_parses_to_serialize; [reflexivity|exact Htext| |exact Hparse].
      injection Htext as <-. by apply Number_toString_text, Hbin.
    + eapply not_lone_empty_text; [reflexivity|].
      eapply Forall_impl; [exact Hall|]. intros d Hd. eexists. split; [reflexivity|].
      by apply Number_toString_text, Hbin.
  - intros T other values Hall. rewrite <- (filter_nullish_Val values) at 2.
    assert (Forall (λ d, ∃ text, Date_toISOString d = Normal text
                         ∧ parse (isoDateTime_parser other) (Some text) = Normal (Val d))
              values) as Hrt.
    { eapply Forall_impl; [exact Hall|]. intros d [Hd Hnan].
      destruct (isoDateTime_round_trip other d Hd Hnan) as (f & text & Hf & Htext & Hparse).
      injection Hf as <-. by exists text. }
    apply arrayOf_parses_back; [done|done| |].
    + clear Hall. induction Hrt as [|d values (text & Htext & Hparse) _ IH];
        constructor; [|done].
      eapply item_parses_to_serialize; [reflexivity|exact Htext| |exact Hparse].
      by apply (Date_toISOString_text d).
    + eapply not_lone_empty_text; [reflexivity|].
      eapply Forall_impl; [exact Hrt|]. intros d (text & Htext & _).
      exists text. split; [done|]. by apply (Date_toISOString_text d).
Qed.

Lemma arrayOf_builtin_items_witness :
  parses_back (parseAsArrayOf integer_parser (js ","))
    [Finite true 5629499534213120 (-51); NaN; Finite false 4503599627370496 (-52)]
    (Val [Finite true 4503599627370496 (-51); Finite false 4503599627370496 (-52)]).
Proof.
  destruct (arrayOf_builtin_items 44) as (Hint & _); [reflexivity|lia|].
  apply (Hint [Finite true 5629499534213120 (-51); NaN;
               Finite false 4503599627370496 (-52)]).
  repeat constructor; by (left; reflexivity) || (right; reflexivity).
Defined.

(** * [parseAsArrayOf]: what [serialize] throws *)

Lemma uri_unescaped_plain c : uri_unescaped c = true → plain c.
Proof. unfold uri_unescaped, plain. intros H. Zbool; lia. Qed.

(** [Encode] throws a URIError on the strings that are not well formed,
    and only on them. *)
Lemma Encode_well_formed s :
  forallb code_unit s = true →
  if well_formed s then ∃ enc, Encode s = Normal enc
  else Encode s = Throw URIError.
Proof.
  assert (∀ n s, (length s < n)%nat → forallb code_unit s = true →
            if well_formed s then ∃ enc, Encode s = Normal enc
            else Encode s = Throw URIError) as H;
    [|apply (H (S (length s))); lia].
  clear s. induction n as [|n IH]; intros s Hlen Hs; [lia|].
  destruct s as [|c rest]; [by eexists|].
  cbn [forallb] in Hs. apply andb_true_iff in Hs as [Hc Hrest].
  cbn [well_formed Encode]. change ((0 <=? c) && (c <=? 65535)) with (code_unit c).
  rewrite Hc. cbn [andb].
  destruct (uri_unescaped c) eqn:Hun.
  - apply uri_unescaped_plain in Hun. unfold plain in Hun.
    assert (is_lead_surrogate c = false) as ->
      by (unfold is_lead_surrogate; Zbool; lia).
    assert (is_trail_surrogate c = false) as ->
      by (unfold is_trail_surrogate; Zbool; lia).
    cbn [negb andb].
    specialize (IH rest ltac:(simpl in Hlen; lia) Hrest).
    destruct (well_formed rest); [destruct IH as [enc ->]; by eexists | by rewrite IH].
  - destruct (is_lead_surrogate c).
    + destruct rest as [|c2 rest']; [done|].
      cbn [forallb] in Hrest. apply andb_true_iff in Hrest as [_ Hrest'].
      destruct (is_trail_surrogate c2); [|done]. cbn [andb].
      specialize (IH rest' ltac:(simpl in Hlen; lia) Hrest').
      destruct (well_formed rest'); [destruct IH as [enc ->]; by eexists | by rewrite IH].
    + destruct (is_trail_surrogate c); [done|]. cbn [negb andb].
      specialize (IH rest ltac:(simpl in Hlen; lia) Hrest).
      destruct (well_formed rest); [destruct IH as [enc ->]; by eexists | by rewrite IH].
Qed.

Lemma map_encodeURIComponent texts :
  Forall (λ text, forallb code_unit text = true) texts →
  if forallb well_formed texts
  then ∃ encoded,
         map_completion (λ item, encodeURIComponent (Some item)) texts = Normal encoded
  else map_completion (λ item, encodeURIComponent (Some item)) texts = Throw URIError.
Proof.
  induction 1 as [|text texts Htext _ IH]; [by eexists|].
  cbn [forallb map_completion]. unfold encodeURIComponent in *.
  cbn [ToString_arg] in *.
  pose proof (Encode_well_formed text Htext) as He.
  destruct (well_formed text); [|by rewrite He].
  destruct He as [enc ->]. cbn [andb].
  destruct (forallb well_formed texts); [destruct IH as [encs ->]; by eexists|].
  by rewrite IH.
Qed.

(** When the items are written as strings, [serialize] of
    [parseAsArrayOf] returns a string if every surrogate in these strings
    is in a pair, and throws a URIError if one is not. *)
Theorem arrayOf_serialize_URIError {ItemType : Type} `{!Template ItemType}
    (itemParser : Parser ItemType) (separator : jsstring)
    (values : list ItemType) (texts : list jsstring) :
  map_completion (item_text itemParser) values = Normal texts →
  Forall (λ text, forallb code_unit text = true) texts →
  if forallb well_formed texts
  then ∃ text, arrayOf_serialize itemParser separator values = Normal text
  else arrayOf_serialize itemParser separator values = Throw URIError.
Proof.
  intros Htexts Hunits. unfold arrayOf_serialize.
  change (map_completion _ values) with (map_completion (item_text itemParser) values).
  rewrite Htexts. cbn [mbind completion_bind].
  pose proof (map_encodeURIComponent texts Hunits) as He.
  destruct (forallb well_formed texts); [|by rewrite He].
  destruct He as [encoded ->]. by eexists.
Qed.

Lemma arrayOf_serialize_URIError_witness :
  round_trips string_parser [0xD800]
  ∧ arrayOf_serialize string_parser (js ",") [js "a"; [0xD800]; js "b"]
    = Throw URIError.
Proof.
  split; [apply string_round_trip|].
  exact (arrayOf_serialize_URIError string_parser (js ",")
           [js "a"; [0xD800]; js "b"] [js "a"; [0xD800]; js "b"]
           eq_refl ltac:(repeat constructor)).
Defined.

(** * Every value through the JSON parser *)

(** ** The order of the properties *)

Lemma insert_index_perm i k v props : insert_index i k v props ≡ₚ (k, v) :: props.
Proof.
  induction props as [|[k' v'] props IH]; [done|]. cbn [insert_index].
  destruct (array_index k') as [j|]; [|done].
  destruct (j <? i); [|done]. rewrite IH. apply Permutation_swap.
Qed.

Lemma object_define_perm props k v :
  k ∉ map fst props → object_define props k v ≡ₚ (k, v) :: props.
Proof.
  intros Hk. unfold object_define. rewrite existsb_key_absent by done.
  destruct (array_index k); [apply insert_index_perm|].
  symmetry. apply Permutation_cons_append.
Qed.

Lemma fold_object_define_perm (members made : list (jsstring * value)) :
  NoDup (map fst members) →
  (∀ k, k ∈ map fst members → k ∉ map fst made) →
  fold_left (λ o kv, object_define o kv.1 kv.2) members made ≡ₚ made ++ members.
Proof.
  revert made. induction members as [|[k v] members IH]; intros made Hnd Hnew.
  - by rewrite app_nil_r.
  - cbn [fold_left fst snd map] in *. apply NoDup_cons in Hnd as [Hk Hnd].
    assert (object_define made k v ≡ₚ (k, v) :: made) as Hstep
      by (apply object_define_perm, Hnew; left).
    rewrite IH; [|done|].
    + rewrite Hstep. cbn [app]. apply Permutation_middle.
    + intros k' Hk'. assert (map fst (object_define made k v) ≡ₚ k :: map fst made)
        as -> by (by rewrite Hstep).
      apply not_elem_of_cons. split; [by intros ->|]. apply Hnew. by right.
Qed.

Lemma members_size_perm (props props' : list (jsstring * value)) :
  props ≡ₚ props' →
  foldr (λ kv n, S (value_size (snd kv)) + n)%nat O props
  = foldr (λ kv n, S (value_size (snd kv)) + n)%nat O props'.
Proof. induction 1; cbn [foldr] in *; lia. Qed.

(** The text of the members of an object is read as the object that has
    them. *)
Lemma reads_back_members (members : list (jsstring * value)) texts :
  NoDup (map fst members) →
  Forall2 (λ kv text, forallb code_unit kv.1 = true ∧ reads_back kv.2 text)
    members texts →
  reads_back (VObject (fold_left (λ o kv, object_define o kv.1 kv.2) members []))
    ([123] ++ join [44] (zip_with member_text (map fst members) texts) ++ [125]).
Proof.
  intros Hnd Hall.
  assert (foldr (λ kv n, S (value_size (snd kv)) + n)%nat O
            (fold_left (λ o kv, object_define o kv.1 kv.2) members [])
          = foldr (λ kv n, S (value_size (snd kv)) + n)%nat O members) as Hsize.
  { apply members_size_perm. rewrite fold_object_define_perm; [done|done|].
    intros k _. cbn. apply not_elem_of_nil. }
  split.
  { cbn [value_size app length]. rewrite Hsize, length_app. cbn [length].
    pose proof (join_length_values (λ kv : jsstring * value, value_size kv.2) members
                  (zip_with member_text (map fst members) texts)) as H.
    assert (Forall2 (λ (kv : jsstring * value) text,
                       (value_size kv.2 <= length text)%nat) members
              (zip_with member_text (map fst members) texts)) as Hle.
    { clear -Hall. induction Hall as [|[k v] text props texts [_ [Hle _]] _ IH];
        [constructor|].
      cbn [map fst zip_with]. constructor; [|done].
      unfold member_text. rewrite !length_app. cbn [snd] in *. lia. }
    specialize (H Hle). lia. }
  split; [by cbn|].
  intros [|fuel] rest Hfuel _; [cbn in Hfuel; lia|].
  cbn [value_size] in Hfuel. rewrite Hsize in Hfuel.
  rewrite json_value_S. cbn [app]. rewrite skip_whitespace_start by done.
  change (123 =? 123) with true. cbv iota.
  rewrite <- app_assoc. cbn [app].
  destruct Hall as [|[key item] text props texts Hread Hrest].
  - cbn [map zip_with join app fold_left]. rewrite skip_whitespace_start by done.
    by change (125 =? 125) with true.
  - set (whole := join _ (zip_with _ _ _)).
    assert (∃ tl, whole = 34 :: tl) as [tl Hwhole].
    { unfold whole. cbn [map fst zip_with].
      cbn [join member_text QuoteJSONString app].
      case_match; eexists; reflexivity. }
    rewrite Hwhole. cbn [app]. rewrite skip_whitespace_start by done.
    change (34 =? 125) with false. cbv iota.
    change (34 :: tl ++ 125 :: rest) with ((34 :: tl) ++ 125 :: rest).
    rewrite <- Hwhole. unfold whole.
    rewrite (json_members_join ((key, item) :: props)); [done| |done|lia].
    by constructor.
Qed.

(** ** Every value *)

(** [JSON.stringify] writes a text for every value but [undefined], one
    [encodeURIComponent] accepts, and the text is read as the value made
    normal. *)
Lemma stringify_reads_normal v :
  language_value v = true → is_undefined v = false →
  ∃ text, stringify v = Some text ∧ well_formed text = true
          ∧ reads_back (json_normal v) text.
Proof.
  assert (∀ n v, (value_size v < n)%nat → language_value v = true →
            is_undefined v = false →
            ∃ text, stringify v = Some text ∧ well_formed text = true
                    ∧ reads_back (json_normal v) text) as H;
    [|by apply (H (S (value_size v))); lia].
  clear v. induction n as [|n IH]; intros v Hsize Hok Hdef; [lia|].
  destruct v as [| |b|x|s|items|props]; cbn [language_value] in Hok.
  - done.
  - eexists. split; [reflexivity|]. split; [done|apply reads_back_null].
  - eexists. split; [reflexivity|]. split; [by destruct b|apply reads_back_boolean].
  - eexists. split; [reflexivity|]. cbn [json_normal].
    destruct (is_finite x) eqn:Hfin; [|split; [done|apply reads_back_null]].
    split; [by apply well_formed_plain, Number_toString_plain|].
    destruct x as [|?|[|]|neg m e]; try done;
      [apply (reads_back_number (Zero false)); done|by apply reads_back_number..].
  - eexists. split; [reflexivity|].
    split; [by apply QuoteJSONString_well_formed|by apply reads_back_string].
  - cbn [value_size] in Hsize.
    set (text_of := λ item, match stringify item with
                            | Some t => t
                            | None => js "null"
                            end).
    assert (Forall (λ item, well_formed (text_of item) = true
                            ∧ reads_back (json_normal item) (text_of item)) items) as Hall.
    { apply Forall_forall. intros item Hin. rewrite forallb_forall in Hok.
      destruct (is_undefined item) eqn:Hu.
      - destruct item; try done. split; [done|apply reads_back_null].
      - destruct (IH item) as (text & Htext & Hwf & Hread);
          [|by apply Hok, list_elem_of_In|done|].
        + pose proof (value_size_item item items Hin). lia.
        + unfold text_of. by rewrite Htext. }
    exists ([91] ++ join [44] (map text_of items) ++ [93]).
    split; [reflexivity|]. split.
    + cbn [app]. rewrite well_formed_plain_cons by (unfold plain; lia).
      apply well_formed_app; [|done]. apply well_formed_join; [done|].
      apply Forall_fmap. eapply Forall_impl; [exact Hall|]. by intros ? [? _].
    + change (json_normal (VArray items)) with (VArray (map json_normal items)).
      apply reads_back_array. clear -Hall.
      induction Hall as [|item items [_ Hread] _ IH]; [constructor|].
      cbn [map]. by constructor.
  - cbn [value_size] in Hsize.
    apply andb_true_iff in Hok as [Hnd Hok]. apply bool_decide_eq_true in Hnd.
    set (member_of := λ kv : jsstring * value,
           if is_undefined (snd kv) then None
           else Some (fst kv, json_normal (snd kv))).
    set (text_of := λ kv : jsstring * value,
           match stringify kv.2 with
           | Some text => Some (QuoteJSONString kv.1 ++ [58] ++ text)
           | None => None
           end).
    assert (∃ texts,
              omap text_of props
              = zip_with member_text (map fst (omap member_of props)) texts
              ∧ Forall2 (λ kv text, forallb code_unit kv.1 = true ∧ reads_back kv.2 text)
                  (omap member_of props) texts
              ∧ Forall (λ t, well_formed t = true) (omap text_of props))
      as (texts & Htexts & Hread & Hwf).
    { assert (Forall (λ kv : jsstring * value,
                forallb code_unit kv.1 = true
                ∧ (is_undefined kv.2 = true ∧ stringify kv.2 = None
                   ∨ is_undefined kv.2 = false
                     ∧ ∃ text, stringify kv.2 = Some text ∧ well_formed text = true
                               ∧ reads_back (json_normal kv.2) text)) props) as Hall.
      { apply Forall_forall. intros kv Hin. rewrite forallb_forall in Hok.
        destruct (proj1 (andb_true_iff _ _) (Hok kv (proj1 (list_elem_of_In _ _) Hin)))
          as [Hk Hv].
        split; [done|]. destruct (is_undefined kv.2) eqn:Hu.
        - left. split; [done|]. by destruct kv.2.
        - right. split; [done|]. apply IH; [|done|done].
          pose proof (value_size_member kv props Hin). lia. }
      clear -Hall. induction Hall as [|[k v] props [Hk Hv] _ (texts & Ht & Hr & Hw)].
      - exists []. split; [done|]. split; constructor.
      - cbn [fst snd] in *. cbn [omap list_omap].
        destruct Hv as [[Hu Hs] | [Hu (text & Hs & Hwf & Hread)]].
        + assert (member_of (k, v) = None) as ->
            by (unfold member_of; cbn [fst snd]; by rewrite Hu).
          assert (text_of (k, v) = None) as ->
            by (unfold text_of; cbn [fst snd]; by rewrite Hs).
          by exists texts.
        + assert (member_of (k, v) = Some (k, json_normal v)) as ->
            by (unfold member_of; cbn [fst snd]; by rewrite Hu).
          assert (text_of (k, v) = Some (member_text k text)) as ->
            by (unfold text_of; cbn [fst snd]; by rewrite Hs).
          exists (text :: texts). cbn [map fst zip_with].
          split; [by rewrite Ht|].
          split; [by constructor|]. constructor; [|done]. unfold member_text.
          apply well_formed_app; [by apply QuoteJSONString_well_formed|].
          cbn [app]. by rewrite well_formed_plain_cons by (unfold plain; lia). }
    exists ([123] ++ join [44] (omap text_of props) ++ [125]).
    split; [reflexivity|]. split.
    + cbn [app]. rewrite well_formed_plain_cons by (unfold plain; lia).
      apply well_formed_app; [|done]. by apply well_formed_join.
    + change (json_normal (VObject props))
        with (VObject (fold_left (λ o kv, object_define o kv.1 kv.2)
                         (omap member_of props) [])).
      rewrite Htexts. apply reads_back_members; [|done].
      eapply sublist_NoDup; [exact Hnd|].
      clear. induction props as [|[k v] props IH]; [done|].
      cbn [omap list_omap map fst]. unfold member_of at 1. cbn [fst snd].
      destruct (is_undefined v); [by apply sublist_cons|].
      cbn [map fst]. by apply sublist_skip.
Qed.

(** [parseAsJson] on every value: [parse(serialize(v))] is the value made
    normal, which a validator is to accept as it is when there is one;
    [undefined] and [null] both come back as the [null] result of
    [parse]. *)
Theorem json_serialize_parse (parser : option (value → completion value))
    (v : value) :
  language_value v = true → accepts parser (json_normal v) →
  parses_back (parseAsJson parser) v (nullable_of_value (json_normal v)).
Proof.
  intros Hok Hacc. apply createParser_parses_back.
  destruct (is_undefined v) eqn:Hu.
  { destruct v; try done.
    exists (λ value, encodeURIComponent (JSON_stringify value)), (js "undefined").
    split; [reflexivity|]. split; by vm_compute. }
  destruct (stringify_reads_normal v Hok Hu) as (text & Htext & Hwf & Hsize & _ & Hread).
  destruct (decodeURIComponent_encodeURIComponent text Hwf) as (enc & Henc & Hdec & _).
  eexists _, enc. split; [reflexivity|]. cbn beta. unfold JSON_stringify.
  rewrite Htext. split; [done|]. cbn [parse json_parser]. rewrite Hdec.
  cbn [mbind completion_bind].
  assert (JSON_parse text = Normal (json_normal v)) as ->.
  { unfold JSON_parse. specialize (Hread (S (length text)) [] ltac:(lia) I).
    rewrite app_nil_r in Hread. by rewrite Hread. }
  cbn [mbind completion_bind].
  destruct parser as [f|]; [|done]. cbn in Hacc. by rewrite Hacc.
Qed.

Lemma json_serialize_parse_witness :
  parses_back (parseAsJson None)
    (VObject [(js "b", VArray [VUndefined; VNumber NaN; VNumber (Zero true)]);
              (js "a", VUndefined); (js "1", VString (js "x"))])
    (Val (VObject [(js "1", VString (js "x"));
                   (js "b", VArray [VNull; VNull; VNumber (Zero false)])])).
Proof.
  apply (json_serialize_parse None
           (VObject [(js "b", VArray [VUndefined; VNumber NaN; VNumber (Zero true)]);
                     (js "a", VUndefined); (js "1", VString (js "x"))])).
  - by vm_compute.
  - exact I.
Defined.

(** A value that is normal already is the values the round trip is for. *)
Lemma json_normal_safe v : json_safe v = true → json_normal v = v.
Proof.
  assert (∀ n v, (value_size v < n)%nat → json_safe v = true → json_normal v = v) as H;
    [|by apply (H (S (value_size v))); lia].
  clear v. induction n as [|n IH]; intros v Hsize Hsafe; [lia|].
  destruct v as [| |b|x|s|items|props]; cbn [json_safe] in Hsafe; try done.
  - apply andb_true_iff in Hsafe as [[_ Hfin]%andb_true_iff Hz].
    cbn [json_normal]. rewrite Hfin. by destruct x as [|?|[|]|? ? ?].
  - cbn [value_size] in Hsize.
    change (json_normal (VArray items)) with (VArray (map json_normal items)).
    f_equal. rewrite forallb_forall in Hsafe.
    rewrite <- (map_id items) at 2. apply map_ext_in. intros item Hin%list_elem_of_In.
    apply IH; [|by apply Hsafe, list_elem_of_In].
    pose proof (value_size_item item items Hin). lia.
  - cbn [value_size] in Hsize. apply andb_true_iff in Hsafe as [Hkeys Hsafe].
    change (json_normal (VObject props))
      with (VObject (fold_left (λ o kv, object_define o kv.1 kv.2)
                       (omap (λ kv : jsstring * value,
                                if is_undefined (snd kv) then None
                                else Some (fst kv, json_normal (snd kv))) props) [])).
    assert (omap (λ kv : jsstring * value,
                    if is_undefined (snd kv) then None
                    else Some (fst kv, json_normal (snd kv))) props = props) as ->;
      [|by rewrite object_define_own_order].
    rewrite forallb_forall in Hsafe.
    assert (Forall (λ kv : jsstring * value,
              is_undefined kv.2 = false ∧ json_normal kv.2 = kv.2) props) as Hall.
    { apply Forall_forall. intros kv Hin.
      destruct (proj1 (andb_true_iff _ _) (Hsafe kv (proj1 (list_elem_of_In _ _) Hin)))
        as [_ Hv].
      split; [by destruct kv as [? []]|]. apply IH; [|done].
      pose proof (value_size_member kv props Hin). lia. }
    clear -Hall. induction Hall as [|[k v] props [Hu Hv] _ IH]; [done|].
    cbn [omap list_omap fst snd] in *. rewrite Hu, Hv. by rewrite IH.
Qed.

(** * The testing adapter seeded with a query string *)

Lemma query_plain_spec c :
  query_plain c = true ↔ 0 ≤ c < 128 ∧ c ≠ 37 ∧ c ≠ 38 ∧ c ≠ 43 ∧ c ≠ 61.
Proof. unfold query_plain. Zbool; lia. Qed.

Lemma code_points_ascii s :
  Forall (λ c, 0 ≤ c < 128) s → code_points s = s.
Proof.
  induction 1 as [|c s Hc _ IH]; [done|]. simpl.
  assert (is_lead_surrogate c = false) as ->
    by (unfold is_lead_surrogate; Zbool; lia).
  assert (is_trail_surrogate c = false) as ->
    by (unfold is_trail_surrogate; Zbool; lia).
  by rewrite IH.
Qed.

Lemma utf8_encode_ascii s :
  Forall (λ c, 0 ≤ c < 128) s → utf8_encode s = s.
Proof.
  intros H. unfold utf8_encode. rewrite code_points_ascii by done.
  induction H as [|c s Hc _ IH]; [done|]. simpl. rewrite IH.
  unfold utf8_octets. by assert ((c <? 128) = true) as -> by (apply Z.ltb_lt; lia).
Qed.

Lemma form_decode_plain s :
  Forall (λ c, query_plain c = true) s → form_decode s = s.
Proof.
  intros H. unfold form_decode.
  assert (map (λ b, if b =? 43 then 32 else b) s = s) as ->.
  { induction H as [|c s Hc _ IH]; [done|]. simpl. rewrite IH.
    apply query_plain_spec in Hc.
    by assert ((c =? 43) = false) as -> by (apply Z.eqb_neq; lia). }
  assert (percent_decode s = s) as ->.
  { induction H as [|c s Hc _ IH]; [done|]. simpl. rewrite IH.
    apply query_plain_spec in Hc.
    by assert ((c =? 37) = false) as -> by (apply Z.eqb_neq; lia). }
  induction H as [|c s Hc _ IH]; [done|].
  apply query_plain_spec in Hc.
  cbn [utf8_decode utf8_start u_needed]. change (0 =? 0) with true. cbv iota.
  unfold utf8_lead. assert ((c <=? 127) = true) as -> by (apply Z.leb_le; lia).
  cbn [app map concat]. rewrite IH. unfold UTF16EncodeCodePoint.
  by assert ((c <=? 65535) = true) as -> by (apply Z.leb_le; lia).
Qed.

Lemma split_equals_plain name value :
  Forall (λ c, query_plain c = true) name →
  split_equals (name ++ 61 :: value) = (name, value).
Proof.
  induction 1 as [|c s Hc _ IH]; [done|]. simpl. rewrite IH.
  apply query_plain_spec in Hc.
  by assert ((c =? 61) = false) as -> by (apply Z.eqb_neq; lia).
Qed.

Lemma urlencoded_parse_query pairs :
  Forall (λ kv, Forall (λ c, query_plain c = true) kv.1
                ∧ Forall (λ c, query_plain c = true) kv.2) pairs →
  urlencoded_parse (query_of pairs) = pairs.
Proof.
  intros Hall. unfold urlencoded_parse, query_of.
  destruct pairs as [|kv pairs]; [done|].
  rewrite split_join.
  - induction Hall as [|[k v] rest [Hk Hv] _ IH]; [done|].
    cbn [map omap list_omap fst snd].
    destruct (k ++ 61 :: v) eqn:E; [by destruct k|]. rewrite <- E.
    rewrite split_equals_plain by done.
    rewrite !form_decode_plain by done. by rewrite IH.
  - done.
  - apply Forall_map. eapply Forall_impl; [exact Hall|].
    intros [k v] [Hk Hv]. cbn [fst snd]. rewrite elem_of_app, elem_of_cons.
    intros [Hin|[Hin|Hin]]; [| lia |].
    + rewrite Forall_forall in Hk. apply Hk in Hin. by vm_compute in Hin.
    + rewrite Forall_forall in Hv. apply Hv in Hin. by vm_compute in Hin.
Qed.

Lemma query_of_ascii pairs :
  Forall (λ kv, Forall (λ c, query_plain c = true) kv.1
                ∧ Forall (λ c, query_plain c = true) kv.2) pairs →
  Forall (λ c, 0 ≤ c < 128) (query_of pairs).
Proof.
  unfold query_of. induction 1 as [|[k v] rest [Hk Hv] Hall IH]; [constructor|].
  assert (Forall (λ c, 0 ≤ c < 128) (k ++ 61 :: v)) as Hkv.
  { apply Forall_app. split; [|apply Forall_cons_2; [lia|]];
      (eapply Forall_impl; [eassumption|]);
      intros c Hc; apply query_plain_spec in Hc; lia. }
  destruct rest as [|kv' rest]; [exact Hkv|].
  change (Forall (λ c, 0 ≤ c < 128)
            ((k ++ 61 :: v) ++ 38 :: join [38] (map (λ kv, kv.1 ++ 61 :: kv.2) (kv' :: rest)))).
  apply Forall_app. split; [exact Hkv|]. apply Forall_cons_2; [lia|]. exact IH.
Qed.

(** [new URLSearchParams] of a query string of name-value pairs written as
    they are. *)
Lemma new_URLSearchParams_query_string (pairs : list (jsstring * jsstring)) text :
  Forall (λ kv, Forall (λ c, query_plain c = true) kv.1
                ∧ Forall (λ c, query_plain c = true) kv.2) pairs →
  text = 63 :: query_of pairs
  ∨ (text = query_of pairs ∧ head (query_of pairs) ≠ Some 63) →
  new_URLSearchParams (Some (InitString text)) = pairs.
Proof.
  intros Hall Htext.
  pose proof (query_of_ascii _ Hall) as Hascii.
  destruct Htext as [-> | [-> Hhead]]; unfold new_URLSearchParams.
  - change (63 =? 63) with true. cbv iota.
    rewrite utf8_encode_ascii by done. by apply urlencoded_parse_query.
  - destruct (query_of pairs) as [|c rest] eqn:E.
    + transitivity (urlencoded_parse (query_of pairs));
        [by rewrite E | by apply urlencoded_parse_query].
    + assert ((c =? 63) = false) as ->.
      { apply Z.eqb_neq. intros ->. by apply Hhead. }
      rewrite <- E in *. rewrite utf8_encode_ascii by done.
      by apply urlencoded_parse_query.
Qed.

(** The adapter seeded with a query string of name-value pairs written as
    they are, with a leading [?] or (when the string does not start with
    [?]) without one, has these pairs as its [searchParams], in their order
    and with their repetitions. *)
Theorem useAdapter_query_string {AdapterOptions World Children : Type}
    (renderQueryString : URLSearchParams → jsstring)
    (props : @TestingAdapterProps AdapterOptions World Children)
    (pairs : list (jsstring * jsstring)) (text : jsstring) :
  Forall (λ kv, Forall (λ c, query_plain c = true) kv.1
                ∧ Forall (λ c, query_plain c = true) kv.2) pairs →
  text = 63 :: query_of pairs
  ∨ (text = query_of pairs ∧ head (query_of pairs) ≠ Some 63) →
  props_searchParams props = Some (InitString text) →
  adapter_searchParams (useAdapter renderQueryString props) = pairs.
Proof.
  intros Hall Htext Hprops.
  assert (adapter_searchParams (useAdapter renderQueryString props)
          = new_URLSearchParams (props_searchParams props)) as -> by done.
  rewrite Hprops. by apply new_URLSearchParams_query_string.
Qed.

Lemma useAdapter_query_string_witness :
  adapter_searchParams
    (useAdapter (AdapterOptions := unit) (World := unit) (λ _, [])
       {| props_searchParams := Some (InitString (js "?a=1&b=x&a=2"));
          onUrlUpdate := None; rateLimitFactor := None;
          resetUrlUpdateQueueOnMount := None; children := tt |})
  = [(js "a", js "1"); (js "b", js "x"); (js "a", js "2")].
Proof.
  apply (useAdapter_query_string _ _ _ (js "?a=1&b=x&a=2")).
  - repeat (apply Forall_cons_2; [split; repeat constructor|]). constructor.
  - left. reflexivity.
  - reflexivity.
Defined.

(** The wrapper [withNuqsTestingAdapter(props)], for any [props] or none,
    around any children renders the provider of these children.  The
    adapter it provides has [new URLSearchParams(props.searchParams)] as
    its [searchParams], which for a query string of name-value pairs
    written as they are is these pairs; its [updateUrl] calls
    [props.onUrlUpdate], when there is one, with the event of the search
    params, their rendered query string and the options; its
    [rateLimitFactor] is that of [props], or 0.  The update queue is reset
    unless [props.resetUrlUpdateQueueOnMount] is [false]. *)
Theorem withNuqsTestingAdapter_query_string
    {AdapterOptions Queue World Children : Type}
    (renderQueryString : URLSearchParams → jsstring)
    (resetQueue : Queue → Queue)
    (props : option (@TestingAdapterProps AdapterOptions World unit))
    (wrapped : Children) (queue : Queue) :
  let '(element, queue') :=
    withNuqsTestingAdapter renderQueryString resetQueue props wrapped queue in
  provider_children element = wrapped
  ∧ adapter_searchParams (provided_useAdapter element)
    = new_URLSearchParams (props ≫= props_searchParams)
  ∧ (∀ (pairs : list (jsstring * jsstring)) (text : jsstring),
       Forall (λ kv, Forall (λ c, query_plain c = true) kv.1
                     ∧ Forall (λ c, query_plain c = true) kv.2) pairs →
       text = 63 :: query_of pairs
       ∨ (text = query_of pairs ∧ head (query_of pairs) ≠ Some 63) →
       props ≫= props_searchParams = Some (InitString text) →
       adapter_searchParams (provided_useAdapter element) = pairs)
  ∧ (∀ search opts w,
       updateUrl (provided_useAdapter element) search opts w
       = match props ≫= onUrlUpdate with
         | Some callback =>
             callback {| searchParams := search;
                         queryString := renderQueryString search;
                         options := opts |} w
         | None => w
         end)
  ∧ adapter_rateLimitFactor (provided_useAdapter element)
    = match props ≫= rateLimitFactor with
      | Some factor => factor
      | None => Zero false
      end
  ∧ queue' = match props ≫= resetUrlUpdateQueueOnMount with
             | Some false => queue
             | _ => resetQueue queue
             end.
Proof.
  unfold withNuqsTestingAdapter, NuqsTestingAdapter.
  cbn [provider_children provided_useAdapter useAdapter adapter_searchParams
       updateUrl adapter_rateLimitFactor props_searchParams onUrlUpdate
       rateLimitFactor resetUrlUpdateQueueOnMount].
  split; [done|].
  destruct props as [props|]; cbn [mbind option_bind props_searchParams onUrlUpdate
                                   rateLimitFactor resetUrlUpdateQueueOnMount].
  - split; [done|]. split.
    { intros pairs text Hall Htext ->.
      by apply new_URLSearchParams_query_string. }
    split; [|done]. intros search opts w. by destruct (onUrlUpdate props).
  - split; [done|]. split; [intros pairs text _ _ [=]|]. by split.
Qed.

Lemma withNuqsTestingAdapter_query_string_witness :
  let '(element, queue') :=
    withNuqsTestingAdapter (AdapterOptions := unit) (World := list jsstring)
      (λ search, join [38] (map (λ kv, kv.1 ++ 61 :: kv.2) search)) (λ _, O)
      (Some {| props_searchParams := Some (InitString (js "foo=bar"));
               onUrlUpdate := Some (λ event log, log ++ [queryString event]);
               rateLimitFactor := None;
               resetUrlUpdateQueueOnMount := Some false; children := tt |})
      (js "MyComponent") 7%nat in
  provider_children element = js "MyComponent"
  ∧ adapter_searchParams (provided_useAdapter element) = [(js "foo", js "bar")]
  ∧ updateUrl (provided_useAdapter element) [(js "foo", js "baz")] tt []
    = [js "foo=baz"]
  ∧ queue' = 7%nat.
Proof.
  pose proof (withNuqsTestingAdapter_query_string
                (AdapterOptions := unit) (World := list jsstring)
                (λ search, join [38] (map (λ kv, kv.1 ++ 61 :: kv.2) search))
                (λ _, O)
                (Some {| props_searchParams := Some (InitString (js "foo=bar"));
                         onUrlUpdate := Some (λ event log, log ++ [queryString event]);
                         rateLimitFactor := None;
                         resetUrlUpdateQueueOnMount := Some false; children := tt |})
                (js "MyComponent") 7%nat) as H.
  destruct (withNuqsTestingAdapter _ _ _ _ _) as [element queue'].
  destruct H as (Hc & _ & Hs & Hu & _ & Hq).
  split; [exact Hc|]. split.
  - apply (Hs [(js "foo", js "bar")] (js "foo=bar")).
    + repeat (apply Forall_cons_2; [split; repeat constructor|]). constructor.
    + right. split; [reflexivity | discriminate].
    + reflexivity.
  - split; [|exact Hq]. rewrite Hu. reflexivity.
Defined.
